(** * Frame Analyser: a shallow embedding of the analysis and export core

    The development follows the plugin's main script: the colour codec
    ([rgbToHex], [hexToRgb], [hexToRgb565]), the icon classifier
    ([isComponentAnIcon]), the per-node extractor ([analyzeNode]), the
    reclassification pass ([normalizeComponentIconClassification]), the
    aggregator ([collectSummaryData]) and the export encoder
    ([generateLVGLJson]).

    Modelling conventions.
    - A JavaScript string is a [string] whose characters are code units in
      the Latin-1 range 0..255; character classes ([\d], [\w], [\s]) are the
      ECMAScript ones restricted to that range.
    - A JavaScript number that the code treats as a real quantity (colour
      channels, opacities, node sizes) is a rational [Q], the value of the
      double.  A product or a quotient whose result is rounded to an
      integer or printed ([c * 255], [opacity * 100], [r8 * 31 / 255]) is
      the operation on doubles: the exact result rounded to the nearest
      double, ties to even ([JS.mul], [JS.div]), which is what [Math.round]
      then receives.  Comparisons are exact, as they are on doubles.  Two
      results that stay real quantities are kept exact: the channels
      [byte / 255] returned by [hexToRgb], and the sums of a position, a
      width and a gap in [findBestAnalysisPosition]; the doubles of the
      code are the nearest ones to them.  Integers are [Z].
    - [Map] objects whose iteration order reaches the output are association
      lists in insertion order; [Set] objects of names are [gset string];
      the plain objects used as dictionaries by the exporter are
      [gmap string _]; the component objects that the reclassification pass
      mutates through the arrays that share them live in a heap, a function
      from locations to objects.
    - Handlers ([try]/[catch]) are followed case by case: a host call that
      may raise has a result type with a case for it, and the model
      continues where the handler of the source continues. *)

From Stdlib Require Import ZArith QArith Qround Ascii String List Lia Lqa.
From Stdlib Require DecimalString HexadecimalString.
From stdpp Require Import gmap strings list fin_maps functions.

Local Open Scope string_scope.
Local Open Scope Z_scope.

(* ===================================================================== *)
(** * Part I: the embedding *)
(* ===================================================================== *)

(** ** JavaScript primitives used by the script *)

Module JS.

Definition code (c : ascii) : N := N_of_ascii c.

Definition in_range (lo hi : N) (c : ascii) : bool :=
  ((lo <=? code c) && (code c <=? hi))%N.

(** [\d], [A-Z], [a-z] *)
Definition is_digit (c : ascii) : bool := in_range 48 57 c.
Definition is_upper (c : ascii) : bool := in_range 65 90 c.
Definition is_lower (c : ascii) : bool := in_range 97 122 c.
Definition is_alnum (c : ascii) : bool := is_digit c || is_upper c || is_lower c.

(** [\w] is [A-Za-z0-9_] *)
Definition is_word (c : ascii) : bool := is_alnum c || Ascii.eqb c "_".

(** [\s] and the characters removed by [trim]: TAB, LF, VT, FF, CR, SP
    and NBSP are the white space and line terminators below U+0100. *)
Definition is_space (c : ascii) : bool :=
  in_range 9 13 c || N.eqb (code c) 32 || N.eqb (code c) 160.

(** [a-f\d] under the [i] flag *)
Definition is_hex_digit (c : ascii) : bool :=
  is_digit c || in_range 97 102 c || in_range 65 70 c.

Definition lower_char (c : ascii) : ascii :=
  if is_upper c || (in_range 192 222 c && negb (N.eqb (code c) 215))
  then ascii_of_N (code c + 32) else c.

(** [String.prototype.toUpperCase] on ASCII strings, which are the only
    ones the script upper-cases (colour strings and exported identifiers):
    the letters [a-z] are the ones it changes there.  Outside ASCII the
    function of the language differs (the upper case of U+00DF is two
    letters, that of U+00B5 and U+00FF lies beyond U+00FF), so [toUpperCase]
    below stands for it on ASCII strings only. *)
Definition upper_char (c : ascii) : ascii :=
  if is_lower c then ascii_of_N (code c - 32) else c.

Definition map_string (f : ascii -> ascii) (s : string) : string :=
  string_of_list_ascii (map f (list_ascii_of_string s)).

Definition toLowerCase : string -> string := map_string lower_char.
Definition toUpperCase : string -> string := map_string upper_char.

(** [String.prototype.trim] *)
Fixpoint drop_space (l : list ascii) : list ascii :=
  match l with
  | c :: l' => if is_space c then drop_space l' else l
  | [] => []
  end.

Definition trim_chars (l : list ascii) : list ascii :=
  rev (drop_space (rev (drop_space l))).

Definition trim (s : string) : string :=
  string_of_list_ascii (trim_chars (list_ascii_of_string s)).

(** Truthiness of a string: the empty string is falsy. *)
Definition truthy (s : string) : bool := negb (String.eqb s "").

(** [a || b] on strings *)
Definition or_else (a b : string) : string := if truthy a then a else b.

(** Comparisons of numbers: [a < b], [a <= b], [a === b] *)
Definition ltb (a b : Q) : bool := negb (Qle_bool b a).
Definition leb (a b : Q) : bool := Qle_bool a b.
Definition eqb (a b : Q) : bool := Qeq_bool a b.

(** [Math.round]: the nearest integer, halves towards plus infinity. *)
Definition Math_round (x : Q) : Z := Qfloor (x + (1 # 2)).

(** Arithmetic on doubles.  A finite double is an integer of at most 53
    bits times a power of two whose exponent is at least -1074; the result
    of an operation is the exact result rounded to the nearest such number,
    ties to the even integer.  Results beyond the largest double (infinity
    in the language) do not arise from the channels, opacities and sizes the
    script multiplies and are not modelled; neither is the sign of zero. *)
Definition pow2 (e : Z) : Q :=
  if 0 <=? e then inject_Z (2 ^ e) else 1 / inject_Z (2 ^ (- e)).

Definition roundNearestEven (t : Q) : Z :=
  let f := Qfloor t in
  match (t - inject_Z f ?= 1 # 2)%Q with
  | Lt => f
  | Gt => f + 1
  | Eq => if Z.even f then f else f + 1
  end.

(** The integer [k] with [2 ^ k <= a < 2 ^ (k + 1)], for [a > 0]. *)
Definition binade (a : Q) : Z :=
  let k0 := Z.log2 (Qnum a) - Z.log2 (Z.pos (Qden a)) in
  if Qle_bool (pow2 k0) a then k0 else k0 - 1.

Definition roundPositive (a : Q) : Q :=
  let e := Z.max (binade a - 52) (-1074) in
  inject_Z (roundNearestEven (a * pow2 (- e))) * pow2 e.

Definition roundDouble (q : Q) : Q :=
  match Qnum q with
  | 0 => 0
  | Z.pos _ => roundPositive q
  | Z.neg _ => - roundPositive (- q)
  end.

(** [a * b] and [a / b] on numbers *)
Definition mul (a b : Q) : Q := roundDouble (a * b).
Definition div (a b : Q) : Q := roundDouble (a / b).

(** [Number.prototype.toString] on an integer, radix 10 and radix 16
    (lower-case digits, a minus sign for negative values). *)
Definition toString10 (z : Z) : string :=
  if z <? 0
  then "-" ++ DecimalString.NilZero.string_of_uint (N.to_uint (Z.to_N (- z)))
  else DecimalString.NilZero.string_of_uint (N.to_uint (Z.to_N z)).

Definition toString16 (z : Z) : string :=
  if z <? 0
  then "-" ++ HexadecimalString.NilZero.string_of_uint (N.to_hex_uint (Z.to_N (- z)))
  else HexadecimalString.NilZero.string_of_uint (N.to_hex_uint (Z.to_N z)).

(** [String.prototype.padStart(n, "0")] *)
Definition padStart0 (n : nat) (s : string) : string :=
  string_of_list_ascii (repeat "0"%char (n - String.length s)) ++ s.

(** [parseInt(s, 16)] on a string of hexadecimal digits *)
Definition hex_val (c : ascii) : Z :=
  if is_digit c then Z.of_N (code c) - 48
  else if in_range 97 102 c then Z.of_N (code c) - 87
  else Z.of_N (code c) - 55.

Definition parseInt16 (s : string) : Z :=
  fold_left (fun acc c => 16 * acc + hex_val c) (list_ascii_of_string s) 0.

(** 32-bit integer operators: [ToInt32], [<<] and [|]. *)
Definition ToInt32 (z : Z) : Z := (z + 2 ^ 31) mod 2 ^ 32 - 2 ^ 31.
Definition shl (a b : Z) : Z := ToInt32 (Z.shiftl (ToInt32 a) (b mod 32)).
Definition bor (a b : Z) : Z := Z.lor (ToInt32 a) (ToInt32 b).

(** [String.prototype.replace(pat, by)] with a string pattern: the first
    occurrence only. *)
Fixpoint replace_first_chars (pat by_ l : list ascii) (fuel : nat) : list ascii :=
  match fuel with
  | O => l
  | S fuel' =>
      if bool_decide (take (length pat) l = pat)
      then by_ ++ drop (length pat) l
      else match l with
           | c :: l' => c :: replace_first_chars pat by_ l' fuel'
           | [] => []
           end
  end.

Definition replace_first (pat by_ s : string) : string :=
  string_of_list_ascii
    (replace_first_chars (list_ascii_of_string pat) (list_ascii_of_string by_)
       (list_ascii_of_string s) (S (String.length s))).

End JS.

(** ** A matcher for the regular expressions of the script

    The expressions used with [test] have no repetition operator, so the
    backtracking matcher is structural in the expression.  [prev] is the
    character before the current position ([None] at the start of input),
    which [^] and [\b] inspect. *)

Module Regex.

Inductive re : Type :=
| Eps                         (* the empty expression *)
| Cls (p : ascii -> bool)     (* a character class *)
| Seq (a b : re)
| Alt (a b : re)
| Bol                         (* ^ *)
| Eol                         (* $ *)
| WordB.                      (* \b *)

Definition word_opt (o : option ascii) : bool :=
  match o with Some c => JS.is_word c | None => false end.

Fixpoint matches (r : re) (prev : option ascii) (s : list ascii)
         (k : option ascii -> list ascii -> bool) {struct r} : bool :=
  match r with
  | Eps => k prev s
  | Cls p =>
      match s with
      | c :: s' => p c && k (Some c) s'
      | [] => false
      end
  | Seq a b => matches a prev s (fun prev' s' => matches b prev' s' k)
  | Alt a b => matches a prev s k || matches b prev s k
  | Bol => match prev with None => k prev s | Some _ => false end
  | Eol => match s with [] => k prev s | _ :: _ => false end
  | WordB => xorb (word_opt prev) (word_opt (head s)) && k prev s
  end.

(** An unanchored search: a match may start at any position. *)
Fixpoint search (r : re) (prev : option ascii) (s : list ascii) : bool :=
  matches r prev s (fun _ _ => true) ||
  match s with
  | c :: s' => search r (Some c) s'
  | [] => false
  end.

Definition test (r : re) (s : string) : bool :=
  search r None (list_ascii_of_string s).

(** A literal letter under the [i] flag. *)
Definition lit_i (c : ascii) : re :=
  Cls (fun x => Ascii.eqb (JS.upper_char x) (JS.upper_char c)).

Fixpoint lits_i (l : list ascii) : re :=
  match l with
  | [] => Eps
  | c :: l' => Seq (lit_i c) (lits_i l')
  end.

Definition str_i (s : string) : re := lits_i (list_ascii_of_string s).

(** [r?] (greedy) and [r{2}] *)
Definition Opt (r : re) : re := Alt r Eps.
Definition Twice (r : re) : re := Seq r r.

End Regex.

(** ** Colour codec *)

(** [/^#?([a-f\d]{2})([a-f\d]{2})([a-f\d]{2})$/i] *)
Definition hexColorRegex : Regex.re :=
  let byte := Regex.Twice (Regex.Cls JS.is_hex_digit) in
  Regex.Seq Regex.Bol
    (Regex.Seq (Regex.Opt (Regex.Cls (Ascii.eqb "#")))
       (Regex.Seq byte (Regex.Seq byte (Regex.Seq byte Regex.Eol)))).

(** The three capture groups of [hexColorRegex.exec(hex)], or [None] when
    the expression does not match.  The expression is anchored at both ends
    and its groups have a fixed width, so the groups are read off after the
    optional ["#"]. *)
Definition hexColor_exec (hex : string) : option (string * string * string) :=
  let body :=
    match list_ascii_of_string hex with
    | c :: l => if Ascii.eqb "#" c then l else c :: l
    | [] => []
    end in
  match body with
  | [r1; r2; g1; g2; b1; b2] =>
      if forallb JS.is_hex_digit body
      then Some (string_of_list_ascii [r1; r2],
                 string_of_list_ascii [g1; g2],
                 string_of_list_ascii [b1; b2])
      else None
  | _ => None
  end.

Record RGB : Type := mkRGB { rgb_r : Q; rgb_g : Q; rgb_b : Q }.

(** Convert RGB to Hex *)
Definition toHex (c : Q) : string :=
  let hex := JS.toString16 (JS.Math_round (JS.mul c 255)) in
  if Nat.eqb (String.length hex) 1 then "0" ++ hex else hex.

Definition rgbToHex (r g b : Q) : string :=
  JS.toUpperCase ("#" ++ toHex r ++ toHex g ++ toHex b).

(** Convert hex to RGB *)
Definition hexToRgb (hex : string) : RGB :=
  match hexColor_exec hex with
  | Some (g1, g2, g3) =>
      {| rgb_r := inject_Z (JS.parseInt16 g1) / 255;
         rgb_g := inject_Z (JS.parseInt16 g2) / 255;
         rgb_b := inject_Z (JS.parseInt16 g3) / 255 |}
  | None => {| rgb_r := 0; rgb_g := 0; rgb_b := 0 |}
  end.

(** Convert hex to RGB565 format *)
Definition pack565 (r8 g8 b8 : Z) : Z :=
  let r5 := JS.Math_round (JS.div (JS.mul (inject_Z r8) 31) 255) in
  let g6 := JS.Math_round (JS.div (JS.mul (inject_Z g8) 63) 255) in
  let b5 := JS.Math_round (JS.div (JS.mul (inject_Z b8) 31) 255) in
  JS.bor (JS.bor (JS.shl r5 11) (JS.shl g6 5)) b5.

Definition hexToRgb565 (hex : string) : string :=
  match hexColor_exec hex with
  | None => "0x0000"
  | Some (g1, g2, g3) =>
      let r8 := JS.parseInt16 g1 in
      let g8 := JS.parseInt16 g2 in
      let b8 := JS.parseInt16 g3 in
      let rgb565 := pack565 r8 g8 b8 in
      "0x" ++ JS.padStart0 4 (JS.toUpperCase (JS.toString16 rgb565))
  end.

(** ** Icon classifier *)

Record ParentNode : Type := mkParent { parent_type : string; parent_name : string }.

(** Reading [variantProperties] may raise in the host; otherwise it is
    absent or a dictionary of strings. *)
Inductive VariantProperties : Type :=
| VPThrows
| VPAbsent
| VPDict (kv : list (string * string)).

Record MainComponent : Type := mkMainComponent {
  mc_name : string;
  mc_key : string;
  mc_id : string;
  mc_parent : option ParentNode;
  mc_variantProperties : VariantProperties;
  mc_width : Q;
  mc_height : Q
}.

Definition isSepChar (c : ascii) : bool :=
  Ascii.eqb c "_" || Ascii.eqb c "-" || JS.is_space c.

(** [/(^|\b|[_\-\s])(ic|icon)([_\-\s]|\b|$)/i]: the first group, then
    the token and the closing group. *)
Definition iconTail : Regex.re :=
  Regex.Seq
    (Regex.Alt (Regex.str_i "ic") (Regex.str_i "icon"))
    (Regex.Alt (Regex.Cls isSepChar) (Regex.Alt Regex.WordB Regex.Eol)).

Definition iconNameRegex : Regex.re :=
  Regex.Seq
    (Regex.Alt Regex.Bol (Regex.Alt Regex.WordB (Regex.Cls isSepChar)))
    iconTail.

(** [/icon/i] *)
Definition iconRegex : Regex.re := Regex.str_i "icon".

Definition inComponentSet (mc : MainComponent) : bool :=
  match mc_parent mc with
  | Some p => String.eqb (parent_type p) "COMPONENT_SET"
  | None => false
  end.

Definition isComponentAnIcon (mainComponent : MainComponent) : bool :=
  let compName := JS.trim (mc_name mainComponent) in
  let setName :=
    match mc_parent mainComponent with
    | Some p => if String.eqb (parent_type p) "COMPONENT_SET" then parent_name p else ""
    | None => ""
    end in
  let looksLikeIconByName :=
    Regex.test iconNameRegex compName || Regex.test iconNameRegex setName in
  let looksLikeIconByVariant :=
    match mc_variantProperties mainComponent with
    | VPDict vp =>
        existsb (fun kv => Regex.test iconRegex (fst kv) || Regex.test iconRegex (snd kv)) vp
    | VPAbsent => false
    | VPThrows => false           (* the inner handler swallows the error *)
    end in
  let w := JS.Math_round (mc_width mainComponent) in
  let h := JS.Math_round (mc_height mainComponent) in
  let looksIconBySize := (0 <? w) && (0 <? h) && (Z.max w h <=? 128) in
  if looksLikeIconByName || looksLikeIconByVariant then true else false.

(** ** Insertion-ordered [Map] objects *)

Module JSMap.
Section JSMap.
Context {K V : Type} `{EqDecision K}.

Fixpoint get (k : K) (m : list (K * V)) : option V :=
  match m with
  | [] => None
  | (k', v) :: m' => if bool_decide (k = k') then Some v else get k m'
  end.

Definition has (k : K) (m : list (K * V)) : bool :=
  match get k m with Some _ => true | None => false end.

(** [m.set(k, v)]: an existing key keeps its position, a new key goes to
    the end. *)
Fixpoint set (k : K) (v : V) (m : list (K * V)) : list (K * V) :=
  match m with
  | [] => [(k, v)]
  | (k', v') :: m' =>
      if bool_decide (k = k') then (k, v) :: m' else (k', v') :: set k v m'
  end.

(** A field update through [m.get(k)]: the entry is changed in place. *)
Fixpoint alter (f : V -> V) (k : K) (m : list (K * V)) : list (K * V) :=
  match m with
  | [] => []
  | (k', v') :: m' =>
      if bool_decide (k = k') then (k', f v') :: m' else (k', v') :: alter f k m'
  end.

(** [if (!m.has(k)) m.set(k, v)] *)
Definition setIfAbsent (k : K) (v : V) (m : list (K * V)) : list (K * V) :=
  if has k m then m else set k v m.

Definition keys (m : list (K * V)) : list K := map fst m.
Definition values (m : list (K * V)) : list V := map snd m.
End JSMap.
End JSMap.

(** ** Data model of one extraction pass *)

Inductive ColorType : Type := Fill | Stroke.

(** Entries of the pass's [colors] map. *)
Record ColorInfo : Type := mkColorInfo {
  ci_hex : string;
  ci_opacity : Q;
  ci_styleName : option string;
  ci_type : ColorType
}.

(** A resolved font size: a number, or one of the two sentinels. *)
Inductive FontSize : Type :=
| SizeNumber (q : Q)
| SizeUnknown
| SizeMixed.

(** Entries of the pass's [fonts] map. *)
Record FontInfo : Type := mkFontInfo {
  fi_fontFamily : string;
  fi_fontStyle : string;
  fi_fontSize : FontSize;
  fi_styleName : option string
}.

Record TextStyleInfo : Type := mkTextStyleInfo {
  ts_fontFamily : string;
  ts_fontStyle : string;
  ts_fontSize : FontSize
}.

(** Entries of the [components] and [icons] maps.  [name] and [setName] are
    optional fields that the reclassification pass reads; [analyzeNode]
    does not set them (an absent field and the empty string are both
    falsy). *)
Record ComponentReference : Type := mkComponentReference {
  cr_masterName : string;
  cr_variantName : option string;
  cr_fullName : string;
  cr_key : string;
  cr_id : string;
  cr_isVariant : bool;
  cr_instanceCount : Z;
  cr_isIcon : bool;
  cr_name : string;
  cr_setName : string
}.

(** ** Host nodes *)

Record Paint : Type := mkPaint {
  paint_type : string;
  paint_color : option RGB;
  paint_visible : bool;             (* [false] iff [visible === false] *)
  paint_opacity : option Q          (* [None] iff [undefined] *)
}.

Inductive FontNameField : Type :=
| FontNameAbsent                    (* no such property, or falsy *)
| FontNameMixed                     (* present but not a [{family, style}] object *)
| FontName (family style : string).

Inductive FontSizeField : Type :=
| FontSizeFalsy                     (* absent, zero *)
| FontSizeNumber (q : Q)            (* a non-zero number *)
| FontSizeObject                    (* [typeof] is ["object"] *)
| FontSizeOther.                    (* any other truthy value *)

Record Style : Type := mkStyle {
  style_name : string;
  style_fontSize : option Q
}.

Record Node : Type := mkNode {
  n_id : string;
  n_type : string;
  n_removed : bool;                 (* [removed === true] *)
  n_visible : bool;                 (* [false] iff [visible === false] *)
  n_width : Q;
  n_height : Q;
  n_mainComponent : bool;           (* the [mainComponent] getter is truthy *)
  n_getMainComponent : option (option MainComponent);
                                    (* [None]: the resolution raises *)
  n_fontName : FontNameField;
  n_fontSize : FontSizeField;
  n_textStyleId : string;
  n_fills : option (list Paint);    (* [None]: absent or not an array *)
  n_fillStyleId : string;
  n_strokes : option (list Paint);
  n_strokeStyleId : string;
  n_effectStyleId : string
}.

(** The accumulation maps and sets of one pass, with the module-level set
    of processed node ids. *)
Record PassState : Type := mkPassState {
  processedNodes : gset string;
  components : list (string * ComponentReference);
  icons : list (string * ComponentReference);
  fonts : list (string * FontInfo);
  colors : list (string * ColorInfo);
  colorStyles : gset string;
  textStyles : list (string * TextStyleInfo);
  effectStyles : gset string
}.

Definition emptyPass : PassState :=
  {| processedNodes := ∅; components := []; icons := []; fonts := [];
     colors := []; colorStyles := ∅; textStyles := []; effectStyles := ∅ |}.

Definition with_processed (f : gset string -> gset string) (st : PassState) : PassState :=
  {| processedNodes := f (processedNodes st); components := components st;
     icons := icons st; fonts := fonts st; colors := colors st;
     colorStyles := colorStyles st; textStyles := textStyles st;
     effectStyles := effectStyles st |}.

Definition with_components (f : list (string * ComponentReference) -> list (string * ComponentReference))
    (st : PassState) : PassState :=
  {| processedNodes := processedNodes st; components := f (components st);
     icons := icons st; fonts := fonts st; colors := colors st;
     colorStyles := colorStyles st; textStyles := textStyles st;
     effectStyles := effectStyles st |}.

Definition with_icons (f : list (string * ComponentReference) -> list (string * ComponentReference))
    (st : PassState) : PassState :=
  {| processedNodes := processedNodes st; components := components st;
     icons := f (icons st); fonts := fonts st; colors := colors st;
     colorStyles := colorStyles st; textStyles := textStyles st;
     effectStyles := effectStyles st |}.

Definition with_fonts (f : list (string * FontInfo) -> list (string * FontInfo))
    (st : PassState) : PassState :=
  {| processedNodes := processedNodes st; components := components st;
     icons := icons st; fonts := f (fonts st); colors := colors st;
     colorStyles := colorStyles st; textStyles := textStyles st;
     effectStyles := effectStyles st |}.

Definition with_colors (f : list (string * ColorInfo) -> list (string * ColorInfo))
    (st : PassState) : PassState :=
  {| processedNodes := processedNodes st; components := components st;
     icons := icons st; fonts := fonts st; colors := f (colors st);
     colorStyles := colorStyles st; textStyles := textStyles st;
     effectStyles := effectStyles st |}.

Definition with_colorStyles (f : gset string -> gset string) (st : PassState) : PassState :=
  {| processedNodes := processedNodes st; components := components st;
     icons := icons st; fonts := fonts st; colors := colors st;
     colorStyles := f (colorStyles st); textStyles := textStyles st;
     effectStyles := effectStyles st |}.

Definition with_textStyles (f : list (string * TextStyleInfo) -> list (string * TextStyleInfo))
    (st : PassState) : PassState :=
  {| processedNodes := processedNodes st; components := components st;
     icons := icons st; fonts := fonts st; colors := colors st;
     colorStyles := colorStyles st; textStyles := f (textStyles st);
     effectStyles := effectStyles st |}.

Definition with_effectStyles (f : gset string -> gset string) (st : PassState) : PassState :=
  {| processedNodes := processedNodes st; components := components st;
     icons := icons st; fonts := fonts st; colors := colors st;
     colorStyles := colorStyles st; textStyles := textStyles st;
     effectStyles := f (effectStyles st) |}.

(** Truthiness of a nullable string such as [styleName]. *)
Definition truthy_opt (o : option string) : bool :=
  match o with Some s => JS.truthy s | None => false end.

(** ** The per-node extractor *)

(** Early exit for invisible or very small nodes, as written in
    [analyzeNode] ... *)
Definition skippedByGate (node : Node) : bool :=
  negb (n_visible node)
  || (JS.ltb (n_width node) 1 && JS.ltb (n_height node) 1).

(** ... and the predicate given to [findAll] in [analyzeFrame]. *)
Definition findAllPredicate (node : Node) : bool :=
  n_visible node
  && (JS.leb 1 (n_width node) || JS.leb 1 (n_height node)).

(** Create unique key that includes opacity for different opacity values
    of same color *)
Definition colorKeyOf (hex : string) (opacity : Q) : string :=
  if JS.ltb opacity 1
  then hex ++ "@" ++ JS.toString10 (JS.Math_round (JS.mul opacity 100)) ++ "%"
  else hex.

(** The guard on one paint of a fill or stroke list. *)
Definition paintCounts (p : Paint) : option RGB :=
  if String.eqb (paint_type p) "SOLID" then
    match paint_color p with
    | Some color =>
        if paint_visible p
        then match paint_opacity p with
             | Some o => if JS.eqb o 0 then None else Some color
             | None => Some color
             end
        else None
    | None => None
    end
  else None.

Definition paintOpacity (p : Paint) : Q :=
  match paint_opacity p with Some o => o | None => 1 end.

(** Store color with its associated style and opacity *)
Definition upsertColor (colorKey : string) (hex : string) (opacity : Q)
    (styleName : option string) (type : ColorType)
    (colors : list (string * ColorInfo)) : list (string * ColorInfo) :=
  match JSMap.get colorKey colors with
  | None =>
      JSMap.set colorKey
        {| ci_hex := hex; ci_opacity := opacity; ci_styleName := styleName; ci_type := type |}
        colors
  | Some existing =>
      if truthy_opt styleName && negb (truthy_opt (ci_styleName existing))
      then JSMap.alter
             (fun e => {| ci_hex := ci_hex e; ci_opacity := ci_opacity e;
                          ci_styleName := styleName; ci_type := ci_type e |})
             colorKey colors
      else colors
  end.

(** Store font with complete information including size *)
Definition upsertFont (fontKey : string) (family style : string) (fontSize : FontSize)
    (styleName : option string)
    (fonts : list (string * FontInfo)) : list (string * FontInfo) :=
  match JSMap.get fontKey fonts with
  | None =>
      JSMap.set fontKey
        {| fi_fontFamily := family; fi_fontStyle := style;
           fi_fontSize := fontSize; fi_styleName := styleName |}
        fonts
  | Some existing =>
      if truthy_opt styleName && negb (truthy_opt (fi_styleName existing))
      then JSMap.alter
             (fun e => {| fi_fontFamily := fi_fontFamily e; fi_fontStyle := fi_fontStyle e;
                          fi_fontSize := fi_fontSize e; fi_styleName := styleName |})
             fontKey fonts
      else fonts
  end.

(** An instance is counted against its main component. *)
Definition upsertComponent (variantKey : string) (mainComponent : MainComponent)
    (masterName : string) (isIcon : bool)
    (targetMap : list (string * ComponentReference)) : list (string * ComponentReference) :=
  if negb (JSMap.has variantKey targetMap) then
    let isVariant := inComponentSet mainComponent in
    JSMap.set variantKey
      {| cr_masterName := if isVariant then masterName else mc_name mainComponent;
         cr_variantName := if isVariant then Some (mc_name mainComponent) else None;
         cr_fullName := mc_name mainComponent;
         cr_key := mc_key mainComponent;
         cr_id := mc_id mainComponent;
         cr_isVariant := isVariant;
         cr_instanceCount := 1;
         cr_isIcon := isIcon;
         cr_name := "";
         cr_setName := "" |}
      targetMap
  else
    JSMap.alter
      (fun existing =>
         {| cr_masterName := cr_masterName existing;
            cr_variantName := cr_variantName existing;
            cr_fullName := cr_fullName existing;
            cr_key := cr_key existing;
            cr_id := cr_id existing;
            cr_isVariant := cr_isVariant existing;
            cr_instanceCount := cr_instanceCount existing + 1;
            cr_isIcon := cr_isIcon existing;
            cr_name := cr_name existing;
            cr_setName := cr_setName existing |})
      variantKey targetMap.

(** The outcome of a block that may [return] from the enclosing function. *)
Inductive Flow (A : Type) : Type :=
| Return (a : A)
| Continue (a : A).
Arguments Return {A} a.
Arguments Continue {A} a.

Section Host.

(** The host's style table: [figma.getStyleByIdAsync].  [None] stands for
    a lookup that raises or resolves to nothing; both leave the node
    without an association. *)
Variable getStyleById : string -> option Style.

(** The text of a number that is not printed as a plain integer (it has a
    fraction, or its absolute value is [1e21] or more and it is printed
    with an exponent), as the host prints it. *)
Variable fractionToString : Q -> string.

(** [String.prototype.localeCompare] of the host's locale. *)
Variable localeCompare : string -> string -> Z.

Definition numberToString (q : Q) : string :=
  let r := Qred q in
  if Pos.eqb (Qden r) 1 && (Z.abs (Qnum r) <? 10 ^ 21)
  then JS.toString10 (Qnum r)
  else fractionToString q.

Definition fontSizeToString (s : FontSize) : string :=
  match s with
  | SizeNumber q => numberToString q
  | SizeUnknown => "Unknown"
  | SizeMixed => "Mixed"
  end.

Definition lookupStyle (styleId : string) : option Style :=
  if JS.truthy styleId then getStyleById styleId else None.

(** Extract components (with defensive programming) *)
Definition extractComponent (node : Node) (st : PassState) : Flow PassState :=
  if String.eqb (n_type node) "INSTANCE" then
    if negb (n_mainComponent node) then Return st
    else
      match n_getMainComponent node with
      | None => Continue st                   (* caught by the local handler *)
      | Some None => Continue st
      | Some (Some mainComponent) =>
          if JS.truthy (mc_name mainComponent)
             && (JS.truthy (mc_key mainComponent) || JS.truthy (mc_id mainComponent))
          then
            let masterName :=
              match mc_parent mainComponent with
              | Some p =>
                  if String.eqb (parent_type p) "COMPONENT_SET"
                  then parent_name p else mc_name mainComponent
              | None => mc_name mainComponent
              end in
            if negb (JS.truthy masterName) then Return st
            else
              let variantKey := JS.or_else (mc_key mainComponent) (mc_id mainComponent) in
              let isIcon := isComponentAnIcon mainComponent in
              if isIcon
              then Continue (with_icons
                               (upsertComponent variantKey mainComponent masterName isIcon) st)
              else Continue (with_components
                               (upsertComponent variantKey mainComponent masterName isIcon) st)
          else Continue st
      end
  else Continue st.

(** Extract fonts and text styles *)
Definition resolveFontSize (node : Node) : FontSize :=
  match n_fontSize node with
  | FontSizeNumber q => SizeNumber q
  | FontSizeObject => SizeMixed
  | FontSizeFalsy | FontSizeOther =>
      match lookupStyle (n_textStyleId node) with
      | Some style =>
          match style_fontSize style with
          | Some q => if JS.eqb q 0 then SizeUnknown else SizeNumber q
          | None => SizeUnknown
          end
      | None => SizeUnknown
      end
  end.

Definition fontKeyOf (family style : string) (fontSize : FontSize) : string :=
  family ++ " - " ++ style ++ " - " ++ fontSizeToString fontSize ++ "px".

Definition extractFont (node : Node) (st : PassState) : PassState :=
  match n_fontName node with
  | FontName family style =>
      let fontSize := resolveFontSize node in
      let fontKey := fontKeyOf family style fontSize in
      match lookupStyle (n_textStyleId node) with
      | Some s =>
          let st1 :=
            with_textStyles
              (JSMap.set (style_name s)
                 {| ts_fontFamily := family; ts_fontStyle := style; ts_fontSize := fontSize |})
              st in
          with_fonts (upsertFont fontKey family style fontSize (Some (style_name s))) st1
      | None =>
          with_fonts (upsertFont fontKey family style fontSize None) st
      end
  | FontNameAbsent | FontNameMixed => st
  end.

(** One iteration of the loop over [node.fills] (or [node.strokes]). *)
Definition extractPaint (type : ColorType) (styleId : string)
    (st : PassState) (p : Paint) : PassState :=
  match paintCounts p with
  | Some color =>
      let hex := rgbToHex (rgb_r color) (rgb_g color) (rgb_b color) in
      let opacity := paintOpacity p in
      let style := lookupStyle styleId in
      let styleName := option_map style_name style in
      let st1 :=
        match style with
        | Some s => with_colorStyles (fun cs => cs ∪ {[ style_name s ]}) st
        | None => st
        end in
      let colorKey := colorKeyOf hex opacity in
      with_colors (upsertColor colorKey hex opacity styleName type) st1
  | None => st
  end.

Definition extractFills (node : Node) (st : PassState) : PassState :=
  match n_fills node with
  | Some fills => fold_left (extractPaint Fill (n_fillStyleId node)) fills st
  | None => st
  end.

Definition extractStrokes (node : Node) (st : PassState) : PassState :=
  match n_strokes node with
  | Some strokes => fold_left (extractPaint Stroke (n_strokeStyleId node)) strokes st
  | None => st
  end.

(** Extract effect styles *)
Definition extractEffect (node : Node) (st : PassState) : PassState :=
  match lookupStyle (n_effectStyleId node) with
  | Some s => with_effectStyles (fun es => es ∪ {[ style_name s ]}) st
  | None => st
  end.

Definition nodeIsValid (node : Node) : bool :=
  JS.truthy (n_type node) && negb (n_removed node).

(** Analyze a single node for components, fonts, colors, and styles *)
Definition analyzeNode (node : Node) (st : PassState) : PassState :=
  if negb (nodeIsValid node) then st
  else if bool_decide (n_id node ∈ processedNodes st) then st
  else
    let st := with_processed (fun s => s ∪ {[ n_id node ]}) st in
    if skippedByGate node then st
    else
      match extractComponent node st with
      | Return st' => st'
      | Continue st' =>
          extractEffect node
            (extractStrokes node (extractFills node (extractFont node st')))
      end.

(** *** One pass over a frame *)

(** [Array.prototype.sort] with a comparison function: a stable sort.
    When the comparison function is a consistent order the sorted array is
    the same for every stable sort.  When it is not (font sizes that are not
    numbers compare as equal to every size), the language leaves the order
    to the engine; the order below is that of a stable insertion sort, and
    no statement about a record depends on it beyond the array being a
    permutation of the entries. *)
Section Sort.
Context {A : Type} (cmp : A -> A -> Z).

Fixpoint insertSorted (x : A) (l : list A) : list A :=
  match l with
  | [] => [x]
  | y :: l' => if cmp x y <=? 0 then x :: y :: l' else y :: insertSorted x l'
  end.

Definition sortBy (l : list A) : list A := fold_right insertSorted [] l.
End Sort.

(** The default comparison of [sort()]: strings by code units. *)
Definition codeUnitCompare (a b : string) : Z :=
  match String.compare a b with Lt => -1 | Eq => 0 | Gt => 1 end.

Record ColorUsage : Type := mkColorUsage {
  cu_hex : string;
  cu_rgb565 : string;
  cu_opacity : Q;
  cu_displayHex : string;
  cu_styleName : option string;
  cu_type : ColorType
}.

Record FontUsage : Type := mkFontUsage {
  fu_fontKey : string;
  fu_fontFamily : string;
  fu_fontStyle : string;
  fu_fontSize : FontSize;
  fu_styleName : option string;
  fu_displayString : string;
  fu_hasStyle : bool
}.

Record TextStyleUsage : Type := mkTextStyleUsage {
  tu_styleName : string;
  tu_fontFamily : string;
  tu_fontStyle : string;
  tu_fontSize : FontSize
}.

Record FrameInfo : Type := mkFrameInfo {
  fr_name : string;
  fr_width : Q;
  fr_height : Q;
  fr_elementCount : nat
}.

Record AnalysisRecord : Type := mkAnalysisRecord {
  ar_components : list ComponentReference;
  ar_icons : list ComponentReference;
  ar_fonts : list FontUsage;
  ar_colors : list ColorUsage;
  ar_colorStyles : list string;
  ar_textStyles : list TextStyleUsage;
  ar_effectStyles : list string;
  ar_frameInfo : FrameInfo
}.

(** A selected frame: its own node, its name, and its descendants in the
    order [findAll] visits them. *)
Record Frame : Type := mkFrame {
  f_node : Node;
  f_name : string;
  f_descendants : list Node
}.

(** Convert colors Map to array with hex, RGB565, opacity, and style info *)
Definition colorUsageOf (info : ColorInfo) : ColorUsage :=
  {| cu_hex := ci_hex info;
     cu_rgb565 := hexToRgb565 (ci_hex info);
     cu_opacity := ci_opacity info;
     cu_displayHex :=
       if JS.ltb (ci_opacity info) 1
       then ci_hex info ++ " (" ++ JS.toString10 (JS.Math_round (JS.mul (ci_opacity info) 100)) ++ "%)"
       else ci_hex info;
     cu_styleName := ci_styleName info;
     cu_type := ci_type info |}.

Definition colorArrayOf (colors : list (string * ColorInfo)) : list ColorUsage :=
  sortBy (fun a b => localeCompare (cu_hex a) (cu_hex b))
    (map (fun e => colorUsageOf (snd e)) colors).

(** Convert fonts Map to array with complete font info *)
Definition fontUsageOf (e : string * FontInfo) : FontUsage :=
  let (fontKey, info) := e in
  {| fu_fontKey := fontKey;
     fu_fontFamily := fi_fontFamily info;
     fu_fontStyle := fi_fontStyle info;
     fu_fontSize := fi_fontSize info;
     fu_styleName := fi_styleName info;
     fu_displayString :=
       fi_fontFamily info ++ " " ++ fi_fontStyle info ++ " "
       ++ fontSizeToString (fi_fontSize info) ++ "px";
     fu_hasStyle := truthy_opt (fi_styleName info) |}.

(** [parseFloat(a.fontSize) - parseFloat(b.fontSize)], by its sign; the
    difference is [NaN] when a size is a sentinel, which [sort] reads as
    zero. *)
Definition fontSizeDifference (a b : FontSize) : Z :=
  match a, b with
  | SizeNumber x, SizeNumber y =>
      if JS.ltb x y then -1 else if JS.ltb y x then 1 else 0
  | _, _ => 0
  end.

Definition fontCompare (a b : FontUsage) : Z :=
  let familyCompare := localeCompare (fu_fontFamily a) (fu_fontFamily b) in
  if negb (familyCompare =? 0) then familyCompare
  else
    let styleCompare := localeCompare (fu_fontStyle a) (fu_fontStyle b) in
    if negb (styleCompare =? 0) then styleCompare
    else fontSizeDifference (fu_fontSize a) (fu_fontSize b).

Definition fontArrayOf (fonts : list (string * FontInfo)) : list FontUsage :=
  sortBy fontCompare (map fontUsageOf fonts).

Definition textStyleArrayOf (textStyles : list (string * TextStyleInfo)) : list TextStyleUsage :=
  sortBy (fun a b => localeCompare (tu_styleName a) (tu_styleName b))
    (map (fun e : string * TextStyleInfo =>
            {| tu_styleName := fst e;
               tu_fontFamily := ts_fontFamily (snd e);
               tu_fontStyle := ts_fontStyle (snd e);
               tu_fontSize := ts_fontSize (snd e) |}) textStyles).

(** The call on the frame itself passes seven arguments where
    [analyzeNode] takes eight: inside that call every collection
    parameter after [components] is bound to the next collection's
    object (a [Set] where a [Map] is expected and conversely) and the last
    one is undefined.  A frame is not an instance and carries no font, so
    the only writes the call attempts are on the colour and style
    collections; each of them raises a [TypeError] that the function's
    handlers discard.  What remains of the call is the bookkeeping of the
    processed node. *)
Definition analyzeRoot (node : Node) (st : PassState) : PassState :=
  if negb (nodeIsValid node) then st
  else if bool_decide (n_id node ∈ processedNodes st) then st
  else with_processed (fun s => s ∪ {[ n_id node ]}) st.

(** [allNodes.slice(i, i + batchSize)] for [i = 0, batchSize, ...] *)
Fixpoint batchesOf (batchSize : nat) (fuel : nat) (l : list Node) : list (list Node) :=
  match fuel with
  | O => []
  | S fuel' =>
      match l with
      | [] => []
      | _ :: _ => take batchSize l :: batchesOf batchSize fuel' (drop batchSize l)
      end
  end.

Definition analyzeBatch (st : PassState) (batch : list Node) : PassState :=
  fold_left (fun st node => analyzeNode node st) batch st.

Definition analyzeAll (batchSize : nat) (allNodes : list Node) (st : PassState) : PassState :=
  fold_left analyzeBatch (batchesOf batchSize (length allNodes) allNodes) st.

(** Analyze a frame and extract components, fonts, and colors *)
Definition analyzeFrameState (frame : Frame) : PassState :=
  let allNodes := filter (fun n => findAllPredicate n = true) (f_descendants frame) in
  analyzeAll 50 allNodes (analyzeRoot (f_node frame) emptyPass).

Definition analyzeFrame (frame : Frame) : AnalysisRecord :=
  let allNodes := filter (fun n => findAllPredicate n = true) (f_descendants frame) in
  let st := analyzeFrameState frame in
  {| ar_components := JSMap.values (components st);
     ar_icons := JSMap.values (icons st);
     ar_fonts := fontArrayOf (fonts st);
     ar_colors := colorArrayOf (colors st);
     ar_colorStyles := sortBy codeUnitCompare (elements (colorStyles st));
     ar_textStyles := textStyleArrayOf (textStyles st);
     ar_effectStyles := sortBy codeUnitCompare (elements (effectStyles st));
     ar_frameInfo :=
       {| fr_name := f_name frame;
          fr_width := n_width (f_node frame);
          fr_height := n_height (f_node frame);
          fr_elementCount := length allNodes |} |}.

End Host.

(** ** The cache of analysis data

    The records kept in [globalAnalysisData] hold their component and icon
    objects by reference: the reclassification pass writes [isIcon] into
    the objects themselves, and the same object can be reached from several
    arrays.  The objects live in a heap. *)

Abbreviation loc := nat (only parsing).

Abbreviation heap := (loc -> ComponentReference) (only parsing).

Record AnalysisData : Type := mkAnalysisData {
  ad_components : list loc;
  ad_icons : list loc;
  ad_fonts : list FontUsage;
  ad_colors : list ColorUsage
}.

Definition setIsIcon (b : bool) (c : ComponentReference) : ComponentReference :=
  {| cr_masterName := cr_masterName c;
     cr_variantName := cr_variantName c;
     cr_fullName := cr_fullName c;
     cr_key := cr_key c;
     cr_id := cr_id c;
     cr_isVariant := cr_isVariant c;
     cr_instanceCount := cr_instanceCount c;
     cr_isIcon := b;
     cr_name := cr_name c;
     cr_setName := cr_setName c |}.

(** ** Reclassification pass *)

(** The test made on each entry of both arrays. *)
Definition looksIcon (c : ComponentReference) : bool :=
  let name :=
    JS.toLowerCase
      (JS.or_else (cr_masterName c)
         (JS.or_else (cr_fullName c) (JS.or_else (cr_name c) ""))) in
  let setName := JS.toLowerCase (JS.or_else (cr_setName c) "") in
  Regex.test iconNameRegex name || Regex.test iconRegex setName || cr_isIcon c.

(** The state of the two loops: the heap and the two arrays being built. *)
Record Reclass : Type := mkReclass {
  rc_heap : heap;
  reclassComponents : list loc;
  reclassIcons : list loc
}.

Definition pushComp (c : loc) (st : Reclass) : Reclass :=
  {| rc_heap := <[ c := setIsIcon false (rc_heap st c) ]> (rc_heap st);
     reclassComponents := reclassComponents st ++ [c];
     reclassIcons := reclassIcons st |}.

Definition pushIcon (c : loc) (st : Reclass) : Reclass :=
  {| rc_heap := <[ c := setIsIcon true (rc_heap st c) ]> (rc_heap st);
     reclassComponents := reclassComponents st;
     reclassIcons := reclassIcons st ++ [c] |}.

(** The body of both loops.  Their handlers differ, but no statement of the
    body can raise on an object whose name fields are strings. *)
Definition reclassify (st : Reclass) (c : loc) : Reclass :=
  if looksIcon (rc_heap st c) then pushIcon c st else pushComp c st.

(** Ensure components/icons arrays reflect icon heuristic consistently *)
Definition normalizeComponentIconClassification (h : heap) (analysisData : AnalysisData)
    : heap * AnalysisData :=
  let st0 := {| rc_heap := h; reclassComponents := []; reclassIcons := [] |} in
  let st1 := fold_left reclassify (ad_components analysisData) st0 in
  let st2 := fold_left reclassify (ad_icons analysisData) st1 in
  (rc_heap st2,
   {| ad_components := reclassComponents st2;
      ad_icons := reclassIcons st2;
      ad_fonts := ad_fonts analysisData;
      ad_colors := ad_colors analysisData |}).

(** ** Aggregator *)

#[global] Instance Q_eq_dec : EqDecision Q.
Proof. solve_decision. Defined.
#[global] Instance ColorType_eq_dec : EqDecision ColorType.
Proof. solve_decision. Defined.
#[global] Instance ColorUsage_eq_dec : EqDecision ColorUsage.
Proof. solve_decision. Defined.

(** The key [c.hex || c] of the colour map: the hex string, or the entry
    itself when its hex is falsy.  The map of the source compares such
    entries by identity, this key by content: two distinct entries
    without hex and with equal fields, which the source keeps both, share a
    key here.  The records of a pass hold no entry without hex, and the
    statements about the colours of a summary are made for entries with
    one. *)
Inductive ColorMapKey : Type :=
| KeyHex (hex : string)
| KeySelf (c : ColorUsage).

#[global] Instance ColorMapKey_eq_dec : EqDecision ColorMapKey.
Proof. solve_decision. Defined.

Record SummaryData : Type := mkSummaryData {
  sd_frameCount : nat;
  sd_totalComponents : nat;
  sd_totalIcons : nat;
  sd_totalFonts : nat;
  sd_totalColors : nat;
  sd_components : list loc;
  sd_icons : list loc;
  sd_fonts : list FontUsage;
  sd_colors : list ColorUsage
}.

(** The four aggregation maps and the heap, threaded through the loop over
    the cache. *)
Record Aggregation : Type := mkAggregation {
  ag_heap : heap;
  aggregatedComponents : list (string * loc);
  aggregatedIcons : list (string * loc);
  aggregatedFonts : list (string * FontUsage);
  aggregatedColors : list (ColorMapKey * ColorUsage)
}.

(** [comp.isVariant ? `${comp.masterName}:${comp.variantName}` : comp.masterName] *)
Definition componentKey (c : ComponentReference) : string :=
  if cr_isVariant c
  then cr_masterName c ++ ":" ++
       match cr_variantName c with Some v => v | None => "null" end
  else cr_masterName c.

Definition colorMapKey (c : ColorUsage) : ColorMapKey :=
  if JS.truthy (cu_hex c) then KeyHex (cu_hex c) else KeySelf c.

Section Encoder.

Variable fractionToString : Q -> string.

(** [f.displayString || f.fontString || `${f.fontFamily} ${f.fontStyle} ${f.fontSize}`];
    the records carry no [fontString]. *)
Definition fontMapKey (f : FontUsage) : string :=
  JS.or_else (fu_displayString f)
    (fu_fontFamily f ++ " " ++ fu_fontStyle f ++ " "
     ++ fontSizeToString fractionToString (fu_fontSize f)).

Definition aggregateComponent (h : heap) (m : list (string * loc)) (comp : loc)
    : list (string * loc) :=
  JSMap.setIfAbsent (componentKey (h comp)) comp m.

(** The body of the loop over [globalAnalysisData.entries()]. *)
Definition aggregateRecord (ag : Aggregation) (entry : string * AnalysisData) : Aggregation :=
  let analysisData := snd entry in
  let (h, normalized) :=
    normalizeComponentIconClassification (ag_heap ag)
      {| ad_components := ad_components analysisData;
         ad_icons := ad_icons analysisData;
         ad_fonts := [];
         ad_colors := [] |} in
  {| ag_heap := h;
     aggregatedComponents :=
       fold_left (aggregateComponent h) (ad_components normalized) (aggregatedComponents ag);
     aggregatedIcons :=
       fold_left (aggregateComponent h) (ad_icons normalized) (aggregatedIcons ag);
     aggregatedFonts :=
       fold_left (fun m f => JSMap.setIfAbsent (fontMapKey f) f m)
         (ad_fonts analysisData) (aggregatedFonts ag);
     aggregatedColors :=
       fold_left (fun m c => JSMap.setIfAbsent (colorMapKey c) c m)
         (ad_colors analysisData) (aggregatedColors ag) |}.

(** Collect aggregated data from stored analysis data.  [frameCount] is
    the number of analysis frames the host finds on the analysis page. *)
Definition collectSummaryData (frameCount : nat) (h : heap)
    (globalAnalysisData : list (string * AnalysisData)) : heap * SummaryData :=
  let ag :=
    fold_left aggregateRecord globalAnalysisData
      {| ag_heap := h; aggregatedComponents := []; aggregatedIcons := [];
         aggregatedFonts := []; aggregatedColors := [] |} in
  (ag_heap ag,
   {| sd_frameCount := frameCount;
      sd_totalComponents := length (aggregatedComponents ag);
      sd_totalIcons := length (aggregatedIcons ag);
      sd_totalFonts := length (aggregatedFonts ag);
      sd_totalColors := length (aggregatedColors ag);
      sd_components := JSMap.values (aggregatedComponents ag);
      sd_icons := JSMap.values (aggregatedIcons ag);
      sd_fonts := JSMap.values (aggregatedFonts ag);
      sd_colors := JSMap.values (aggregatedColors ag) |}).

(** ** Export encoder *)

Definition keptByStrip (c : ascii) : bool :=
  JS.is_alnum c || Ascii.eqb c "_" || JS.is_space c || Ascii.eqb c "-".

Definition isSpaceOrHyphen (c : ascii) : bool := JS.is_space c || Ascii.eqb c "-".

(** [.replace(/[\s-]+/g, '_')]: [inRun] tells that the previous character
    belonged to the run being replaced. *)
Fixpoint collapseRuns (inRun : bool) (l : list ascii) : list ascii :=
  match l with
  | [] => []
  | c :: l' =>
      if isSpaceOrHyphen c
      then if inRun then collapseRuns true l' else "_"%char :: collapseRuns true l'
      else c :: collapseRuns false l'
  end.

(** Convert to valid LVGL identifier while preserving readability *)
Definition sanitizeIdentifier (styleKey : string) : string :=
  JS.toLowerCase
    (string_of_list_ascii
       (collapseRuns false
          (List.filter keptByStrip (list_ascii_of_string styleKey)))).

Record FontExport : Type := mkFontExport {
  fe_figma_style_name : option string;
  fe_font_family : string;
  fe_font_size : FontSize;
  fe_font_weight : string;
  fe_lvgl_font : string;
  fe_lvgl_declaration : string
}.

Record ColorExport : Type := mkColorExport {
  ce_figma_style_name : option string;
  ce_hex : string;
  ce_rgb565 : string;
  ce_lvgl_color : string;
  ce_lvgl_macro : string
}.

Record LVGLJson : Type := mkLVGLJson {
  json_colors : gmap string ColorExport;
  json_typography : gmap string FontExport
}.

(** The names an object literal inherits from [Object.prototype] that
    consist of lower-case letters, digits and underscores only: a read of
    [obj[name]] finds a truthy value for them even when [obj] has no such
    property of its own. *)
Definition inheritedName (k : string) : bool :=
  String.eqb k "constructor" || String.eqb k "__proto__".

(** [if (!obj[k]) obj[k] = v] on an object literal whose own values are
    objects. *)
Definition assignIfFalsy {V : Type} (k : string) (v : V) (obj : gmap string V) : gmap string V :=
  match obj !! k with
  | Some _ => obj
  | None => if inheritedName k then obj else <[ k := v ]> obj
  end.

Definition fontSizeOrDefault (s : FontSize) : FontSize :=
  match s with
  | SizeNumber q => if JS.eqb q 0 then SizeNumber 12 else s
  | _ => s
  end.

Definition truthyOrNull (o : option string) : option string :=
  if truthy_opt o then o else None.

Definition fontStyleKey (font : FontUsage) : string :=
  let fontFamily := JS.or_else (fu_fontFamily font) "unknown" in
  let fontStyle := JS.or_else (fu_fontStyle font) "regular" in
  let fontSize := fontSizeOrDefault (fu_fontSize font) in
  match truthyOrNull (fu_styleName font) with
  | Some styleName => styleName
  | None => fontFamily ++ "_" ++ fontStyle ++ "_" ++ fontSizeToString fractionToString fontSize
  end.

Definition fontExportOf (font : FontUsage) : string * FontExport :=
  let fontFamily := JS.or_else (fu_fontFamily font) "unknown" in
  let fontStyle := JS.or_else (fu_fontStyle font) "regular" in
  let fontSize := fontSizeOrDefault (fu_fontSize font) in
  let lvglName := sanitizeIdentifier (fontStyleKey font) in
  (lvglName,
   {| fe_figma_style_name := truthyOrNull (fu_styleName font);
      fe_font_family := fontFamily;
      fe_font_size := fontSize;
      fe_font_weight := fontStyle;
      fe_lvgl_font := "&" ++ lvglName;
      fe_lvgl_declaration := "LV_FONT_DECLARE(" ++ lvglName ++ ");" |}).

Definition colorStyleKey (color : ColorUsage) : string :=
  let hex := JS.or_else (cu_hex color) "#000000" in
  match truthyOrNull (cu_styleName color) with
  | Some styleName => styleName
  | None => JS.replace_first "#" "color_" hex
  end.

Definition colorExportOf (color : ColorUsage) : string * ColorExport :=
  let hex := JS.or_else (cu_hex color) "#000000" in
  let rgb565 := JS.or_else (cu_rgb565 color) (hexToRgb565 hex) in
  let lvglName := sanitizeIdentifier (colorStyleKey color) in
  (lvglName,
   {| ce_figma_style_name := truthyOrNull (cu_styleName color);
      ce_hex := hex;
      ce_rgb565 := rgb565;
      ce_lvgl_color := "lv_color_hex(" ++ JS.replace_first "#" "0x" hex ++ ")";
      ce_lvgl_macro := "#define " ++ JS.toUpperCase lvglName ++ " " ++ rgb565 |}).

Definition exportFont (jsonData : LVGLJson) (font : FontUsage) : LVGLJson :=
  let (lvglName, entry) := fontExportOf font in
  {| json_colors := json_colors jsonData;
     json_typography := assignIfFalsy lvglName entry (json_typography jsonData) |}.

Definition exportColor (jsonData : LVGLJson) (color : ColorUsage) : LVGLJson :=
  let (lvglName, entry) := colorExportOf color in
  {| json_colors := assignIfFalsy lvglName entry (json_colors jsonData);
     json_typography := json_typography jsonData |}.

Definition exportRecord (jsonData : LVGLJson) (entry : string * AnalysisData) : LVGLJson :=
  let analysisData := snd entry in
  fold_left exportColor (ad_colors analysisData)
    (fold_left exportFont (ad_fonts analysisData) jsonData).

(** Generate simplified JSON export for LVGL stylesheet *)
Definition generateLVGLJson (globalAnalysisData : list (string * AnalysisData)) : LVGLJson :=
  fold_left exportRecord globalAnalysisData
    {| json_colors := ∅; json_typography := ∅ |}.

End Encoder.

(** ** Selection and the analysis page *)

(** A scene node as the selection check and the layout of the analysis
    page read it. *)
Record SceneNode : Type := mkSceneNode {
  sn_type : string;
  sn_name : string;
  sn_x : Q;
  sn_width : Q
}.

Inductive ValidationResult : Type :=
| Invalid (message : string)
| Valid (frames : list SceneNode).

(** [[...new Set(l)]]: the first occurrence of every string, in order. *)
Definition uniqueStrings (l : list string) : list string :=
  fold_left (fun (seen : list string) s =>
               if bool_decide (s ∈ seen) then seen else (seen ++ [s])%list) l [].

(** [Array.prototype.join] *)
Fixpoint join (sep : string) (l : list string) : string :=
  match l with
  | [] => ""
  | [s] => s
  | s :: l' => s ++ sep ++ join sep l'
  end.

(** Validate user selection *)
Definition validateSelection (selection : list SceneNode) : ValidationResult :=
  if Nat.eqb (length selection) 0 then
    Invalid "Please select one or more frames to analyze. Click on frames in your design and try again."
  else
    let frameNodes := List.filter (fun node => String.eqb (sn_type node) "FRAME") selection in
    if Nat.eqb (length frameNodes) 0 then
      let nodeTypes :=
        uniqueStrings
          (map (fun node => JS.replace_first "_" " " (JS.toLowerCase (sn_type node)))
             selection) in
      Invalid ("Selected elements are " ++ join ", " nodeTypes
               ++ ", not frames. Please select one or more frames to analyze.")
    else if (length frameNodes <? length selection)%nat then
      let nonFrameCount := (length selection - length frameNodes)%nat in
      Invalid ("Selection includes " ++ JS.toString10 (Z.of_nat nonFrameCount)
               ++ " non-frame element(s). Please select only frames for analysis.")
    else Valid frameNodes.

(** [String.prototype.startsWith] *)
Definition startsWith (s searchString : string) : bool := String.prefix searchString s.

(** The name [createAnalysisFrame] gives to the analysis frame of a frame,
    with the time of the analysis. *)
Definition analysisFrameName (frameName timestamp : string) : string :=
  "Analysis: " ++ frameName ++ " (" ++ timestamp ++ ")".

(** Find existing analysis frame for the given original frame on the
    analysis page; the page is the list of its nodes in the order
    [findAll] visits them. *)
Definition findExistingAnalysisFrame (originalFrameName : string)
    (analysisPage : list SceneNode) : option SceneNode :=
  let expectedAnalysisName := "Analysis: " ++ originalFrameName in
  let allFrames := List.filter (fun node => String.eqb (sn_type node) "FRAME") analysisPage in
  List.find (fun frame => startsWith (sn_name frame) expectedAnalysisName) allFrames.


Definition isAnalysisFrame (node : SceneNode) : bool :=
  String.eqb (sn_type node) "FRAME"
  && startsWith (sn_name node) "Analysis: "
  && negb (String.eqb (sn_name node) "Summary Analysis").



(** ** Fonts of the analysis output *)

Record Font : Type := mkFont { font_family : string; font_style : string }.

(** [`${fontName.family}-${fontName.style}`] *)
Definition fontCacheKey (fontName : Font) : string :=
  font_family fontName ++ "-" ++ font_style fontName.

(** [String.prototype.split] with a separator of one character. *)
Fixpoint splitChars (sep : ascii) (l : list ascii) : list (list ascii) :=
  match l with
  | [] => [[]]
  | c :: l' =>
      if Ascii.eqb c sep then [] :: splitChars sep l'
      else match splitChars sep l' with
           | part :: parts => (c :: part) :: parts
           | [] => [[c]]
           end
  end.

Definition split (sep : ascii) (s : string) : list string :=
  map string_of_list_ascii (splitChars sep (list_ascii_of_string s)).

(** [const [family, style] = fontKey.split('-')]; the keys split here are
    built with a hyphen, so that there always is a second part. *)
Definition fontOfKey (fontKey : string) : Font :=
  let parts := split "-" fontKey in
  {| font_family := nth 0 parts ""; font_style := nth 1 parts "" |}.

(** [foundFonts.add(key)] on a [Set], kept in insertion order. *)
Definition setAdd (s : string) (found : list string) : list string :=
  if bool_decide (s ∈ found) then found else (found ++ [s])%list.

(** The loop over a sample of text nodes: [textNodes.slice(0, limit)]. *)
Definition scanTextNodes (limit : nat) (textNodes : list FontNameField)
    (foundFonts : list string) : list string :=
  fold_left
    (fun found fontName =>
       match fontName with
       | FontName family style =>
           if JS.truthy family && JS.truthy style
           then setAdd (family ++ "-" ++ style) found else found
       | FontNameAbsent | FontNameMixed => found
       end)
    (take limit textNodes) foundFonts.

(** What the font scan reads of the document: for every selected node the
    [fontName] of its text nodes, in the order [findAll] returns them
    ([None] for a node without [findAll] or whose [findAll] raises), and
    the text nodes of the current page ([None] if that scan raises). *)
Record FontDocument : Type := mkFontDocument {
  doc_selection : list (option (list FontNameField));
  doc_page : option (list FontNameField)
}.

Definition universalFonts : list Font :=
  [mkFont "Arial" "Regular"; mkFont "Helvetica" "Regular"; mkFont "Times" "Regular"].

(** The body of the scan in [getAvailableFonts]. *)
Definition scanFonts (doc : FontDocument) : list Font :=
  let foundInSelection :=
    fold_left
      (fun found selectedNode =>
         match selectedNode with
         | Some textNodes => scanTextNodes 10 textNodes found
         | None => found
         end)
      (doc_selection doc) [] in
  let foundFonts :=
    if Nat.eqb (length foundInSelection) 0
    then match doc_page doc with
         | Some allTextNodes => scanTextNodes 20 allTextNodes foundInSelection
         | None => foundInSelection
         end
    else foundInSelection in
  let fonts := map fontOfKey foundFonts in
  if (0 <? length fonts)%nat then fonts else universalFonts.

(** The module-level font cache and the memoised list of fonts. *)
Record FontState : Type := mkFontState {
  fontCache : list (string * Font);
  availableFonts : option (list Font)
}.

(** Get available fonts in the document (optimized with caching) *)
Definition getAvailableFonts (doc : FontDocument) (st : FontState) : list Font * FontState :=
  match availableFonts st with
  | Some fonts => (fonts, st)
  | None =>
      let fonts := scanFonts doc in
      (fonts, {| fontCache := fontCache st; availableFonts := Some fonts |})
  end.

Definition systemFallbacks : list Font :=
  [mkFont "Inter" "Regular"; mkFont "Roboto" "Regular";
   mkFont "Arial" "Regular"; mkFont "Helvetica" "Regular"].

Definition cacheFont (key : string) (font : Font) (st : FontState) : FontState :=
  {| fontCache := JSMap.set key font (fontCache st); availableFonts := availableFonts st |}.

Section Fonts.

(** The host's [figma.loadFontAsync]: [true] when the promise resolves,
    [false] when it is rejected. *)
Variable loadFontAsync : Font -> bool.

Variable doc : FontDocument.

Definition loadFontCached (fontName : Font) (st : FontState) : Font * FontState :=
  let key := fontCacheKey fontName in
  match JSMap.get key (fontCache st) with
  | None =>
      if loadFontAsync fontName then (fontName, cacheFont key fontName st)
      else
        let (available, st1) := getAvailableFonts doc st in
        match List.find loadFontAsync available with
        | Some availableFont => (availableFont, cacheFont key availableFont st1)
        | None =>
            match List.find loadFontAsync systemFallbacks with
            | Some fallback => (fallback, cacheFont key fallback st1)
            | None => (fontName, cacheFont key fontName st1)
            end
        end
  | Some cached => (cached, st)
  end.

End Fonts.

(** A string without hyphen. *)
Definition hyphenFree (s : string) : bool :=
  forallb (fun c => negb (Ascii.eqb c "-")) (list_ascii_of_string s).

(** ** The cache of records and the frame history *)

(** Store analysis data for summary *)
Definition storeAnalysisData {A : Type} (frameName : string) (analysisData : A)
    (globalAnalysisData : list (string * A)) : list (string * A) :=
  JSMap.set frameName analysisData globalAnalysisData.

(** An entry of the frame history. *)
Record FrameData : Type := mkFrameData {
  fh_id : string;
  fh_name : string;
  fh_lastAnalyzed : string;
  fh_elementCount : nat;
  fh_analysisFrameId : string;
  fh_exists : bool
}.

(** The history is an object keyed by frame id: an association list.
    Node ids are not array indices, so that the object enumerates its keys
    in insertion order.  The two stores of the history: the plugin data
    of the document ([None]: no data, the empty string) and the client
    storage ([None]: nothing stored). *)
Record HistoryStorage : Type := mkHistoryStorage {
  docData : option (list (string * FrameData));
  clientData : option (list (string * FrameData))
}.

(** Frame history management (document-based storage) *)
Definition getAnalyzedFramesList (storage : HistoryStorage)
    : list (string * FrameData) * HistoryStorage :=
  match docData storage with
  | Some framesList => (framesList, storage)
  | None =>
      let framesList := match clientData storage with Some l => l | None => [] end in
      if (0 <? length (JSMap.keys framesList))%nat
      then (framesList, {| docData := Some framesList; clientData := clientData storage |})
      else (framesList, storage)
  end.

(** What [analyzeSelectedFrame] passes to [saveAnalyzedFrame]. *)
Record FrameSummary : Type := mkFrameSummary {
  fs_name : string;
  fs_elementCount : nat;
  fs_analysisFrameId : string
}.

(** [now] is [new Date().toISOString()]. *)
Definition saveAnalyzedFrame (now : string) (frameId : string) (frameData : FrameSummary)
    (storage : HistoryStorage) : HistoryStorage :=
  let (framesList, _) := getAnalyzedFramesList storage in
  let framesList :=
    JSMap.set frameId
      {| fh_id := frameId;
         fh_name := fs_name frameData;
         fh_lastAnalyzed := now;
         fh_elementCount := fs_elementCount frameData;
         fh_analysisFrameId := fs_analysisFrameId frameData;
         fh_exists := true |}
      framesList in
  {| docData := Some framesList; clientData := Some framesList |}.

Definition withExists (frameData : FrameData) : FrameData :=
  {| fh_id := fh_id frameData;
     fh_name := fh_name frameData;
     fh_lastAnalyzed := fh_lastAnalyzed frameData;
     fh_elementCount := fh_elementCount frameData;
     fh_analysisFrameId := fh_analysisFrameId frameData;
     fh_exists := true |}.

(** A node of the document with the chain of its parents: a node
    without parent, or a node below another. *)
Inductive DocNode : Type :=
| DocTop (type name : string)
| DocBelow (type name : string) (parent : DocNode).

Definition dn_type (node : DocNode) : string :=
  match node with DocTop type _ | DocBelow type _ _ => type end.
Definition dn_name (node : DocNode) : string :=
  match node with DocTop _ name | DocBelow _ name _ => name end.
Definition dn_parent (node : DocNode) : option DocNode :=
  match node with DocTop _ _ => None | DocBelow _ _ parent => Some parent end.

(** The loop of [getNodePage], entered with [parent]. *)
Fixpoint pageFrom (parent : DocNode) : option DocNode :=
  if negb (String.eqb (dn_type parent) "PAGE")
     && negb (String.eqb (dn_type parent) "DOCUMENT")
  then match parent with
       | DocBelow _ _ above => pageFrom above
       | DocTop _ _ => None
       end
  else if String.eqb (dn_type parent) "PAGE" then Some parent else None.

(** Determine the page for a given node *)
Definition getNodePage (node : DocNode) : option DocNode :=
  match dn_parent node with
  | Some parent => pageFrom parent
  | None => None
  end.

Section History.

(** [figma.getNodeById]: [None] stands for [null] and for a lookup that
    raises; the callers treat both alike. *)
Variable getNodeById : string -> option DocNode.

Definition frameStillExists (frameId : string) : bool :=
  match getNodeById frameId with
  | Some frame => String.eqb (dn_type frame) "FRAME" || String.eqb (dn_type frame) "COMPONENT"
  | None => false
  end.

(** The loop of [cleanupAnalyzedFrames]: the list being built and the
    flag [hasChanges]. *)
Definition cleanupStep (acc : list (string * FrameData) * bool) (entry : string * FrameData)
    : list (string * FrameData) * bool :=
  let (updatedFramesList, hasChanges) := acc in
  let (frameId, frameData) := entry in
  if frameStillExists frameId
  then (JSMap.set frameId (withExists frameData) updatedFramesList, hasChanges)
  else (updatedFramesList, true).

Definition cleanupAnalyzedFrames (storage : HistoryStorage)
    : list (string * FrameData) * HistoryStorage :=
  let (framesList, storage1) := getAnalyzedFramesList storage in
  let (updatedFramesList, hasChanges) := fold_left cleanupStep framesList ([], false) in
  if hasChanges
  then (updatedFramesList,
        {| docData := Some updatedFramesList; clientData := Some updatedFramesList |})
  else (updatedFramesList, storage1).

(** The test of [getFilteredAnalyzedFramesList] on one entry. *)
Definition hasLiveAnalysis (data : FrameData) : bool :=
  if negb (JS.truthy (fh_analysisFrameId data)) then false
  else
    match getNodeById (fh_analysisFrameId data) with
    | None => false
    | Some analysisNode =>
        if negb (String.eqb (dn_type analysisNode) "FRAME") then false
        else if negb (JS.truthy (dn_name analysisNode))
                || negb (startsWith (dn_name analysisNode) "Analysis:") then false
        else match getNodePage analysisNode with
             | None => false
             | Some page => String.eqb (dn_name page) "Frames Analysed"
             end
    end.

(** Return only analyzed frames that currently have an analysis frame on
    the "Frames Analysed" page *)
Definition getFilteredAnalyzedFramesList (storage : HistoryStorage)
    : list (string * FrameData) * HistoryStorage :=
  let (framesList, storage1) := getAnalyzedFramesList storage in
  (fold_left
     (fun filtered (entry : string * FrameData) =>
        if hasLiveAnalysis (snd entry)
        then JSMap.set (fst entry) (snd entry) filtered else filtered)
     framesList [],
   storage1).

End History.

(** ** The specification's own vocabulary

    The definitions below follow the wording of the specification; the
    theorems of Part II compare them with the definitions above. *)

(** The nearest integer to [a / b] for [b > 0], halves rounded up. *)
Definition nearest (a b : Z) : Z := (2 * a + b) / (2 * b).

(** One upper-case hexadecimal digit, and numbers printed on two and four
    such digits. *)
Definition hexDigitUpper (d : Z) : ascii :=
  if d <? 10 then ascii_of_N (Z.to_N (48 + d)) else ascii_of_N (Z.to_N (55 + d)).

Definition hex2 (v : Z) : string :=
  string_of_list_ascii [hexDigitUpper (v / 16); hexDigitUpper (v mod 16)].

Definition hex4 (v : Z) : string :=
  string_of_list_ascii
    [hexDigitUpper (v / 4096); hexDigitUpper ((v / 256) mod 16);
     hexDigitUpper ((v / 16) mod 16); hexDigitUpper (v mod 16)].

(** The value of a channel written on two hexadecimal digits. *)
Definition byteOf (hi lo : ascii) : Z := 16 * JS.hex_val hi + JS.hex_val lo.

(** [(R5 << 11) | (G6 << 5) | B5] on unbounded integers. *)
Definition rgb565Of (R G B : Z) : Z :=
  Z.lor (Z.lor (Z.shiftl (nearest (R * 31) 255) 11)
               (Z.shiftl (nearest (G * 63) 255) 5))
        (nearest (B * 31) 255).

(** Six hexadecimal digits. *)
Definition sixHexDigits (body : list ascii) : bool :=
  Nat.eqb (length body) 6 && forallb JS.is_hex_digit body.

(** The pattern ["#RRGGBB"]: a hash sign, then six hexadecimal digits. *)
Definition matchesHashRRGGBB (s : string) : bool :=
  match list_ascii_of_string s with
  | c :: body => Ascii.eqb c "#" && sixHexDigits body
  | [] => false
  end.

(** Six hexadecimal digits, optionally preceded by a hash sign. *)
Definition matchesOptionalHashRRGGBB (s : string) : bool :=
  matchesHashRRGGBB s || sixHexDigits (list_ascii_of_string s).

(** What [toHex] prints for a channel whose scaled and rounded value
    is [n]. *)
Definition toHexOfZ (n : Z) : string :=
  let hex := JS.toString16 n in
  if Nat.eqb (String.length hex) 1 then "0" ++ hex else hex.

(** The shape [#RRGGBB] of an upper-case colour string. *)
Definition isUpperHexDigit (c : ascii) : bool :=
  JS.is_digit c || JS.in_range 65 70 c.

Definition hasShapeHashRRGGBB (s : string) : bool :=
  match list_ascii_of_string s with
  | c :: body => Ascii.eqb c "#" && Nat.eqb (length body) 6 && forallb isUpperHexDigit body
  | [] => false
  end.

(** A letter read without regard to case. *)
Definition sameLetter (c t : ascii) : bool :=
  Ascii.eqb (JS.upper_char c) (JS.upper_char t).

(** [l] starts with the letters of [tok], in either case: what follows
    them in [l], with the last character read before that point. *)
Fixpoint stripToken (tok : list ascii) (prev : option ascii) (l : list ascii)
  : option (option ascii * list ascii) :=
  match tok with
  | [] => Some (prev, l)
  | t :: tok' =>
      match l with
      | c :: l' => if sameLetter c t then stripToken tok' (Some c) l' else None
      | [] => None
      end
  end.

(** A word ends where the string ends or at a character of the class
    [boundary]. *)
Definition limitOK (boundary : ascii -> bool) (o : option ascii) : bool :=
  match o with None => true | Some c => boundary c end.

Definition tokenAt (boundary : ascii -> bool) (tok l : list ascii) : bool :=
  match stripToken tok None l with
  | Some (_, rest) => limitOK boundary (head rest)
  | None => false
  end.

(** The same test after a token read from a position whose previous
    character is [p]. *)
Definition tokenLimit (boundary : ascii -> bool) (tok : list ascii)
    (p : option ascii) (l : list ascii) : bool :=
  match stripToken tok p l with
  | Some (_, rest) => limitOK boundary (head rest)
  | None => false
  end.

(** One of the tokens stands as a whole word somewhere in [l]; [prev] is
    the character before [l]. *)
Fixpoint wholeWordFrom (boundary : ascii -> bool) (toks : list (list ascii))
    (prev : option ascii) (l : list ascii) : bool :=
  (limitOK boundary prev && existsb (fun tok => tokenAt boundary tok l) toks)
  || match l with
     | c :: l' => wholeWordFrom boundary toks (Some c) l'
     | [] => false
     end.

Definition hasWholeWord (boundary : ascii -> bool) (toks : list string) (s : string) : bool :=
  wholeWordFrom boundary (map list_ascii_of_string toks) None (list_ascii_of_string s).

(** The tokens of the icon rule. *)
Definition iconTokens : list string := ["ic"; "icon"].

(** The word limits the claim enumerates (underscore, hyphen, white
    space), and the ones the pattern of the code accepts (any character
    that is not an ASCII letter or digit). *)
Definition enumeratedLimit (c : ascii) : bool := isSepChar c.
Definition notAlnum (c : ascii) : bool := negb (JS.is_alnum c).

(** A string contains the letters of [tok], in either case. *)
Fixpoint containsToken (tok l : list ascii) : bool :=
  match stripToken tok None l with Some _ => true | None => false end
  || match l with
     | _ :: l' => containsToken tok l'
     | [] => false
     end.

Definition containsIcon (s : string) : bool :=
  containsToken (list_ascii_of_string "icon") (list_ascii_of_string s).

(** The heap differs from the initial heap [h0] only by flags that the
    pass has written, and the flag written is always the outcome of the
    test on the initial object. *)
Definition reclassInv (h0 h : heap) : Prop :=
  forall c, h c = h0 c \/ h c = setIsIcon (looksIcon (h0 c)) (h0 c).

(** A map filled from a sequence of values with
    [if (!m.has(key(x))) m.set(key(x), x)], and the maps whose entries sit
    under their own key. *)
Section FirstWinsDefs.
Context {K V : Type} `{EqDecision K} (key : V -> K).

Definition aggregate (m : list (K * V)) (l : list V) : list (K * V) :=
  fold_left (fun m x => JSMap.setIfAbsent (key x) x m) l m.

Definition keyed (m : list (K * V)) : Prop :=
  forall k v, In (k, v) m -> key v = k.

End FirstWinsDefs.

(** The keys and the sequences of the aggregator.  [normalizedComponents]
    and [normalizedIcons] are the entries of the cached records in
    iteration order, as the reclassification pass files them. *)
Definition componentKeyAt (h : heap) (c : loc) : string := componentKey (h c).

Definition normalizedComponents (h : heap) (cache : list (string * AnalysisData)) : list loc :=
  flat_map (fun e => List.filter (fun c => negb (looksIcon (h c)))
                       (ad_components (snd e) ++ ad_icons (snd e))) cache.

Definition normalizedIcons (h : heap) (cache : list (string * AnalysisData)) : list loc :=
  flat_map (fun e => List.filter (fun c => looksIcon (h c))
                       (ad_components (snd e) ++ ad_icons (snd e))) cache.

Definition cachedFonts (cache : list (string * AnalysisData)) : list FontUsage :=
  flat_map (fun e => ad_fonts (snd e)) cache.

Definition cachedColors (cache : list (string * AnalysisData)) : list ColorUsage :=
  flat_map (fun e => ad_colors (snd e)) cache.

(** The first element of a sequence with a given key. *)
Definition firstWith {A K : Type} `{EqDecision K} (key : A -> K) (k : K) (l : list A) : option A :=
  List.find (fun x => bool_decide (key x = k)) l.

(** Example data: two cached records.  The first holds a standalone
    component "Button" counted five times and a component named
    "ic_close"; the second holds another "Button" object counted three
    times.  Red occurs at full opacity in the first record and at half
    opacity in the second. *)
Definition exampleHeap : heap :=
  fun c =>
    match c with
    | O => mkComponentReference "Button" None "Button" "key-a" "1:1" false 5 false "" ""
    | S O => mkComponentReference "Button" None "Button" "key-b" "2:1" false 3 false "" ""
    | _ => mkComponentReference "ic_close" None "ic_close" "key-c" "1:9" false 1 false "" ""
    end.

Definition exampleRed (opacity : Q) : ColorUsage :=
  mkColorUsage "#FF0000" "0xF800" opacity (colorKeyOf "#FF0000" opacity) None Fill.

Definition exampleCache : list (string * AnalysisData) :=
  [("Frame A", mkAnalysisData [0%nat; 2%nat] [] [] [exampleRed 1]);
   ("Frame B", mkAnalysisData [1%nat] [] [] [exampleRed (1 # 2)])].

(** The identifier rule in the words of the specification: strip every
    character that is not alphanumeric, underscore, hyphen or (white)
    space; replace every maximal run of spaces and hyphens by one
    underscore; lower-case the result.  The underscore of a run is emitted
    where the run ends. *)
Fixpoint collapseSpec (l : list ascii) : list ascii :=
  match l with
  | [] => []
  | c :: l' =>
      if isSpaceOrHyphen c
      then match l' with
           | c' :: _ => if isSpaceOrHyphen c' then collapseSpec l' else "_"%char :: collapseSpec l'
           | [] => ["_"%char]
           end
      else c :: collapseSpec l'
  end.

Definition sanitizeSpec (name : string) : string :=
  string_of_list_ascii
    (map JS.lower_char
       (collapseSpec
          (List.filter
             (fun c => JS.is_alnum c || Ascii.eqb c "_" || Ascii.eqb c "-" || JS.is_space c)
             (list_ascii_of_string name)))).

(** The sequence of values written into one dictionary of the export. *)
Definition writeAll {A V : Type} (entryOf : A -> string * V) (l : list A)
    (obj : gmap string V) : gmap string V :=
  fold_left (fun obj x => assignIfFalsy (fst (entryOf x)) (snd (entryOf x)) obj) l obj.

(** The effect of one paint on the [colors] map. *)
Definition paintColors (getStyleById : string -> option Style) (type : ColorType)
    (styleId : string) (colors : list (string * ColorInfo)) (p : Paint)
  : list (string * ColorInfo) :=
  match paintCounts p with
  | Some color =>
      let hex := rgbToHex (rgb_r color) (rgb_g color) (rgb_b color) in
      let opacity := paintOpacity p in
      upsertColor (colorKeyOf hex opacity) hex opacity
        (option_map style_name (lookupStyle getStyleById styleId)) type colors
  | None => colors
  end.

Definition paintsOf (o : option (list Paint)) : list Paint :=
  match o with Some l => l | None => [] end.

(** The effect of one node's fills and strokes on the [colors] map. *)
Definition nodeColors (getStyleById : string -> option Style) (node : Node)
    (colors : list (string * ColorInfo)) : list (string * ColorInfo) :=
  fold_left (paintColors getStyleById Stroke (n_strokeStyleId node)) (paintsOf (n_strokes node))
    (fold_left (paintColors getStyleById Fill (n_fillStyleId node)) (paintsOf (n_fills node))
       colors).



(** Opacities the host can report, and opacities of stored entries. *)
Definition paintInRange (p : Paint) : Prop :=
  forall o, paint_opacity p = Some o -> (0 <= o <= 1)%Q.

Definition nodeInRange (node : Node) : Prop :=
  Forall paintInRange (paintsOf (n_fills node))
  /\ Forall paintInRange (paintsOf (n_strokes node)).

Definition opacitiesInRange (colors : list (string * ColorInfo)) : Prop :=
  Forall (fun e => (0 < ci_opacity (snd e) <= 1)%Q) colors.

(** The exclusion rule as the claim words it: invisible, or both sizes
    round to less than one unit. *)
Definition excludedAsWorded (node : Node) : bool :=
  negb (n_visible node)
  || ((JS.Math_round (n_width node) <? 1) && (JS.Math_round (n_height node) <? 1)).

(** Example data for the extractor: one named style, rectangles with solid
    paints. *)
Definition exampleStyles (styleId : string) : option Style :=
  if String.eqb styleId "S:1"
  then Some {| style_name := "Brand/Red"; style_fontSize := None |}
  else None.

Definition solid (color : RGB) (opacity : option Q) : Paint :=
  {| paint_type := "SOLID"; paint_color := Some color; paint_visible := true;
     paint_opacity := opacity |}.

Definition rectangle (nodeId : string) (width height : Q)
    (fills : list Paint) (fillStyleId : string) (strokes : list Paint) : Node :=
  {| n_id := nodeId; n_type := "RECTANGLE"; n_removed := false; n_visible := true;
     n_width := width; n_height := height;
     n_mainComponent := false; n_getMainComponent := Some None;
     n_fontName := FontNameAbsent; n_fontSize := FontSizeFalsy; n_textStyleId := "";
     n_fills := Some fills; n_fillStyleId := fillStyleId;
     n_strokes := Some strokes; n_strokeStyleId := "";
     n_effectStyleId := "" |}.

Definition red : RGB := {| rgb_r := 1; rgb_g := 0; rgb_b := 0 |}.

Definition exampleFrame (descendants : list Node) : Frame :=
  {| f_node :=
       {| n_id := "0:1"; n_type := "FRAME"; n_removed := false; n_visible := true;
          n_width := 800; n_height := 480;
          n_mainComponent := false; n_getMainComponent := Some None;
          n_fontName := FontNameAbsent; n_fontSize := FontSizeFalsy; n_textStyleId := "";
          n_fills := Some []; n_fillStyleId := "";
          n_strokes := Some []; n_strokeStyleId := "";
          n_effectStyleId := "" |};
     f_name := "Screen";
     f_descendants := descendants |}.

(** ** Vocabulary for the accounts of a pass *)

(** The name under which an instance's main component is filed: the name
    of its variant set when it has one, its own name otherwise. *)
Definition masterNameOf (mainComponent : MainComponent) : string :=
  match mc_parent mainComponent with
  | Some p =>
      if String.eqb (parent_type p) "COMPONENT_SET"
      then parent_name p else mc_name mainComponent
  | None => mc_name mainComponent
  end.

(** The main component that a node is counted against, when
    [analyzeNode] reaches the counting code for it. *)
Definition instanceOf (node : Node) : option MainComponent :=
  if nodeIsValid node && negb (skippedByGate node)
     && String.eqb (n_type node) "INSTANCE" && n_mainComponent node
  then match n_getMainComponent node with
       | Some (Some mainComponent) =>
           if JS.truthy (mc_name mainComponent)
              && (JS.truthy (mc_key mainComponent) || JS.truthy (mc_id mainComponent))
              && JS.truthy (masterNameOf mainComponent)
           then Some mainComponent else None
       | _ => None
       end
  else None.

Definition isInstance (node : Node) : bool :=
  match instanceOf node with Some _ => true | None => false end.

(** The sum of [instanceCount] over a map, and over both maps of a pass. *)
Definition countSum (m : list (string * ComponentReference)) : Z :=
  fold_right (fun e acc => cr_instanceCount (snd e) + acc) 0 m.

Definition instanceTotal (st : PassState) : Z :=
  countSum (components st) + countSum (icons st).

(** Entries as [analyzeNode] leaves them in the [components] map and in
    the [icons] map. *)
Definition filedAs (isIcon : bool) (e : string * ComponentReference) : Prop :=
  1 <= cr_instanceCount (snd e)
  /\ cr_isIcon (snd e) = isIcon
  /\ looksIcon (snd e) = isIcon
  /\ fst e = JS.or_else (cr_key (snd e)) (cr_id (snd e)).

(** Entries of the [colors] and [fonts] maps sit under the key computed
    from their own fields. *)
Definition colorKeyed (e : string * ColorInfo) : Prop :=
  fst e = colorKeyOf (ci_hex (snd e)) (ci_opacity (snd e)).

Definition fontKeyed (fractionToString : Q -> string) (e : string * FontInfo) : Prop :=
  fst e = fontKeyOf fractionToString (fi_fontFamily (snd e)) (fi_fontStyle (snd e))
            (fi_fontSize (snd e)).

Record passInvariant (fractionToString : Q -> string) (st : PassState) : Prop :=
  mkPassInvariant {
    inv_components_keys : List.NoDup (JSMap.keys (components st));
    inv_icons_keys : List.NoDup (JSMap.keys (icons st));
    inv_fonts_keys : List.NoDup (JSMap.keys (fonts st));
    inv_colors_keys : List.NoDup (JSMap.keys (colors st));
    inv_textStyles_keys : List.NoDup (JSMap.keys (textStyles st));
    inv_components : Forall (filedAs false) (components st);
    inv_icons : Forall (filedAs true) (icons st);
    inv_fonts : Forall (fontKeyed fractionToString) (fonts st);
    inv_colors : Forall colorKeyed (colors st)
  }.


(** Example data: a main component outside any variant set and an
    instance node of it. *)
Definition exampleMain (name key : string) : MainComponent :=
  {| mc_name := name; mc_key := key; mc_id := "9:1"; mc_parent := None;
     mc_variantProperties := VPAbsent; mc_width := 24; mc_height := 24 |}.

Definition instanceNode (nodeId : string) (mainComponent : MainComponent) : Node :=
  {| n_id := nodeId; n_type := "INSTANCE"; n_removed := false; n_visible := true;
     n_width := 24; n_height := 24;
     n_mainComponent := true; n_getMainComponent := Some (Some mainComponent);
     n_fontName := FontNameAbsent; n_fontSize := FontSizeFalsy; n_textStyleId := "";
     n_fills := None; n_fillStyleId := "";
     n_strokes := None; n_strokeStyleId := "";
     n_effectStyleId := "" |}.

(** The characters of an exported identifier: [a-z], [0-9] and the
    underscore. *)
Definition isIdentChar (c : ascii) : bool :=
  JS.is_lower c || JS.is_digit c || Ascii.eqb c "_".

Definition isIdentifier (s : string) : bool :=
  forallb isIdentChar (list_ascii_of_string s).

(** Every style name attached to an entry of the [colors] map is in the
    [colorStyles] set, and every style name attached to an entry of the
    [fonts] map is a key of the [textStyles] map. *)
Definition styledColors (st : PassState) : Prop :=
  Forall (fun e => forall name, ci_styleName (snd e) = Some name -> name ∈ colorStyles st)
    (colors st).

Definition styledFonts (st : PassState) : Prop :=
  Forall (fun e => forall name,
              fi_styleName (snd e) = Some name -> In name (JSMap.keys (textStyles st)))
    (fonts st).

(** The entry that [analyzeNode] writes into the [textStyles] map for a
    text node whose text style resolves. *)
Definition textStyleOf (getStyleById : string -> option Style) (node : Node)
    : option (string * TextStyleInfo) :=
  match n_fontName node with
  | FontName family style =>
      match lookupStyle getStyleById (n_textStyleId node) with
      | Some s =>
          Some (style_name s,
                {| ts_fontFamily := family; ts_fontStyle := style;
                   ts_fontSize := resolveFontSize getStyleById node |})
      | None => None
      end
  | FontNameAbsent | FontNameMixed => None
  end.

(** Example data: a text node. *)
Definition textNode (nodeId family style : string) (size : Q) (textStyleId : string) : Node :=
  {| n_id := nodeId; n_type := "TEXT"; n_removed := false; n_visible := true;
     n_width := 100; n_height := 20;
     n_mainComponent := false; n_getMainComponent := Some None;
     n_fontName := FontName family style; n_fontSize := FontSizeNumber size;
     n_textStyleId := textStyleId;
     n_fills := None; n_fillStyleId := "";
     n_strokes := None; n_strokeStyleId := "";
     n_effectStyleId := "" |}.

(** Colours the host can report: channels between 0 and 1. *)
Definition channelsInRange (color : RGB) : Prop :=
  (0 <= rgb_r color <= 1)%Q /\ (0 <= rgb_g color <= 1)%Q /\ (0 <= rgb_b color <= 1)%Q.

Definition paintChannelsInRange (p : Paint) : Prop :=
  forall color, paint_color p = Some color -> channelsInRange color.

Definition nodeChannelsInRange (node : Node) : Prop :=
  Forall paintChannelsInRange (paintsOf (n_fills node))
  /\ Forall paintChannelsInRange (paintsOf (n_strokes node)).

(** The colour strings written for three bytes. *)
Definition hexOfBytes (R G B : Z) : string := "#" ++ hex2 R ++ hex2 G ++ hex2 B.

Definition isByte (n : Z) : Prop := 0 <= n <= 255.

Definition hexFromBytes (e : string * ColorInfo) : Prop :=
  exists R G B, isByte R /\ isByte G /\ isByte B /\ ci_hex (snd e) = hexOfBytes R G B.

(** The percentage printed for an opacity. *)
Definition percentOf (opacity : Q) : string :=
  JS.toString10 (JS.Math_round (JS.mul opacity 100)).

(** The instances on which [analyzeNode] returns from the component
    block, before it reaches the fonts and the paints: the reference to the
    main component is broken, or the component it is filed under has no
    name. *)
Definition returnsEarly (node : Node) : bool :=
  String.eqb (n_type node) "INSTANCE"
  && (negb (n_mainComponent node)
      || match n_getMainComponent node with
         | Some (Some mainComponent) =>
             JS.truthy (mc_name mainComponent)
             && (JS.truthy (mc_key mainComponent) || JS.truthy (mc_id mainComponent))
             && negb (JS.truthy (masterNameOf mainComponent))
         | _ => false
         end).

(** An entry of the [colors] map keeps the colour, opacity and type of
    its first detection. *)
Definition colorKept (e e' : ColorInfo) : Prop :=
  ci_hex e' = ci_hex e /\ ci_opacity e' = ci_opacity e /\ ci_type e' = ci_type e.



(** ** Enumeration of integer ranges *)

(** The integers [start, start + 1, ...], [n] of them. *)
Fixpoint Zrange (start : Z) (n : nat) : list Z :=
  match n with
  | O => []
  | S n' => start :: Zrange (start + 1) n'
  end.

(* ===================================================================== *)
(** * Part II: theorems *)
(* ===================================================================== *)

(** ** Finite enumeration *)

Lemma in_Zrange z start n :
  start <= z < start + Z.of_nat n -> In z (Zrange start n).
Proof.
  revert start. induction n as [|n IH]; intros start H; simpl.
  - lia.
  - destruct (Z.eq_dec start z) as [->|Hne]; [now left|].
    right. apply IH. lia.
Qed.

Lemma forallb_Z_range (P : Z -> bool) (n : nat) (m : Z) :
  forallb P (Zrange 0 n) = true ->
  Z.of_nat n = m ->
  forall z, 0 <= z < m -> P z = true.
Proof.
  intros H <- z Hz.
  rewrite forallb_forall in H. apply H.
  apply in_Zrange. lia.
Qed.

(** A fact about an initial segment of the integers, established by
    evaluation. *)
Ltac Z_enum P n z Hz H :=
  pose proof (forallb_Z_range P n _ ltac:(vm_compute; reflexivity)
                ltac:(vm_compute; reflexivity) z Hz) as H;
  cbv beta in H.

Lemma ascii_forall (P : ascii -> bool) :
  forallb P (map (fun n => ascii_of_N (N.of_nat n)) (seq 0 256)) = true ->
  forall c, P c = true.
Proof.
  intros H c. rewrite forallb_forall in H. apply H.
  apply in_map_iff. exists (nat_of_ascii c). split.
  - unfold nat_of_ascii. rewrite N2Nat.id. apply ascii_N_embedding.
  - apply in_seq. pose proof (nat_ascii_bounded c). lia.
Qed.

(** ** Strings and characters *)

Lemma map_string_app f s1 s2 :
  JS.map_string f (s1 ++ s2) = JS.map_string f s1 ++ JS.map_string f s2.
Proof.
  induction s1 as [|c s1 IH]; simpl.
  - reflexivity.
  - unfold JS.map_string in *. simpl. now rewrite IH.
Qed.

(** A fact about all 256 characters, established by evaluation. *)
Ltac ascii_enum P c H :=
  pose proof (ascii_forall P ltac:(vm_compute; reflexivity) c) as H; cbv beta in H.

Lemma hex_digit_not_hash c : JS.is_hex_digit c = true -> Ascii.eqb "#" c = false.
Proof.
  intros Hc.
  ascii_enum (fun c => implb (JS.is_hex_digit c) (negb (Ascii.eqb "#" c))) c E.
  rewrite Hc in E. simpl in E. now apply negb_true_iff.
Qed.

Lemma hex_val_range c : JS.is_hex_digit c = true -> 0 <= JS.hex_val c <= 15.
Proof.
  intros Hc.
  ascii_enum (fun c => implb (JS.is_hex_digit c)
                         ((0 <=? JS.hex_val c) && (JS.hex_val c <=? 15))) c E.
  rewrite Hc in E. simpl in E. apply andb_true_iff in E. lia.
Qed.

Lemma byteOf_range hi lo :
  JS.is_hex_digit hi = true -> JS.is_hex_digit lo = true -> 0 <= byteOf hi lo <= 255.
Proof.
  intros H1 H2. pose proof (hex_val_range _ H1). pose proof (hex_val_range _ H2).
  unfold byteOf. lia.
Qed.

Lemma parseInt16_two hi lo :
  JS.parseInt16 (string_of_list_ascii [hi; lo]) = byteOf hi lo.
Proof. unfold JS.parseInt16, byteOf. simpl. lia. Qed.

(** ** Rounding *)

(** [Math.round] is the nearest integer, halves rounded up. *)
Lemma Math_round_spec (x : Q) :
  (inject_Z (JS.Math_round x) <= x + (1 # 2) < inject_Z (JS.Math_round x + 1))%Q.
Proof.
  unfold JS.Math_round. split; [apply Qfloor_le | apply Qlt_floor].
Qed.

Lemma Math_round_mono (x y : Q) : (x <= y)%Q -> JS.Math_round x <= JS.Math_round y.
Proof.
  intros H. unfold JS.Math_round. apply Qfloor_resp_le.
  apply Qplus_le_compat; [exact H | apply Qle_refl].
Qed.

(** On the bytes, the quotients of [hexToRgb565], computed on doubles,
    round to the integers of the formula [nearest]. *)
Lemma packed_channel (n : Z) :
  0 <= n <= 255 ->
  JS.Math_round (JS.div (JS.mul (inject_Z n) 31) 255) = nearest (n * 31) 255
  /\ JS.Math_round (JS.div (JS.mul (inject_Z n) 63) 255) = nearest (n * 63) 255.
Proof.
  intros Hn. assert (Hn' : 0 <= n < 256) by lia.
  Z_enum (fun z => (JS.Math_round (JS.div (JS.mul (inject_Z z) 31) 255) =? nearest (z * 31) 255)
                   && (JS.Math_round (JS.div (JS.mul (inject_Z z) 63) 255)
                       =? nearest (z * 63) 255))
         256%nat n Hn' E.
  apply andb_true_iff in E as [E1 E2]. split; lia.
Qed.

(** ** Products of doubles *)

Lemma pow2_pos (e : Z) : (0 < JS.pow2 e)%Q.
Proof.
  unfold JS.pow2. destruct (Z.leb_spec 0 e) as [H | H].
  - assert (P : 0 < 2 ^ e) by (apply Z.pow_pos_nonneg; lia).
    unfold Qlt. simpl. lia.
  - assert (P : 0 < 2 ^ (- e)) by (apply Z.pow_pos_nonneg; lia).
    apply Qlt_shift_div_l.
    + unfold Qlt. simpl. lia.
    + rewrite Qmult_0_l. reflexivity.
Qed.

Lemma pow2_inv (e : Z) : e <= 0 -> (JS.pow2 e * inject_Z (2 ^ (- e)) == 1)%Q.
Proof.
  intros H. unfold JS.pow2. destruct (Z.leb_spec 0 e) as [L | L].
  - replace e with 0 by lia. reflexivity.
  - assert (P : 0 < 2 ^ (- e)) by (apply Z.pow_pos_nonneg; lia).
    field. intros E. unfold Qeq in E. simpl in E. lia.
Qed.

Lemma pow2_nonpos (e : Z) : e <= 0 -> JS.pow2 (- e) = inject_Z (2 ^ (- e)).
Proof.
  intros H. unfold JS.pow2. destruct (Z.leb_spec 0 (- e)); [reflexivity | lia].
Qed.

Lemma pow2_le (e e' : Z) : e <= e' -> e' <= 0 -> (JS.pow2 e <= JS.pow2 e')%Q.
Proof.
  intros H H'.
  assert (A := pow2_inv e ltac:(lia)). assert (B := pow2_inv e' H').
  assert (Pe := pow2_pos e). assert (Pe' := pow2_pos e').
  assert (M : 2 ^ (- e') <= 2 ^ (- e)) by (apply Z.pow_le_mono_r; lia).
  assert (P : 0 < 2 ^ (- e')) by (apply Z.pow_pos_nonneg; lia).
  assert (MQ : (inject_Z (2 ^ (- e')) <= inject_Z (2 ^ (- e)))%Q)
    by (rewrite <- Zle_Qle; exact M).
  assert (PQ : (0 < inject_Z (2 ^ (- e')))%Q)
    by (change 0%Q with (inject_Z 0); rewrite <- Zlt_Qlt; exact P).
  set (x := JS.pow2 e) in *. set (y := JS.pow2 e') in *.
  set (u := inject_Z (2 ^ (- e))) in *. set (v := inject_Z (2 ^ (- e'))) in *.
  destruct (Qlt_le_dec y x) as [G | G]; [exfalso | exact G].
  assert (C : (y * v < x * u)%Q).
  { apply Qlt_le_trans with (x * v)%Q.
    - apply Qmult_lt_compat_r; assumption.
    - rewrite (Qmult_comm x v), (Qmult_comm x u).
      apply Qmult_le_compat_r; [exact MQ | apply Qlt_le_weak; exact Pe]. }
  rewrite A, B in C. discriminate C.
Qed.

Lemma roundNearestEven_floor (t : Q) :
  Qfloor t <= JS.roundNearestEven t <= Qfloor t + 1.
Proof.
  unfold JS.roundNearestEven.
  destruct (t - inject_Z (Qfloor t) ?= 1 # 2)%Q; [destruct (Z.even _) | |]; lia.
Qed.

Lemma roundNearestEven_near (t : Q) :
  (t - (1 # 2) <= inject_Z (JS.roundNearestEven t) <= t + (1 # 2))%Q.
Proof.
  assert (L := Qfloor_le t). assert (U := Qlt_floor t).
  rewrite inject_Z_plus in U. change (inject_Z 1) with 1%Q in U.
  unfold JS.roundNearestEven.
  destruct (t - inject_Z (Qfloor t) ?= 1 # 2)%Q eqn:C.
  - apply (proj2 (Qeq_alt _ _)) in C.
    destruct (Z.even (Qfloor t)); [| rewrite inject_Z_plus; change (inject_Z 1) with 1%Q]; lra.
  - apply (proj2 (Qlt_alt _ _)) in C. lra.
  - apply (proj2 (Qgt_alt _ _)) in C. rewrite inject_Z_plus. change (inject_Z 1) with 1%Q. lra.
Qed.

Lemma roundNearestEven_le (t : Q) (M : Z) :
  (t <= inject_Z M)%Q -> JS.roundNearestEven t <= M.
Proof.
  intros H. assert (F : Qfloor t <= M).
  { apply Qfloor_resp_le in H. rewrite Qfloor_Z in H. exact H. }
  destruct (Z.eq_dec (Qfloor t) M) as [E | N].
  - unfold JS.roundNearestEven. rewrite E.
    assert (T : (t - inject_Z M ?= 1 # 2)%Q = Lt).
    { apply (proj1 (Qlt_alt _ _)). lra. }
    rewrite T. lia.
  - pose proof (roundNearestEven_floor t). lia.
Qed.

Lemma roundNearestEven_nonneg (t : Q) : (0 <= t)%Q -> 0 <= JS.roundNearestEven t.
Proof.
  intros H. apply Qfloor_resp_le in H. change (Qfloor 0) with 0 in H.
  pose proof (roundNearestEven_floor t). lia.
Qed.

Lemma binade_le (a : Q) (N : Z) :
  (0 < a)%Q -> (a <= inject_Z N)%Q -> JS.binade a <= Z.log2 N + 1.
Proof.
  intros P H. destruct a as [n d]. unfold Qlt in P. unfold Qle in H. simpl in P, H.
  assert (K : Z.log2 n - Z.log2 (Z.pos d) <= Z.log2 N + 1).
  { assert (N0 : 0 <= N) by nia.
    assert (L : Z.log2 (n * 1) <= Z.log2 (N * Z.pos d)) by (apply Z.log2_le_mono; exact H).
    rewrite Z.mul_1_r in L.
    pose proof (Z.log2_mul_above N (Z.pos d) N0 ltac:(lia)). lia. }
  unfold JS.binade. cbn [Qnum Qden].
  destruct (Qle_bool _ _); lia.
Qed.

Lemma roundPositive_nonneg (a : Q) : (0 <= a)%Q -> (0 <= JS.roundPositive a)%Q.
Proof.
  intros H. unfold JS.roundPositive.
  set (e := Z.max _ _).
  apply Qmult_le_0_compat.
  - change 0%Q with (inject_Z 0). rewrite <- Zle_Qle.
    apply roundNearestEven_nonneg.
    apply Qmult_le_0_compat; [exact H | apply Qlt_le_weak, pow2_pos].
  - apply Qlt_le_weak, pow2_pos.
Qed.

Lemma roundDouble_nonneg (q : Q) : (0 <= q)%Q -> (0 <= JS.roundDouble q)%Q.
Proof.
  intros H. unfold JS.roundDouble. destruct q as [[| n | n] d]; cbn [Qnum].
  - apply Qle_refl.
  - apply roundPositive_nonneg; exact H.
  - exfalso. unfold Qle in H. simpl in H. lia.
Qed.

Section Bounded.

Variable N : Z.
Hypothesis N_small : Z.log2 N + 1 <= 52.

Lemma exponent_le (a : Q) :
  (0 < a)%Q -> (a <= inject_Z N)%Q ->
  Z.max (JS.binade a - 52) (-1074) <= Z.max (Z.log2 N + 1 - 52) (-1074).
Proof. intros P H. pose proof (binade_le a N P H). lia. Qed.

Lemma roundPositive_le (a : Q) :
  (0 < a)%Q -> (a <= inject_Z N)%Q -> (JS.roundPositive a <= inject_Z N)%Q.
Proof.
  intros P H. pose proof (exponent_le a P H) as E.
  unfold JS.roundPositive. set (e := Z.max (JS.binade a - 52) (-1074)) in *.
  assert (E0 : e <= 0) by lia.
  rewrite (pow2_nonpos e E0).
  assert (I := pow2_inv e E0). assert (Pe := pow2_pos e).
  assert (T : (a * inject_Z (2 ^ (- e)) <= inject_Z (N * 2 ^ (- e)))%Q).
  { rewrite inject_Z_mult. apply Qmult_le_compat_r; [exact H |].
    change 0%Q with (inject_Z 0). rewrite <- Zle_Qle. apply Z.pow_nonneg. lia. }
  apply roundNearestEven_le in T.
  apply Qle_trans with (inject_Z (N * 2 ^ (- e)) * JS.pow2 e)%Q.
  - apply Qmult_le_compat_r; [| apply Qlt_le_weak; exact Pe].
    rewrite <- Zle_Qle. exact T.
  - rewrite inject_Z_mult, <- Qmult_assoc, (Qmult_comm (inject_Z (2 ^ (- e)))), I, Qmult_1_r.
    apply Qle_refl.
Qed.

Lemma roundPositive_near (a : Q) :
  (0 < a)%Q -> (a <= inject_Z N)%Q ->
  (a - JS.pow2 (Z.max (Z.log2 N + 1 - 52) (-1074)) * (1 # 2) <= JS.roundPositive a
   <= a + JS.pow2 (Z.max (Z.log2 N + 1 - 52) (-1074)) * (1 # 2))%Q.
Proof.
  intros P H. pose proof (exponent_le a P H) as E.
  unfold JS.roundPositive. set (e := Z.max (JS.binade a - 52) (-1074)) in *.
  set (e' := Z.max (Z.log2 N + 1 - 52) (-1074)) in *.
  assert (E0 : e <= 0) by lia. assert (E0' : e' <= 0) by lia.
  assert (M := pow2_le e e' E E0').
  rewrite (pow2_nonpos e E0).
  assert (I := pow2_inv e E0). assert (Pe := pow2_pos e).
  assert (R := roundNearestEven_near (a * inject_Z (2 ^ (- e)))).
  set (m := inject_Z (JS.roundNearestEven _)) in *.
  set (u := inject_Z (2 ^ (- e))) in *. set (x := JS.pow2 e) in *. set (y := JS.pow2 e') in *.
  assert (A : (a == a * u * x)%Q).
  { rewrite <- Qmult_assoc, (Qmult_comm u x), I, Qmult_1_r. reflexivity. }
  destruct R as [R1 R2].
  assert (S1 : ((a * u - (1 # 2)) * x <= m * x)%Q)
    by (apply Qmult_le_compat_r; [exact R1 | lra]).
  assert (S2 : (m * x <= (a * u + (1 # 2)) * x)%Q)
    by (apply Qmult_le_compat_r; [exact R2 | lra]).
  split; lra.
Qed.

Lemma roundDouble_le (q : Q) :
  (0 <= q)%Q -> (q <= inject_Z N)%Q -> (JS.roundDouble q <= inject_Z N)%Q.
Proof.
  intros P H. unfold JS.roundDouble. destruct q as [[| n | n] d]; cbn [Qnum].
  - unfold Qle in H |- *. simpl in H |- *. nia.
  - apply roundPositive_le; [reflexivity | exact H].
  - exfalso. unfold Qle in P. simpl in P. lia.
Qed.

Lemma roundDouble_near (q : Q) :
  (0 <= q)%Q -> (q <= inject_Z N)%Q ->
  (q - JS.pow2 (Z.max (Z.log2 N + 1 - 52) (-1074)) * (1 # 2) <= JS.roundDouble q
   <= q + JS.pow2 (Z.max (Z.log2 N + 1 - 52) (-1074)) * (1 # 2))%Q.
Proof.
  intros P H. unfold JS.roundDouble. destruct q as [[| n | n] d] eqn:Q0; cbn [Qnum].
  - assert (Z0 : (0 # d == 0)%Q) by reflexivity.
    pose proof (pow2_pos (Z.max (Z.log2 N + 1 - 52) (-1074))). split; lra.
  - apply roundPositive_near; [reflexivity | exact H].
  - exfalso. unfold Qle in P. simpl in P. lia.
Qed.
End Bounded.

(** The double product of a channel by 255 lies in [0, 255], within
    [2 ^ -45] of the exact product. *)
Lemma scaled_channel (c : Q) :
  (0 <= c <= 1)%Q ->
  (0 <= JS.mul c 255 <= 255)%Q
  /\ (c * 255 - (1 # 2 ^ 45) <= JS.mul c 255 <= c * 255 + (1 # 2 ^ 45))%Q.
Proof.
  intros [L U]. unfold JS.mul.
  assert (P : (0 <= c * 255)%Q) by lra.
  assert (H : (c * 255 <= inject_Z 255)%Q) by (change (inject_Z 255) with 255%Q; lra).
  assert (N1 : Z.log2 255 + 1 <= 52) by (vm_compute; discriminate).
  split.
  - split; [apply roundDouble_nonneg; exact P | exact (roundDouble_le 255 N1 _ P H)].
  - pose proof (roundDouble_near 255 N1 _ P H) as [A B].
    change (JS.pow2 (Z.max (Z.log2 255 + 1 - 52) (-1074)) * (1 # 2))%Q
      with ((1 / inject_Z (2 ^ 44)) * (1 # 2))%Q in A, B.
    assert (E : ((1 / inject_Z (2 ^ 44)) * (1 # 2) == 1 # 2 ^ 45)%Q) by reflexivity.
    rewrite E in A, B. split; assumption.
Qed.

(** ** 32-bit integer operators on small values *)

Lemma ToInt32_small z : 0 <= z < 2 ^ 31 -> JS.ToInt32 z = z.
Proof.
  intros H. unfold JS.ToInt32.
  rewrite Z.mod_small; lia.
Qed.

Lemma lor_bound a b n :
  0 <= n -> 0 <= a < 2 ^ n -> 0 <= b < 2 ^ n -> 0 <= Z.lor a b < 2 ^ n.
Proof.
  intros Hn Ha Hb. split; [apply Z.lor_nonneg; lia|].
  destruct (Z.eq_dec (Z.lor a b) 0) as [E|E]; [rewrite E; lia|].
  assert (Hpos : 0 < n).
  { destruct (Z.eq_dec n 0) as [->|]; [|lia].
    change (2 ^ 0) with 1 in *.
    assert (a = 0) by lia. assert (b = 0) by lia. subst. now elim E. }
  assert (La : Z.log2 a < n).
  { destruct (Z.eq_dec a 0) as [->|]; [exact Hpos | apply Z.log2_lt_pow2; lia]. }
  assert (Lb : Z.log2 b < n).
  { destruct (Z.eq_dec b 0) as [->|]; [exact Hpos | apply Z.log2_lt_pow2; lia]. }
  assert (0 <= Z.lor a b) by (apply Z.lor_nonneg; lia).
  apply Z.log2_lt_pow2; [lia|].
  rewrite Z.log2_lor by lia. lia.
Qed.

Lemma nearest_channel_range n k :
  0 <= n <= 255 -> 0 <= k -> 0 <= nearest (n * k) 255 <= k.
Proof.
  intros Hn Hk. unfold nearest. split.
  - apply Z.div_pos; nia.
  - enough ((2 * (n * k) + 255) / (2 * 255) < k + 1) by lia.
    apply Z.div_lt_upper_bound; nia.
Qed.

Lemma pack565_spec r8 g8 b8 :
  0 <= r8 <= 255 -> 0 <= g8 <= 255 -> 0 <= b8 <= 255 ->
  pack565 r8 g8 b8 = rgb565Of r8 g8 b8 /\ 0 <= rgb565Of r8 g8 b8 < 65536.
Proof.
  intros Hr Hg Hb. unfold pack565, rgb565Of.
  rewrite (proj1 (packed_channel r8 Hr)), (proj2 (packed_channel g8 Hg)),
    (proj1 (packed_channel b8 Hb)).
  pose proof (nearest_channel_range r8 31 Hr ltac:(lia)) as H5.
  pose proof (nearest_channel_range g8 63 Hg ltac:(lia)) as H6.
  pose proof (nearest_channel_range b8 31 Hb ltac:(lia)) as H5'.
  set (r5 := nearest (r8 * 31) 255) in *.
  set (g6 := nearest (g8 * 63) 255) in *.
  set (b5 := nearest (b8 * 31) 255) in *.
  assert (Hs1 : 0 <= Z.shiftl r5 11 < 2 ^ 16)
    by (rewrite Z.shiftl_mul_pow2 by lia; lia).
  assert (Hs2 : 0 <= Z.shiftl g6 5 < 2 ^ 16)
    by (rewrite Z.shiftl_mul_pow2 by lia; lia).
  assert (Hl1 : 0 <= Z.lor (Z.shiftl r5 11) (Z.shiftl g6 5) < 2 ^ 16)
    by (apply lor_bound; lia).
  assert (Hl2 : 0 <= Z.lor (Z.lor (Z.shiftl r5 11) (Z.shiftl g6 5)) b5 < 2 ^ 16)
    by (apply lor_bound; lia).
  split; [|lia].
  unfold JS.bor, JS.shl.
  change (11 mod 32) with 11. change (5 mod 32) with 5.
  rewrite (ToInt32_small r5), (ToInt32_small g6), (ToInt32_small b5) by lia.
  rewrite (ToInt32_small (Z.shiftl r5 11)), (ToInt32_small (Z.shiftl g6 5)) by lia.
  rewrite !(ToInt32_small (Z.shiftl r5 11)), !(ToInt32_small (Z.shiftl g6 5)) by lia.
  rewrite (ToInt32_small (Z.lor _ _)) by lia.
  reflexivity.
Qed.

(** ** Printing in hexadecimal *)

Lemma toHex_byte n :
  0 <= n < 256 -> JS.toUpperCase (toHexOfZ n) = hex2 n.
Proof.
  intros Hn.
  Z_enum (fun z => String.eqb (JS.toUpperCase (toHexOfZ z)) (hex2 z)) 256%nat n Hn E.
  now apply String.eqb_eq in E.
Qed.

Lemma hex2_shape n :
  0 <= n < 256 ->
  forallb isUpperHexDigit (list_ascii_of_string (hex2 n)) = true.
Proof.
  intros Hn.
  Z_enum (fun z => forallb isUpperHexDigit (list_ascii_of_string (hex2 z))) 256%nat n Hn E.
  exact E.
Qed.

Lemma format_rgb565 v :
  0 <= v < 65536 -> JS.padStart0 4 (JS.toUpperCase (JS.toString16 v)) = hex4 v.
Proof.
  intros Hv.
  Z_enum (fun z => String.eqb (JS.padStart0 4 (JS.toUpperCase (JS.toString16 z))) (hex4 z))
         (Z.to_nat 65536) v Hv E.
  now apply String.eqb_eq in E.
Qed.

(** ** The colour pattern *)

Ltac destruct_list l n :=
  match n with
  | O => idtac
  | S ?n' => let c := fresh "c" in destruct l as [|c l]; [|destruct_list l n']
  end.

(** The direct reading of the capture groups agrees with the regular
    expression of the source. *)
Lemma hexColorRegex_tail prev (l : list ascii) :
  Regex.matches
    (Regex.Seq (Regex.Twice (Regex.Cls JS.is_hex_digit))
       (Regex.Seq (Regex.Twice (Regex.Cls JS.is_hex_digit))
          (Regex.Seq (Regex.Twice (Regex.Cls JS.is_hex_digit)) Regex.Eol)))
    prev l (fun _ _ => true) = sixHexDigits l.
Proof.
  unfold sixHexDigits.
  destruct_list l 7%nat; simpl;
    rewrite ?andb_false_r, ?andb_true_r; try reflexivity.
Qed.

Lemma hexColorRegex_not_later c (l : list ascii) :
  Regex.search hexColorRegex (Some c) l = false.
Proof.
  revert c. induction l as [|d l IH]; intros c; simpl; [reflexivity|].
  apply IH.
Qed.

Lemma sixHexDigits_no_hash c l : sixHexDigits (c :: l) = true -> Ascii.eqb c "#" = false.
Proof.
  unfold sixHexDigits. intros H.
  apply andb_true_iff in H as [_ H]. simpl in H.
  apply andb_true_iff in H as [H _].
  rewrite Ascii.eqb_sym. now apply hex_digit_not_hash.
Qed.

Lemma hexColorRegex_test s :
  Regex.test hexColorRegex s = matchesOptionalHashRRGGBB s.
Proof.
  unfold Regex.test, matchesOptionalHashRRGGBB, matchesHashRRGGBB.
  destruct (list_ascii_of_string s) as [|c l].
  - reflexivity.
  - cbn [Regex.search]. rewrite hexColorRegex_not_later, orb_false_r.
    unfold hexColorRegex, Regex.Opt. cbv zeta.
    set (tail := Regex.Seq (Regex.Twice _) _).
    cbn [Regex.matches].
    subst tail. rewrite !hexColorRegex_tail.
    now rewrite Ascii.eqb_sym.
Qed.

Lemma hexColor_exec_matches s :
  matchesOptionalHashRRGGBB s = match hexColor_exec s with Some _ => true | None => false end.
Proof.
  unfold matchesOptionalHashRRGGBB, matchesHashRRGGBB, hexColor_exec.
  destruct (list_ascii_of_string s) as [|c l]; [reflexivity|].
  rewrite (Ascii.eqb_sym c).
  destruct (Ascii.eqb "#" c) eqn:Eh.
  - destruct (sixHexDigits (c :: l)) eqn:E6.
    + apply sixHexDigits_no_hash in E6. rewrite Ascii.eqb_sym in E6. congruence.
    + rewrite orb_false_r. simpl. unfold sixHexDigits.
      destruct_list l 7%nat; simpl; try reflexivity.
      all: repeat match goal with
                  | |- context [JS.is_hex_digit ?x] => destruct (JS.is_hex_digit x)
                  end; reflexivity.
  - simpl. unfold sixHexDigits.
    destruct_list l 6%nat; simpl; rewrite ?andb_false_r; try reflexivity.
    all: repeat match goal with
                | |- context [JS.is_hex_digit ?x] => destruct (JS.is_hex_digit x)
                end; reflexivity.
Qed.

Lemma hexColor_exec_body (d1 d2 d3 d4 d5 d6 : ascii) (s : string) :
  forallb JS.is_hex_digit [d1; d2; d3; d4; d5; d6] = true ->
  s = string_of_list_ascii [d1; d2; d3; d4; d5; d6]
  \/ s = string_of_list_ascii ("#"%char :: [d1; d2; d3; d4; d5; d6]) ->
  hexColor_exec s =
    Some (string_of_list_ascii [d1; d2], string_of_list_ascii [d3; d4],
          string_of_list_ascii [d5; d6]).
Proof.
  intros Hd [-> | ->]; unfold hexColor_exec;
    rewrite list_ascii_of_string_of_list_ascii.
  - assert (Ascii.eqb "#" d1 = false) as ->.
    { apply hex_digit_not_hash. simpl in Hd. now apply andb_true_iff in Hd as [? _]. }
    now rewrite Hd.
  - rewrite Ascii.eqb_refl. now rewrite Hd.
Qed.

Lemma matchesOptional_digits s :
  matchesOptionalHashRRGGBB s = true ->
  exists d1 d2 d3 d4 d5 d6,
    forallb JS.is_hex_digit [d1; d2; d3; d4; d5; d6] = true
    /\ (s = string_of_list_ascii [d1; d2; d3; d4; d5; d6]
        \/ s = string_of_list_ascii ("#"%char :: [d1; d2; d3; d4; d5; d6])).
Proof.
  unfold matchesOptionalHashRRGGBB, matchesHashRRGGBB.
  remember (list_ascii_of_string s) as l0 eqn:El.
  apply (f_equal string_of_list_ascii) in El.
  rewrite string_of_list_ascii_of_string in El. subst s.
  destruct l0 as [|c l]; [discriminate|].
  intros H. apply orb_true_iff in H as [H|H].
  - apply andb_true_iff in H as [Hc H].
    apply Ascii.eqb_eq in Hc. subst c.
    unfold sixHexDigits in H. apply andb_true_iff in H as [Hl Hd].
    destruct_list l 7%nat; try discriminate.
    exists c, c0, c1, c2, c3, c4. split; [exact Hd | now right].
  - unfold sixHexDigits in H. apply andb_true_iff in H as [Hl Hd].
    destruct_list l 6%nat; try discriminate.
    exists c, c0, c1, c2, c3, c4. split; [exact Hd | now left].
Qed.

(** ** Colour codec: the theorems *)

Lemma hexToRgb565_digits (d1 d2 d3 d4 d5 d6 : ascii) (s : string) :
  forallb JS.is_hex_digit [d1; d2; d3; d4; d5; d6] = true ->
  s = string_of_list_ascii [d1; d2; d3; d4; d5; d6]
  \/ s = string_of_list_ascii ("#"%char :: [d1; d2; d3; d4; d5; d6]) ->
  hexToRgb565 s = "0x" ++ hex4 (rgb565Of (byteOf d1 d2) (byteOf d3 d4) (byteOf d5 d6))
  /\ 0 <= rgb565Of (byteOf d1 d2) (byteOf d3 d4) (byteOf d5 d6) < 65536.
Proof.
  intros Hd Hs. unfold hexToRgb565.
  rewrite (hexColor_exec_body d1 d2 d3 d4 d5 d6 s Hd Hs).
  rewrite !parseInt16_two.
  simpl in Hd. repeat (apply andb_true_iff in Hd as [? Hd]).
  destruct (pack565_spec (byteOf d1 d2) (byteOf d3 d4) (byteOf d5 d6)) as [-> Hr];
    try (apply byteOf_range; assumption).
  split; [|exact Hr].
  now rewrite format_rgb565.
Qed.

Lemma hexToRgb565_malformed s :
  matchesOptionalHashRRGGBB s = false -> hexToRgb565 s = "0x0000".
Proof.
  intros H. rewrite hexColor_exec_matches in H.
  unfold hexToRgb565. destruct (hexColor_exec s); [discriminate | reflexivity].
Qed.

Lemma hexToRgb_digits (d1 d2 d3 d4 d5 d6 : ascii) (s : string) :
  forallb JS.is_hex_digit [d1; d2; d3; d4; d5; d6] = true ->
  s = string_of_list_ascii [d1; d2; d3; d4; d5; d6]
  \/ s = string_of_list_ascii ("#"%char :: [d1; d2; d3; d4; d5; d6]) ->
  hexToRgb s =
    {| rgb_r := inject_Z (byteOf d1 d2) / 255;
       rgb_g := inject_Z (byteOf d3 d4) / 255;
       rgb_b := inject_Z (byteOf d5 d6) / 255 |}.
Proof.
  intros Hd Hs. unfold hexToRgb.
  rewrite (hexColor_exec_body d1 d2 d3 d4 d5 d6 s Hd Hs).
  now rewrite !parseInt16_two.
Qed.


(** C1, as the specification words it, fails: the input ["FF0000"] does not
    match the pattern ["#RRGGBB"] (it has no hash sign), and [hexToRgb565]
    does not answer the sentinel ["0x0000"] on it but the packed value. *)
Lemma hexToRgb565_without_hash_is_not_sentinel :
  matchesHashRRGGBB "FF0000" = false
  /\ hexToRgb565 "FF0000" = "0xF800"
  /\ hexToRgb565 "FF0000" <> "0x0000".
Proof. repeat split; [vm_compute; reflexivity .. | vm_compute; discriminate]. Qed.

(** C1 (amended): [hexToRgb565] is a total function of its input string.
    On six hexadecimal digits, with or without a leading hash sign, it
    parses the three 8-bit channels, computes [R5 = round(R * 31 / 255)],
    [G6 = round(G * 63 / 255)], [B5 = round(B * 31 / 255)], packs
    [(R5 << 11) | (G6 << 5) | B5] and returns that 16-bit value on four
    upper-case hexadecimal digits after ["0x"]; on any other input it
    returns ["0x0000"].  In particular ["#FF0000"], ["#00FF00"],
    ["#0000FF"] and ["not-a-color"] give ["0xF800"], ["0x07E0"],
    ["0x001F"] and ["0x0000"]. *)
Theorem hexToRgb565_total (hex : string) :
  (forall d1 d2 d3 d4 d5 d6 : ascii,
      forallb JS.is_hex_digit [d1; d2; d3; d4; d5; d6] = true ->
      hex = string_of_list_ascii [d1; d2; d3; d4; d5; d6]
      \/ hex = string_of_list_ascii ("#"%char :: [d1; d2; d3; d4; d5; d6]) ->
      hexToRgb565 hex
      = "0x" ++ hex4 (rgb565Of (byteOf d1 d2) (byteOf d3 d4) (byteOf d5 d6))
      /\ 0 <= rgb565Of (byteOf d1 d2) (byteOf d3 d4) (byteOf d5 d6) < 65536)
  /\ (matchesOptionalHashRRGGBB hex = false -> hexToRgb565 hex = "0x0000")
  /\ (matchesOptionalHashRRGGBB hex = true ->
      exists d1 d2 d3 d4 d5 d6 : ascii,
        forallb JS.is_hex_digit [d1; d2; d3; d4; d5; d6] = true
        /\ (hex = string_of_list_ascii [d1; d2; d3; d4; d5; d6]
            \/ hex = string_of_list_ascii ("#"%char :: [d1; d2; d3; d4; d5; d6])))
  /\ hexToRgb565 "#FF0000" = "0xF800"
  /\ hexToRgb565 "#00FF00" = "0x07E0"
  /\ hexToRgb565 "#0000FF" = "0x001F"
  /\ hexToRgb565 "not-a-color" = "0x0000".
Proof.
  split; [|split; [|split]].
  - intros. now apply hexToRgb565_digits.
  - apply hexToRgb565_malformed.
  - apply matchesOptional_digits.
  - repeat split; vm_compute; reflexivity.
Qed.

Lemma hexToRgb565_total_witness :
  hexToRgb565 "#336699" = "0x" ++ hex4 (rgb565Of 51 102 153).
Proof.
  destruct (hexToRgb565_total "#336699") as (H & _).
  destruct (H "3" "3" "6" "6" "9" "9")%char as (E & _).
  - vm_compute; reflexivity.
  - right. reflexivity.
  - exact E.
Defined.



Lemma round_scaled_range (c : Q) :
  (0 <= c <= 1)%Q -> 0 <= JS.Math_round (JS.mul c 255) <= 255.
Proof.
  intros H. destruct (scaled_channel c H) as [[H0 H1] _]. split.
  - change 0 with (JS.Math_round 0).
    apply Math_round_mono. exact H0.
  - change 255 with (JS.Math_round 255) at 2.
    apply Math_round_mono. exact H1.
Qed.

Lemma toHex_channel (c : Q) :
  (0 <= c <= 1)%Q -> JS.toUpperCase (toHex c) = hex2 (JS.Math_round (JS.mul c 255)).
Proof.
  intros H. pose proof (round_scaled_range c H).
  change (toHex c) with (toHexOfZ (JS.Math_round (JS.mul c 255))).
  apply toHex_byte. lia.
Qed.

Lemma hex_shape (R G B : Z) :
  0 <= R < 256 -> 0 <= G < 256 -> 0 <= B < 256 ->
  hasShapeHashRRGGBB ("#" ++ hex2 R ++ hex2 G ++ hex2 B) = true.
Proof.
  intros HR HG HB.
  pose proof (hex2_shape R HR) as SR.
  pose proof (hex2_shape G HG) as SG.
  pose proof (hex2_shape B HB) as SB.
  unfold hex2 in *. rewrite list_ascii_of_string_of_list_ascii in SR, SG, SB.
  unfold hasShapeHashRRGGBB. simpl in *.
  repeat match goal with
         | H : _ && _ = true |- _ => apply andb_true_iff in H as [? ?]
         end.
  repeat (apply andb_true_iff; split); auto.
Qed.

(** C9: for channels in [0, 1], [rgbToHex] scales each channel by 255 (the
    scaled value is the double product, within [2 ^ -45] of the exact one),
    rounds the scaled value to the nearest integer (halves up), prints each
    result on two hexadecimal digits, and returns the three bytes behind a
    hash sign in upper case; the result always has the shape [#RRGGBB].  In
    particular [rgbToHex(1,0,0) = "#FF0000"] and
    [rgbToHex(0,0,0) = "#000000"].  The rounding is that of the scaled
    double: at the double [0.3] the exact product lies below 76.5 and the
    double product is 76.5, so the byte is 77. *)
Theorem rgbToHex_shape (r g b : Q) :
  (0 <= r <= 1)%Q -> (0 <= g <= 1)%Q -> (0 <= b <= 1)%Q ->
  let R := JS.Math_round (JS.mul r 255) in
  let G := JS.Math_round (JS.mul g 255) in
  let B := JS.Math_round (JS.mul b 255) in
  (0 <= R <= 255 /\ 0 <= G <= 255 /\ 0 <= B <= 255)
  /\ (r * 255 - (1 # 2 ^ 45) <= JS.mul r 255 <= r * 255 + (1 # 2 ^ 45))%Q
  /\ (g * 255 - (1 # 2 ^ 45) <= JS.mul g 255 <= g * 255 + (1 # 2 ^ 45))%Q
  /\ (b * 255 - (1 # 2 ^ 45) <= JS.mul b 255 <= b * 255 + (1 # 2 ^ 45))%Q
  /\ (inject_Z R <= JS.mul r 255 + (1 # 2) < inject_Z (R + 1))%Q
  /\ (inject_Z G <= JS.mul g 255 + (1 # 2) < inject_Z (G + 1))%Q
  /\ (inject_Z B <= JS.mul b 255 + (1 # 2) < inject_Z (B + 1))%Q
  /\ rgbToHex r g b = "#" ++ hex2 R ++ hex2 G ++ hex2 B
  /\ hasShapeHashRRGGBB (rgbToHex r g b) = true
  /\ rgbToHex 1 0 0 = "#FF0000"
  /\ rgbToHex 0 0 0 = "#000000"
  /\ (let c := JS.roundDouble (3 # 10) in
      (c * 255 < 76 + (1 # 2))%Q /\ (JS.mul c 255 == 76 + (1 # 2))%Q
      /\ rgbToHex c c c = "#4D4D4D").
Proof.
  intros Hr Hg Hb R G B.
  pose proof (round_scaled_range r Hr) as HR.
  pose proof (round_scaled_range g Hg) as HG.
  pose proof (round_scaled_range b Hb) as HB.
  assert (E : rgbToHex r g b = "#" ++ hex2 R ++ hex2 G ++ hex2 B).
  { unfold rgbToHex, JS.toUpperCase. rewrite !map_string_app.
    fold JS.toUpperCase. rewrite !toHex_channel by assumption. reflexivity. }
  split; [auto|].
  split; [apply scaled_channel; exact Hr|].
  split; [apply scaled_channel; exact Hg|].
  split; [apply scaled_channel; exact Hb|].
  split; [apply Math_round_spec|].
  split; [apply Math_round_spec|].
  split; [apply Math_round_spec|].
  split; [exact E|].
  split; [rewrite E; apply hex_shape; subst R G B; lia|].
  split; [vm_compute; reflexivity|].
  split; [vm_compute; reflexivity|].
  cbv zeta. split; [vm_compute; reflexivity|].
  split; vm_compute; reflexivity.
Qed.

Lemma rgbToHex_shape_witness :
  hasShapeHashRRGGBB (rgbToHex (1 # 2) (1 # 3) 1) = true.
Proof.
  destruct (rgbToHex_shape (1 # 2) (1 # 3) 1) as (_ & _ & _ & _ & _ & _ & _ & _ & H & _).
  - split; vm_compute; discriminate.
  - split; vm_compute; discriminate.
  - split; vm_compute; discriminate.
  - exact H.
Defined.

(** ** The icon patterns *)

Lemma matches_lits_i tok prev l k :
  Regex.matches (Regex.lits_i tok) prev l k
  = match stripToken tok prev l with
    | Some (p, rest) => k p rest
    | None => false
    end.
Proof.
  revert prev l. induction tok as [|t tok IH]; intros prev l; simpl.
  - reflexivity.
  - destruct l as [|c l]; [reflexivity|].
    unfold sameLetter. destruct (Ascii.eqb _ _); simpl; [apply IH | reflexivity].
Qed.

Lemma stripToken_prev_irrelevant tok p q l :
  option_map snd (stripToken tok p l) = option_map snd (stripToken tok q l).
Proof.
  destruct tok as [|t tok]; simpl; [reflexivity|].
  destruct l as [|c l]; [reflexivity|]. now destruct (sameLetter c t).
Qed.

(** After a non-empty token the last character read is one of its
    letters, in either case. *)
Lemma stripToken_last t tok prev l p rest :
  stripToken (t :: tok) prev l = Some (p, rest) ->
  exists x t', p = Some x /\ In t' (t :: tok) /\ sameLetter x t' = true.
Proof.
  revert t prev l. induction tok as [|t' tok IH]; intros t prev l H; simpl in H.
  - destruct l as [|c l]; [discriminate|].
    destruct (sameLetter c t) eqn:E; [|discriminate].
    inversion H; subst. exists c, t. simpl. auto.
  - destruct l as [|c l]; [discriminate|].
    destruct (sameLetter c t); [|discriminate].
    change (stripToken (t' :: tok) (Some c) l = Some (p, rest)) in H.
    apply IH in H as (x & u & Hp & Hin & Hx).
    exists x, u. split; [exact Hp|]. split; [now right | exact Hx].
Qed.

Lemma stripToken_first t tok prev l p rest :
  stripToken (t :: tok) prev l = Some (p, rest) ->
  exists c l', l = c :: l' /\ sameLetter c t = true.
Proof.
  simpl. destruct l as [|c l]; [discriminate|].
  destruct (sameLetter c t) eqn:E; [|discriminate]. eauto.
Qed.

Lemma letter_is_word (x t : ascii) :
  JS.is_alnum t = true -> sameLetter x t = true -> JS.is_word x = true.
Proof.
  intros Ht Hx.
  ascii_enum (fun t => forallb (fun x => implb (JS.is_alnum t && sameLetter x t) (JS.is_word x))
                         (map (fun n => ascii_of_N (N.of_nat n)) (seq 0 256))) t E.
  rewrite forallb_forall in E.
  assert (Hin : In x (map (fun n => ascii_of_N (N.of_nat n)) (seq 0 256))).
  { apply in_map_iff. exists (nat_of_ascii x). split.
    - unfold nat_of_ascii. rewrite N2Nat.id. apply ascii_N_embedding.
    - apply in_seq. pose proof (nat_ascii_bounded x). lia. }
  specialize (E x Hin). rewrite Ht, Hx in E. exact E.
Qed.

Lemma sep_or_nonword c : isSepChar c || negb (JS.is_word c) = notAlnum c.
Proof.
  ascii_enum (fun c => Bool.eqb (isSepChar c || negb (JS.is_word c)) (notAlnum c)) c E.
  now apply Bool.eqb_prop in E.
Qed.

Lemma stripToken_prev t tok p q l :
  stripToken (t :: tok) p l = stripToken (t :: tok) q l.
Proof. simpl. destruct l; reflexivity. Qed.

Lemma iconClose_limit (x : ascii) (rest : list ascii) :
  JS.is_word x = true ->
  Regex.matches (Regex.Alt (Regex.Cls isSepChar) (Regex.Alt Regex.WordB Regex.Eol))
    (Some x) rest (fun _ _ => true)
  = limitOK notAlnum (head rest).
Proof.
  intros Hx. destruct rest as [|c rest]; simpl; rewrite Hx.
  - reflexivity.
  - rewrite !andb_true_r, orb_false_r. simpl. apply sep_or_nonword.
Qed.

Lemma token_then_limit (tok : string) prev l :
  forallb JS.is_alnum (list_ascii_of_string tok) = true ->
  tok <> "" ->
  Regex.matches (Regex.str_i tok) prev l
    (fun p s => Regex.matches
                  (Regex.Alt (Regex.Cls isSepChar) (Regex.Alt Regex.WordB Regex.Eol))
                  p s (fun _ _ => true))
  = tokenAt notAlnum (list_ascii_of_string tok) l.
Proof.
  intros Hal Hne. unfold Regex.str_i, tokenAt. rewrite matches_lits_i.
  destruct (list_ascii_of_string tok) as [|t ts] eqn:Et.
  { destruct tok; [congruence | discriminate]. }
  rewrite (stripToken_prev t ts prev None).
  destruct (stripToken (t :: ts) None l) as [[p rest]|] eqn:Es; [|reflexivity].
  apply stripToken_last in Es as (x & u & -> & Hin & Hx).
  apply iconClose_limit.
  rewrite forallb_forall in Hal.
  apply (letter_is_word x u); [now apply Hal | exact Hx].
Qed.

Lemma iconTail_tokens prev l :
  Regex.matches iconTail prev l (fun _ _ => true)
  = existsb (fun tok => tokenAt notAlnum tok l) (map list_ascii_of_string iconTokens).
Proof.
  unfold iconTail. cbn [Regex.matches].
  rewrite !token_then_limit by (try reflexivity; discriminate).
  simpl. now rewrite orb_false_r.
Qed.

(** A token can only start on a letter. *)
Lemma tokens_start_on_word c l :
  existsb (fun tok => tokenAt notAlnum tok (c :: l)) (map list_ascii_of_string iconTokens) = true ->
  JS.is_word c = true.
Proof.
  simpl. unfold tokenAt. simpl.
  destruct (sameLetter c "i") eqn:E.
  - intros _. apply (letter_is_word c "i"); [reflexivity | exact E].
  - discriminate.
Qed.

Lemma tokens_not_empty :
  existsb (fun tok => tokenAt notAlnum tok []) (map list_ascii_of_string iconTokens) = false.
Proof. reflexivity. Qed.

Lemma wholeWordFrom_unfold boundary toks prev l :
  wholeWordFrom boundary toks prev l
  = (limitOK boundary prev && existsb (fun tok => tokenAt boundary tok l) toks)
    || match l with
       | c :: l' => wholeWordFrom boundary toks (Some c) l'
       | [] => false
       end.
Proof. destruct l; reflexivity. Qed.

(** The search of the icon pattern from a position, in terms of whole
    words: at the first position the pattern wants the start of the input
    or a character before it that is no word character; at later positions
    it accepts any character that is no letter or digit. *)
Lemma iconNameRegex_search prev l :
  Regex.search iconNameRegex prev l
  = (negb (Regex.word_opt prev)
     && existsb (fun tok => tokenAt notAlnum tok l) (map list_ascii_of_string iconTokens))
    || match l with
       | c :: l' => wholeWordFrom notAlnum (map list_ascii_of_string iconTokens) (Some c) l'
       | [] => false
       end.
Proof.
  revert prev. induction l as [|c l IH]; intros prev.
  - cbn [Regex.search]. unfold iconNameRegex. cbn [Regex.matches].
    rewrite !iconTail_tokens, tokens_not_empty.
    destruct prev; simpl; rewrite ?andb_false_r; reflexivity.
  - cbn [Regex.search]. rewrite IH. clear IH.
    unfold iconNameRegex. cbn [Regex.matches].
    rewrite !iconTail_tokens.
    rewrite (wholeWordFrom_unfold notAlnum _ (Some c) l).
    cbn [limitOK head Regex.word_opt].
    set (T := existsb (fun tok => tokenAt notAlnum tok (c :: l)) _).
    set (T' := existsb (fun tok => tokenAt notAlnum tok l) _).
    set (rest := match l with [] => false | c0 :: l' => wholeWordFrom notAlnum _ (Some c0) l' end).
    rewrite <- (sep_or_nonword c).
    assert (HT : T = true -> JS.is_word c = true) by apply tokens_start_on_word.
    destruct T.
    + rewrite (HT eq_refl).
      destruct prev as [p|]; simpl; [destruct (JS.is_word p); simpl|];
        destruct (isSepChar c), T', rest; reflexivity.
    + rewrite !andb_false_r. simpl.
      destruct prev; simpl; destruct (isSepChar c), (JS.is_word c), T', rest; reflexivity.
Qed.

Lemma iconNameRegex_test s :
  Regex.test iconNameRegex s = hasWholeWord notAlnum iconTokens s.
Proof.
  unfold Regex.test, hasWholeWord. rewrite iconNameRegex_search.
  destruct (list_ascii_of_string s); reflexivity.
Qed.

Lemma iconRegex_search prev l :
  Regex.search iconRegex prev l = containsToken (list_ascii_of_string "icon") l.
Proof.
  revert prev. induction l as [|c l IH]; intros prev.
  - reflexivity.
  - cbn [Regex.search containsToken]. rewrite IH.
    unfold iconRegex, Regex.str_i. rewrite matches_lits_i.
    cbn [list_ascii_of_string].
    rewrite (stripToken_prev _ _ prev None).
    destruct (stripToken _ None (c :: l)) as [[? ?]|]; reflexivity.
Qed.

Lemma iconRegex_test s : Regex.test iconRegex s = containsIcon s.
Proof. apply iconRegex_search. Qed.

(** ** Trimming does not change the whole words of a name *)

Lemma space_not_word c : JS.is_space c = true -> JS.is_word c = false.
Proof.
  intros Hc.
  ascii_enum (fun c => implb (JS.is_space c) (negb (JS.is_word c))) c E.
  rewrite Hc in E. simpl in E. now apply negb_true_iff.
Qed.

Lemma space_notAlnum c : JS.is_space c = true -> notAlnum c = true.
Proof.
  intros Hc.
  ascii_enum (fun c => implb (JS.is_space c) (notAlnum c)) c E.
  now rewrite Hc in E.
Qed.

Lemma space_is_no_letter c t :
  JS.is_space c = true -> JS.is_alnum t = true -> sameLetter c t = false.
Proof.
  intros Hc Ht. destruct (sameLetter c t) eqn:E; [|reflexivity].
  pose proof (letter_is_word c t Ht E) as Hw.
  rewrite (space_not_word c Hc) in Hw. discriminate.
Qed.

Lemma tokenLimit_app_space tok p l c :
  forallb JS.is_alnum tok = true ->
  JS.is_space c = true ->
  tokenLimit notAlnum tok p (l ++ [c]) = tokenLimit notAlnum tok p l.
Proof.
  intros Htok Hc. revert p l.
  induction tok as [|t tok IH]; intros p l; unfold tokenLimit in *; simpl.
  - destruct l; simpl; [now apply space_notAlnum | reflexivity].
  - simpl in Htok. apply andb_true_iff in Htok as [Ht Htok].
    destruct l as [|d l]; simpl.
    + now rewrite (space_is_no_letter c t Hc Ht).
    + destruct (sameLetter d t); [apply IH; exact Htok | reflexivity].
Qed.

Lemma iconTokens_alnum :
  Forall (fun tok => forallb JS.is_alnum tok = true) (map list_ascii_of_string iconTokens).
Proof. repeat constructor. Qed.

Lemma tokens_app_space l c :
  JS.is_space c = true ->
  existsb (fun tok => tokenAt notAlnum tok (l ++ [c])) (map list_ascii_of_string iconTokens)
  = existsb (fun tok => tokenAt notAlnum tok l) (map list_ascii_of_string iconTokens).
Proof.
  intros Hc. pose proof iconTokens_alnum as H.
  induction H as [|tok toks Htok _ IH]; simpl; [reflexivity|].
  rewrite IH. f_equal.
  exact (tokenLimit_app_space tok None l c Htok Hc).
Qed.

Lemma wholeWord_app_space prev l c :
  JS.is_space c = true ->
  wholeWordFrom notAlnum (map list_ascii_of_string iconTokens) prev (l ++ [c])
  = wholeWordFrom notAlnum (map list_ascii_of_string iconTokens) prev l.
Proof.
  intros Hc. revert prev. induction l as [|d l IH]; intros prev.
  - rewrite (wholeWordFrom_unfold _ _ prev []).
    change (([] ++ [c])%list) with [c].
    rewrite (wholeWordFrom_unfold _ _ prev [c]).
    rewrite (wholeWordFrom_unfold _ _ (Some c) []).
    rewrite tokens_not_empty.
    destruct (existsb _ _) eqn:E.
    + apply tokens_start_on_word in E. rewrite (space_not_word c Hc) in E. discriminate.
    + now rewrite !andb_false_r.
  - change (((d :: l) ++ [c])%list) with (d :: (l ++ [c]))%list.
    rewrite (wholeWordFrom_unfold _ _ prev (d :: l ++ [c])%list).
    rewrite (wholeWordFrom_unfold _ _ prev (d :: l)).
    rewrite IH.
    change ((d :: l ++ [c])%list) with (((d :: l) ++ [c])%list).
    now rewrite tokens_app_space.
Qed.

Lemma wholeWord_cons_space l c :
  JS.is_space c = true ->
  wholeWordFrom notAlnum (map list_ascii_of_string iconTokens) None (c :: l)
  = wholeWordFrom notAlnum (map list_ascii_of_string iconTokens) None l.
Proof.
  intros Hc.
  rewrite (wholeWordFrom_unfold _ _ None (c :: l)).
  rewrite (wholeWordFrom_unfold _ _ (Some c) l).
  rewrite (wholeWordFrom_unfold _ _ None l).
  cbn [limitOK]. rewrite (space_notAlnum c Hc).
  destruct (existsb _ (map _ _)) eqn:E at 1.
  - apply tokens_start_on_word in E. rewrite (space_not_word c Hc) in E. discriminate.
  - reflexivity.
Qed.

Lemma wholeWord_drop_space l :
  wholeWordFrom notAlnum (map list_ascii_of_string iconTokens) None (JS.drop_space l)
  = wholeWordFrom notAlnum (map list_ascii_of_string iconTokens) None l.
Proof.
  induction l as [|c l IH]; [reflexivity|].
  cbn [JS.drop_space]. destruct (JS.is_space c) eqn:Hc; [|reflexivity].
  rewrite IH. symmetry. now apply wholeWord_cons_space.
Qed.

Lemma wholeWord_drop_space_rev m :
  wholeWordFrom notAlnum (map list_ascii_of_string iconTokens) None (rev (JS.drop_space m))
  = wholeWordFrom notAlnum (map list_ascii_of_string iconTokens) None (rev m).
Proof.
  induction m as [|c m IH]; [reflexivity|].
  cbn [JS.drop_space]. destruct (JS.is_space c) eqn:Hc; [|reflexivity].
  rewrite IH. cbn [rev]. symmetry. now apply wholeWord_app_space.
Qed.

Lemma hasWholeWord_trim s :
  hasWholeWord notAlnum iconTokens (JS.trim s) = hasWholeWord notAlnum iconTokens s.
Proof.
  unfold hasWholeWord, JS.trim, JS.trim_chars.
  rewrite list_ascii_of_string_of_list_ascii.
  rewrite wholeWord_drop_space_rev, rev_involutive.
  apply wholeWord_drop_space.
Qed.

(** ** Icon classifier: the theorems *)

Lemma isComponentAnIcon_unfold mc :
  isComponentAnIcon mc
  = hasWholeWord notAlnum iconTokens (mc_name mc)
    || match mc_parent mc with
       | Some p =>
           if String.eqb (parent_type p) "COMPONENT_SET"
           then hasWholeWord notAlnum iconTokens (parent_name p) else false
       | None => false
       end
    || match mc_variantProperties mc with
       | VPDict vp => existsb (fun kv => containsIcon (fst kv) || containsIcon (snd kv)) vp
       | _ => false
       end.
Proof.
  unfold isComponentAnIcon. cbv zeta.
  assert (Hif : forall b : bool, (if b then true else false) = b) by (now intros []).
  rewrite Hif, !iconNameRegex_test, hasWholeWord_trim.
  assert (E : forall vp,
             existsb (fun kv => Regex.test iconRegex (fst kv) || Regex.test iconRegex (snd kv)) vp
             = existsb (fun kv => containsIcon (fst kv) || containsIcon (snd kv)) vp).
  { induction vp as [|kv vp IH]; simpl; [reflexivity|].
    now rewrite IH, !iconRegex_test. }
  f_equal; [f_equal|].
  - destruct (mc_parent mc) as [p|]; [|reflexivity].
    now destruct (String.eqb (parent_type p) "COMPONENT_SET").
  - destruct (mc_variantProperties mc); [reflexivity | reflexivity | apply E].
Qed.

(** C2, as worded, fails on two counts.  A component named ["ic_close"]
    whose variant properties cannot be read is classified as an icon,
    where the claim says that an error reading them yields "not an icon".
    And ["Button/Icon"], which the claim itself lists as an icon, has no
    token limited by the start or end of the string, an underscore, a
    hyphen or white space: the slash is none of them. *)
Lemma icon_rule_as_worded_fails :
  let unreadable :=
    {| mc_name := "ic_close"; mc_key := "k1"; mc_id := "1:2"; mc_parent := None;
       mc_variantProperties := VPThrows; mc_width := 24; mc_height := 24 |} in
  let slash :=
    {| mc_name := "Button/Icon"; mc_key := "k2"; mc_id := "1:3"; mc_parent := None;
       mc_variantProperties := VPAbsent; mc_width := 24; mc_height := 24 |} in
  (mc_variantProperties unreadable = VPThrows /\ isComponentAnIcon unreadable = true)
  /\ (hasWholeWord enumeratedLimit iconTokens (mc_name slash) = false
      /\ isComponentAnIcon slash = true).
Proof. repeat split; vm_compute; reflexivity. Qed.

(** C2 (amended): [isComponentAnIcon] returns true if and only if the token
    "ic" or "icon" stands as a whole word in the component's own name or in
    the name of its variant set, without regard to case, a word being
    limited on each side by the start or end of the string or by any
    character that is not an ASCII letter or digit (underscore, hyphen,
    white space, slash, ...), or else the variant properties can be read
    and one of their keys or values contains "icon", without regard to
    case; otherwise it returns false.  When reading the variant properties
    raises, the names alone decide.  Size plays no part.  In particular
    "ic_close" and "Button/Icon" are icons, and "iconography_panel" and
    "PrimaryButton", outside a variant set and without variant properties,
    are not. *)
Theorem isComponentAnIcon_rule (mc : MainComponent) :
  let byName := hasWholeWord notAlnum iconTokens (mc_name mc) = true in
  let bySetName :=
    exists p, mc_parent mc = Some p /\ parent_type p = "COMPONENT_SET"
              /\ hasWholeWord notAlnum iconTokens (parent_name p) = true in
  let byVariant :=
    exists vp k v, mc_variantProperties mc = VPDict vp /\ In (k, v) vp
                   /\ (containsIcon k = true \/ containsIcon v = true) in
  (isComponentAnIcon mc = true <-> byName \/ bySetName \/ byVariant)
  /\ (mc_variantProperties mc = VPThrows ->
      (isComponentAnIcon mc = true <-> byName \/ bySetName))
  /\ (forall w h,
         isComponentAnIcon
           {| mc_name := mc_name mc; mc_key := mc_key mc; mc_id := mc_id mc;
              mc_parent := mc_parent mc;
              mc_variantProperties := mc_variantProperties mc;
              mc_width := w; mc_height := h |}
         = isComponentAnIcon mc)
  /\ (mc_name mc = "ic_close" -> isComponentAnIcon mc = true)
  /\ (mc_name mc = "Button/Icon" -> isComponentAnIcon mc = true)
  /\ (mc_name mc = "iconography_panel" -> mc_parent mc = None ->
      mc_variantProperties mc = VPAbsent -> isComponentAnIcon mc = false)
  /\ (mc_name mc = "PrimaryButton" -> mc_parent mc = None ->
      mc_variantProperties mc = VPAbsent -> isComponentAnIcon mc = false).
Proof.
  intros byName bySetName byVariant.
  assert (Hiff : isComponentAnIcon mc = true <-> byName \/ bySetName \/ byVariant).
  { rewrite isComponentAnIcon_unfold. subst byName bySetName byVariant.
    rewrite !orb_true_iff. split.
    - intros [[H|H]|H].
      + now left.
      + right; left. destruct (mc_parent mc) as [p|]; [|discriminate].
        destruct (String.eqb (parent_type p) "COMPONENT_SET") eqn:E; [|discriminate].
        apply String.eqb_eq in E. eauto.
      + right; right. destruct (mc_variantProperties mc) as [| |vp]; try discriminate.
        apply existsb_exists in H as [[k v] [Hin Hkv]].
        apply orb_true_iff in Hkv. exists vp, k, v. auto.
    - intros [H|[(p & Hp & Ht & H)|(vp & k & v & Hvp & Hin & H)]].
      + now left; left.
      + left; right. rewrite Hp. apply String.eqb_eq in Ht. now rewrite Ht.
      + right. rewrite Hvp. apply existsb_exists. exists (k, v).
        split; [exact Hin|]. now apply orb_true_iff. }
  split; [exact Hiff|].
  split.
  { intros Hvp. rewrite Hiff. subst byVariant. split; [|tauto].
    intros [H|[H|(vp & k & v & Hd & _)]]; [tauto | tauto | congruence]. }
  split; [intros w h; now rewrite !isComponentAnIcon_unfold|].
  rewrite isComponentAnIcon_unfold.
  repeat split.
  - now intros ->.
  - now intros ->.
  - now intros -> -> ->.
  - now intros -> -> ->.
Qed.

Lemma isComponentAnIcon_rule_witness :
  isComponentAnIcon
    {| mc_name := "ic_close"; mc_key := "k1"; mc_id := "1:2"; mc_parent := None;
       mc_variantProperties := VPThrows; mc_width := 24; mc_height := 24 |} = true.
Proof.
  destruct (isComponentAnIcon_rule
              {| mc_name := "ic_close"; mc_key := "k1"; mc_id := "1:2"; mc_parent := None;
                 mc_variantProperties := VPThrows; mc_width := 24; mc_height := 24 |})
    as (_ & _ & _ & H & _).
  apply H. reflexivity.
Defined.

(** ** Reclassification pass *)

Lemma looksIcon_setIsIcon b c :
  looksIcon (setIsIcon b c) = looksIcon (setIsIcon false c) || b.
Proof.
  unfold looksIcon, setIsIcon. simpl. now rewrite orb_false_r.
Qed.

Lemma looksIcon_split c :
  looksIcon c = looksIcon (setIsIcon false c) || cr_isIcon c.
Proof.
  unfold looksIcon, setIsIcon. simpl. now rewrite orb_false_r.
Qed.

(** Writing the outcome of the test into the flag does not change the
    outcome of the test. *)
Lemma looksIcon_stable c : looksIcon (setIsIcon (looksIcon c) c) = looksIcon c.
Proof.
  rewrite looksIcon_setIsIcon, (looksIcon_split c).
  now destruct (looksIcon (setIsIcon false c)), (cr_isIcon c).
Qed.

Lemma setIsIcon_setIsIcon a b c : setIsIcon a (setIsIcon b c) = setIsIcon a c.
Proof. reflexivity. Qed.

Lemma setIsIcon_same c : setIsIcon (cr_isIcon c) c = c.
Proof. now destruct c. Qed.

Lemma reclassInv_refl h0 : reclassInv h0 h0.
Proof. intros c. now left. Qed.

Lemma reclassInv_looksIcon h0 h c :
  reclassInv h0 h -> looksIcon (h c) = looksIcon (h0 c).
Proof.
  intros Hinv. destruct (Hinv c) as [-> | ->]; [reflexivity | apply looksIcon_stable].
Qed.

Lemma reclassInv_write h0 h c :
  reclassInv h0 h ->
  reclassInv h0 (<[ c := setIsIcon (looksIcon (h0 c)) (h c) ]> h).
Proof.
  intros Hinv d. destruct (decide (c = d)) as [<- | Hne].
  - rewrite fn_lookup_insert. right.
    destruct (Hinv c) as [-> | ->]; reflexivity.
  - rewrite fn_lookup_insert_ne by exact Hne. apply Hinv.
Qed.

Lemma reclassify_step h0 st c :
  reclassInv h0 (rc_heap st) ->
  reclassify st c =
    {| rc_heap := <[ c := setIsIcon (looksIcon (h0 c)) (rc_heap st c) ]> (rc_heap st);
       reclassComponents :=
         (reclassComponents st ++ (if looksIcon (h0 c) then [] else [c]))%list;
       reclassIcons :=
         (reclassIcons st ++ (if looksIcon (h0 c) then [c] else []))%list |}.
Proof.
  intros Hinv. unfold reclassify.
  rewrite (reclassInv_looksIcon h0 _ c Hinv).
  destruct (looksIcon (h0 c)); unfold pushIcon, pushComp; now rewrite app_nil_r.
Qed.

(** The two arrays built by a loop of the pass, and its heap. *)
Lemma reclassify_fold h0 (l : list loc) st :
  reclassInv h0 (rc_heap st) ->
  let st' := fold_left reclassify l st in
  reclassInv h0 (rc_heap st')
  /\ reclassComponents st'
     = (reclassComponents st ++ List.filter (fun c => negb (looksIcon (h0 c))) l)%list
  /\ reclassIcons st'
     = (reclassIcons st ++ List.filter (fun c => looksIcon (h0 c)) l)%list
  /\ (forall c, In c l -> rc_heap st' c = setIsIcon (looksIcon (h0 c)) (h0 c))
  /\ (forall c, rc_heap st c = setIsIcon (looksIcon (h0 c)) (h0 c) ->
                rc_heap st' c = setIsIcon (looksIcon (h0 c)) (h0 c))
  /\ (forall c, ~ In c l -> rc_heap st' c = rc_heap st c).
Proof.
  revert st. induction l as [|c l IH]; intros st Hinv; cbn zeta.
  - simpl. rewrite !app_nil_r. repeat split; auto. intros c [].
  - cbn [fold_left]. rewrite (reclassify_step h0 st c Hinv).
    set (st1 := {| rc_heap := _ |}).
    assert (Hinv1 : reclassInv h0 (rc_heap st1)) by (apply reclassInv_write; exact Hinv).
    assert (Hc1 : rc_heap st1 c = setIsIcon (looksIcon (h0 c)) (h0 c)).
    { subst st1. cbn [rc_heap]. rewrite fn_lookup_insert.
      destruct (Hinv c) as [-> | ->]; reflexivity. }
    destruct (IH st1 Hinv1) as (I1 & I2 & I3 & I4 & I5 & I6).
    split; [exact I1|].
    split.
    { rewrite I2. subst st1. cbn [reclassComponents List.filter].
      destruct (looksIcon (h0 c)); simpl; now rewrite <- ?app_assoc. }
    split.
    { rewrite I3. subst st1. cbn [reclassIcons List.filter].
      destruct (looksIcon (h0 c)); simpl; now rewrite <- ?app_assoc. }
    split.
    { intros d [<- | Hd]; [apply I5; exact Hc1 | apply I4; exact Hd]. }
    split.
    { intros d Hd. apply I5. subst st1. cbn [rc_heap].
      destruct (decide (c = d)) as [<- | Hne].
      - exact Hc1.
      - rewrite fn_lookup_insert_ne by exact Hne. exact Hd. }
    { intros d Hd. rewrite I6 by (intros Hin; apply Hd; now right).
      subst st1. cbn [rc_heap]. apply fn_lookup_insert_ne.
      intros ->. apply Hd. now left. }
Qed.

(** The result of the pass, as a function of the initial heap. *)
Lemma normalize_result h0 h data :
  reclassInv h0 h ->
  let all := (ad_components data ++ ad_icons data)%list in
  let res := normalizeComponentIconClassification h data in
  reclassInv h0 (fst res)
  /\ ad_components (snd res) = List.filter (fun c => negb (looksIcon (h0 c))) all
  /\ ad_icons (snd res) = List.filter (fun c => looksIcon (h0 c)) all
  /\ ad_fonts (snd res) = ad_fonts data
  /\ ad_colors (snd res) = ad_colors data
  /\ (forall c, In c all -> fst res c = setIsIcon (looksIcon (h0 c)) (h0 c))
  /\ (forall c, ~ In c all -> fst res c = h c).
Proof.
  intros Hinv all res. subst res. unfold normalizeComponentIconClassification.
  cbv zeta. cbn [fst snd ad_components ad_icons ad_fonts ad_colors].
  set (st0 := {| rc_heap := h; reclassComponents := []; reclassIcons := [] |}).
  destruct (reclassify_fold h0 (ad_components data) st0 Hinv) as (A1 & A2 & A3 & A4 & A5 & A6).
  set (st1 := fold_left reclassify (ad_components data) st0) in *.
  destruct (reclassify_fold h0 (ad_icons data) st1 A1) as (B1 & B2 & B3 & B4 & B5 & B6).
  set (st2 := fold_left reclassify (ad_icons data) st1) in *.
  subst all. rewrite !List.filter_app.
  repeat split; auto.
  - rewrite B2, A2. reflexivity.
  - rewrite B3, A3. reflexivity.
  - intros c Hc. apply in_app_or in Hc as [Hc | Hc]; [apply B5, A4, Hc | apply B4, Hc].
  - intros c Hc. rewrite B6, A6; [reflexivity | |]; intros Hin; apply Hc, in_or_app; auto.
Qed.

(** C8: after [normalizeComponentIconClassification], every reference of
    the record's input [components] and [icons] arrays is in exactly one of
    the two output arrays, as often as it was in the input; no reference is
    in both; and the [isIcon] flag of every entry tells the array it is
    in.  Nothing else of an entry is changed. *)
Theorem normalize_is_a_partition (h : heap) (data : AnalysisData) :
  let input := (ad_components data ++ ad_icons data)%list in
  let h' := fst (normalizeComponentIconClassification h data) in
  let out := snd (normalizeComponentIconClassification h data) in
  (forall c, In c input -> In c (ad_components out) \/ In c (ad_icons out))
  /\ (forall c, ~ (In c (ad_components out) /\ In c (ad_icons out)))
  /\ (forall c, In c (ad_components out) -> In c input /\ cr_isIcon (h' c) = false)
  /\ (forall c, In c (ad_icons out) -> In c input /\ cr_isIcon (h' c) = true)
  /\ (ad_components out ++ ad_icons out)%list ≡ₚ input
  /\ (forall c, h' c = setIsIcon (cr_isIcon (h' c)) (h c)).
Proof.
  intros input h' out.
  destruct (normalize_result h h data (reclassInv_refl h))
    as (Hinv & Hc & Hi & _ & _ & Hin & Hout).
  fold h' in Hinv, Hin, Hout. fold out in Hc, Hi. fold input in Hc, Hi, Hin, Hout.
  assert (Hcomp : forall c, In c (ad_components out) <-> In c input /\ looksIcon (h c) = false).
  { intros c. rewrite Hc, List.filter_In, negb_true_iff. reflexivity. }
  assert (Hicon : forall c, In c (ad_icons out) <-> In c input /\ looksIcon (h c) = true).
  { intros c. rewrite Hi, List.filter_In. reflexivity. }
  repeat split.
  - intros c Hc'. destruct (looksIcon (h c)) eqn:E.
    + right. apply Hicon. auto.
    + left. apply Hcomp. auto.
  - intros c [H1 H2]. apply Hcomp in H1 as [_ H1]. apply Hicon in H2 as [_ H2]. congruence.
  - now apply Hcomp.
  - apply Hcomp in H as [H1 H2]. rewrite (Hin c H1), H2. reflexivity.
  - now apply Hicon.
  - apply Hicon in H as [H1 H2]. rewrite (Hin c H1), H2. reflexivity.
  - rewrite Hc, Hi. clear. induction input as [|c l IH]; simpl; [reflexivity|].
    destruct (looksIcon (h c)); simpl.
    + etransitivity; [symmetry; apply Permutation_middle|].
      constructor. exact IH.
    + constructor. exact IH.
  - intros c. destruct (Hinv c) as [E | E]; rewrite E.
    + symmetry. apply setIsIcon_same.
    + reflexivity.
Qed.

(** The pass on a record whose arrays share objects: location 0 occurs
    twice among the components, location 2 (named "ic_close") occurs in
    both input arrays.  Every occurrence is filed by the same test. *)
Example normalize_shared_objects :
  let res :=
    normalizeComponentIconClassification exampleHeap
      (mkAnalysisData [0%nat; 2%nat; 0%nat] [2%nat] [] []) in
  ad_components (snd res) = [0%nat; 0%nat]
  /\ ad_icons (snd res) = [2%nat; 2%nat]
  /\ cr_isIcon (fst res 0%nat) = false
  /\ cr_isIcon (fst res 2%nat) = true.
Proof. repeat split; vm_compute; reflexivity. Qed.

(** ** Insertion-ordered maps filled with [if (!m.has(k)) m.set(k, v)] *)

Lemma ListNoDup_snoc {A : Type} (l : list A) (x : A) :
  List.NoDup l -> ~ In x l -> List.NoDup (l ++ [x]).
Proof.
  induction l as [|a l IH]; simpl; intros Hn Hx.
  - constructor; [tauto | constructor].
  - inversion Hn; subst. constructor.
    + rewrite in_app_iff. simpl. intros [H|[H|[]]]; [tauto | subst; tauto].
    + apply IH; tauto.
Qed.

Section FirstWins.
Context {K V : Type} `{EqDecision K} (key : V -> K).

Lemma get_set (k k' : K) (v : V) (m : list (K * V)) :
  JSMap.get k (JSMap.set k' v m) = if decide (k = k') then Some v else JSMap.get k m.
Proof.
  induction m as [|[k0 v0] m IH]; simpl.
  - destruct (decide (k = k')); subst; [now rewrite bool_decide_eq_true_2 | now rewrite bool_decide_eq_false_2].
  - destruct (decide (k' = k0)) as [->|Hne0].
    + rewrite bool_decide_eq_true_2 by reflexivity. simpl.
      destruct (decide (k = k0)) as [->|Hne].
      * now rewrite bool_decide_eq_true_2.
      * now rewrite !bool_decide_eq_false_2.
    + rewrite (bool_decide_eq_false_2 (k' = k0)) by exact Hne0. simpl.
      rewrite IH. destruct (decide (k = k0)) as [->|Hne].
      * rewrite bool_decide_eq_true_2 by reflexivity.
        destruct (decide (k0 = k')); [congruence | reflexivity].
      * now rewrite bool_decide_eq_false_2.
Qed.

Lemma get_setIfAbsent (k k' : K) (v : V) (m : list (K * V)) :
  JSMap.get k (JSMap.setIfAbsent k' v m)
  = match JSMap.get k m with
    | Some w => Some w
    | None => if decide (k = k') then Some v else None
    end.
Proof.
  unfold JSMap.setIfAbsent, JSMap.has.
  destruct (JSMap.get k' m) as [w'|] eqn:E'.
  - destruct (JSMap.get k m) eqn:E; [reflexivity|].
    destruct (decide (k = k')); [congruence | reflexivity].
  - rewrite get_set. destruct (decide (k = k')) as [->|Hne].
    + now rewrite E'.
    + now destruct (JSMap.get k m).
Qed.

Lemma get_aggregate (k : K) (m : list (K * V)) (l : list V) :
  JSMap.get k (aggregate key m l)
  = match JSMap.get k m with
    | Some w => Some w
    | None => List.find (fun x => bool_decide (key x = k)) l
    end.
Proof.
  revert m. induction l as [|x l IH]; intros m; simpl.
  - now destruct (JSMap.get k m).
  - unfold aggregate in *. simpl. rewrite IH, get_setIfAbsent.
    destruct (JSMap.get k m); [reflexivity|].
    destruct (decide (k = key x)) as [->|Hne].
    + now rewrite bool_decide_eq_true_2.
    + rewrite bool_decide_eq_false_2 by congruence. reflexivity.
Qed.

Lemma get_None_keys (k : K) (m : list (K * V)) :
  JSMap.get k m = None <-> ~ In k (JSMap.keys m).
Proof.
  induction m as [|[k0 v0] m IH]; simpl.
  - tauto.
  - destruct (decide (k = k0)) as [->|Hne].
    + rewrite bool_decide_eq_true_2 by reflexivity. split; [discriminate | tauto].
    + rewrite bool_decide_eq_false_2 by exact Hne. rewrite IH. split; [|tauto].
      intros H [E|E]; [congruence | tauto].
Qed.

Lemma set_fresh (k : K) (v : V) (m : list (K * V)) :
  JSMap.get k m = None -> JSMap.set k v m = (m ++ [(k, v)])%list.
Proof.
  induction m as [|[k0 v0] m IH]; simpl; [reflexivity|].
  destruct (decide (k = k0)) as [->|Hne].
  - rewrite bool_decide_eq_true_2 by reflexivity. discriminate.
  - rewrite bool_decide_eq_false_2 by exact Hne. intros H. now rewrite IH.
Qed.

Lemma setIfAbsent_cases (k : K) (v : V) (m : list (K * V)) :
  (JSMap.get k m <> None /\ JSMap.setIfAbsent k v m = m)
  \/ (JSMap.get k m = None /\ JSMap.setIfAbsent k v m = (m ++ [(k, v)])%list).
Proof.
  unfold JSMap.setIfAbsent, JSMap.has.
  destruct (JSMap.get k m) eqn:E; [left | right]; split; auto; try discriminate.
  now apply set_fresh.
Qed.

Lemma aggregate_wf (m : list (K * V)) (l : list V) :
  keyed key m -> List.NoDup (JSMap.keys m) ->
  keyed key (aggregate key m l) /\ List.NoDup (JSMap.keys (aggregate key m l)).
Proof.
  revert m. induction l as [|x l IH]; intros m Hk Hn; [now split|].
  unfold aggregate in *. simpl. apply IH.
  - destruct (setIfAbsent_cases (key x) x m) as [[_ ->] | [_ ->]]; [exact Hk|].
    intros k v Hin. apply in_app_or in Hin as [Hin | [E | []]]; [now apply Hk|].
    now inversion E.
  - destruct (setIfAbsent_cases (key x) x m) as [[_ ->] | [Hg ->]]; [exact Hn|].
    unfold JSMap.keys in *. rewrite map_app. simpl.
    apply ListNoDup_snoc; [exact Hn | now apply get_None_keys in Hg].
Qed.

Lemma find_values (k : K) (m : list (K * V)) :
  keyed key m ->
  List.find (fun v => bool_decide (key v = k)) (JSMap.values m) = JSMap.get k m.
Proof.
  intros Hk. induction m as [|[k0 v0] m IH]; simpl; [reflexivity|].
  assert (E0 : key v0 = k0) by (apply Hk; now left).
  rewrite IH by (intros k1 v1 Hin; apply Hk; now right).
  destruct (decide (k = k0)) as [->|Hne].
  - now rewrite !bool_decide_eq_true_2.
  - rewrite !bool_decide_eq_false_2 by congruence. reflexivity.
Qed.

Lemma keys_values (m : list (K * V)) : keyed key m -> map key (JSMap.values m) = JSMap.keys m.
Proof.
  intros Hk. induction m as [|[k0 v0] m IH]; simpl; [reflexivity|].
  rewrite IH by (intros k1 v1 Hin; apply Hk; now right).
  f_equal. apply Hk. now left.
Qed.

(** Filled from the empty map: no key twice, and under each key the first
    value of the sequence with that key. *)
Lemma aggregate_first_wins (l : list V) :
  List.NoDup (map key (JSMap.values (aggregate key [] l)))
  /\ forall k,
      List.find (fun v => bool_decide (key v = k)) (JSMap.values (aggregate key [] l))
      = List.find (fun v => bool_decide (key v = k)) l.
Proof.
  destruct (aggregate_wf [] l) as [Hk Hn].
  { intros k v []. }
  { constructor. }
  split.
  - now rewrite keys_values.
  - intros k. rewrite find_values by exact Hk. now rewrite get_aggregate.
Qed.

Lemma aggregate_app (m : list (K * V)) (l1 l2 : list V) :
  aggregate key m (l1 ++ l2) = aggregate key (aggregate key m l1) l2.
Proof. unfold aggregate. apply fold_left_app. Qed.

End FirstWins.

Lemma aggregate_values_in {K V : Type} `{EqDecision K} (key : V -> K)
    (m : list (K * V)) (l : list V) (v : V) :
  In v (JSMap.values (aggregate key m l)) -> In v (JSMap.values m) \/ In v l.
Proof.
  revert m. induction l as [|x l IH]; intros m Hin; [now left|].
  unfold aggregate in *. simpl in Hin. apply IH in Hin as [Hin | Hin]; [|right; now right].
  destruct (setIfAbsent_cases (key x) x m) as [[_ E] | [_ E]]; rewrite E in Hin.
  - now left.
  - unfold JSMap.values in *. rewrite map_app in Hin.
    apply in_app_or in Hin as [Hin | [<- | []]]; [now left | right; now left].
Qed.

Lemma find_ext_in {A : Type} (f g : A -> bool) (l : list A) :
  (forall x, In x l -> f x = g x) -> List.find f l = List.find g l.
Proof.
  induction l as [|a l IH]; intros H; simpl; [reflexivity|].
  rewrite (H a) by now left. rewrite IH by (intros x Hx; apply H; now right).
  reflexivity.
Qed.

Lemma fold_left_ext_in {A B : Type} (f g : A -> B -> A) (l : list B) (a : A) :
  (forall a b, f a b = g a b) -> fold_left f l a = fold_left g l a.
Proof.
  intros H. revert a. induction l as [|b l IH]; intros a; simpl; [reflexivity|].
  now rewrite H, IH.
Qed.

(** ** Aggregator *)

Lemma componentKey_setIsIcon b c : componentKey (setIsIcon b c) = componentKey c.
Proof. reflexivity. Qed.

Lemma reclassInv_key h0 h c :
  reclassInv h0 h -> componentKey (h c) = componentKey (h0 c).
Proof.
  intros Hinv. destruct (Hinv c) as [-> | ->]; [reflexivity | apply componentKey_setIsIcon].
Qed.

Lemma reclassInv_fields h0 h c :
  reclassInv h0 h -> setIsIcon (cr_isIcon (h0 c)) (h c) = h0 c.
Proof.
  intros Hinv. destruct (Hinv c) as [-> | ->].
  - apply setIsIcon_same.
  - rewrite setIsIcon_setIsIcon. apply setIsIcon_same.
Qed.

Section AggregatorFacts.
Variable fractionToString : Q -> string.
Variable h0 : heap.

Lemma aggregateRecord_spec ag entry :
  reclassInv h0 (ag_heap ag) ->
  let ag' := aggregateRecord fractionToString ag entry in
  reclassInv h0 (ag_heap ag')
  /\ aggregatedComponents ag'
     = aggregate (componentKeyAt h0) (aggregatedComponents ag)
         (normalizedComponents h0 [entry])
  /\ aggregatedIcons ag'
     = aggregate (componentKeyAt h0) (aggregatedIcons ag) (normalizedIcons h0 [entry])
  /\ aggregatedFonts ag'
     = aggregate (fontMapKey fractionToString) (aggregatedFonts ag) (ad_fonts (snd entry))
  /\ aggregatedColors ag'
     = aggregate colorMapKey (aggregatedColors ag) (ad_colors (snd entry)).
Proof.
  intros Hinv ag'. subst ag'. unfold aggregateRecord. cbv zeta.
  set (d := {| ad_components := ad_components (snd entry);
               ad_icons := ad_icons (snd entry); ad_fonts := []; ad_colors := [] |}).
  destruct (normalize_result h0 (ag_heap ag) d Hinv) as (I & Hc & Hi & _).
  destruct (normalizeComponentIconClassification (ag_heap ag) d) as [h normalized].
  cbn [fst snd] in *. cbn [ag_heap aggregatedComponents aggregatedIcons
                          aggregatedFonts aggregatedColors].
  assert (Hk : forall m c,
             aggregateComponent h m c = JSMap.setIfAbsent (componentKeyAt h0 c) c m).
  { intros m c. unfold aggregateComponent, componentKeyAt.
    now rewrite (reclassInv_key h0 h c I). }
  unfold normalizedComponents, normalizedIcons. cbn [flat_map]. rewrite !app_nil_r.
  split; [exact I|].
  split; [rewrite Hc; unfold aggregate; apply fold_left_ext_in; exact Hk|].
  split; [rewrite Hi; unfold aggregate; apply fold_left_ext_in; exact Hk|].
  split; reflexivity.
Qed.

Lemma aggregateRecords_spec cache ag :
  reclassInv h0 (ag_heap ag) ->
  let ag' := fold_left (aggregateRecord fractionToString) cache ag in
  reclassInv h0 (ag_heap ag')
  /\ aggregatedComponents ag'
     = aggregate (componentKeyAt h0) (aggregatedComponents ag) (normalizedComponents h0 cache)
  /\ aggregatedIcons ag'
     = aggregate (componentKeyAt h0) (aggregatedIcons ag) (normalizedIcons h0 cache)
  /\ aggregatedFonts ag'
     = aggregate (fontMapKey fractionToString) (aggregatedFonts ag) (cachedFonts cache)
  /\ aggregatedColors ag'
     = aggregate colorMapKey (aggregatedColors ag) (cachedColors cache).
Proof.
  revert ag. induction cache as [|e cache IH]; intros ag Hinv; cbv zeta.
  - simpl. auto.
  - cbn [fold_left].
    destruct (aggregateRecord_spec ag e Hinv) as (I & E1 & E2 & E3 & E4).
    destruct (IH _ I) as (I' & F1 & F2 & F3 & F4).
    unfold normalizedComponents, normalizedIcons, cachedFonts, cachedColors in *.
    cbn [flat_map] in *. rewrite app_nil_r in E1, E2.
    rewrite !aggregate_app, <- E1, <- E2, <- E3, <- E4. auto.
Qed.

End AggregatorFacts.

Lemma truthy_hex_key (c : ColorUsage) (hex : string) :
  JS.truthy (cu_hex c) = true ->
  bool_decide (colorMapKey c = KeyHex hex) = bool_decide (cu_hex c = hex).
Proof.
  intros Ht. unfold colorMapKey. rewrite Ht.
  destruct (decide (cu_hex c = hex)) as [->|Hne].
  - now rewrite !bool_decide_eq_true_2.
  - rewrite !bool_decide_eq_false_2; [reflexivity | exact Hne | congruence].
Qed.

(** The summary of the example: one "Button" (the first, with its count of
    five), "ic_close" filed as an icon, and one red (the first, at full
    opacity). *)
Example summary_of_example :
  let res := collectSummaryData (fun _ => "") 2 exampleHeap exampleCache in
  sd_components (snd res) = [0%nat]
  /\ sd_icons (snd res) = [2%nat]
  /\ sd_colors (snd res) = [exampleRed 1]
  /\ cr_instanceCount (fst res 0%nat) = 5
  /\ cr_isIcon (fst res 2%nat) = true.
Proof. repeat split; vm_compute; reflexivity. Qed.

(** ** Export encoder *)

Lemma collapseSpec_cons c l :
  collapseSpec (c :: l)
  = if isSpaceOrHyphen c
    then match l with
         | c' :: _ => if isSpaceOrHyphen c' then collapseSpec l else "_"%char :: collapseSpec l
         | [] => ["_"%char]
         end
    else c :: collapseSpec l.
Proof. reflexivity. Qed.

Lemma collapseSpec_run c l :
  isSpaceOrHyphen c = true ->
  collapseSpec (c :: l) = "_"%char :: List.tl (collapseSpec (c :: l)).
Proof.
  revert c. induction l as [|c' l IH]; intros c Hc; rewrite collapseSpec_cons, Hc.
  - reflexivity.
  - destruct (isSpaceOrHyphen c') eqn:Ec'; [|reflexivity].
    now apply IH.
Qed.

Lemma collapseRuns_spec l :
  collapseRuns false l = collapseSpec l
  /\ collapseRuns true l
     = match l with
       | c :: _ => if isSpaceOrHyphen c then List.tl (collapseSpec l) else collapseSpec l
       | [] => []
       end.
Proof.
  induction l as [|c l [IH1 IH2]]; [split; reflexivity|].
  cbn [collapseRuns].
  destruct (isSpaceOrHyphen c) eqn:Ec.
  - rewrite IH2.
    assert (E : List.tl (collapseSpec (c :: l))
                = match l with
                  | c' :: _ => if isSpaceOrHyphen c' then List.tl (collapseSpec l)
                               else collapseSpec l
                  | [] => []
                  end).
    { rewrite collapseSpec_cons, Ec. destruct l as [|c' l]; [reflexivity|].
      destruct (isSpaceOrHyphen c'); reflexivity. }
    rewrite <- E. split; [|reflexivity].
    symmetry. now apply collapseSpec_run.
  - rewrite IH1, collapseSpec_cons, Ec. split; reflexivity.
Qed.

Lemma keptByStrip_spec c :
  keptByStrip c = (JS.is_alnum c || Ascii.eqb c "_" || Ascii.eqb c "-" || JS.is_space c).
Proof.
  unfold keptByStrip.
  destruct (JS.is_alnum c), (Ascii.eqb c "_"), (Ascii.eqb c "-"), (JS.is_space c); reflexivity.
Qed.

(** The identifier rule of the code is the rule of the specification. *)
Lemma sanitizeIdentifier_spec name : sanitizeIdentifier name = sanitizeSpec name.
Proof.
  unfold sanitizeIdentifier, sanitizeSpec, JS.toLowerCase, JS.map_string.
  rewrite list_ascii_of_string_of_list_ascii.
  rewrite (proj1 (collapseRuns_spec _)).
  do 3 f_equal. apply List.filter_ext. intros c. apply keptByStrip_spec.
Qed.

Lemma replace_first_hash (by_ rest : string) :
  JS.replace_first "#" by_ (String "#" rest) = by_ ++ rest.
Proof.
  unfold JS.replace_first. cbn [String.length JS.replace_first_chars list_ascii_of_string].
  cbn [length take]. rewrite bool_decide_eq_true_2 by reflexivity.
  cbn [drop].
  induction by_ as [|b by_ IH]; simpl.
  - apply string_of_list_ascii_of_string.
  - now rewrite IH.
Qed.

Section EncoderFacts.
Variable fractionToString : Q -> string.

Lemma lookup_assignIfFalsy {V : Type} (k k' : string) (v : V) (obj : gmap string V) :
  assignIfFalsy k' v obj !! k
  = match obj !! k with
    | Some w => Some w
    | None => if bool_decide (k' = k) && negb (inheritedName k) then Some v else None
    end.
Proof.
  unfold assignIfFalsy.
  destruct (obj !! k') as [w'|] eqn:E'.
  - destruct (obj !! k) eqn:E; [reflexivity|].
    destruct (decide (k' = k)) as [->|Hne]; [congruence|].
    now rewrite bool_decide_eq_false_2.
  - destruct (inheritedName k') eqn:Ei.
    + destruct (obj !! k) eqn:E; [reflexivity|].
      destruct (decide (k' = k)) as [->|Hne].
      * rewrite Ei. now rewrite andb_false_r.
      * now rewrite bool_decide_eq_false_2.
    + destruct (decide (k' = k)) as [->|Hne].
      * rewrite lookup_insert_eq, E', Ei. now rewrite bool_decide_eq_true_2.
      * rewrite lookup_insert_ne by exact Hne.
        rewrite bool_decide_eq_false_2 by exact Hne. now destruct (obj !! k).
Qed.

Lemma lookup_writeAll {A V : Type} (entryOf : A -> string * V) (l : list A)
    (obj : gmap string V) (k : string) :
  writeAll entryOf l obj !! k
  = match obj !! k with
    | Some w => Some w
    | None =>
        if inheritedName k then None
        else option_map (fun x => snd (entryOf x)) (firstWith (fun x => fst (entryOf x)) k l)
    end.
Proof.
  revert obj. induction l as [|x l IH]; intros obj; simpl.
  - destruct (obj !! k); [reflexivity|]. now destruct (inheritedName k).
  - unfold writeAll in *. simpl. rewrite IH, lookup_assignIfFalsy.
    destruct (obj !! k); [reflexivity|].
    unfold firstWith. simpl.
    destruct (decide (fst (entryOf x) = k)) as [E|Hne].
    + rewrite !bool_decide_eq_true_2 by exact E. simpl.
      now destruct (inheritedName k).
    + rewrite !bool_decide_eq_false_2 by exact Hne. reflexivity.
Qed.

Lemma writeAll_app {A V : Type} (entryOf : A -> string * V) (l1 l2 : list A)
    (obj : gmap string V) :
  writeAll entryOf (l1 ++ l2) obj = writeAll entryOf l2 (writeAll entryOf l1 obj).
Proof. unfold writeAll. apply fold_left_app. Qed.

Lemma exportFont_step (j : LVGLJson) (f : FontUsage) :
  exportFont fractionToString j f
  = {| json_colors := json_colors j;
       json_typography :=
         assignIfFalsy (fst (fontExportOf fractionToString f))
           (snd (fontExportOf fractionToString f)) (json_typography j) |}.
Proof. unfold exportFont. now destruct (fontExportOf fractionToString f). Qed.

Lemma exportColor_step (j : LVGLJson) (c : ColorUsage) :
  exportColor j c
  = {| json_colors :=
         assignIfFalsy (fst (colorExportOf c)) (snd (colorExportOf c)) (json_colors j);
       json_typography := json_typography j |}.
Proof. unfold exportColor. now destruct (colorExportOf c). Qed.

Lemma exportFonts_fold (l : list FontUsage) (j : LVGLJson) :
  fold_left (exportFont fractionToString) l j
  = {| json_colors := json_colors j;
       json_typography := writeAll (fontExportOf fractionToString) l (json_typography j) |}.
Proof.
  revert j. induction l as [|f l IH]; intros j; cbn [fold_left].
  - now destruct j.
  - rewrite IH, exportFont_step. reflexivity.
Qed.

Lemma exportColors_fold (l : list ColorUsage) (j : LVGLJson) :
  fold_left exportColor l j
  = {| json_colors := writeAll colorExportOf l (json_colors j);
       json_typography := json_typography j |}.
Proof.
  revert j. induction l as [|c l IH]; intros j; cbn [fold_left].
  - now destruct j.
  - rewrite IH, exportColor_step. reflexivity.
Qed.

Lemma exportRecords_fold (cache : list (string * AnalysisData)) (j : LVGLJson) :
  fold_left (exportRecord fractionToString) cache j
  = {| json_colors := writeAll colorExportOf (cachedColors cache) (json_colors j);
       json_typography :=
         writeAll (fontExportOf fractionToString) (cachedFonts cache) (json_typography j) |}.
Proof.
  revert j. induction cache as [|e cache IH]; intros j.
  - now destruct j.
  - cbn [fold_left]. rewrite IH. unfold exportRecord.
    rewrite exportColors_fold, exportFonts_fold. cbn [json_colors json_typography].
    unfold cachedColors, cachedFonts. cbn [flat_map].
    now rewrite !writeAll_app.
Qed.

End EncoderFacts.

Lemma truthy_ne s : s <> "" -> JS.truthy s = true.
Proof.
  intros H. unfold JS.truthy. destruct (String.eqb s "") eqn:E; [|reflexivity].
  apply String.eqb_eq in E. contradiction.
Qed.

Lemma or_else_truthy s d : s <> "" -> JS.or_else s d = s.
Proof. intros H. unfold JS.or_else. now rewrite truthy_ne. Qed.

Lemma truthyOrNull_some name : name <> "" -> truthyOrNull (Some name) = Some name.
Proof. intros H. unfold truthyOrNull. simpl. now rewrite truthy_ne. Qed.

Lemma truthyOrNull_none o : truthy_opt o = false -> truthyOrNull o = None.
Proof. intros H. unfold truthyOrNull. now rewrite H. Qed.

(** C4: the export encoder takes as key source the entry's style name when
    it has one, and otherwise [family_style_size] for a font and
    [color_RRGGBB] for a colour; the key is the source sanitized (every
    character other than a letter, a digit, an underscore, a hyphen or
    white space is stripped, every run of white space and hyphens becomes
    one underscore, the result is lower-cased).  Under each key the
    dictionary holds the entry written first, that of the first source entry
    in iteration order with that key: later entries with the same key are
    dropped, without merge and without error.  Style names "Primary Color"
    and "primary-color" both give the key "primary_color", and only the
    first entry's data is kept.  (A key that is the name of a property
    every object inherits, "constructor" or "__proto__", is never written.) *)
Theorem export_first_write_wins (fractionToString : Q -> string)
    (cache : list (string * AnalysisData)) :
  let out := generateLVGLJson fractionToString cache in
  (forall color, fst (colorExportOf color) = sanitizeSpec (colorStyleKey color))
  /\ (forall font,
         fst (fontExportOf fractionToString font)
         = sanitizeSpec (fontStyleKey fractionToString font))
  /\ (forall color name,
         cu_styleName color = Some name -> name <> "" -> colorStyleKey color = name)
  /\ (forall color rest,
         truthy_opt (cu_styleName color) = false -> cu_hex color = String "#" rest ->
         colorStyleKey color = "color_" ++ rest)
  /\ (forall font name,
         fu_styleName font = Some name -> name <> "" ->
         fontStyleKey fractionToString font = name)
  /\ (forall font,
         truthy_opt (fu_styleName font) = false ->
         fu_fontFamily font <> "" -> fu_fontStyle font <> "" ->
         fontSizeOrDefault (fu_fontSize font) = fu_fontSize font ->
         fontStyleKey fractionToString font
         = fu_fontFamily font ++ "_" ++ fu_fontStyle font ++ "_"
           ++ fontSizeToString fractionToString (fu_fontSize font))
  /\ (forall k,
         json_colors out !! k
         = if inheritedName k then None
           else option_map (fun c => snd (colorExportOf c))
                  (firstWith (fun c => fst (colorExportOf c)) k (cachedColors cache)))
  /\ (forall k,
         json_typography out !! k
         = if inheritedName k then None
           else option_map (fun f => snd (fontExportOf fractionToString f))
                  (firstWith (fun f => fst (fontExportOf fractionToString f)) k
                     (cachedFonts cache)))
  /\ sanitizeIdentifier "Primary Color" = "primary_color"
  /\ sanitizeIdentifier "primary-color" = "primary_color"
  /\ (forall frame comps icons fonts c1 c2 more,
         cu_styleName c1 = Some "Primary Color" ->
         cu_styleName c2 = Some "primary-color" ->
         json_colors
           (generateLVGLJson fractionToString
              [(frame, mkAnalysisData comps icons fonts (c1 :: c2 :: more))])
           !! "primary_color"
         = Some (snd (colorExportOf c1))).
Proof.
  intros out.
  assert (Hout : forall cache',
             generateLVGLJson fractionToString cache'
             = {| json_colors := writeAll colorExportOf (cachedColors cache') ∅;
                  json_typography :=
                    writeAll (fontExportOf fractionToString) (cachedFonts cache') ∅ |}).
  { intros cache'. unfold generateLVGLJson. now rewrite exportRecords_fold. }
  assert (Hck : forall color name,
             cu_styleName color = Some name -> name <> "" -> colorStyleKey color = name).
  { intros color name Hs Hn. unfold colorStyleKey. rewrite Hs.
    now rewrite truthyOrNull_some. }
  split; [intros color; unfold colorExportOf; cbn [fst]; apply sanitizeIdentifier_spec|].
  split; [intros font; unfold fontExportOf; cbn [fst]; apply sanitizeIdentifier_spec|].
  split; [exact Hck|].
  split.
  { intros color rest Hs Hh. unfold colorStyleKey.
    rewrite truthyOrNull_none by exact Hs. rewrite Hh.
    rewrite or_else_truthy by discriminate. apply replace_first_hash. }
  split.
  { intros font name Hs Hn. unfold fontStyleKey. rewrite Hs.
    now rewrite truthyOrNull_some. }
  split.
  { intros font Hs Hf Hst Hsz. unfold fontStyleKey.
    rewrite truthyOrNull_none by exact Hs.
    now rewrite !or_else_truthy, Hsz by assumption. }
  split.
  { intros k. subst out. rewrite Hout. cbn [json_colors].
    rewrite lookup_writeAll, lookup_empty. reflexivity. }
  split.
  { intros k. subst out. rewrite Hout. cbn [json_typography].
    rewrite lookup_writeAll, lookup_empty. reflexivity. }
  split; [vm_compute; reflexivity|].
  split; [vm_compute; reflexivity|].
  intros frame comps icons fonts c1 c2 more H1 H2.
  rewrite Hout. cbn [json_colors].
  rewrite lookup_writeAll, lookup_empty.
  change (inheritedName "primary_color") with false. cbv iota.
  unfold cachedColors. cbn [flat_map snd ad_colors app]. unfold firstWith. cbn [List.find].
  assert (E1 : fst (colorExportOf c1) = "primary_color").
  { unfold colorExportOf. cbn [fst].
    rewrite (Hck c1 _ H1) by discriminate. vm_compute; reflexivity. }
  rewrite bool_decide_eq_true_2 by exact E1. reflexivity.
Qed.

Lemma export_first_write_wins_witness :
  json_colors
    (generateLVGLJson (fun _ => "")
       [("Frame A",
         mkAnalysisData [] [] []
           [mkColorUsage "#FF0000" "0xF800" 1 "#FF0000" (Some "Primary Color") Fill;
            mkColorUsage "#00FF00" "0x07E0" 1 "#00FF00" (Some "primary-color") Fill])])
    !! "primary_color"
  = Some (snd (colorExportOf
                 (mkColorUsage "#FF0000" "0xF800" 1 "#FF0000" (Some "Primary Color") Fill))).
Proof.
  destruct (export_first_write_wins (fun _ => "") []) as (_ & _ & _ & _ & _ & _ & _ & _ & _ & _ & H).
  apply H; reflexivity.
Defined.

(** ** The per-node extractor *)

Section ExtractorFacts.
Variable getStyleById : string -> option Style.
Variable fractionToString : Q -> string.

Abbreviation analyzeNode' := (analyzeNode getStyleById fractionToString).

(** *** Maps *)

Lemma get_alter {V : Type} (f : V -> V) (k k' : string) (m : list (string * V)) :
  JSMap.get k (JSMap.alter f k' m)
  = if decide (k = k') then option_map f (JSMap.get k m) else JSMap.get k m.
Proof.
  induction m as [|[k0 v0] m IH]; simpl.
  - now destruct (decide (k = k')).
  - destruct (decide (k' = k0)) as [->|Hne0].
    + rewrite bool_decide_eq_true_2 by reflexivity. simpl.
      destruct (decide (k = k0)) as [->|Hne].
      * now rewrite bool_decide_eq_true_2.
      * now rewrite !bool_decide_eq_false_2.
    + rewrite (bool_decide_eq_false_2 (k' = k0)) by exact Hne0. simpl.
      rewrite IH. destruct (decide (k = k0)) as [->|Hne].
      * rewrite bool_decide_eq_true_2 by reflexivity.
        destruct (decide (k0 = k')); [congruence | reflexivity].
      * now rewrite bool_decide_eq_false_2.
Qed.

(** *** Which collections a step touches *)

Lemma extractComponent_others node st :
  let st' := match extractComponent node st with Return s | Continue s => s end in
  processedNodes st' = processedNodes st /\ fonts st' = fonts st /\ colors st' = colors st
  /\ colorStyles st' = colorStyles st /\ textStyles st' = textStyles st
  /\ effectStyles st' = effectStyles st.
Proof.
  unfold extractComponent. cbv zeta.
  destruct (String.eqb (n_type node) "INSTANCE"); [|cbn; auto 10].
  destruct (negb (n_mainComponent node)); [cbn; auto 10|].
  destruct (n_getMainComponent node) as [[mc|]|]; try (cbn; auto 10).
  destruct (JS.truthy (mc_name mc) && _); [|cbn; auto 10].
  destruct (negb (JS.truthy _)); [cbn; auto 10|].
  destruct (isComponentAnIcon mc); cbn; auto 10.
Qed.

Lemma extractFont_colors node st :
  colors (extractFont getStyleById fractionToString node st) = colors st.
Proof.
  unfold extractFont.
  destruct (n_fontName node); [reflexivity | reflexivity|].
  destruct (lookupStyle getStyleById (n_textStyleId node)); reflexivity.
Qed.

Lemma extractPaint_colors type styleId st p :
  colors (extractPaint getStyleById type styleId st p)
  = paintColors getStyleById type styleId (colors st) p.
Proof.
  unfold extractPaint, paintColors.
  destruct (paintCounts p); [|reflexivity].
  destruct (lookupStyle getStyleById styleId); reflexivity.
Qed.

Lemma extractPaints_colors type styleId l st :
  colors (fold_left (extractPaint getStyleById type styleId) l st)
  = fold_left (paintColors getStyleById type styleId) l (colors st).
Proof.
  revert st. induction l as [|p l IH]; intros st; simpl; [reflexivity|].
  now rewrite IH, extractPaint_colors.
Qed.

Lemma extractPaint_fonts type styleId st p :
  fonts (extractPaint getStyleById type styleId st p) = fonts st.
Proof.
  unfold extractPaint.
  destruct (paintCounts p); [|reflexivity].
  destruct (lookupStyle getStyleById styleId); reflexivity.
Qed.

Lemma extractPaints_fonts type styleId l st :
  fonts (fold_left (extractPaint getStyleById type styleId) l st) = fonts st.
Proof.
  revert st. induction l as [|p l IH]; intros st; simpl; [reflexivity|].
  now rewrite IH, extractPaint_fonts.
Qed.

Lemma extractEffect_others node st :
  colors (extractEffect getStyleById node st) = colors st
  /\ fonts (extractEffect getStyleById node st) = fonts st.
Proof.
  unfold extractEffect. destruct (lookupStyle getStyleById (n_effectStyleId node)); auto.
Qed.

Lemma extractFills_colors node st :
  colors (extractFills getStyleById node st)
  = fold_left (paintColors getStyleById Fill (n_fillStyleId node)) (paintsOf (n_fills node))
      (colors st).
Proof.
  unfold extractFills, paintsOf. destruct (n_fills node); [apply extractPaints_colors | reflexivity].
Qed.

Lemma extractStrokes_colors node st :
  colors (extractStrokes getStyleById node st)
  = fold_left (paintColors getStyleById Stroke (n_strokeStyleId node))
      (paintsOf (n_strokes node)) (colors st).
Proof.
  unfold extractStrokes, paintsOf.
  destruct (n_strokes node); [apply extractPaints_colors | reflexivity].
Qed.

Lemma extractFills_fonts node st : fonts (extractFills getStyleById node st) = fonts st.
Proof. unfold extractFills. destruct (n_fills node); [apply extractPaints_fonts | reflexivity]. Qed.

Lemma extractStrokes_fonts node st : fonts (extractStrokes getStyleById node st) = fonts st.
Proof.
  unfold extractStrokes. destruct (n_strokes node); [apply extractPaints_fonts | reflexivity].
Qed.

(** The [colors] map after a node: untouched, or the node's fills and
    strokes applied to it. *)
Lemma analyzeNode_colors node st :
  colors (analyzeNode' node st) = colors st
  \/ colors (analyzeNode' node st) = nodeColors getStyleById node (colors st).
Proof.
  unfold analyzeNode.
  destruct (negb (nodeIsValid node)); [now left|].
  destruct (bool_decide _); [now left|].
  destruct (skippedByGate node); [now left|].
  set (st1 := with_processed _ st).
  pose proof (extractComponent_others node st1) as H. cbv zeta in H.
  destruct (extractComponent node st1) as [s|s]; destruct H as (_ & _ & Hc & _).
  - left. exact Hc.
  - right. rewrite (proj1 (extractEffect_others _ _)), extractStrokes_colors,
      extractFills_colors, extractFont_colors, Hc. reflexivity.
Qed.

(** The [fonts] map after a node: untouched, or the node's font applied. *)
Lemma analyzeNode_fonts node st :
  fonts (analyzeNode' node st) = fonts st
  \/ exists st1, fonts st1 = fonts st
                 /\ fonts (analyzeNode' node st)
                    = fonts (extractFont getStyleById fractionToString node st1).
Proof.
  unfold analyzeNode.
  destruct (negb (nodeIsValid node)); [now left|].
  destruct (bool_decide _); [now left|].
  destruct (skippedByGate node); [now left|].
  set (st1 := with_processed _ st).
  pose proof (extractComponent_others node st1) as H. cbv zeta in H.
  destruct (extractComponent node st1) as [s|s]; destruct H as (_ & Hf & _).
  - left. exact Hf.
  - right. exists s. split; [exact Hf|].
    now rewrite (proj2 (extractEffect_others _ _)), extractStrokes_fonts, extractFills_fonts.
Qed.

(** *** Entries of the maps *)

Lemma upsertColor_get k k0 hex opacity styleName type colors :
  JSMap.get k (upsertColor k0 hex opacity styleName type colors)
  = match JSMap.get k colors with
    | Some e =>
        if decide (k = k0)
        then if truthy_opt styleName && negb (truthy_opt (ci_styleName e))
             then Some {| ci_hex := ci_hex e; ci_opacity := ci_opacity e;
                          ci_styleName := styleName; ci_type := ci_type e |}
             else Some e
        else Some e
    | None =>
        if decide (k = k0)
        then Some {| ci_hex := hex; ci_opacity := opacity;
                     ci_styleName := styleName; ci_type := type |}
        else None
    end.
Proof.
  unfold upsertColor.
  destruct (JSMap.get k0 colors) as [e0|] eqn:E0.
  - destruct (decide (k = k0)) as [->|Hne].
    + rewrite E0.
      destruct (truthy_opt styleName && negb (truthy_opt (ci_styleName e0))).
      * rewrite get_alter, E0. now destruct (decide (k0 = k0)).
      * now rewrite E0.
    + destruct (truthy_opt styleName && negb (truthy_opt (ci_styleName e0))).
      * rewrite get_alter. destruct (decide (k = k0)); [congruence|].
        now destruct (JSMap.get k colors).
      * now destruct (JSMap.get k colors).
  - rewrite get_set. destruct (decide (k = k0)) as [->|Hne].
    + now rewrite E0.
    + now destruct (JSMap.get k colors).
Qed.

















End ExtractorFacts.


(** ** Opacity *)

Lemma paintCounts_zero p o :
  paint_opacity p = Some o -> (o == 0)%Q -> paintCounts p = None.
Proof.
  intros Hp Ho. unfold paintCounts. rewrite Hp.
  assert (JS.eqb o 0 = true) as -> by (now apply Qeq_bool_iff).
  destruct (String.eqb _ _), (paint_color p), (paint_visible p); reflexivity.
Qed.

Lemma paintCounts_opacity p color :
  paintCounts p = Some color -> paintInRange p -> (0 < paintOpacity p <= 1)%Q.
Proof.
  unfold paintCounts, paintInRange, paintOpacity. intros H Hr.
  destruct (String.eqb _ _); [|discriminate].
  destruct (paint_color p); [|discriminate].
  destruct (paint_visible p); [|discriminate].
  destruct (paint_opacity p) as [o|]; [|split; [reflexivity | apply Qle_refl]].
  destruct (JS.eqb o 0) eqn:E; [discriminate|].
  destruct (Hr o eq_refl) as [H0 H1]. split; [|exact H1].
  apply Qle_lteq in H0 as [H0 | H0]; [exact H0|].
  exfalso. unfold JS.eqb in E. apply Qeq_bool_neq in E. apply E. now symmetry.
Qed.

Lemma Forall_set {V : Type} (P : string * V -> Prop) k v (m : list (string * V)) :
  Forall P m -> P (k, v) -> Forall P (JSMap.set k v m).
Proof.
  intros Hm Hv. induction Hm as [|[k0 v0] m H0 Hm IH]; simpl.
  - repeat constructor. exact Hv.
  - destruct (bool_decide (k = k0)); constructor; auto.
Qed.

Lemma Forall_alter {V : Type} (P : string * V -> Prop) (f : V -> V) k (m : list (string * V)) :
  Forall P m -> (forall k' v, P (k', v) -> P (k', f v)) -> Forall P (JSMap.alter f k m).
Proof.
  intros Hm Hf. induction Hm as [|[k0 v0] m H0 Hm IH]; simpl.
  - constructor.
  - destruct (bool_decide (k = k0)); constructor; auto.
Qed.

Lemma upsertColor_range k hex opacity styleName type colors :
  (0 < opacity <= 1)%Q -> opacitiesInRange colors ->
  opacitiesInRange (upsertColor k hex opacity styleName type colors).
Proof.
  intros Ho Hc. unfold upsertColor, opacitiesInRange in *.
  destruct (JSMap.get k colors).
  - destruct (_ && _); [|exact Hc].
    apply Forall_alter; [exact Hc | intros k' v Hv; exact Hv].
  - apply Forall_set; [exact Hc | exact Ho].
Qed.

Section OpacityFacts.
Variable getStyleById : string -> option Style.
Variable fractionToString : Q -> string.

Lemma paintColors_range type styleId colors p :
  paintInRange p -> opacitiesInRange colors ->
  opacitiesInRange (paintColors getStyleById type styleId colors p).
Proof.
  intros Hp Hc. unfold paintColors.
  destruct (paintCounts p) as [color|] eqn:E; [|exact Hc].
  apply upsertColor_range; [now apply (paintCounts_opacity p color) | exact Hc].
Qed.

Lemma paintsColors_range type styleId l colors :
  Forall paintInRange l -> opacitiesInRange colors ->
  opacitiesInRange (fold_left (paintColors getStyleById type styleId) l colors).
Proof.
  intros Hl. revert colors. induction Hl as [|p l Hp Hl IH]; intros colors Hc; simpl.
  - exact Hc.
  - apply IH. now apply paintColors_range.
Qed.

Lemma analyzeNode_range node st :
  nodeInRange node -> opacitiesInRange (colors st) ->
  opacitiesInRange (colors (analyzeNode getStyleById fractionToString node st)).
Proof.
  intros [Hf Hs] Hc.
  destruct (analyzeNode_colors getStyleById fractionToString node st) as [-> | ->];
    [exact Hc|].
  unfold nodeColors. apply paintsColors_range; [exact Hs|].
  apply paintsColors_range; [exact Hf | exact Hc].
Qed.

Lemma analyzeBatch_range nodes st :
  Forall nodeInRange nodes -> opacitiesInRange (colors st) ->
  opacitiesInRange (colors (analyzeBatch getStyleById fractionToString st nodes)).
Proof.
  intros Hn. revert st. induction Hn as [|node nodes H Hn IH]; intros st Hc.
  - exact Hc.
  - unfold analyzeBatch. cbn [fold_left]. apply IH. now apply analyzeNode_range.
Qed.

(** Batches only group the nodes: the loop over the batches is the loop
    over the nodes, whatever the batch size. *)
Lemma analyzeAll_batches batchSize nodes st :
  (0 < batchSize)%nat ->
  analyzeAll getStyleById fractionToString batchSize nodes st
  = analyzeBatch getStyleById fractionToString st nodes.
Proof.
  intros Hb. unfold analyzeAll.
  assert (H : forall fuel l st, (length l <= fuel)%nat ->
              fold_left (analyzeBatch getStyleById fractionToString)
                (batchesOf batchSize fuel l) st
              = analyzeBatch getStyleById fractionToString st l).
  { induction fuel as [|fuel IH]; intros l s Hl.
    - destruct l; [reflexivity | simpl in Hl; lia].
    - destruct l as [|n l]; [reflexivity|].
      cbn [batchesOf fold_left]. rewrite IH.
      + unfold analyzeBatch. rewrite <- fold_left_app. now rewrite take_drop.
      + rewrite length_drop. simpl in *. lia. }
  now apply H.
Qed.

Lemma analyzeRoot_colors node st : colors (analyzeRoot node st) = colors st.
Proof.
  unfold analyzeRoot. destruct (negb _); [reflexivity|]. now destruct (bool_decide _).
Qed.

Lemma analyzeFrameState_range frame :
  Forall nodeInRange (f_descendants frame) ->
  opacitiesInRange (colors (analyzeFrameState getStyleById fractionToString frame)).
Proof.
  intros Hd. unfold analyzeFrameState. rewrite analyzeAll_batches by lia.
  apply analyzeBatch_range.
  - apply List.Forall_forall. intros n Hn. rewrite List.Forall_forall in Hd. apply Hd.
    apply list_elem_of_In in Hn. apply list_elem_of_filter in Hn as [_ Hn].
    now apply list_elem_of_In.
  - rewrite analyzeRoot_colors. constructor.
Qed.

End OpacityFacts.

Lemma insertSorted_Forall {A : Type} (P : A -> Prop) cmp (x : A) l :
  P x -> Forall P l -> Forall P (insertSorted cmp x l).
Proof.
  intros Hx Hl. induction Hl as [|y l Hy Hl IH]; simpl.
  - repeat constructor. exact Hx.
  - destruct (cmp x y <=? 0); repeat constructor; auto.
Qed.

Lemma sortBy_Forall {A : Type} (P : A -> Prop) cmp (l : list A) :
  Forall P l -> Forall P (sortBy cmp l).
Proof.
  intros Hl. induction Hl as [|x l Hx Hl IH]; simpl.
  - constructor.
  - now apply insertSorted_Forall.
Qed.

Lemma insertSorted_In {A : Type} cmp (x y : A) l :
  In y (insertSorted cmp x l) <-> y = x \/ In y l.
Proof.
  induction l as [|z l IH]; simpl.
  - intuition.
  - destruct (cmp x z <=? 0); simpl; [intuition|].
    rewrite IH. intuition.
Qed.

Lemma sortBy_In {A : Type} cmp (y : A) l : In y (sortBy cmp l) <-> In y l.
Proof.
  induction l as [|x l IH]; simpl; [tauto|].
  rewrite insertSorted_In, IH. intuition.
Qed.

Lemma append_not_self (s t : string) : t <> "" -> s ++ t <> s.
Proof.
  intros Ht. induction s as [|c s IH]; simpl.
  - exact Ht.
  - intros E. inversion E. contradiction.
Qed.

(** One pass over a frame holding a rectangle with a transparent red, a
    half-opaque red and an opaque red: the record has two colours, one per
    opacity, both with the hex of red. *)
Example transparent_fill_example :
  map (fun c => (cu_hex c, cu_opacity c, cu_displayHex c))
    (ar_colors
       (analyzeFrame exampleStyles (fun _ => "") codeUnitCompare
          (exampleFrame
             [rectangle "1:2" 100 50
                [solid red (Some 0%Q); solid red (Some (1 # 2)); solid red None] "" []])))
  = [("#FF0000", 1 # 2, "#FF0000 (50%)"); ("#FF0000", 1%Q, "#FF0000")].
Proof. vm_compute. reflexivity. Qed.

(** C6, as worded, fails: a visible node of 0.7 by 0.7 units has sizes that
    round to 1, not to less than 1, so the claim has it processed; the code
    compares the sizes themselves with 1, and skips it: the predicate of
    [findAll] rejects it, and [analyzeNode] returns before any extraction
    (its fill is not recorded). *)
Lemma gate_as_worded_fails :
  let dot := rectangle "1:3" (7 # 10) (7 # 10) [solid red None] "" [] in
  excludedAsWorded dot = false
  /\ skippedByGate dot = true
  /\ findAllPredicate dot = false
  /\ colors (analyzeNode exampleStyles (fun _ => "") dot emptyPass) = [].
Proof. repeat split; vm_compute; reflexivity. Qed.

Lemma ltb_lt (a b : Q) : JS.ltb a b = true <-> (a < b)%Q.
Proof.
  unfold JS.ltb. rewrite negb_true_iff. split.
  - intros H. apply Qnot_le_lt. intros Hle. apply Qle_bool_iff in Hle. congruence.
  - intros H. destruct (Qle_bool b a) eqn:E; [|reflexivity].
    apply Qle_bool_iff in E. exfalso. now apply (Qlt_not_le a b).
Qed.

Lemma findAllPredicate_gate node : findAllPredicate node = negb (skippedByGate node).
Proof.
  unfold findAllPredicate, skippedByGate, JS.ltb, JS.leb.
  destruct (n_visible node); simpl; [|reflexivity].
  now destruct (Qle_bool 1 (n_width node)), (Qle_bool 1 (n_height node)).
Qed.

(** C6 (amended): a node is excluded from all extraction if it is
    explicitly marked invisible, or if both its width and its height are
    less than 1 layout unit (the sizes are compared as they are, not
    rounded): [findAll] does not return it, and [analyzeNode] leaves every
    collection as it is.  A node that meets neither condition passes the
    gate, in [findAll] and in [analyzeNode]: a valid node that was not
    processed before goes through the extraction steps. *)
Theorem gate_excludes_invisible_and_small
    (getStyleById : string -> option Style) (fractionToString : Q -> string)
    (node : Node) (st : PassState) :
  let st' := analyzeNode getStyleById fractionToString node st in
  (skippedByGate node = true <->
     n_visible node = false \/ ((n_width node < 1)%Q /\ (n_height node < 1)%Q))
  /\ findAllPredicate node = negb (skippedByGate node)
  /\ (forall frame,
         In node (filter (fun n => findAllPredicate n = true) (f_descendants frame))
         <-> In node (f_descendants frame) /\ skippedByGate node = false)
  /\ (skippedByGate node = true ->
      components st' = components st /\ icons st' = icons st
      /\ fonts st' = fonts st /\ colors st' = colors st
      /\ colorStyles st' = colorStyles st /\ textStyles st' = textStyles st
      /\ effectStyles st' = effectStyles st)
  /\ (skippedByGate node = false -> nodeIsValid node = true ->
      n_id node ∉ processedNodes st ->
      let st1 := with_processed (fun s => s ∪ {[ n_id node ]}) st in
      st' = match extractComponent node st1 with
            | Return s => s
            | Continue s =>
                extractEffect getStyleById node
                  (extractStrokes getStyleById node
                     (extractFills getStyleById node
                        (extractFont getStyleById fractionToString node s)))
            end).
Proof.
  intros st'. split; [|split; [|split; [|split]]].
  - unfold skippedByGate. rewrite orb_true_iff, andb_true_iff, negb_true_iff, !ltb_lt.
    reflexivity.
  - apply findAllPredicate_gate.
  - intros frame. rewrite <- !list_elem_of_In, list_elem_of_filter.
    rewrite findAllPredicate_gate, negb_true_iff. tauto.
  - intros Hs. subst st'. unfold analyzeNode.
    destruct (negb (nodeIsValid node)); [auto 10|].
    destruct (bool_decide _); [auto 10|].
    rewrite Hs. cbn. auto 10.
  - intros Hs Hv Hp st1. subst st' st1. unfold analyzeNode.
    rewrite Hv, Hs. cbn [negb].
    rewrite bool_decide_eq_false_2 by exact Hp. reflexivity.
Qed.

Lemma gate_excludes_invisible_and_small_witness :
  colors (analyzeNode exampleStyles (fun _ => "")
            (rectangle "1:3" (7 # 10) (7 # 10) [solid red None] "" []) emptyPass)
  = colors emptyPass.
Proof.
  destruct (gate_excludes_invisible_and_small exampleStyles (fun _ => "")
              (rectangle "1:3" (7 # 10) (7 # 10) [solid red None] "" []) emptyPass)
    as (_ & _ & _ & H & _).
  destruct H as (_ & _ & _ & Hc & _).
  - vm_compute; reflexivity.
  - exact Hc.
Defined.


(** The same pass, evaluated: the entry first produced by a stroke keeps
    its type when a fill resolves to its key, and takes the style name of
    that fill; the later node without a style does not remove it. *)
Example style_name_backfill_example :
  let st :=
    with_colors
      (fun _ => [("#FF0000", {| ci_hex := "#FF0000"; ci_opacity := 1;
                                ci_styleName := None; ci_type := Stroke |})])
      emptyPass in
  colors (analyzeBatch exampleStyles (fun _ => "") st
            [rectangle "1:4" 10 10 [solid red None] "S:1" [];
             rectangle "1:5" 10 10 [solid red None] "" [solid red None]])
  = [("#FF0000", {| ci_hex := "#FF0000"; ci_opacity := 1;
                    ci_styleName := Some "Brand/Red"; ci_type := Stroke |})].
Proof. vm_compute. reflexivity. Qed.

(* ===================================================================== *)
(** * Part III: further properties of the code *)
(* ===================================================================== *)

(** ** Round trips of the colour codec *)

Lemma rgbToHex_bytes (r g b : Q) :
  (0 <= r <= 1)%Q -> (0 <= g <= 1)%Q -> (0 <= b <= 1)%Q ->
  rgbToHex r g b
  = "#" ++ hex2 (JS.Math_round (JS.mul r 255)) ++ hex2 (JS.Math_round (JS.mul g 255))
        ++ hex2 (JS.Math_round (JS.mul b 255)).
Proof.
  intros Hr Hg Hb.
  unfold rgbToHex, JS.toUpperCase. rewrite !map_string_app.
  fold JS.toUpperCase. rewrite !toHex_channel by assumption. reflexivity.
Qed.

Lemma hexDigitUpper_digit d :
  0 <= d < 16 ->
  JS.is_hex_digit (hexDigitUpper d) = true /\ JS.hex_val (hexDigitUpper d) = d.
Proof.
  intros Hd.
  Z_enum (fun z => JS.is_hex_digit (hexDigitUpper z) && (JS.hex_val (hexDigitUpper z) =? z))
         16%nat d Hd E.
  apply andb_true_iff in E as [E1 E2]. split; [exact E1 | lia].
Qed.

Lemma byteOf_hex2 n :
  0 <= n < 256 ->
  byteOf (hexDigitUpper (n / 16)) (hexDigitUpper (n mod 16)) = n.
Proof.
  intros Hn. unfold byteOf.
  destruct (hexDigitUpper_digit (n / 16)) as [_ ->].
  { split; [apply Z.div_pos; lia | apply Z.div_lt_upper_bound; lia]. }
  destruct (hexDigitUpper_digit (n mod 16)) as [_ ->].
  { apply Z.mod_pos_bound; lia. }
  pose proof (Z.div_mod n 16 ltac:(lia)). lia.
Qed.

Lemma hex_triple_digits (R G B : Z) :
  0 <= R < 256 -> 0 <= G < 256 -> 0 <= B < 256 ->
  forallb JS.is_hex_digit
    [hexDigitUpper (R / 16); hexDigitUpper (R mod 16);
     hexDigitUpper (G / 16); hexDigitUpper (G mod 16);
     hexDigitUpper (B / 16); hexDigitUpper (B mod 16)] = true.
Proof.
  intros HR HG HB.
  assert (D : forall n, 0 <= n < 256 ->
                JS.is_hex_digit (hexDigitUpper (n / 16)) = true
                /\ JS.is_hex_digit (hexDigitUpper (n mod 16)) = true).
  { intros n Hn. split.
    - apply hexDigitUpper_digit.
      split; [apply Z.div_pos; lia | apply Z.div_lt_upper_bound; lia].
    - apply hexDigitUpper_digit. apply Z.mod_pos_bound; lia. }
  destruct (D R HR) as [E1 E2], (D G HG) as [E3 E4], (D B HB) as [E5 E6].
  cbn [forallb]. rewrite E1, E2, E3, E4, E5, E6. reflexivity.
Qed.

(** A byte over 255, taken as the exact fraction or as the double nearest
    to it, is scaled and rounded back to the byte. *)
Lemma round_byte_channel (n : Z) :
  0 <= n < 256 -> JS.Math_round (JS.mul (inject_Z n / 255) 255) = n.
Proof.
  intros Hn.
  Z_enum (fun z => JS.Math_round (JS.mul (inject_Z z / 255) 255) =? z) 256%nat n Hn E.
  lia.
Qed.

Lemma round_byte_double (n : Z) :
  0 <= n < 256 ->
  JS.Math_round (JS.mul (JS.roundDouble (inject_Z n / 255)) 255) = n.
Proof.
  intros Hn.
  Z_enum (fun z => JS.Math_round (JS.mul (JS.roundDouble (inject_Z z / 255)) 255) =? z)
         256%nat n Hn E.
  lia.
Qed.

Lemma byte_fraction_range (n : Z) :
  0 <= n <= 255 -> (0 <= inject_Z n / 255 <= 1)%Q.
Proof.
  intros Hn. split.
  - apply Qle_shift_div_l; [reflexivity|]. rewrite Qmult_0_l.
    change 0%Q with (inject_Z 0). rewrite <- Zle_Qle. lia.
  - apply Qle_shift_div_r; [reflexivity|]. rewrite Qmult_1_l.
    change 255%Q with (inject_Z 255). rewrite <- Zle_Qle. lia.
Qed.

Lemma byte_double_range (n : Z) :
  0 <= n <= 255 -> (0 <= JS.roundDouble (inject_Z n / 255) <= 1)%Q.
Proof.
  intros Hn. destruct (byte_fraction_range n Hn) as [L U]. split.
  - apply roundDouble_nonneg. exact L.
  - apply (roundDouble_le 1); [vm_compute; discriminate | exact L | exact U].
Qed.

Lemma hexToRgb_rgbToHex_bytes (r g b : Q) :
  (0 <= r <= 1)%Q -> (0 <= g <= 1)%Q -> (0 <= b <= 1)%Q ->
  hexToRgb (rgbToHex r g b)
  = {| rgb_r := inject_Z (JS.Math_round (JS.mul r 255)) / 255;
       rgb_g := inject_Z (JS.Math_round (JS.mul g 255)) / 255;
       rgb_b := inject_Z (JS.Math_round (JS.mul b 255)) / 255 |}.
Proof.
  intros Hr Hg Hb.
  pose proof (round_scaled_range r Hr) as HR.
  pose proof (round_scaled_range g Hg) as HG.
  pose proof (round_scaled_range b Hb) as HB.
  rewrite rgbToHex_bytes by assumption.
  set (R := JS.Math_round (JS.mul r 255)) in *.
  set (G := JS.Math_round (JS.mul g 255)) in *.
  set (B := JS.Math_round (JS.mul b 255)) in *.
  rewrite (hexToRgb_digits (hexDigitUpper (R / 16)) (hexDigitUpper (R mod 16))
             (hexDigitUpper (G / 16)) (hexDigitUpper (G mod 16))
             (hexDigitUpper (B / 16)) (hexDigitUpper (B mod 16))).
  - rewrite !byteOf_hex2 by lia. reflexivity.
  - apply hex_triple_digits; lia.
  - right. reflexivity.
Qed.

Lemma hexDigitUpper_hex_val c :
  JS.is_hex_digit c = true -> hexDigitUpper (JS.hex_val c) = JS.upper_char c.
Proof.
  intros H.
  ascii_enum (fun c => implb (JS.is_hex_digit c)
                         (Ascii.eqb (hexDigitUpper (JS.hex_val c)) (JS.upper_char c))) c E.
  rewrite H in E. now apply Ascii.eqb_eq in E.
Qed.

Lemma hex2_byteOf hi lo :
  JS.is_hex_digit hi = true -> JS.is_hex_digit lo = true ->
  hex2 (byteOf hi lo) = JS.toUpperCase (string_of_list_ascii [hi; lo]).
Proof.
  intros Hhi Hlo.
  pose proof (hex_val_range hi Hhi) as Rh.
  pose proof (hex_val_range lo Hlo) as Rl.
  unfold hex2, byteOf.
  replace ((16 * JS.hex_val hi + JS.hex_val lo) / 16) with (JS.hex_val hi)
    by (apply (Z.div_unique _ 16 _ (JS.hex_val lo)); lia).
  replace ((16 * JS.hex_val hi + JS.hex_val lo) mod 16) with (JS.hex_val lo)
    by (apply (Z.mod_unique _ 16 (JS.hex_val hi)); lia).
  rewrite !hexDigitUpper_hex_val by assumption. reflexivity.
Qed.

(** X1: encoding a colour and decoding the result gives each channel as
    a byte over 255, the byte being the double product of the channel by
    255 rounded to the nearest integer, halves up (77 for the double [0.3],
    whose exact product by 255 lies below 76.5); a colour whose channels
    are bytes over 255, as exact fractions or as the doubles nearest to
    them, comes back as these bytes over 255. *)
Theorem hexToRgb_after_rgbToHex (r g b : Q) :
  (0 <= r <= 1)%Q -> (0 <= g <= 1)%Q -> (0 <= b <= 1)%Q ->
  hexToRgb (rgbToHex r g b)
  = {| rgb_r := inject_Z (JS.Math_round (JS.mul r 255)) / 255;
       rgb_g := inject_Z (JS.Math_round (JS.mul g 255)) / 255;
       rgb_b := inject_Z (JS.Math_round (JS.mul b 255)) / 255 |}
  /\ (forall R G B : Z,
         r = (inject_Z R / 255)%Q -> g = (inject_Z G / 255)%Q ->
         b = (inject_Z B / 255)%Q ->
         hexToRgb (rgbToHex r g b) = {| rgb_r := r; rgb_g := g; rgb_b := b |})
  /\ (forall R G B : Z,
         0 <= R <= 255 -> 0 <= G <= 255 -> 0 <= B <= 255 ->
         hexToRgb (rgbToHex (JS.roundDouble (inject_Z R / 255))
                            (JS.roundDouble (inject_Z G / 255))
                            (JS.roundDouble (inject_Z B / 255)))
         = {| rgb_r := inject_Z R / 255; rgb_g := inject_Z G / 255;
              rgb_b := inject_Z B / 255 |})
  /\ (let c := JS.roundDouble (3 # 10) in
      hexToRgb (rgbToHex c c c)
      = {| rgb_r := inject_Z 77 / 255; rgb_g := inject_Z 77 / 255;
           rgb_b := inject_Z 77 / 255 |}).
Proof.
  intros Hr Hg Hb.
  pose proof (hexToRgb_rgbToHex_bytes r g b Hr Hg Hb) as E.
  split; [exact E|]. split; [| split].
  - intros R G B Er Eg Eb.
    assert (Q255 : forall (c : Q) (n : Z),
               (0 <= c <= 1)%Q -> c = (inject_Z n / 255)%Q -> 0 <= n < 256).
    { intros c n [L U] E0. subst c.
      unfold Qle, Qdiv, Qmult, Qinv, inject_Z in L, U. simpl in L, U. lia. }
    pose proof (Q255 r R Hr Er). pose proof (Q255 g G Hg Eg).
    pose proof (Q255 b B Hb Eb). subst r g b.
    rewrite E, !round_byte_channel by assumption. reflexivity.
  - intros R G B HR HG HB.
    rewrite hexToRgb_rgbToHex_bytes by (apply byte_double_range; assumption).
    rewrite !round_byte_double by lia. reflexivity.
  - vm_compute. reflexivity.
Qed.

Lemma hexToRgb_after_rgbToHex_witness :
  hexToRgb (rgbToHex (inject_Z 51 / 255)%Q (inject_Z 102 / 255)%Q (inject_Z 153 / 255)%Q)
  = {| rgb_r := inject_Z 51 / 255; rgb_g := inject_Z 102 / 255; rgb_b := inject_Z 153 / 255 |}.
Proof.
  refine (proj1 (proj2 (hexToRgb_after_rgbToHex (inject_Z 51 / 255)%Q (inject_Z 102 / 255)%Q
                   (inject_Z 153 / 255)%Q _ _ _)) 51 102 153 eq_refl eq_refl eq_refl);
    split; vm_compute; discriminate.
Defined.

(** X2: decoding a well-formed colour string and encoding the channels
    again gives the same six digits in upper case behind a hash sign,
    whether or not the input had one. *)
Theorem rgbToHex_after_hexToRgb (d1 d2 d3 d4 d5 d6 : ascii) (s : string) :
  forallb JS.is_hex_digit [d1; d2; d3; d4; d5; d6] = true ->
  s = string_of_list_ascii [d1; d2; d3; d4; d5; d6]
  \/ s = string_of_list_ascii ("#"%char :: [d1; d2; d3; d4; d5; d6]) ->
  let c := hexToRgb s in
  rgbToHex (rgb_r c) (rgb_g c) (rgb_b c)
  = "#" ++ JS.toUpperCase (string_of_list_ascii [d1; d2; d3; d4; d5; d6]).
Proof.
  intros Hd Hs c. subst c.
  rewrite (hexToRgb_digits d1 d2 d3 d4 d5 d6 s Hd Hs). cbn [rgb_r rgb_g rgb_b].
  cbn [forallb] in Hd.
  repeat match goal with
         | H : _ && _ = true |- _ => apply andb_true_iff in H as [? H]
         end.
  pose proof (byteOf_range d1 d2 ltac:(assumption) ltac:(assumption)) as R1.
  pose proof (byteOf_range d3 d4 ltac:(assumption) ltac:(assumption)) as R2.
  pose proof (byteOf_range d5 d6 ltac:(assumption) ltac:(assumption)) as R3.
  rewrite rgbToHex_bytes by (apply byte_fraction_range; lia).
  rewrite !round_byte_channel by lia.
  rewrite !hex2_byteOf by assumption.
  reflexivity.
Qed.

Lemma rgbToHex_after_hexToRgb_witness :
  rgbToHex (rgb_r (hexToRgb "a1b2c3")) (rgb_g (hexToRgb "a1b2c3")) (rgb_b (hexToRgb "a1b2c3"))
  = "#A1B2C3".
Proof.
  exact (rgbToHex_after_hexToRgb "a" "1" "b" "2" "c" "3" "a1b2c3" eq_refl
           (or_introl eq_refl)).
Defined.

(** X3: the colour strings that [rgbToHex] produces for channels in
    [0, 1] are never taken for malformed by [hexToRgb565]: the result is
    the packed value of the three bytes, each the double product of a
    channel by 255 rounded to the nearest integer, halves up.  For the
    double nearest to [0.00980392156862745] the exact product by 255 lies
    below 2.5 and the double product is 2.5: the bytes are 3 and the packed
    value is [0x0020], not the sentinel. *)
Theorem hexToRgb565_after_rgbToHex (r g b : Q) :
  (0 <= r <= 1)%Q -> (0 <= g <= 1)%Q -> (0 <= b <= 1)%Q ->
  let R := JS.Math_round (JS.mul r 255) in
  let G := JS.Math_round (JS.mul g 255) in
  let B := JS.Math_round (JS.mul b 255) in
  hexToRgb565 (rgbToHex r g b) = "0x" ++ hex4 (rgb565Of R G B)
  /\ 0 <= rgb565Of R G B < 65536
  /\ matchesHashRRGGBB (rgbToHex r g b) = true
  /\ (let c := JS.roundDouble 0.00980392156862745 in
      (c * 255 < 2 + (1 # 2))%Q /\ (JS.mul c 255 == 2 + (1 # 2))%Q
      /\ rgbToHex c c c = "#030303" /\ hexToRgb565 (rgbToHex c c c) = "0x0020").
Proof.
  intros Hr Hg Hb R G B.
  pose proof (round_scaled_range r Hr) as HR.
  pose proof (round_scaled_range g Hg) as HG.
  pose proof (round_scaled_range b Hb) as HB.
  rewrite rgbToHex_bytes by assumption. fold R G B.
  pose proof (hex_triple_digits R G B ltac:(lia) ltac:(lia) ltac:(lia)) as D.
  destruct (hexToRgb565_digits _ _ _ _ _ _
              ("#" ++ hex2 R ++ hex2 G ++ hex2 B) D (or_intror eq_refl)) as [E Hv].
  rewrite !byteOf_hex2 in E, Hv by lia.
  split; [exact E|]. split; [exact Hv|].
  split.
  - unfold matchesHashRRGGBB, sixHexDigits, hex2. cbn [append list_ascii_of_string].
    exact D.
  - cbv zeta. repeat split; vm_compute; reflexivity.
Qed.

Lemma hexToRgb565_after_rgbToHex_witness :
  hexToRgb565 (rgbToHex 1 (1 # 2) 0) = "0x" ++ hex4 (rgb565Of 255 128 0).
Proof.
  refine (proj1 (hexToRgb565_after_rgbToHex 1 (1 # 2) 0 _ _ _));
    split; vm_compute; discriminate.
Defined.

(** X4: in the packed RGB565 value the three fields do not overlap: red
    takes the five high bits, green the six middle bits and blue the five
    low bits, so each rounded channel can be read back from the result. *)
Theorem pack565_fields (r8 g8 b8 : Z) :
  0 <= r8 <= 255 -> 0 <= g8 <= 255 -> 0 <= b8 <= 255 ->
  let R5 := nearest (r8 * 31) 255 in
  let G6 := nearest (g8 * 63) 255 in
  let B5 := nearest (b8 * 31) 255 in
  (0 <= R5 <= 31 /\ 0 <= G6 <= 63 /\ 0 <= B5 <= 31)
  /\ pack565 r8 g8 b8 = R5 * 2048 + G6 * 32 + B5
  /\ pack565 r8 g8 b8 / 2048 = R5
  /\ (pack565 r8 g8 b8 / 32) mod 64 = G6
  /\ pack565 r8 g8 b8 mod 32 = B5.
Proof.
  intros Hr Hg Hb R5 G6 B5.
  pose proof (nearest_channel_range r8 31 Hr ltac:(lia)) as H5.
  pose proof (nearest_channel_range g8 63 Hg ltac:(lia)) as H6.
  pose proof (nearest_channel_range b8 31 Hb ltac:(lia)) as H5'.
  fold R5 in H5. fold G6 in H6. fold B5 in H5'.
  destruct (pack565_spec r8 g8 b8 Hr Hg Hb) as [-> _].
  unfold rgb565Of. fold R5 G6 B5.
  set (z := R5 * 2048 + G6 * 32 + B5).
  assert (Hz : 0 <= z < 65536) by (subst z; lia).
  assert (E1 : z / 2048 = R5)
    by (symmetry; apply (Z.div_unique z 2048 R5 (G6 * 32 + B5)); subst z; lia).
  assert (E2 : (z / 32) mod 64 = G6).
  { replace (z / 32) with (R5 * 64 + G6)
      by (apply (Z.div_unique z 32 _ B5); subst z; lia).
    symmetry. apply (Z.mod_unique _ 64 R5); lia. }
  assert (E3 : z mod 32 = B5)
    by (symmetry; apply (Z.mod_unique z 32 (R5 * 64 + G6)); subst z; lia).
  assert (L : Z.lor (Z.lor (Z.shiftl R5 11) (Z.shiftl G6 5)) B5 = z).
  { Z_enum (fun z => Z.lor (Z.lor (Z.shiftl (z / 2048) 11) (Z.shiftl ((z / 32) mod 64) 5))
                       (z mod 32) =? z) (Z.to_nat 65536) z Hz E.
    rewrite E1, E2, E3 in E. lia. }
  rewrite L. repeat split; try lia; assumption.
Qed.

Lemma pack565_fields_witness :
  pack565 255 128 0 / 2048 = 31 /\ (pack565 255 128 0 / 32) mod 64 = 32
  /\ pack565 255 128 0 mod 32 = 0.
Proof.
  destruct (pack565_fields 255 128 0) as (_ & _ & H1 & H2 & H3); [lia | lia | lia |].
  exact (conj H1 (conj H2 H3)).
Defined.

(** ** Letter case in the icon pattern *)

Section LetterCase.

(** A change of letter case: it keeps the letter read and the class of
    every character. *)
Variable f : ascii -> ascii.
Hypothesis f_letter :
  forall c t, JS.is_alnum t = true -> sameLetter (f c) t = sameLetter c t.
Hypothesis f_class : forall c, notAlnum (f c) = notAlnum c.

Lemma limitOK_case (o : option ascii) :
  limitOK notAlnum (option_map f o) = limitOK notAlnum o.
Proof. destruct o; [apply f_class | reflexivity]. Qed.

Lemma stripToken_case tok p q (l : list ascii) :
  forallb JS.is_alnum tok = true ->
  option_map snd (stripToken tok p (map f l))
  = option_map (fun r => map f (snd r)) (stripToken tok q l).
Proof.
  revert p q l. induction tok as [|t tok IH]; intros p q l Ht; [reflexivity|].
  apply andb_true_iff in Ht as [Ht Htok].
  destruct l as [|c l]; [reflexivity|]. cbn [map stripToken].
  rewrite f_letter by exact Ht.
  destruct (sameLetter c t); [apply IH; exact Htok | reflexivity].
Qed.

Lemma tokenAt_case tok (l : list ascii) :
  forallb JS.is_alnum tok = true ->
  tokenAt notAlnum tok (map f l) = tokenAt notAlnum tok l.
Proof.
  intros Ht. unfold tokenAt.
  pose proof (stripToken_case tok None None l Ht) as E.
  destruct (stripToken tok None (map f l)) as [[p1 r1]|],
           (stripToken tok None l) as [[p2 r2]|]; cbn in E; try congruence.
  injection E as ->. destruct r2; [reflexivity | apply f_class].
Qed.

Lemma tokens_case (l : list ascii) :
  existsb (fun tok => tokenAt notAlnum tok (map f l))
    (map list_ascii_of_string iconTokens)
  = existsb (fun tok => tokenAt notAlnum tok l) (map list_ascii_of_string iconTokens).
Proof.
  cbn [map iconTokens existsb].
  rewrite !tokenAt_case by reflexivity. reflexivity.
Qed.

Lemma wholeWord_case prev (l : list ascii) :
  wholeWordFrom notAlnum (map list_ascii_of_string iconTokens)
    (option_map f prev) (map f l)
  = wholeWordFrom notAlnum (map list_ascii_of_string iconTokens) prev l.
Proof.
  revert prev. induction l as [|c l IH]; intros prev.
  - rewrite !(wholeWordFrom_unfold _ _ _ []), limitOK_case.
    change (map f []) with (@nil ascii). reflexivity.
  - cbn [map]. rewrite (wholeWordFrom_unfold _ _ _ (f c :: _)),
      (wholeWordFrom_unfold _ _ prev (c :: l)).
    rewrite limitOK_case. change (f c :: map f l) with (map f (c :: l)).
    rewrite tokens_case. f_equal. apply (IH (Some c)).
Qed.

Lemma hasWholeWord_case s :
  hasWholeWord notAlnum iconTokens (JS.map_string f s)
  = hasWholeWord notAlnum iconTokens s.
Proof.
  unfold hasWholeWord, JS.map_string.
  rewrite list_ascii_of_string_of_list_ascii.
  apply (wholeWord_case None).
Qed.



End LetterCase.

Lemma sameLetter_lower c t :
  JS.is_alnum t = true -> sameLetter (JS.lower_char c) t = sameLetter c t.
Proof.
  intros Ht.
  pose proof (ascii_forall
                (fun c => forallb
                            (fun t => implb (JS.is_alnum t)
                                        (Bool.eqb (sameLetter (JS.lower_char c) t)
                                           (sameLetter c t)))
                            (map (fun n => ascii_of_N (N.of_nat n)) (seq 0 256)))
                ltac:(vm_compute; reflexivity) c) as H.
  cbv beta in H.
  pose proof (ascii_forall _ H t) as E. cbv beta in E.
  rewrite Ht in E. now apply Bool.eqb_prop in E.
Qed.

Lemma notAlnum_lower c : notAlnum (JS.lower_char c) = notAlnum c.
Proof.
  ascii_enum (fun c => Bool.eqb (notAlnum (JS.lower_char c)) (notAlnum c)) c E.
  now apply Bool.eqb_prop in E.
Qed.



Lemma hasWholeWord_toLowerCase s :
  hasWholeWord notAlnum iconTokens (JS.toLowerCase s) = hasWholeWord notAlnum iconTokens s.
Proof. apply (hasWholeWord_case JS.lower_char sameLetter_lower notAlnum_lower). Qed.



(** ** Maps: keys and sums *)

Lemma keys_alter {K V : Type} `{EqDecision K} (f : V -> V) (k : K) (m : list (K * V)) :
  JSMap.keys (JSMap.alter f k m) = JSMap.keys m.
Proof.
  induction m as [|[k0 v0] m IH]; [reflexivity|]. cbn [JSMap.alter].
  destruct (bool_decide (k = k0)); cbn; [reflexivity|]. f_equal. exact IH.
Qed.

Lemma set_present_keys {K V : Type} `{EqDecision K} (k : K) (v : V) (m : list (K * V)) :
  JSMap.get k m <> None -> JSMap.keys (JSMap.set k v m) = JSMap.keys m.
Proof.
  induction m as [|[k0 v0] m IH]; intros H; [now cbn in H|].
  cbn [JSMap.set JSMap.get] in *.
  destruct (bool_decide (k = k0)) eqn:E; cbn.
  - apply bool_decide_eq_true_1 in E. now subst.
  - f_equal. apply IH. exact H.
Qed.

Lemma NoDup_keys_set {K V : Type} `{EqDecision K} (k : K) (v : V) (m : list (K * V)) :
  List.NoDup (JSMap.keys m) -> List.NoDup (JSMap.keys (JSMap.set k v m)).
Proof.
  intros H. destruct (JSMap.get k m) eqn:E.
  - rewrite set_present_keys by congruence. exact H.
  - rewrite set_fresh by exact E. unfold JSMap.keys. rewrite List.map_app.
    apply ListNoDup_snoc; [exact H|]. now apply get_None_keys.
Qed.

Lemma In_set {K V : Type} `{EqDecision K} (k : K) (v : V) (m : list (K * V)) e :
  In e (JSMap.set k v m) -> e = (k, v) \/ In e m.
Proof.
  induction m as [|[k0 v0] m IH]; cbn [JSMap.set].
  - intros [<-|[]]. now left.
  - destruct (bool_decide (k = k0)); intros [<-|H]; auto.
    + right. now right.
    + right. now left.
    + destruct (IH H); auto. right. now right.
Qed.

Lemma has_get {V : Type} (k : string) (m : list (string * V)) :
  JSMap.has k m = true <-> JSMap.get k m <> None.
Proof. unfold JSMap.has. destruct (JSMap.get k m); split; congruence. Qed.

Lemma countSum_app m1 m2 : countSum (m1 ++ m2) = countSum m1 + countSum m2.
Proof. induction m1 as [|e m1 IH]; cbn; [reflexivity|]. unfold countSum in *. lia. Qed.

Lemma countSum_upsert variantKey mc masterName isIcon m :
  countSum (upsertComponent variantKey mc masterName isIcon m) = countSum m + 1.
Proof.
  unfold upsertComponent. destruct (JSMap.has variantKey m) eqn:E; cbn [negb].
  - apply has_get in E. induction m as [|[k0 v0] m IH]; [now cbn in E|].
    cbn [JSMap.alter JSMap.get] in *.
    destruct (bool_decide (variantKey = k0)); cbn.
    + fold (countSum m). lia.
    + fold (countSum m) (countSum (JSMap.alter
        (fun existing =>
           {| cr_masterName := cr_masterName existing;
              cr_variantName := cr_variantName existing;
              cr_fullName := cr_fullName existing;
              cr_key := cr_key existing;
              cr_id := cr_id existing;
              cr_isVariant := cr_isVariant existing;
              cr_instanceCount := cr_instanceCount existing + 1;
              cr_isIcon := cr_isIcon existing;
              cr_name := cr_name existing;
              cr_setName := cr_setName existing |}) variantKey m)).
      rewrite (IH E). lia.
  - rewrite set_fresh.
    + rewrite countSum_app. cbn. lia.
    + unfold JSMap.has in E. now destruct (JSMap.get variantKey m).
Qed.

Lemma NoDup_keys_upsert variantKey mc masterName isIcon m :
  List.NoDup (JSMap.keys m) ->
  List.NoDup (JSMap.keys (upsertComponent variantKey mc masterName isIcon m)).
Proof.
  intros H. unfold upsertComponent. destruct (negb (JSMap.has variantKey m)).
  - now apply NoDup_keys_set.
  - now rewrite keys_alter.
Qed.

(** ** The accounts of a pass *)

Section PassFacts.
Variable getStyleById : string -> option Style.
Variable fractionToString : Q -> string.

Lemma extractFont_frame node st :
  let st' := extractFont getStyleById fractionToString node st in
  processedNodes st' = processedNodes st /\ components st' = components st
  /\ icons st' = icons st.
Proof.
  unfold extractFont.
  destruct (n_fontName node); [now cbn | now cbn |].
  destruct (lookupStyle getStyleById (n_textStyleId node)); now cbn.
Qed.

Lemma extractPaints_frame type styleId l st :
  let st' := fold_left (extractPaint getStyleById type styleId) l st in
  processedNodes st' = processedNodes st /\ components st' = components st
  /\ icons st' = icons st /\ textStyles st' = textStyles st.
Proof.
  revert st. induction l as [|p l IH]; intros st; [now cbn|].
  cbn [fold_left]. cbv zeta in IH |- *.
  destruct (IH (extractPaint getStyleById type styleId st p)) as (-> & -> & -> & ->).
  unfold extractPaint. destruct (paintCounts p); [|now cbn].
  destruct (lookupStyle getStyleById styleId); now cbn.
Qed.

Lemma tail_frame node st :
  let st' :=
    extractEffect getStyleById node
      (extractStrokes getStyleById node
         (extractFills getStyleById node
            (extractFont getStyleById fractionToString node st))) in
  processedNodes st' = processedNodes st /\ components st' = components st
  /\ icons st' = icons st.
Proof.
  cbv zeta.
  set (s1 := extractFont getStyleById fractionToString node st).
  set (s2 := extractFills getStyleById node s1).
  set (s3 := extractStrokes getStyleById node s2).
  assert (H3 : processedNodes (extractEffect getStyleById node s3) = processedNodes s3
               /\ components (extractEffect getStyleById node s3) = components s3
               /\ icons (extractEffect getStyleById node s3) = icons s3).
  { unfold extractEffect. destruct (lookupStyle getStyleById (n_effectStyleId node)); now cbn. }
  assert (H2 : processedNodes s3 = processedNodes s2 /\ components s3 = components s2
               /\ icons s3 = icons s2).
  { subst s3. unfold extractStrokes. destruct (n_strokes node); [|now cbn].
    pose proof (extractPaints_frame Stroke (n_strokeStyleId node) l s2) as H. cbv zeta in H.
    tauto. }
  assert (H1 : processedNodes s2 = processedNodes s1 /\ components s2 = components s1
               /\ icons s2 = icons s1).
  { subst s2. unfold extractFills. destruct (n_fills node); [|now cbn].
    pose proof (extractPaints_frame Fill (n_fillStyleId node) l s1) as H. cbv zeta in H.
    tauto. }
  pose proof (extractFont_frame node st) as H0. cbv zeta in H0. fold s1 in H0.
  destruct H3 as (-> & -> & ->), H2 as (-> & -> & ->), H1 as (-> & -> & ->).
  exact H0.
Qed.

(** The two component maps after a node. *)
Lemma analyzeNode_instances node st :
  let st' := analyzeNode getStyleById fractionToString node st in
  match instanceOf node with
  | Some mc =>
      if bool_decide (n_id node ∈ processedNodes st)
      then components st' = components st /\ icons st' = icons st
      else if isComponentAnIcon mc
           then components st' = components st
                /\ icons st'
                   = upsertComponent (JS.or_else (mc_key mc) (mc_id mc)) mc (masterNameOf mc)
                       true (icons st)
           else components st'
                = upsertComponent (JS.or_else (mc_key mc) (mc_id mc)) mc (masterNameOf mc)
                    false (components st)
                /\ icons st' = icons st
  | None => components st' = components st /\ icons st' = icons st
  end.
Proof.
  cbv zeta. unfold analyzeNode, instanceOf.
  destruct (nodeIsValid node); cbn [negb andb]; [|split; reflexivity].
  destruct (bool_decide (n_id node ∈ processedNodes st)) eqn:Eseen.
  { destruct (_ && _); [|split; reflexivity].
    destruct (n_getMainComponent node) as [[mc|]|]; try (split; reflexivity).
    destruct (_ && _); split; reflexivity. }
  destruct (skippedByGate node); cbn [negb andb]; [split; reflexivity|].
  set (st1 := with_processed _ st).
  assert (T : forall s, components s = components st1 -> icons s = icons st1 ->
                components
                  (extractEffect getStyleById node
                     (extractStrokes getStyleById node
                        (extractFills getStyleById node
                           (extractFont getStyleById fractionToString node s))))
                = components st
                /\ icons
                     (extractEffect getStyleById node
                        (extractStrokes getStyleById node
                           (extractFills getStyleById node
                              (extractFont getStyleById fractionToString node s))))
                   = icons st).
  { intros s Hc Hi. pose proof (tail_frame node s) as (_ & -> & ->).
    rewrite Hc, Hi. split; reflexivity. }
  unfold extractComponent.
  destruct (String.eqb (n_type node) "INSTANCE"); cbn [andb]; [|now apply T].
  destruct (n_mainComponent node); cbn [negb]; [|split; reflexivity].
  destruct (n_getMainComponent node) as [[mc|]|]; try (now apply T).
  destruct (JS.truthy (mc_name mc) && (JS.truthy (mc_key mc) || JS.truthy (mc_id mc)));
    cbn [andb]; [|now apply T].
  change (match mc_parent mc with
          | Some p => if String.eqb (parent_type p) "COMPONENT_SET"
                      then parent_name p else mc_name mc
          | None => mc_name mc
          end) with (masterNameOf mc).
  cbv zeta.
  destruct (JS.truthy (masterNameOf mc)); cbn [negb]; [|split; reflexivity].
  destruct (isComponentAnIcon mc).
  - pose proof (tail_frame node
                  (with_icons (upsertComponent (JS.or_else (mc_key mc) (mc_id mc)) mc
                                 (masterNameOf mc) true) st1)) as (_ & -> & ->).
    split; reflexivity.
  - pose proof (tail_frame node
                  (with_components (upsertComponent (JS.or_else (mc_key mc) (mc_id mc)) mc
                                      (masterNameOf mc) false) st1)) as (_ & -> & ->).
    split; reflexivity.
Qed.

(** The set of processed nodes after a node. *)
Lemma analyzeNode_processed node st x :
  x ∈ processedNodes (analyzeNode getStyleById fractionToString node st)
  <-> x ∈ processedNodes st \/ (nodeIsValid node = true /\ x = n_id node).
Proof.
  unfold analyzeNode.
  destruct (nodeIsValid node); cbn [negb]; [|intuition congruence].
  destruct (bool_decide (n_id node ∈ processedNodes st)) eqn:Eseen.
  { apply bool_decide_eq_true_1 in Eseen. intuition (subst; auto). }
  assert (P : x ∈ processedNodes (with_processed (fun s => s ∪ {[ n_id node ]}) st)
              <-> x ∈ processedNodes st \/ (true = true /\ x = n_id node)).
  { cbn. rewrite elem_of_union, elem_of_singleton. tauto. }
  destruct (skippedByGate node); [exact P|].
  set (st1 := with_processed _ st) in *.
  pose proof (extractComponent_others node st1) as H. cbv zeta in H.
  destruct (extractComponent node st1) as [s|s]; destruct H as (Hp & _).
  - rewrite Hp. exact P.
  - pose proof (tail_frame node s) as (-> & _). rewrite Hp. exact P.
Qed.

Lemma analyzeNode_seen node st :
  n_id node ∈ processedNodes st ->
  analyzeNode getStyleById fractionToString node st = st.
Proof.
  intros H. unfold analyzeNode. destruct (negb (nodeIsValid node)); [reflexivity|].
  now rewrite bool_decide_eq_true_2.
Qed.

Lemma analyzeNode_invalid node st :
  nodeIsValid node = false ->
  analyzeNode getStyleById fractionToString node st = st.
Proof. intros H. unfold analyzeNode. now rewrite H. Qed.

Lemma analyzeBatch_app st l1 l2 :
  analyzeBatch getStyleById fractionToString st (l1 ++ l2)
  = analyzeBatch getStyleById fractionToString
      (analyzeBatch getStyleById fractionToString st l1) l2.
Proof. unfold analyzeBatch. apply fold_left_app. Qed.

Lemma analyzeBatch_processed nodes st x :
  x ∈ processedNodes (analyzeBatch getStyleById fractionToString st nodes)
  <-> x ∈ processedNodes st
      \/ exists node, In node nodes /\ nodeIsValid node = true /\ x = n_id node.
Proof.
  revert st. induction nodes as [|n nodes IH]; intros st.
  - cbn. split; [auto | intros [H|(? & [] & _)]; exact H].
  - change (analyzeBatch getStyleById fractionToString st (n :: nodes))
      with (analyzeBatch getStyleById fractionToString
              (analyzeNode getStyleById fractionToString n st) nodes).
    rewrite IH, analyzeNode_processed. split.
    + intros [[H|[Hv ->]]|(m & Hm & Hv & ->)]; auto.
      * right. exists n. split; [now left | auto].
      * right. exists m. split; [now right | auto].
    + intros [H|(m & [<-|Hm] & Hv & ->)]; auto.
      right. exists m. auto.
Qed.

End PassFacts.

Lemma insertSorted_Permutation {A : Type} cmp (x : A) l :
  insertSorted cmp x l ≡ₚ x :: l.
Proof.
  induction l as [|y l IH]; cbn; [reflexivity|].
  destruct (cmp x y <=? 0); [reflexivity|].
  etransitivity; [apply perm_skip, IH | apply perm_swap].
Qed.

Lemma sortBy_Permutation {A : Type} cmp (l : list A) : sortBy cmp l ≡ₚ l.
Proof.
  induction l as [|x l IH]; cbn; [reflexivity|].
  etransitivity; [apply insertSorted_Permutation | now apply perm_skip].
Qed.

Lemma NoDup_map_sortBy {A B : Type} (f : A -> B) cmp (l : list A) :
  List.NoDup (map f l) -> List.NoDup (map f (sortBy cmp l)).
Proof.
  intros H. eapply Permutation_NoDup; [|exact H].
  symmetry. apply Permutation_map, sortBy_Permutation.
Qed.

Lemma upsertColor_wf hex opacity styleName type colors :
  List.NoDup (JSMap.keys colors) -> Forall colorKeyed colors ->
  let colors' := upsertColor (colorKeyOf hex opacity) hex opacity styleName type colors in
  List.NoDup (JSMap.keys colors') /\ Forall colorKeyed colors'.
Proof.
  intros Hk Hf. cbv zeta. unfold upsertColor.
  destruct (JSMap.get (colorKeyOf hex opacity) colors) as [e|].
  - destruct (truthy_opt styleName && negb (truthy_opt (ci_styleName e))); [|now split].
    split; [now rewrite keys_alter|].
    apply Forall_alter; [exact Hf|]. intros k' v H. exact H.
  - split; [now apply NoDup_keys_set|].
    apply Forall_set; [exact Hf | reflexivity].
Qed.

Section PassInvariant.
Variable getStyleById : string -> option Style.
Variable fractionToString : Q -> string.

Lemma upsertFont_wf family style size styleName fonts :
  List.NoDup (JSMap.keys fonts) -> Forall (fontKeyed fractionToString) fonts ->
  let fonts' :=
    upsertFont (fontKeyOf fractionToString family style size) family style size styleName
      fonts in
  List.NoDup (JSMap.keys fonts') /\ Forall (fontKeyed fractionToString) fonts'.
Proof.
  intros Hk Hf. cbv zeta. unfold upsertFont.
  destruct (JSMap.get (fontKeyOf fractionToString family style size) fonts) as [e|].
  - destruct (truthy_opt styleName && negb (truthy_opt (fi_styleName e))); [|now split].
    split; [now rewrite keys_alter|].
    apply Forall_alter; [exact Hf|]. intros k' v H. exact H.
  - split; [now apply NoDup_keys_set|].
    apply Forall_set; [exact Hf | reflexivity].
Qed.

Lemma extractFont_wf node st :
  List.NoDup (JSMap.keys (fonts st)) -> Forall (fontKeyed fractionToString) (fonts st) ->
  let st' := extractFont getStyleById fractionToString node st in
  List.NoDup (JSMap.keys (fonts st')) /\ Forall (fontKeyed fractionToString) (fonts st').
Proof.
  intros Hk Hf. cbv zeta. unfold extractFont.
  destruct (n_fontName node); [now split | now split |].
  destruct (lookupStyle getStyleById (n_textStyleId node)); cbn; now apply upsertFont_wf.
Qed.

Lemma paintsColors_wf type styleId l colors :
  List.NoDup (JSMap.keys colors) -> Forall colorKeyed colors ->
  let colors' := fold_left (paintColors getStyleById type styleId) l colors in
  List.NoDup (JSMap.keys colors') /\ Forall colorKeyed colors'.
Proof.
  revert colors. induction l as [|p l IH]; intros colors Hk Hf; [now split|].
  cbn [fold_left]. cbv zeta.
  assert (H : List.NoDup (JSMap.keys (paintColors getStyleById type styleId colors p))
              /\ Forall colorKeyed (paintColors getStyleById type styleId colors p)).
  { unfold paintColors. destruct (paintCounts p); [|now split].
    now apply upsertColor_wf. }
  destruct H. now apply IH.
Qed.

Lemma analyzeNode_textStyles node st :
  List.NoDup (JSMap.keys (textStyles st)) ->
  List.NoDup (JSMap.keys (textStyles (analyzeNode getStyleById fractionToString node st))).
Proof.
  intros H. unfold analyzeNode.
  destruct (negb (nodeIsValid node)); [exact H|].
  destruct (bool_decide _); [exact H|].
  destruct (skippedByGate node); [exact H|].
  set (st1 := with_processed _ st).
  pose proof (extractComponent_others node st1) as Ho. cbv zeta in Ho.
  destruct (extractComponent node st1) as [s|s];
    destruct Ho as (_ & _ & _ & _ & Ht & _).
  - rewrite Ht. exact H.
  - assert (E : textStyles
                  (extractEffect getStyleById node
                     (extractStrokes getStyleById node
                        (extractFills getStyleById node
                           (extractFont getStyleById fractionToString node s))))
                = textStyles (extractFont getStyleById fractionToString node s)).
    { set (s1 := extractFont getStyleById fractionToString node s).
      transitivity (textStyles (extractStrokes getStyleById node
                                  (extractFills getStyleById node s1))).
      { unfold extractEffect.
        destruct (lookupStyle getStyleById (n_effectStyleId node)); reflexivity. }
      transitivity (textStyles (extractFills getStyleById node s1)).
      { unfold extractStrokes. destruct (n_strokes node); [|reflexivity].
        apply extractPaints_frame. }
      unfold extractFills. destruct (n_fills node); [|reflexivity].
      apply extractPaints_frame. }
    rewrite E. unfold extractFont.
    destruct (n_fontName node); try (rewrite Ht; exact H).
    destruct (lookupStyle getStyleById (n_textStyleId node)); cbn.
    + apply NoDup_keys_set. rewrite Ht. exact H.
    + rewrite Ht. exact H.
Qed.

Lemma filedAs_upsert mc (m : list (string * ComponentReference)) :
  JS.truthy (masterNameOf mc) = true ->
  Forall (filedAs (isComponentAnIcon mc)) m ->
  Forall (filedAs (isComponentAnIcon mc))
    (upsertComponent (JS.or_else (mc_key mc) (mc_id mc)) mc (masterNameOf mc)
       (isComponentAnIcon mc) m).
Proof.
  intros Hm Hf. unfold upsertComponent.
  destruct (negb (JSMap.has _ m)).
  - apply Forall_set; [exact Hf|].
    unfold filedAs. cbn [fst snd cr_instanceCount cr_isIcon cr_key cr_id].
    split; [lia|]. split; [reflexivity|]. split; [|reflexivity].
    assert (En : (if inComponentSet mc then masterNameOf mc else mc_name mc)
                 = masterNameOf mc).
    { unfold inComponentSet, masterNameOf. destruct (mc_parent mc) as [p|]; [|reflexivity].
      destruct (String.eqb (parent_type p) "COMPONENT_SET"); reflexivity. }
    unfold looksIcon. cbn [cr_masterName cr_fullName cr_name cr_setName cr_isIcon].
    rewrite En. unfold JS.or_else at 1. rewrite Hm.
    change (Regex.test iconRegex (JS.toLowerCase (JS.or_else "" ""))) with false.
    rewrite iconNameRegex_test, hasWholeWord_toLowerCase.
    destruct (isComponentAnIcon mc) eqn:Ei; [apply orb_true_r|].
    rewrite isComponentAnIcon_unfold in Ei.
    apply orb_false_iff in Ei as [Ei _]. apply orb_false_iff in Ei as [E1 E2].
    rewrite !orb_false_r.
    unfold masterNameOf. destruct (mc_parent mc) as [p|]; [|exact E1].
    destruct (String.eqb (parent_type p) "COMPONENT_SET"); [exact E2 | exact E1].
  - apply Forall_alter; [exact Hf|].
    intros k' v (H1 & H2 & H3 & H4). unfold filedAs. cbn [fst snd] in *.
    split; [cbn; lia|]. split; [exact H2|]. split; [exact H3 | exact H4].
Qed.

Lemma passInvariant_empty : passInvariant fractionToString emptyPass.
Proof. split; cbn; constructor. Qed.

Lemma passInvariant_analyzeNode node st :
  passInvariant fractionToString st ->
  passInvariant fractionToString (analyzeNode getStyleById fractionToString node st).
Proof.
  intros [Hck Hik Hfk Hcolk Htk Hc Hi Hf Hcol].
  set (st' := analyzeNode getStyleById fractionToString node st).
  assert (HCI : List.NoDup (JSMap.keys (components st'))
                /\ List.NoDup (JSMap.keys (icons st'))
                /\ Forall (filedAs false) (components st')
                /\ Forall (filedAs true) (icons st')).
  { pose proof (analyzeNode_instances getStyleById fractionToString node st) as H.
    cbv zeta in H. fold st' in H.
    destruct (instanceOf node) as [mc|] eqn:Ei.
    - destruct (bool_decide _); [destruct H as [-> ->]; auto|].
      assert (Hm : JS.truthy (masterNameOf mc) = true).
      { unfold instanceOf in Ei. destruct (_ && _); [|discriminate].
        destruct (n_getMainComponent node) as [[mc'|]|]; try discriminate.
        destruct (JS.truthy (mc_name mc') && _ && JS.truthy (masterNameOf mc')) eqn:E;
          [|discriminate].
        injection Ei as <-. now apply andb_true_iff in E as [_ E]. }
      pose proof (filedAs_upsert mc (components st) Hm) as Uc.
      pose proof (filedAs_upsert mc (icons st) Hm) as Ui.
      destruct (isComponentAnIcon mc); destruct H as [-> ->];
        repeat split; auto using NoDup_keys_upsert.
    - destruct H as [-> ->]; auto. }
  assert (HF : List.NoDup (JSMap.keys (fonts st'))
               /\ Forall (fontKeyed fractionToString) (fonts st')).
  { destruct (analyzeNode_fonts getStyleById fractionToString node st)
      as [E|(st1 & E1 & E)]; fold st' in E; rewrite E; [now split|].
    apply extractFont_wf; rewrite E1; assumption. }
  assert (HC : List.NoDup (JSMap.keys (colors st')) /\ Forall colorKeyed (colors st')).
  { destruct (analyzeNode_colors getStyleById fractionToString node st) as [E|E];
      fold st' in E; rewrite E; [now split|].
    unfold nodeColors. apply paintsColors_wf; now apply paintsColors_wf. }
  destruct HCI as (? & ? & ? & ?), HF, HC.
  split; try assumption. now apply analyzeNode_textStyles.
Qed.

Lemma passInvariant_analyzeBatch nodes st :
  passInvariant fractionToString st ->
  passInvariant fractionToString (analyzeBatch getStyleById fractionToString st nodes).
Proof.
  revert st. induction nodes as [|n nodes IH]; intros st H; [exact H|].
  apply IH, passInvariant_analyzeNode, H.
Qed.

Lemma passInvariant_analyzeFrameState frame :
  passInvariant fractionToString (analyzeFrameState getStyleById fractionToString frame).
Proof.
  unfold analyzeFrameState.
  rewrite analyzeAll_batches by lia.
  apply passInvariant_analyzeBatch.
  unfold analyzeRoot. destruct (negb _); [apply passInvariant_empty|].
  destruct (bool_decide _); [apply passInvariant_empty|].
  split; cbn; constructor.
Qed.

Lemma instanceTotal_analyzeNode node st :
  instanceTotal (analyzeNode getStyleById fractionToString node st)
  = instanceTotal st
    + (if isInstance node && negb (bool_decide (n_id node ∈ processedNodes st))
       then 1 else 0).
Proof.
  pose proof (analyzeNode_instances getStyleById fractionToString node st) as H.
  cbv zeta in H. unfold instanceTotal, isInstance.
  destruct (instanceOf node) as [mc|]; cbn [andb].
  - destruct (bool_decide _); cbn [negb]; [destruct H as [-> ->]; lia|].
    destruct (isComponentAnIcon mc); destruct H as [-> ->];
      rewrite countSum_upsert; lia.
  - destruct H as [-> ->]. lia.
Qed.

End PassInvariant.

(** ** Properties of a pass *)

(** X5: the size of the batches in which [analyzeFrame] walks the nodes
    has no influence on the result: for any two positive batch sizes the
    pass ends in the same state, the state that analysing the nodes one
    after the other gives. *)
Theorem batch_size_is_irrelevant
    (getStyleById : string -> option Style) (fractionToString : Q -> string)
    (size1 size2 : nat) (nodes : list Node) (st : PassState) :
  (0 < size1)%nat -> (0 < size2)%nat ->
  analyzeAll getStyleById fractionToString size1 nodes st
  = analyzeAll getStyleById fractionToString size2 nodes st
  /\ analyzeAll getStyleById fractionToString size1 nodes st
     = fold_left (fun st node => analyzeNode getStyleById fractionToString node st) nodes st.
Proof.
  intros H1 H2. rewrite !analyzeAll_batches by assumption. split; reflexivity.
Qed.

Lemma batch_size_is_irrelevant_witness :
  analyzeAll exampleStyles (fun _ => "") 50
    [rectangle "1:2" 10 10 [solid red None] "S:1" [];
     instanceNode "1:3" (exampleMain "Button" "k1");
     rectangle "1:4" 10 10 [solid red (Some (1 # 2))] "" []] emptyPass
  = analyzeAll exampleStyles (fun _ => "") 2
      [rectangle "1:2" 10 10 [solid red None] "S:1" [];
       instanceNode "1:3" (exampleMain "Button" "k1");
       rectangle "1:4" 10 10 [solid red (Some (1 # 2))] "" []] emptyPass.
Proof.
  refine (proj1 (batch_size_is_irrelevant exampleStyles (fun _ => "") 50 2 _ emptyPass _ _));
    lia.
Defined.

(** X6: a node is extracted at most once per pass.  Analysing a node a
    second time changes nothing, and a node whose id is that of a valid
    node met earlier in the walk contributes nothing, whatever it holds. *)
Theorem node_is_analysed_once
    (getStyleById : string -> option Style) (fractionToString : Q -> string) :
  (forall node st,
      analyzeNode getStyleById fractionToString node
        (analyzeNode getStyleById fractionToString node st)
      = analyzeNode getStyleById fractionToString node st)
  /\ (forall node st,
         n_id node ∈ processedNodes st ->
         analyzeNode getStyleById fractionToString node st = st)
  /\ (forall st before node node' after,
         In node before -> nodeIsValid node = true -> n_id node' = n_id node ->
         analyzeBatch getStyleById fractionToString st (before ++ node' :: after)
         = analyzeBatch getStyleById fractionToString st (before ++ after)).
Proof.
  split; [|split].
  - intros node st. destruct (nodeIsValid node) eqn:Hv.
    + apply analyzeNode_seen. apply analyzeNode_processed. right. now split.
    + now rewrite !analyzeNode_invalid.
  - intros node st. apply analyzeNode_seen.
  - intros st before node node' after Hin Hv Hid.
    rewrite !analyzeBatch_app.
    change (analyzeBatch getStyleById fractionToString ?s (node' :: after))
      with (analyzeBatch getStyleById fractionToString
              (analyzeNode getStyleById fractionToString node' s) after).
    rewrite analyzeNode_seen; [reflexivity|].
    apply analyzeBatch_processed. right. exists node. auto.
Qed.

Lemma node_is_analysed_once_witness :
  analyzeBatch exampleStyles (fun _ => "") emptyPass
    ([instanceNode "1:3" (exampleMain "Button" "k1")]
     ++ rectangle "1:3" 10 10 [solid red None] "" [] :: [])
  = analyzeBatch exampleStyles (fun _ => "") emptyPass
      ([instanceNode "1:3" (exampleMain "Button" "k1")] ++ []).
Proof.
  refine (proj2 (proj2 (node_is_analysed_once exampleStyles (fun _ => ""))) emptyPass
            [instanceNode "1:3" (exampleMain "Button" "k1")]
            (instanceNode "1:3" (exampleMain "Button" "k1"))
            (rectangle "1:3" 10 10 [solid red None] "" []) [] _ _ _).
  - simpl. left. reflexivity.
  - reflexivity.
  - reflexivity.
Defined.

(** X7: every instance is counted exactly once.  Over a walk whose nodes
    have distinct ids, none of them processed before, the sum of the
    [instanceCount] fields of the [components] and [icons] maps grows by
    the number of nodes that are instances of a resolved main component. *)
Theorem instances_are_counted_once
    (getStyleById : string -> option Style) (fractionToString : Q -> string)
    (nodes : list Node) (st : PassState) :
  List.NoDup (map n_id nodes) ->
  (forall node, In node nodes -> n_id node ∉ processedNodes st) ->
  instanceTotal (analyzeBatch getStyleById fractionToString st nodes)
  = instanceTotal st + Z.of_nat (length (List.filter isInstance nodes)).
Proof.
  revert st. induction nodes as [|n nodes IH]; intros st Hnd Hnew.
  - cbn. lia.
  - change (analyzeBatch getStyleById fractionToString st (n :: nodes))
      with (analyzeBatch getStyleById fractionToString
              (analyzeNode getStyleById fractionToString n st) nodes).
    cbn [map] in Hnd. apply List.NoDup_cons_iff in Hnd as [Hn Hnd].
    rewrite IH.
    + rewrite instanceTotal_analyzeNode.
      rewrite (bool_decide_eq_false_2 (n_id n ∈ processedNodes st))
        by (apply Hnew; now left).
      cbn [List.filter negb]. rewrite andb_true_r.
      destruct (isInstance n); cbn [length]; lia.
    + exact Hnd.
    + intros m Hm Hin. apply analyzeNode_processed in Hin as [Hin|[_ Hin]].
      * apply (Hnew m); [now right | exact Hin].
      * apply Hn. rewrite <- Hin. apply in_map. exact Hm.
Qed.

Lemma instances_are_counted_once_witness :
  instanceTotal
    (analyzeBatch exampleStyles (fun _ => "") emptyPass
       [instanceNode "1:3" (exampleMain "Button" "k1");
        rectangle "1:4" 10 10 [solid red None] "" [];
        instanceNode "1:5" (exampleMain "Button" "k1");
        instanceNode "1:6" (exampleMain "ic_close" "k2")])
  = 3.
Proof.
  refine (instances_are_counted_once exampleStyles (fun _ => "") _ emptyPass _ _).
  - repeat constructor; simpl; intuition discriminate.
  - intros node _. cbn. apply not_elem_of_empty.
Defined.

(** X8: within one analysis record every font key, colour key, text
    style name and component key occurs once; a font sits under the key
    made of its family, style and size, a counted component has at least
    one instance, and the [isIcon] flag of an entry tells the array it is
    in. *)
Theorem record_entries_are_keyed
    (getStyleById : string -> option Style) (fractionToString : Q -> string)
    (localeCompare : string -> string -> Z) (frame : Frame) :
  let r := analyzeFrame getStyleById fractionToString localeCompare frame in
  List.NoDup (map fu_fontKey (ar_fonts r))
  /\ Forall (fun f => fu_fontKey f
                      = fontKeyOf fractionToString (fu_fontFamily f) (fu_fontStyle f)
                          (fu_fontSize f)) (ar_fonts r)
  /\ List.NoDup (map (fun c => colorKeyOf (cu_hex c) (cu_opacity c)) (ar_colors r))
  /\ List.NoDup (map tu_styleName (ar_textStyles r))
  /\ List.NoDup (map (fun c => JS.or_else (cr_key c) (cr_id c)) (ar_components r))
  /\ List.NoDup (map (fun c => JS.or_else (cr_key c) (cr_id c)) (ar_icons r))
  /\ Forall (fun c => 1 <= cr_instanceCount c /\ cr_isIcon c = false) (ar_components r)
  /\ Forall (fun c => 1 <= cr_instanceCount c /\ cr_isIcon c = true) (ar_icons r).
Proof.
  intros r.
  destruct (passInvariant_analyzeFrameState getStyleById fractionToString frame)
    as [Hck Hik Hfk Hcolk Htk Hc Hi Hf Hcol].
  subst r. unfold analyzeFrame. cbn [ar_fonts ar_colors ar_textStyles ar_components ar_icons].
  set (st := analyzeFrameState getStyleById fractionToString frame) in *.
  assert (KV : forall b (m : list (string * ComponentReference)),
             Forall (filedAs b) m ->
             map (fun c => JS.or_else (cr_key c) (cr_id c)) (JSMap.values m) = JSMap.keys m
             /\ Forall (fun c => 1 <= cr_instanceCount c /\ cr_isIcon c = b) (JSMap.values m)).
  { intros b m H. unfold JSMap.values, JSMap.keys.
    induction H as [|[k e] m (H1 & H2 & _ & H4) _ [IH1 IH2]]; [now split|].
    cbn [map fst snd] in *. split; [now rewrite IH1, H4 | constructor; auto]. }
  destruct (KV false _ Hc) as [Ec Fc], (KV true _ Hi) as [Ei Fi].
  repeat split.
  - unfold fontArrayOf. apply NoDup_map_sortBy. rewrite List.map_map.
    replace (map (fun x => fu_fontKey (fontUsageOf fractionToString x)) (fonts st))
      with (JSMap.keys (fonts st)); [exact Hfk|].
    unfold JSMap.keys. apply map_ext. now intros [k e].
  - unfold fontArrayOf. apply sortBy_Forall. apply List.Forall_forall.
    intros f Hin. apply in_map_iff in Hin as ([k e] & <- & Hin).
    rewrite List.Forall_forall in Hf. exact (Hf _ Hin).
  - unfold colorArrayOf. apply NoDup_map_sortBy. rewrite List.map_map.
    replace (map (fun x => colorKeyOf (cu_hex (colorUsageOf (snd x)))
                             (cu_opacity (colorUsageOf (snd x)))) (colors st))
      with (JSMap.keys (colors st)); [exact Hcolk|].
    unfold JSMap.keys. apply map_ext_in. intros [k e] Hin.
    rewrite List.Forall_forall in Hcol. exact (Hcol _ Hin).
  - unfold textStyleArrayOf. apply NoDup_map_sortBy. rewrite List.map_map. exact Htk.
  - rewrite Ec. exact Hck.
  - rewrite Ei. exact Hik.
  - exact Fc.
  - exact Fi.
Qed.

(** X9: the reclassification pass leaves a record fresh from
    [analyzeFrame] as it is: with the record's component and icon objects
    in the heap, both arrays come back unchanged and no object is
    modified.  The check of the extractor and the check of the pass agree
    on every entry the extractor files. *)
Theorem fresh_record_is_already_normalized
    (getStyleById : string -> option Style) (fractionToString : Q -> string)
    (localeCompare : string -> string -> Z) (frame : Frame)
    (h : heap) (data : AnalysisData) :
  let r := analyzeFrame getStyleById fractionToString localeCompare frame in
  map h (ad_components data) = ar_components r ->
  map h (ad_icons data) = ar_icons r ->
  let res := normalizeComponentIconClassification h data in
  ad_components (snd res) = ad_components data
  /\ ad_icons (snd res) = ad_icons data
  /\ (forall c, fst res c = h c).
Proof.
  intros r Hcomp Hicon res.
  destruct (passInvariant_analyzeFrameState getStyleById fractionToString frame)
    as [_ _ _ _ _ Hc Hi _ _].
  subst r. unfold analyzeFrame in Hcomp, Hicon. cbn [ar_components ar_icons] in Hcomp, Hicon.
  set (st := analyzeFrameState getStyleById fractionToString frame) in *.
  assert (L : forall b (m : list (string * ComponentReference)) (l : list loc),
             Forall (filedAs b) m -> map h l = JSMap.values m ->
             forall c, In c l -> looksIcon (h c) = b /\ cr_isIcon (h c) = b).
  { intros b m l Hm Hl c Hin.
    assert (Hv : In (h c) (JSMap.values m)) by (rewrite <- Hl; now apply in_map).
    apply in_map_iff in Hv as ([k e] & Ee & He). cbn in Ee. subst e.
    rewrite List.Forall_forall in Hm. destruct (Hm _ He) as (_ & H2 & H3 & _). auto. }
  pose proof (L false _ _ Hc Hcomp) as Lc.
  pose proof (L true _ _ Hi Hicon) as Li.
  destruct (normalize_result h h data (reclassInv_refl h))
    as (_ & Ec & Ei & _ & _ & Hin & Hout).
  fold res in Ec, Ei, Hin, Hout.
  assert (Fk : forall (b : bool) (f : loc -> bool) (l : list loc),
             (forall c, In c l -> f c = b) ->
             List.filter f l = if b then l else []).
  { intros b f l H. induction l as [|c l IH]; [now destruct b|].
    cbn [List.filter]. rewrite (H c) by now left.
    rewrite IH by (intros; apply H; now right). now destruct b. }
  split; [|split].
  - rewrite Ec, List.filter_app.
    rewrite (Fk true (fun c => negb (looksIcon (h c))) (ad_components data))
      by (intros c Hc'; now rewrite (proj1 (Lc c Hc'))).
    rewrite (Fk false (fun c => negb (looksIcon (h c))) (ad_icons data))
      by (intros c Hc'; now rewrite (proj1 (Li c Hc'))).
    apply app_nil_r.
  - rewrite Ei, List.filter_app.
    rewrite (Fk false (fun c => looksIcon (h c)) (ad_components data))
      by (intros c Hc'; now rewrite (proj1 (Lc c Hc'))).
    rewrite (Fk true (fun c => looksIcon (h c)) (ad_icons data))
      by (intros c Hc'; now rewrite (proj1 (Li c Hc'))).
    reflexivity.
  - intros c.
    destruct (in_dec Nat.eq_dec c (ad_components data ++ ad_icons data)) as [Hc'|Hc'].
    + rewrite (Hin c Hc'). apply in_app_or in Hc' as [Hc'|Hc'].
      * destruct (Lc c Hc') as [-> <-]. apply setIsIcon_same.
      * destruct (Li c Hc') as [-> <-]. apply setIsIcon_same.
    + exact (Hout c Hc').
Qed.

Lemma fresh_record_is_already_normalized_witness :
  let h : nat -> ComponentReference :=
    fun c =>
      match c with
      | O => mkComponentReference "Button" None "Button" "k1" "9:1" false 2 false "" ""
      | _ => mkComponentReference "ic_close" None "ic_close" "k2" "9:1" false 1 true "" ""
      end in
  let data := mkAnalysisData [0%nat] [1%nat] [] [] in
  ad_components (snd (normalizeComponentIconClassification h data)) = [0%nat]
  /\ ad_icons (snd (normalizeComponentIconClassification h data)) = [1%nat]
  /\ (forall c, fst (normalizeComponentIconClassification h data) c = h c).
Proof.
  intros h data.
  refine (fresh_record_is_already_normalized exampleStyles (fun _ => "") codeUnitCompare
            (exampleFrame
               [instanceNode "1:3" (exampleMain "Button" "k1");
                instanceNode "1:5" (exampleMain "Button" "k1");
                instanceNode "1:6" (exampleMain "ic_close" "k2")])
            h data _ _).
  - vm_compute. reflexivity.
  - vm_compute. reflexivity.
Defined.

(** ** Reclassification and aggregation: further properties *)

Lemma filter_filter_same {A : Type} (f : A -> bool) (l : list A) :
  List.filter f (List.filter f l) = List.filter f l.
Proof.
  induction l as [|x l IH]; [reflexivity|]. cbn [List.filter].
  destruct (f x) eqn:E; [|exact IH]. cbn [List.filter]. now rewrite E, IH.
Qed.

Lemma filter_filter_negb {A : Type} (f : A -> bool) (l : list A) :
  List.filter f (List.filter (fun x => negb (f x)) l) = []
  /\ List.filter (fun x => negb (f x)) (List.filter f l) = [].
Proof.
  induction l as [|x l [IH1 IH2]]; [now split|]. cbn [List.filter].
  destruct (f x) eqn:E; cbn [negb List.filter]; rewrite ?E; cbn [negb]; now split.
Qed.

(** X10: the reclassification pass is idempotent: run on its own result,
    it returns the same two arrays and leaves every object as the first
    run left it. *)
Theorem normalize_is_idempotent (h : heap) (data : AnalysisData) :
  let once := normalizeComponentIconClassification h data in
  let twice := normalizeComponentIconClassification (fst once) (snd once) in
  ad_components (snd twice) = ad_components (snd once)
  /\ ad_icons (snd twice) = ad_icons (snd once)
  /\ ad_fonts (snd twice) = ad_fonts data
  /\ ad_colors (snd twice) = ad_colors data
  /\ (forall c, fst twice c = fst once c).
Proof.
  intros once twice.
  destruct (normalize_result h h data (reclassInv_refl h))
    as (I1 & Ec1 & Ei1 & Ef1 & Eco1 & Hin1 & _).
  fold once in I1, Ec1, Ei1, Ef1, Eco1, Hin1.
  destruct (normalize_result h (fst once) (snd once) I1)
    as (_ & Ec2 & Ei2 & Ef2 & Eco2 & Hin2 & Hout2).
  fold twice in Ec2, Ei2, Ef2, Eco2, Hin2, Hout2.
  set (all := (ad_components data ++ ad_icons data)%list) in *.
  destruct (filter_filter_negb (fun c => looksIcon (h c)) all) as [N1 N2].
  split; [|split; [|split; [|split]]].
  - rewrite Ec2, Ec1, Ei1, List.filter_app, filter_filter_same, N2. apply app_nil_r.
  - rewrite Ei2, Ec1, Ei1, List.filter_app, filter_filter_same, N1. reflexivity.
  - congruence.
  - congruence.
  - intros c.
    destruct (in_dec Nat.eq_dec c (ad_components (snd once) ++ ad_icons (snd once)))
      as [Hc|Hc].
    + rewrite (Hin2 c Hc). symmetry. apply Hin1.
      rewrite Ec1, Ei1 in Hc. apply in_app_or in Hc as [Hc|Hc];
        apply List.filter_In in Hc; tauto.
    + exact (Hout2 c Hc).
Qed.

Section KeySets.
Context {K V : Type} `{EqDecision K} (key : V -> K).

Lemma aggregate_keys_In (l : list V) (k : K) :
  In k (JSMap.keys (aggregate key [] l)) <-> In k (map key l).
Proof.
  assert (E : JSMap.get k (aggregate key [] l)
              = List.find (fun x => bool_decide (key x = k)) l)
    by (now rewrite get_aggregate).
  split.
  - intros Hin. destruct (List.find (fun x => bool_decide (key x = k)) l) as [x|] eqn:F.
    + apply List.find_some in F as [Hx Hk]. apply bool_decide_eq_true_1 in Hk.
      rewrite <- Hk. now apply in_map.
    + apply (get_None_keys key) in E. contradiction.
  - intros Hin. apply in_map_iff in Hin as (x & <- & Hx).
    destruct (in_dec (fun a b => decide (a = b)) (key x) (JSMap.keys (aggregate key [] l)))
      as [Hk|Hk]; [exact Hk|].
    apply (get_None_keys key) in Hk. rewrite Hk in E. symmetry in E.
    pose proof (List.find_none _ _ E x Hx) as Hf. cbv beta in Hf.
    now rewrite bool_decide_eq_true_2 in Hf.
Qed.

Lemma aggregate_values_keys (l : list V) :
  map key (JSMap.values (aggregate key [] l)) = JSMap.keys (aggregate key [] l)
  /\ List.NoDup (JSMap.keys (aggregate key [] l)).
Proof.
  destruct (aggregate_wf key [] l) as [Hk Hn]; [intros ? ? [] | constructor |].
  split; [now apply keys_values | exact Hn].
Qed.

Lemma aggregate_order (l l' : list V) :
  (forall x, In x l <-> In x l') ->
  (forall k, In k (map key (JSMap.values (aggregate key [] l)))
             <-> In k (map key (JSMap.values (aggregate key [] l'))))
  /\ length (aggregate key [] l) = length (aggregate key [] l').
Proof.
  intros Hl.
  destruct (aggregate_values_keys l) as [E Hn], (aggregate_values_keys l') as [E' Hn'].
  assert (M : forall k, In k (JSMap.keys (aggregate key [] l))
                        <-> In k (JSMap.keys (aggregate key [] l'))).
  { intros k. rewrite !aggregate_keys_In, !in_map_iff.
    split; intros (x & Hx & Hin); exists x; (split; [exact Hx | now apply Hl]). }
  split.
  - intros k. rewrite E, E'. apply M.
  - transitivity (length (JSMap.keys (aggregate key [] l)));
      [unfold JSMap.keys; now rewrite length_map|].
    transitivity (length (JSMap.keys (aggregate key [] l')));
      [|unfold JSMap.keys; now rewrite length_map].
    apply Permutation_length. apply Permutation.NoDup_Permutation; assumption.
Qed.

End KeySets.

Lemma flat_map_order {A B : Type} (f : A -> list B) (l l' : list A) :
  l ≡ₚ l' -> forall x, In x (flat_map f l) <-> In x (flat_map f l').
Proof.
  intros P x. rewrite !in_flat_map.
  split; intros (e & He & Hx); exists e; (split; [|exact Hx]).
  - now apply (Permutation_in _ P).
  - now apply (Permutation_in _ (Permutation_sym P)).
Qed.

(** X11: which keys the summary holds does not depend on the order of the
    records in the cache: for two orders of the same records, the
    component keys, the icon keys, the font keys and the colour keys of
    the two summaries are the same, and so are the four totals.  (Which
    object stands for a key does depend on the order.) *)
Theorem summary_keys_do_not_depend_on_order (fractionToString : Q -> string)
    (frameCount : nat) (h : heap) (cache cache' : list (string * AnalysisData)) :
  cache ≡ₚ cache' ->
  let s := snd (collectSummaryData fractionToString frameCount h cache) in
  let s' := snd (collectSummaryData fractionToString frameCount h cache') in
  (forall k, In k (map (componentKeyAt h) (sd_components s))
             <-> In k (map (componentKeyAt h) (sd_components s')))
  /\ (forall k, In k (map (componentKeyAt h) (sd_icons s))
                <-> In k (map (componentKeyAt h) (sd_icons s')))
  /\ (forall k, In k (map (fontMapKey fractionToString) (sd_fonts s))
                <-> In k (map (fontMapKey fractionToString) (sd_fonts s')))
  /\ (forall k, In k (map colorMapKey (sd_colors s))
                <-> In k (map colorMapKey (sd_colors s')))
  /\ sd_totalComponents s = sd_totalComponents s'
  /\ sd_totalIcons s = sd_totalIcons s'
  /\ sd_totalFonts s = sd_totalFonts s'
  /\ sd_totalColors s = sd_totalColors s'.
Proof.
  intros P s s'. subst s s'. unfold collectSummaryData. cbv zeta.
  cbn [snd sd_components sd_icons sd_fonts sd_colors sd_totalComponents sd_totalIcons
       sd_totalFonts sd_totalColors].
  set (ag0 := {| ag_heap := h; aggregatedComponents := []; aggregatedIcons := [];
                 aggregatedFonts := []; aggregatedColors := [] |}).
  destruct (aggregateRecords_spec fractionToString h cache ag0 (reclassInv_refl h))
    as (_ & E1 & E2 & E3 & E4).
  destruct (aggregateRecords_spec fractionToString h cache' ag0 (reclassInv_refl h))
    as (_ & E1' & E2' & E3' & E4').
  cbn [aggregatedComponents aggregatedIcons aggregatedFonts aggregatedColors ag0]
    in E1, E2, E3, E4, E1', E2', E3', E4'.
  rewrite E1, E2, E3, E4, E1', E2', E3', E4'.
  destruct (aggregate_order (componentKeyAt h) (normalizedComponents h cache)
              (normalizedComponents h cache') (flat_map_order _ _ _ P)) as [C1 C2].
  destruct (aggregate_order (componentKeyAt h) (normalizedIcons h cache)
              (normalizedIcons h cache') (flat_map_order _ _ _ P)) as [I1 I2].
  destruct (aggregate_order (fontMapKey fractionToString) (cachedFonts cache)
              (cachedFonts cache') (flat_map_order _ _ _ P)) as [F1 F2].
  destruct (aggregate_order colorMapKey (cachedColors cache)
              (cachedColors cache') (flat_map_order _ _ _ P)) as [K1 K2].
  repeat split; try assumption; try apply C1; try apply I1; try apply F1; try apply K1.
Qed.

Lemma summary_keys_do_not_depend_on_order_witness :
  sd_totalColors (snd (collectSummaryData (fun _ => "") 2 exampleHeap exampleCache))
  = sd_totalColors (snd (collectSummaryData (fun _ => "") 2 exampleHeap (rev exampleCache))).
Proof.
  refine (proj2 (proj2 (proj2 (proj2 (proj2 (proj2 (proj2
            (summary_keys_do_not_depend_on_order (fun _ => "") 2 exampleHeap
               exampleCache (rev exampleCache) _)))))))).
  simpl. apply perm_swap.
Defined.

(** ** Exported identifiers *)

Lemma collapseRuns_chars b (l : list ascii) c :
  In c (collapseRuns b l) -> c = "_"%char \/ (In c l /\ isSpaceOrHyphen c = false).
Proof.
  revert b. induction l as [|x l IH]; intros b; [intros []|].
  cbn [collapseRuns]. destruct (isSpaceOrHyphen x) eqn:E.
  - destruct b.
    + intros H. destruct (IH _ H) as [->|[H1 H2]]; [now left | right; split; [now right|exact H2]].
    + intros [<-|H]; [now left|].
      destruct (IH _ H) as [->|[H1 H2]]; [now left | right; split; [now right|exact H2]].
  - intros [<-|H]; [right; split; [now left | exact E]|].
    destruct (IH _ H) as [->|[H1 H2]]; [now left | right; split; [now right|exact H2]].
Qed.

Lemma collapseRuns_fixed b (l : list ascii) :
  forallb (fun c => negb (isSpaceOrHyphen c)) l = true -> collapseRuns b l = l.
Proof.
  revert b. induction l as [|x l IH]; intros b H; [reflexivity|].
  cbn [forallb] in H. apply andb_true_iff in H as [Hx Hl].
  cbn [collapseRuns]. apply negb_true_iff in Hx. rewrite Hx. f_equal. now apply IH.
Qed.

Lemma identChar_of_kept c :
  keptByStrip c = true -> isSpaceOrHyphen c = false -> isIdentChar (JS.lower_char c) = true.
Proof.
  ascii_enum (fun c => implb (keptByStrip c && negb (isSpaceOrHyphen c))
                         (isIdentChar (JS.lower_char c))) c E.
  intros H1 H2. now rewrite H1, H2 in E.
Qed.

Lemma identChar_fixed c :
  isIdentChar c = true ->
  keptByStrip c = true /\ isSpaceOrHyphen c = false /\ JS.lower_char c = c.
Proof.
  ascii_enum (fun c => implb (isIdentChar c)
                         (keptByStrip c && negb (isSpaceOrHyphen c)
                          && Ascii.eqb (JS.lower_char c) c)) c E.
  intros H. rewrite H in E. cbn [implb] in E.
  apply andb_true_iff in E as [E E3]. apply andb_true_iff in E as [E1 E2].
  apply negb_true_iff in E2. apply Ascii.eqb_eq in E3. auto.
Qed.

Lemma sanitizeIdentifier_alphabet s : isIdentifier (sanitizeIdentifier s) = true.
Proof.
  unfold isIdentifier, sanitizeIdentifier, JS.toLowerCase, JS.map_string.
  rewrite !list_ascii_of_string_of_list_ascii.
  apply forallb_forall. intros c Hc. apply in_map_iff in Hc as (x & <- & Hx).
  apply collapseRuns_chars in Hx as [->|[Hx Hs]]; [reflexivity|].
  apply List.filter_In in Hx as [_ Hk]. now apply identChar_of_kept.
Qed.

Lemma sanitizeIdentifier_fixed s : isIdentifier s = true -> sanitizeIdentifier s = s.
Proof.
  unfold isIdentifier. intros H.
  assert (F : forall c, In c (list_ascii_of_string s) ->
                keptByStrip c = true /\ isSpaceOrHyphen c = false /\ JS.lower_char c = c).
  { intros c Hc. apply identChar_fixed. revert c Hc. now apply forallb_forall. }
  unfold sanitizeIdentifier, JS.toLowerCase, JS.map_string.
  rewrite list_ascii_of_string_of_list_ascii.
  assert (E1 : List.filter keptByStrip (list_ascii_of_string s) = list_ascii_of_string s).
  { clear H. induction (list_ascii_of_string s) as [|c l IH]; [reflexivity|].
    cbn [List.filter]. rewrite (proj1 (F c ltac:(now left))). f_equal.
    apply IH. intros; apply F; now right. }
  rewrite E1, collapseRuns_fixed.
  - rewrite <- (string_of_list_ascii_of_string s) at 2. f_equal.
    clear H E1. induction (list_ascii_of_string s) as [|c l IH]; [reflexivity|].
    cbn [map]. rewrite (proj2 (proj2 (F c ltac:(now left)))). f_equal.
    apply IH. intros; apply F; now right.
  - apply forallb_forall. intros c Hc. now rewrite (proj1 (proj2 (F c Hc))).
Qed.

(** X12: [sanitizeIdentifier] returns only lower-case letters, digits and
    underscores, for every input; a string made of such characters is
    returned as it is, so sanitising twice is sanitising once. *)
Theorem sanitizeIdentifier_is_canonical :
  (forall s, isIdentifier (sanitizeIdentifier s) = true)
  /\ (forall s, isIdentifier s = true -> sanitizeIdentifier s = s)
  /\ (forall s, sanitizeIdentifier (sanitizeIdentifier s) = sanitizeIdentifier s).
Proof.
  split; [exact sanitizeIdentifier_alphabet|].
  split; [exact sanitizeIdentifier_fixed|].
  intros s. apply sanitizeIdentifier_fixed, sanitizeIdentifier_alphabet.
Qed.

Lemma firstWith_some {A K : Type} `{EqDecision K} (key : A -> K) (k : K) (l : list A) x :
  firstWith key k l = Some x -> In x l /\ key x = k.
Proof.
  unfold firstWith. intros H. apply List.find_some in H as [H1 H2].
  split; [exact H1 | now apply bool_decide_eq_true_1 in H2].
Qed.

(** X13: every entry of the export is named after its key.  A key of the
    colour or of the typography dictionary consists of lower-case
    letters, digits and underscores, it is the sanitised style key of an
    entry of the cache, and the value under it is the export of that
    entry: the macro of a colour is [#define KEY rgb565] with the key in
    upper case, the font reference and declaration of a typography entry
    carry the key itself.  Conversely every colour and every font of the
    cache has an entry under its sanitised style key, unless that key is
    a name that objects inherit. *)
Theorem export_entries_are_named_after_their_key (fractionToString : Q -> string)
    (cache : list (string * AnalysisData)) :
  let out := generateLVGLJson fractionToString cache in
  (forall k e,
      json_colors out !! k = Some e ->
      isIdentifier k = true
      /\ (exists color, In color (cachedColors cache)
                        /\ k = sanitizeIdentifier (colorStyleKey color)
                        /\ e = snd (colorExportOf color))
      /\ ce_lvgl_macro e = "#define " ++ JS.toUpperCase k ++ " " ++ ce_rgb565 e)
  /\ (forall k e,
         json_typography out !! k = Some e ->
         isIdentifier k = true
         /\ (exists font, In font (cachedFonts cache)
                          /\ k = sanitizeIdentifier (fontStyleKey fractionToString font)
                          /\ e = snd (fontExportOf fractionToString font))
         /\ fe_lvgl_font e = "&" ++ k
         /\ fe_lvgl_declaration e = "LV_FONT_DECLARE(" ++ k ++ ");")
  /\ (forall color,
         In color (cachedColors cache) ->
         inheritedName (sanitizeIdentifier (colorStyleKey color)) = false ->
         exists e, json_colors out !! sanitizeIdentifier (colorStyleKey color) = Some e)
  /\ (forall font,
         In font (cachedFonts cache) ->
         inheritedName (sanitizeIdentifier (fontStyleKey fractionToString font)) = false ->
         exists e,
           json_typography out !! sanitizeIdentifier (fontStyleKey fractionToString font)
           = Some e).
Proof.
  intros out. subst out. unfold generateLVGLJson. rewrite exportRecords_fold.
  cbn [json_colors json_typography].
  assert (Found : forall (A : Type) (key : A -> string) (k : string) (l : list A) (x : A),
             In x l -> key x = k -> firstWith key k l <> None).
  { intros A key k l x Hin Hk E. unfold firstWith in E.
    pose proof (List.find_none _ _ E x Hin) as N. cbv beta in N.
    now rewrite bool_decide_eq_true_2 in N. }
  split; [|split; [|split]].
  - intros k e H. rewrite lookup_writeAll, lookup_empty in H.
    destruct (inheritedName k); [discriminate|].
    destruct (firstWith (fun x => fst (colorExportOf x)) k (cachedColors cache))
      as [c|] eqn:F; [|discriminate].
    cbn in H. injection H as <-.
    apply firstWith_some in F as [Hin Hk]. cbn [colorExportOf fst] in Hk. subst k.
    split; [apply sanitizeIdentifier_alphabet|].
    split; [exists c; auto|]. reflexivity.
  - intros k e H. rewrite lookup_writeAll, lookup_empty in H.
    destruct (inheritedName k); [discriminate|].
    destruct (firstWith (fun x => fst (fontExportOf fractionToString x)) k (cachedFonts cache))
      as [f|] eqn:F; [|discriminate].
    cbn in H. injection H as <-.
    apply firstWith_some in F as [Hin Hk]. cbn [fontExportOf fst] in Hk. subst k.
    split; [apply sanitizeIdentifier_alphabet|].
    split; [exists f; auto|]. split; reflexivity.
  - intros color Hin Hn. rewrite lookup_writeAll, lookup_empty, Hn.
    destruct (firstWith (fun x => fst (colorExportOf x))
                (sanitizeIdentifier (colorStyleKey color)) (cachedColors cache))
      as [c|] eqn:E; [now eexists|].
    exfalso. exact (Found _ _ _ _ color Hin eq_refl E).
  - intros font Hin Hn. rewrite lookup_writeAll, lookup_empty, Hn.
    destruct (firstWith (fun x => fst (fontExportOf fractionToString x))
                (sanitizeIdentifier (fontStyleKey fractionToString font)) (cachedFonts cache))
      as [c|] eqn:E; [now eexists|].
    exfalso. exact (Found _ _ _ _ font Hin eq_refl E).
Qed.

(** ** Properties of the selection check and of the analysis page *)

Lemma filter_length_all {A : Type} (f : A -> bool) (l : list A) :
  (length (List.filter f l) <= length l)%nat
  /\ (length (List.filter f l) = length l -> List.filter f l = l /\ Forall (fun x => f x = true) l).
Proof.
  induction l as [|x l [IH1 IH2]]; [split; [cbn; lia | now split]|].
  cbn [List.filter]. destruct (f x) eqn:E; cbn [length].
  - split; [lia|]. intros H. destruct IH2 as [E1 E2]; [lia|].
    split; [now rewrite E1 | now constructor].
  - split; [lia|]. intros H. lia.
Qed.

Lemma filter_all {A : Type} (f : A -> bool) (l : list A) :
  Forall (fun x => f x = true) l -> List.filter f l = l.
Proof.
  induction 1 as [|x l Hx _ IH]; [reflexivity|]. cbn [List.filter]. now rewrite Hx, IH.
Qed.

(** X14: [validateSelection] accepts a selection exactly when it is not
    empty and consists of frames only, and then hands the whole selection
    on, in order; a selection that mixes frames with other nodes is
    refused with the number of nodes that are not frames. *)
Theorem validateSelection_accepts_frames_only (selection : list SceneNode) :
  (forall frames,
      validateSelection selection = Valid frames
      <-> selection <> [] /\ Forall (fun node => sn_type node = "FRAME") selection
          /\ frames = selection)
  /\ (forall frame other,
         In frame selection -> sn_type frame = "FRAME" ->
         In other selection -> sn_type other <> "FRAME" ->
         validateSelection selection
         = Invalid ("Selection includes "
                    ++ JS.toString10
                         (Z.of_nat (length (List.filter
                                              (fun node => negb (String.eqb (sn_type node) "FRAME"))
                                              selection)))
                    ++ " non-frame element(s). Please select only frames for analysis.")).
Proof.
  set (isFrame := fun node => String.eqb (sn_type node) "FRAME").
  destruct (filter_length_all isFrame selection) as [Hle Hall].
  split.
  - intros frames. unfold validateSelection. fold isFrame.
    destruct selection as [|n sel].
    { cbn [length Nat.eqb]. split; [discriminate | intros [H _]; now destruct H]. }
    change (Nat.eqb (length (n :: sel)) 0) with false. cbv iota.
    set (selection := n :: sel) in *.
    destruct (Nat.eqb (length (List.filter isFrame selection)) 0) eqn:E0.
    { split; [discriminate|]. intros (_ & HF & _).
      rewrite filter_all in E0; [discriminate|].
      eapply Forall_impl; [|exact HF]. intros x Hx. unfold isFrame. cbv beta in Hx.
      rewrite Hx. reflexivity. }
    destruct (length (List.filter isFrame selection) <? length selection)%nat eqn:E1.
    { split; [discriminate|]. intros (_ & HF & _).
      apply Nat.ltb_lt in E1. rewrite filter_all in E1; [lia|].
      eapply Forall_impl; [|exact HF]. intros x Hx. unfold isFrame. cbv beta in Hx.
      rewrite Hx. reflexivity. }
    apply Nat.ltb_ge in E1. destruct Hall as [Ef HF]; [lia|].
    split.
    + intros H. injection H as <-. split; [discriminate|]. split; [|exact Ef].
      eapply Forall_impl; [|exact HF]. intros x Hx. now apply String.eqb_eq.
    + intros (_ & _ & ->). now rewrite Ef.
  - intros frame other Hf Tf Ho To. unfold validateSelection. fold isFrame.
    destruct selection as [|n sel]; [destruct Hf|].
    change (Nat.eqb (length (n :: sel)) 0) with false. cbv iota.
    set (selection := n :: sel) in *.
    assert (Hin : In frame (List.filter isFrame selection)).
    { apply List.filter_In. split; [exact Hf|]. unfold isFrame. now apply String.eqb_eq. }
    destruct (Nat.eqb (length (List.filter isFrame selection)) 0) eqn:E0.
    { apply Nat.eqb_eq in E0. destruct (List.filter isFrame selection); [destruct Hin | discriminate]. }
    assert (Hlt : (length (List.filter isFrame selection) < length selection)%nat).
    { destruct (Nat.eq_dec (length (List.filter isFrame selection)) (length selection)) as [E|E];
        [|lia].
      destruct Hall as [_ HF]; [exact E|].
      rewrite List.Forall_forall in HF. specialize (HF other Ho).
      unfold isFrame in HF. apply String.eqb_eq in HF. contradiction. }
    apply Nat.ltb_lt in Hlt. rewrite Hlt.
    do 4 f_equal.
    pose proof (List.filter_length isFrame selection) as L.
    apply Nat.ltb_lt in Hlt. subst isFrame. cbv beta in L. lia.
Qed.

Lemma prefix_app (p s : string) : String.prefix p (p ++ s) = true.
Proof.
  induction p as [|c p IH]; [now destruct s|].
  change (String c p ++ s) with (String c (p ++ s)). cbn [String.prefix].
  destruct (ascii_dec c c); [exact IH | contradiction].
Qed.

(** X15: the analysis frame of a frame is found again.  A frame named
    by [createAnalysisFrame] for an original frame is recognised by
    [findExistingAnalysisFrame] for that original (so a new analysis
    replaces it), by the layout of the analysis page and by the filter of
    the frame history; and where [findExistingAnalysisFrame] finds
    nothing, no frame of the page starts with the expected name. *)
Theorem analysis_frame_is_found_again (frameName : string)
    (analysisPage : list SceneNode) :
  (forall timestamp node,
      In node analysisPage -> sn_type node = "FRAME" ->
      sn_name node = analysisFrameName frameName timestamp ->
      (exists found,
          findExistingAnalysisFrame frameName analysisPage = Some found
          /\ In found analysisPage /\ sn_type found = "FRAME"
          /\ startsWith (sn_name found) ("Analysis: " ++ frameName) = true)
      /\ isAnalysisFrame node = true
      /\ startsWith (sn_name node) "Analysis:" = true)
  /\ (findExistingAnalysisFrame frameName analysisPage = None ->
      forall node, In node analysisPage -> sn_type node = "FRAME" ->
                   startsWith (sn_name node) ("Analysis: " ++ frameName) = false).
Proof.
  split.
  - intros timestamp node Hin Ht Hn.
    assert (P : startsWith (sn_name node) ("Analysis: " ++ frameName) = true).
    { rewrite Hn. unfold analysisFrameName, startsWith.
      change ("Analysis: " ++ frameName ++ " (" ++ timestamp ++ ")")
        with (("Analysis: " ++ frameName) ++ (" (" ++ timestamp ++ ")")).
      apply (prefix_app ("Analysis: " ++ frameName)). }
    split; [|split].
    + unfold findExistingAnalysisFrame. cbv zeta.
      destruct (List.find _ _) as [found|] eqn:F.
      * apply List.find_some in F as [F1 F2]. apply List.filter_In in F1 as [F1 F3].
        exists found. repeat split; auto. now apply String.eqb_eq.
      * exfalso. pose proof (List.find_none _ _ F node) as N. cbv beta in N.
        rewrite P in N. discriminate N.
        apply List.filter_In. split; [exact Hin | now apply String.eqb_eq].
    + unfold isAnalysisFrame. rewrite Ht, Hn.
      unfold analysisFrameName, startsWith.
      rewrite (prefix_app "Analysis: "). reflexivity.
    + rewrite Hn. unfold analysisFrameName, startsWith.
      change ("Analysis: " ++ frameName ++ " (" ++ timestamp ++ ")")
        with ("Analysis:" ++ (" " ++ frameName ++ " (" ++ timestamp ++ ")")).
      apply prefix_app.
  - intros F node Hin Ht. unfold findExistingAnalysisFrame in F. cbv zeta in F.
    apply (List.find_none _ _ F node).
    apply List.filter_In. split; [exact Hin | now apply String.eqb_eq].
Qed.



(** ** Properties of the font cache *)

Lemma list_ascii_of_string_app (s1 s2 : string) :
  list_ascii_of_string (s1 ++ s2)
  = (list_ascii_of_string s1 ++ list_ascii_of_string s2)%list.
Proof.
  induction s1 as [|c s1 IH]; [reflexivity|].
  change (String c s1 ++ s2) with (String c (s1 ++ s2)). cbn [list_ascii_of_string].
  now rewrite IH.
Qed.

Lemma splitChars_free sep (l : list ascii) :
  forallb (fun c => negb (Ascii.eqb c sep)) l = true -> splitChars sep l = [l].
Proof.
  induction l as [|c l IH]; [reflexivity|]. cbn [forallb splitChars].
  intros H. apply andb_true_iff in H as [Hc Hl]. apply negb_true_iff in Hc.
  now rewrite Hc, (IH Hl).
Qed.

Lemma splitChars_first sep (l1 l2 : list ascii) :
  forallb (fun c => negb (Ascii.eqb c sep)) l1 = true ->
  splitChars sep (l1 ++ sep :: l2) = l1 :: splitChars sep l2.
Proof.
  induction l1 as [|c l1 IH]; cbn [forallb splitChars app].
  - intros _. now rewrite Ascii.eqb_refl.
  - intros H. apply andb_true_iff in H as [Hc Hl]. apply negb_true_iff in Hc.
    now rewrite Hc, (IH Hl).
Qed.

Lemma fontOfKey_fontCacheKey (font : Font) :
  hyphenFree (font_family font) = true -> hyphenFree (font_style font) = true ->
  fontOfKey (fontCacheKey font) = font.
Proof.
  destruct font as [family style]. unfold hyphenFree, fontOfKey, fontCacheKey, split.
  cbn [font_family font_style]. intros Hf Hs.
  rewrite list_ascii_of_string_app.
  change (list_ascii_of_string ("-" ++ style)) with ("-"%char :: list_ascii_of_string style).
  rewrite (splitChars_first _ _ _ Hf), (splitChars_free _ _ Hs).
  cbn [map nth]. now rewrite !string_of_list_ascii_of_string.
Qed.

Lemma setAdd_In s found x : In x (setAdd s found) <-> In x found \/ x = s.
Proof.
  unfold setAdd. destruct (bool_decide (s ∈ found)) eqn:E.
  - apply bool_decide_eq_true_1 in E. apply list_elem_of_In in E.
    split; [auto | intros [H| ->]; assumption].
  - rewrite in_app_iff. cbn. intuition.
Qed.

Lemma scanTextNodes_In limit textNodes found x :
  In x (scanTextNodes limit textNodes found)
  <-> In x found
      \/ exists family style,
           In (FontName family style) (take limit textNodes)
           /\ JS.truthy family = true /\ JS.truthy style = true
           /\ x = family ++ "-" ++ style.
Proof.
  unfold scanTextNodes. revert found.
  induction (take limit textNodes) as [|n l IH]; intros found.
  - cbn. split; [auto | intros [H|(? & ? & [] & _)]; exact H].
  - cbn [fold_left]. rewrite IH. split.
    + intros [H|(family & style & Hin & Ht)].
      * destruct n as [| |family style]; auto.
        destruct (JS.truthy family && JS.truthy style) eqn:E; auto.
        apply setAdd_In in H as [H| ->]; auto.
        apply andb_true_iff in E as [E1 E2].
        right. exists family, style. split; [now left | auto].
      * right. exists family, style. split; [now right | exact Ht].
    + intros [H|(family & style & [->|Hin] & Ht1 & Ht2 & ->)].
      * left. destruct n as [| |family style]; auto.
        destruct (JS.truthy family && JS.truthy style); auto.
        apply setAdd_In. now left.
      * left. rewrite Ht1, Ht2. cbn [andb]. apply setAdd_In. now right.
      * right. exists family, style. auto.
Qed.

Lemma scanSelection_In (selection : list (option (list FontNameField))) found x :
  In x (fold_left
          (fun found selectedNode =>
             match selectedNode with
             | Some textNodes => scanTextNodes 10 textNodes found
             | None => found
             end) selection found)
  <-> In x found
      \/ exists textNodes family style,
           In (Some textNodes) selection
           /\ In (FontName family style) (take 10 textNodes)
           /\ JS.truthy family = true /\ JS.truthy style = true
           /\ x = family ++ "-" ++ style.
Proof.
  revert found. induction selection as [|s selection IH]; intros found.
  - cbn. split; [auto | intros [H|(? & ? & ? & [] & _)]; exact H].
  - cbn [fold_left]. rewrite IH. split.
    + intros [H|(t & family & style & Hin & Ht)].
      * destruct s as [t|]; auto.
        apply scanTextNodes_In in H as [H|(family & style & Hin & Ht)]; auto.
        right. exists t, family, style. split; [now left | auto].
      * right. exists t, family, style. split; [now right | exact Ht].
    + intros [H|(t & family & style & [->|Hin] & Ht)].
      * left. destruct s as [t|]; auto. apply scanTextNodes_In. now left.
      * left. apply scanTextNodes_In. right. exists family, style. exact Ht.
      * right. exists t, family, style. auto.
Qed.

(** X17: the list of document fonts is never empty and is computed once:
    after the first call every later call returns the same list without
    looking at the document again.  A font of a sampled text node of the
    selection whose family and style contain no hyphen is in the list as
    it is. *)
Theorem getAvailableFonts_is_memoised (doc : FontDocument) (cache : list (string * Font)) :
  let st := {| fontCache := cache; availableFonts := None |} in
  let res := getAvailableFonts doc st in
  fst res <> []
  /\ fontCache (snd res) = cache
  /\ (forall doc', getAvailableFonts doc' (snd res) = res)
  /\ (forall textNodes family style,
         In (Some textNodes) (doc_selection doc) ->
         In (FontName family style) (take 10 textNodes) ->
         JS.truthy family = true -> JS.truthy style = true ->
         hyphenFree family = true -> hyphenFree style = true ->
         In (mkFont family style) (fst res)).
Proof.
  cbv zeta. unfold getAvailableFonts. cbn [availableFonts fst snd fontCache].
  split; [|split; [reflexivity|split; [reflexivity|]]].
  - unfold scanFonts. cbv zeta.
    destruct (0 <? length _)%nat eqn:E; [|discriminate].
    apply Nat.ltb_lt in E. intros H. rewrite H in E. cbn in E. lia.
  - intros textNodes family style Hsel Hin Hf Hs Hhf Hhs.
    unfold scanFonts. cbv zeta.
    set (found1 := fold_left _ (doc_selection doc) []).
    assert (H1 : In (family ++ "-" ++ style) found1).
    { apply scanSelection_In. right. exists textNodes, family, style. auto. }
    assert (E0 : Nat.eqb (length found1) 0 = false)
      by (destruct found1; [destruct H1 | reflexivity]).
    rewrite E0.
    assert (H2 : In (mkFont family style) (map fontOfKey found1)).
    { rewrite <- (fontOfKey_fontCacheKey (mkFont family style) Hhf Hhs).
      apply in_map. exact H1. }
    destruct (0 <? length (map fontOfKey found1))%nat eqn:E; [exact H2|].
    apply Nat.ltb_ge in E. destruct (map fontOfKey found1); [destruct H2 | cbn in E; lia].
Qed.

Lemma find_app {A : Type} (f : A -> bool) (l1 l2 : list A) :
  List.find f (l1 ++ l2)
  = match List.find f l1 with Some x => Some x | None => List.find f l2 end.
Proof.
  induction l1 as [|x l1 IH]; [reflexivity|]. cbn [app List.find].
  destruct (f x); [reflexivity | exact IH].
Qed.

(** X18: [loadFontCached] answers from its cache when it can and fills
    the cache when it cannot.  On a miss the answer is the first font that
    loads among the requested font, the fonts of the document and the
    system fallbacks, in this order, or the requested font itself when
    none loads; the answer is stored under the key of the requested font,
    no other key changes, and asking again gives the same answer without
    any further change. *)
Theorem loadFontCached_caches_first_loadable
    (loadFontAsync : Font -> bool) (doc : FontDocument)
    (fontName : Font) (st : FontState) :
  let key := fontCacheKey fontName in
  let res := loadFontCached loadFontAsync doc fontName st in
  JSMap.get key (fontCache (snd res)) = Some (fst res)
  /\ (forall k, k <> key -> JSMap.get k (fontCache (snd res)) = JSMap.get k (fontCache st))
  /\ (forall cached, JSMap.get key (fontCache st) = Some cached -> res = (cached, st))
  /\ (JSMap.get key (fontCache st) = None ->
      let candidates :=
        (fontName :: fst (getAvailableFonts doc st) ++ systemFallbacks)%list in
      fst res = match List.find loadFontAsync candidates with
                | Some font => font
                | None => fontName
                end
      /\ (loadFontAsync (fst res) = true
          \/ forall font, In font candidates -> loadFontAsync font = false))
  /\ loadFontCached loadFontAsync doc fontName (snd res) = res.
Proof.
  cbv zeta. set (key := fontCacheKey fontName).
  assert (G : forall font s,
             JSMap.get key (fontCache (cacheFont key font s)) = Some font
             /\ forall k, k <> key ->
                  JSMap.get k (fontCache (cacheFont key font s)) = JSMap.get k (fontCache s)).
  { intros font s. cbn [cacheFont fontCache]. split.
    - rewrite get_set. now destruct (decide (key = key)).
    - intros k Hk. rewrite get_set. now destruct (decide (k = key)). }
  assert (A : fontCache (snd (getAvailableFonts doc st)) = fontCache st).
  { unfold getAvailableFonts. now destruct (availableFonts st). }
  unfold loadFontCached. fold key.
  destruct (JSMap.get key (fontCache st)) as [cached|] eqn:E.
  { cbn [fst snd]. split; [exact E|]. split; [reflexivity|].
    split; [now intros ? [= ->]|]. split; [discriminate|].
    now rewrite E. }
  destruct (loadFontAsync fontName) eqn:L.
  { cbn [fst snd List.find]. rewrite L.
    destruct (G fontName st) as [G1 G2].
    split; [exact G1|]. split; [exact G2|]. split; [discriminate|].
    split; [intros _; split; [reflexivity | now left]|].
    now rewrite G1. }
  destruct (getAvailableFonts doc st) as [available st1] eqn:Ga. cbn [fst snd] in A.
  cbn [List.find fst]. rewrite L, find_app.
  assert (N : forall (l : list Font), List.find loadFontAsync l = None ->
                forall font, In font l -> loadFontAsync font = false).
  { intros l H font Hin. exact (List.find_none _ _ H font Hin). }
  destruct (List.find loadFontAsync available) as [availableFont|] eqn:F1.
  { cbn [fst snd]. destruct (G availableFont st1) as [G1 G2].
    split; [exact G1|]. split; [intros k Hk; now rewrite G2, A|].
    split; [discriminate|].
    split; [intros _; split; [reflexivity | left; now apply List.find_some in F1]|].
    now rewrite G1. }
  destruct (List.find loadFontAsync systemFallbacks) as [fallback|] eqn:F2.
  { cbn [fst snd]. destruct (G fallback st1) as [G1 G2].
    split; [exact G1|]. split; [intros k Hk; now rewrite G2, A|].
    split; [discriminate|].
    split; [intros _; split; [reflexivity | left; now apply List.find_some in F2]|].
    now rewrite G1. }
  cbn [fst snd]. destruct (G fontName st1) as [G1 G2].
  split; [exact G1|]. split; [intros k Hk; now rewrite G2, A|].
  split; [discriminate|].
  split.
  - intros _. split; [reflexivity|]. right.
    intros font [<-|Hin]; [exact L|].
    apply in_app_or in Hin as [Hin|Hin]; [exact (N _ F1 _ Hin) | exact (N _ F2 _ Hin)].
  - now rewrite G1.
Qed.

(** ** Properties of the frame history *)

Lemma NoDup_app_cons_snoc {A : Type} (l1 : list A) (x : A) (l2 : list A) :
  List.NoDup (l1 ++ x :: l2) -> List.NoDup ((l1 ++ [x]) ++ l2) /\ ~ In x l1.
Proof.
  intros H. split.
  - now rewrite <- app_assoc.
  - apply List.NoDup_remove_2 in H. intros Hin. apply H. apply in_or_app. now left.
Qed.

Lemma NoDup_app_cons_drop {A : Type} (l1 : list A) (x : A) (l2 : list A) :
  List.NoDup (l1 ++ x :: l2) -> List.NoDup (l1 ++ l2).
Proof. apply List.NoDup_remove_1. Qed.

Lemma fold_set_filter {V : Type} (keep : string * V -> bool) (f : V -> V)
    (l acc : list (string * V)) :
  List.NoDup (JSMap.keys acc ++ JSMap.keys l) ->
  fold_left (fun m (e : string * V) => if keep e then JSMap.set (fst e) (f (snd e)) m else m)
    l acc
  = (acc ++ map (fun e => (fst e, f (snd e))) (List.filter keep l))%list.
Proof.
  revert acc. induction l as [|[k v] l IH]; intros acc H.
  - cbn. now rewrite app_nil_r.
  - cbn [fold_left List.filter fst snd]. cbn [JSMap.keys map fst] in H.
    destruct (keep (k, v)).
    + destruct (NoDup_app_cons_snoc _ _ _ H) as [H1 H2].
      rewrite set_fresh by (now apply get_None_keys).
      rewrite IH.
      * cbn [map fst snd]. now rewrite <- app_assoc.
      * unfold JSMap.keys in *. now rewrite List.map_app.
    + apply IH. now apply NoDup_app_cons_drop in H.
Qed.

Lemma withExists_idem frameData : withExists (withExists frameData) = withExists frameData.
Proof. reflexivity. Qed.

Lemma getAnalyzedFramesList_again storage :
  getAnalyzedFramesList (snd (getAnalyzedFramesList storage))
  = getAnalyzedFramesList storage.
Proof.
  unfold getAnalyzedFramesList. destruct (docData storage) as [l|] eqn:E.
  - cbn [snd]. now rewrite E.
  - destruct (0 <? _)%nat eqn:E1; cbn [snd docData]; [reflexivity|].
    now rewrite E, E1.
Qed.

Section HistoryFacts.
Variable getNodeById : string -> option DocNode.

Lemma cleanup_fold (l acc : list (string * FrameData)) (b : bool) :
  List.NoDup (JSMap.keys acc ++ JSMap.keys l) ->
  fold_left (cleanupStep getNodeById) l (acc, b)
  = ((acc ++ map (fun e => (fst e, withExists (snd e)))
               (List.filter (fun e => frameStillExists getNodeById (fst e)) l))%list,
     b || negb (forallb (fun e => frameStillExists getNodeById (fst e)) l)).
Proof.
  revert acc b. induction l as [|[k v] l IH]; intros acc b H.
  - cbn. now rewrite app_nil_r, orb_false_r.
  - cbn [fold_left cleanupStep List.filter forallb fst snd].
    cbn [JSMap.keys map fst] in H.
    destruct (frameStillExists getNodeById k).
    + destruct (NoDup_app_cons_snoc _ _ _ H) as [H1 H2].
      rewrite set_fresh by (now apply get_None_keys).
      rewrite IH.
      * cbn [map fst snd andb]. now rewrite <- app_assoc.
      * unfold JSMap.keys in *. now rewrite List.map_app.
    + rewrite IH by (now apply NoDup_app_cons_drop in H).
      cbn [andb negb]. now rewrite orb_true_r.
Qed.

Lemma keys_kept (keep : string * FrameData -> bool) (f : FrameData -> FrameData)
    (l : list (string * FrameData)) :
  List.NoDup (JSMap.keys l) ->
  List.NoDup (JSMap.keys (map (fun e => (fst e, f (snd e))) (List.filter keep l))).
Proof.
  unfold JSMap.keys. rewrite List.map_map. cbn [fst].
  induction l as [|e l IH]; intros H; [constructor|].
  cbn [map List.filter] in *. apply List.NoDup_cons_iff in H as [H1 H2].
  destruct (keep e); [|now apply IH]. cbn [map]. constructor; [|now apply IH].
  intros Hin. apply H1. apply in_map_iff in Hin as (x & Hx & Hin).
  apply List.filter_In in Hin as [Hin _]. rewrite <- Hx. now apply in_map.
Qed.

Lemma cleanup_result (storage : HistoryStorage) :
  List.NoDup (JSMap.keys (fst (getAnalyzedFramesList storage))) ->
  fst (cleanupAnalyzedFrames getNodeById storage)
  = map (fun e => (fst e, withExists (snd e)))
      (List.filter (fun e => frameStillExists getNodeById (fst e))
         (fst (getAnalyzedFramesList storage))).
Proof.
  intros Hnd. unfold cleanupAnalyzedFrames.
  destruct (getAnalyzedFramesList storage) as [framesList storage1]. cbn [fst] in *.
  rewrite (cleanup_fold framesList [] false) by exact Hnd. cbn [app orb].
  now destruct (negb _).
Qed.

(** X19: [cleanupAnalyzedFrames] returns the entries of the history whose
    frame still exists as a frame or a component, in their order and
    marked as existing, and no other entry.  The two stores are rewritten
    with this list exactly when an entry was dropped, and a second
    cleanup returns the same list and changes nothing. *)
Theorem cleanup_keeps_existing_frames (storage : HistoryStorage) :
  let framesList := fst (getAnalyzedFramesList storage) in
  List.NoDup (JSMap.keys framesList) ->
  let res := cleanupAnalyzedFrames getNodeById storage in
  fst res
  = map (fun e => (fst e, withExists (snd e)))
      (List.filter (fun e => frameStillExists getNodeById (fst e)) framesList)
  /\ (forallb (fun e => frameStillExists getNodeById (fst e)) framesList = true ->
      snd res = snd (getAnalyzedFramesList storage))
  /\ (forallb (fun e => frameStillExists getNodeById (fst e)) framesList = false ->
      snd res = {| docData := Some (fst res); clientData := Some (fst res) |})
  /\ cleanupAnalyzedFrames getNodeById (snd res) = res.
Proof.
  intros framesList Hnd res. subst res framesList.
  unfold cleanupAnalyzedFrames.
  pose proof (getAnalyzedFramesList_again storage) as Again.
  destruct (getAnalyzedFramesList storage) as [framesList storage1] eqn:G.
  cbn [fst snd] in *.
  rewrite (cleanup_fold framesList [] false) by exact Hnd.
  cbn [app orb].
  set (alive := fun e : string * FrameData => frameStillExists getNodeById (fst e)).
  set (updated := map (fun e => (fst e, withExists (snd e))) (List.filter alive framesList)).
  destruct (forallb alive framesList) eqn:F; cbn [negb fst snd].
  - split; [reflexivity|]. split; [reflexivity|]. split; [discriminate|].
    rewrite Again. rewrite (cleanup_fold framesList [] false) by exact Hnd.
    cbn [app orb]. fold alive. rewrite F. reflexivity.
  - split; [reflexivity|]. split; [discriminate|]. split; [reflexivity|].
    unfold getAnalyzedFramesList. cbn [docData].
    assert (Hu : List.NoDup (JSMap.keys updated)) by (now apply keys_kept).
    rewrite (cleanup_fold updated [] false) by exact Hu.
    cbn [app orb]. fold alive.
    assert (A : Forall (fun e => alive e = true) updated).
    { apply List.Forall_forall. intros e He. apply in_map_iff in He as (x & <- & Hx).
      apply List.filter_In in Hx as [_ Hx]. exact Hx. }
    assert (E1 : List.filter alive updated = updated).
    { clear -A. induction A as [|e l He _ IH]; [reflexivity|].
      cbn [List.filter]. now rewrite He, IH. }
    assert (E2 : forallb alive updated = true).
    { apply forallb_forall. now apply List.Forall_forall. }
    rewrite E1, E2. cbn [negb].
    assert (E3 : map (fun e => (fst e, withExists (snd e))) updated = updated).
    { subst updated. rewrite List.map_map. cbn [fst snd]. reflexivity. }
    now rewrite E3.
Qed.

End HistoryFacts.

Lemma cleanup_keeps_existing_frames_witness :
  let entry frameId :=
    (frameId, mkFrameData frameId "Home" "2024-01-01T00:00:00.000Z" 12 "9:9" false) in
  let storage := {| docData := Some [entry "1:2"; entry "1:3"]; clientData := None |} in
  fst (cleanupAnalyzedFrames
         (fun frameId => if String.eqb frameId "1:3" then Some (DocTop "FRAME" "Home") else None)
         storage)
  = [("1:3", mkFrameData "1:3" "Home" "2024-01-01T00:00:00.000Z" 12 "9:9" true)].
Proof.
  intros entry storage.
  refine (proj1 (cleanup_keeps_existing_frames _ storage _)).
  repeat constructor; simpl; intuition discriminate.
Defined.

Lemma get_kept {V : Type} (keep : string -> bool) (f : V -> V) (k : string)
    (l : list (string * V)) :
  JSMap.get k (map (fun e => (fst e, f (snd e))) (List.filter (fun e => keep (fst e)) l))
  = if keep k then option_map f (JSMap.get k l) else None.
Proof.
  induction l as [|[k0 v0] l IH]; [now destruct (keep k)|].
  cbn [List.filter fst JSMap.get].
  destruct (keep k0) eqn:E0; cbn [map JSMap.get fst snd].
  - destruct (bool_decide (k = k0)) eqn:E.
    + apply bool_decide_eq_true_1 in E. subst k0. now rewrite E0.
    + exact IH.
  - destruct (bool_decide (k = k0)) eqn:E; [|exact IH].
    apply bool_decide_eq_true_1 in E. subst k0. rewrite IH, E0. reflexivity.
Qed.

Lemma pageFrom_is_page parent page : pageFrom parent = Some page -> dn_type page = "PAGE".
Proof.
  induction parent as [type name|type name above IH]; cbn [pageFrom dn_type].
  - destruct (negb (String.eqb type "PAGE") && negb (String.eqb type "DOCUMENT"));
      [discriminate|].
    destruct (String.eqb type "PAGE") eqn:E; [|discriminate].
    intros [= <-]. now apply String.eqb_eq in E.
  - destruct (negb (String.eqb type "PAGE") && negb (String.eqb type "DOCUMENT"));
      [exact IH|].
    destruct (String.eqb type "PAGE") eqn:E; [|discriminate].
    intros [= <-]. now apply String.eqb_eq in E.
Qed.

(** X20: a frame saved to the history is kept by the next cleanup as long
    as it exists: after [saveAnalyzedFrame] both stores hold the same
    list, the cleaned list has the frame's entry with the data just saved,
    and the entries of the other frames are those of before. *)
Theorem saved_frame_survives_cleanup (getNodeById : string -> option DocNode)
    (now frameId : string) (frameData : FrameSummary) (storage : HistoryStorage) :
  List.NoDup (JSMap.keys (fst (getAnalyzedFramesList storage))) ->
  frameStillExists getNodeById frameId = true ->
  let storage' := saveAnalyzedFrame now frameId frameData storage in
  docData storage' = clientData storage'
  /\ JSMap.get frameId (fst (cleanupAnalyzedFrames getNodeById storage'))
     = Some {| fh_id := frameId;
               fh_name := fs_name frameData;
               fh_lastAnalyzed := now;
               fh_elementCount := fs_elementCount frameData;
               fh_analysisFrameId := fs_analysisFrameId frameData;
               fh_exists := true |}
  /\ (forall other, other <> frameId ->
        JSMap.get other (fst (getAnalyzedFramesList storage'))
        = JSMap.get other (fst (getAnalyzedFramesList storage))).
Proof.
  intros Hnd Halive storage'. subst storage'. unfold saveAnalyzedFrame.
  destruct (getAnalyzedFramesList storage) as [framesList storage1] eqn:G.
  cbn [fst] in Hnd.
  set (entry := {| fh_id := frameId; fh_name := fs_name frameData; fh_lastAnalyzed := now;
                   fh_elementCount := fs_elementCount frameData;
                   fh_analysisFrameId := fs_analysisFrameId frameData;
                   fh_exists := true |}).
  set (saved := JSMap.set frameId entry framesList).
  split; [reflexivity|]. split.
  - rewrite (cleanup_result getNodeById {| docData := Some saved; clientData := Some saved |})
      by (cbn [getAnalyzedFramesList docData fst]; now apply NoDup_keys_set).
    cbn [getAnalyzedFramesList docData fst].
    rewrite (get_kept (frameStillExists getNodeById) withExists), Halive.
    subst saved. rewrite get_set. now destruct (decide (frameId = frameId)).
  - intros other Hne. cbn [getAnalyzedFramesList docData fst]. subst saved.
    rewrite get_set. now destruct (decide (other = frameId)).
Qed.

Lemma saved_frame_survives_cleanup_witness :
  JSMap.get "1:2"
    (fst (cleanupAnalyzedFrames (fun _ => Some (DocTop "FRAME" "Home"))
            (saveAnalyzedFrame "2024-01-01T00:00:00.000Z" "1:2"
               (mkFrameSummary "Home" 12 "9:9")
               {| docData := None; clientData := None |})))
  = Some (mkFrameData "1:2" "Home" "2024-01-01T00:00:00.000Z" 12 "9:9" true).
Proof.
  refine (proj1 (proj2 (saved_frame_survives_cleanup (fun _ => Some (DocTop "FRAME" "Home"))
                          "2024-01-01T00:00:00.000Z" "1:2" (mkFrameSummary "Home" 12 "9:9")
                          {| docData := None; clientData := None |} _ _))).
  - simpl. constructor.
  - reflexivity.
Defined.

(** X21: the filtered history is the stored history restricted, in its
    order and with unchanged entries, to the frames whose analysis frame
    is alive: a node of type FRAME whose name starts with ["Analysis:"]
    and whose page, the nearest ancestor of type PAGE with no DOCUMENT
    node before it, is named ["Frames Analysed"].  An analysis frame named
    by [createAnalysisFrame] that lies on that page passes. *)
Theorem filtered_history_lists_live_analyses (getNodeById : string -> option DocNode)
    (storage : HistoryStorage) :
  List.NoDup (JSMap.keys (fst (getAnalyzedFramesList storage))) ->
  fst (getFilteredAnalyzedFramesList getNodeById storage)
  = List.filter (fun e => hasLiveAnalysis getNodeById (snd e))
      (fst (getAnalyzedFramesList storage))
  /\ (forall data,
         hasLiveAnalysis getNodeById data = true
         <-> exists analysisNode page,
               fh_analysisFrameId data <> ""
               /\ getNodeById (fh_analysisFrameId data) = Some analysisNode
               /\ dn_type analysisNode = "FRAME"
               /\ startsWith (dn_name analysisNode) "Analysis:" = true
               /\ getNodePage analysisNode = Some page
               /\ dn_type page = "PAGE"
               /\ dn_name page = "Frames Analysed")
  /\ (forall data frameName timestamp above,
         fh_analysisFrameId data <> "" ->
         getNodeById (fh_analysisFrameId data)
         = Some (DocBelow "FRAME" (analysisFrameName frameName timestamp)
                   (DocBelow "PAGE" "Frames Analysed" above)) ->
         hasLiveAnalysis getNodeById data = true).
Proof.
  intros Hnd.
  assert (Live : forall data,
             hasLiveAnalysis getNodeById data = true
             <-> exists analysisNode page,
                   fh_analysisFrameId data <> ""
                   /\ getNodeById (fh_analysisFrameId data) = Some analysisNode
                   /\ dn_type analysisNode = "FRAME"
                   /\ startsWith (dn_name analysisNode) "Analysis:" = true
                   /\ getNodePage analysisNode = Some page
                   /\ dn_type page = "PAGE"
                   /\ dn_name page = "Frames Analysed").
  { intros data. unfold hasLiveAnalysis. split.
    - destruct (JS.truthy (fh_analysisFrameId data)) eqn:T; cbn [negb]; [|discriminate].
      destruct (getNodeById (fh_analysisFrameId data)) as [node|]; [|discriminate].
      destruct (String.eqb (dn_type node) "FRAME") eqn:Et; cbn [negb]; [|discriminate].
      destruct (JS.truthy (dn_name node)); cbn [negb orb]; [|discriminate].
      destruct (startsWith (dn_name node) "Analysis:") eqn:Es; cbn [negb]; [|discriminate].
      destruct (getNodePage node) as [page|] eqn:Ep; [|discriminate].
      intros En. exists node, page.
      split; [intros E0; rewrite E0 in T; discriminate|].
      split; [reflexivity|]. split; [now apply String.eqb_eq|].
      split; [exact Es|]. split; [exact Ep|].
      split; [|now apply String.eqb_eq].
      unfold getNodePage in Ep. destruct (dn_parent node); [|discriminate].
      now apply pageFrom_is_page in Ep.
    - intros (node & page & Hid & Hn & Ht & Hs & Hp & _ & Hname).
      rewrite (truthy_ne _ Hid), Hn, Ht, Hs, Hp, Hname. cbn [negb].
      assert (T : JS.truthy (dn_name node) = true).
      { apply truthy_ne. intros E. rewrite E in Hs. discriminate Hs. }
      rewrite T. reflexivity. }
  split; [|split; [exact Live|]].
  - unfold getFilteredAnalyzedFramesList.
    destruct (getAnalyzedFramesList storage) as [framesList storage1]. cbn [fst] in *.
    rewrite (fold_set_filter (fun e => hasLiveAnalysis getNodeById (snd e)) (fun d => d)
               framesList []) by exact Hnd.
    cbn [app]. rewrite <- (map_id (List.filter _ framesList)) at 2.
    apply map_ext. now intros [k d].
  - intros data frameName timestamp above Hid Hn. apply Live.
    eexists _, _. split; [exact Hid|]. split; [exact Hn|].
    split; [reflexivity|]. split.
    + cbn [dn_name]. unfold analysisFrameName, startsWith.
      change ("Analysis: " ++ frameName ++ " (" ++ timestamp ++ ")")
        with ("Analysis:" ++ (" " ++ frameName ++ " (" ++ timestamp ++ ")")).
      apply prefix_app.
    + split; [reflexivity|]. split; reflexivity.
Qed.

Lemma filtered_history_lists_live_analyses_witness :
  let entry := ("1:2", mkFrameData "1:2" "Home" "2024-01-01T00:00:00.000Z" 12 "9:9" true) in
  fst (getFilteredAnalyzedFramesList
         (fun frameId =>
            if String.eqb frameId "9:9"
            then Some (DocBelow "FRAME" "Analysis: Home (12:30)"
                         (DocBelow "PAGE" "Frames Analysed" (DocTop "DOCUMENT" "Document")))
            else None)
         {| docData := Some [entry]; clientData := None |})
  = [entry].
Proof.
  intros entry.
  refine (proj1 (filtered_history_lists_live_analyses _
                   {| docData := Some [entry]; clientData := None |} _)).
  simpl. repeat constructor. simpl. intuition.
Defined.

(** ** Styles attached to the entries of a pass *)

Lemma In_keys_set {V : Type} (k x : string) (v : V) (m : list (string * V)) :
  In x (JSMap.keys (JSMap.set k v m)) <-> x = k \/ In x (JSMap.keys m).
Proof.
  induction m as [|[k0 v0] m IH]; cbn [JSMap.set JSMap.keys map fst].
  - cbn. intuition.
  - destruct (bool_decide (k = k0)) eqn:E; cbn [map fst In].
    + apply bool_decide_eq_true_1 in E. subst k0. intuition.
    + unfold JSMap.keys in IH. rewrite IH. intuition.
Qed.

Section StyleFacts.
Variable getStyleById : string -> option Style.
Variable fractionToString : Q -> string.

Lemma extractPaint_styled type styleId st p :
  styledColors st -> styledColors (extractPaint getStyleById type styleId st p).
Proof.
  unfold styledColors, extractPaint. intros H.
  destruct (paintCounts p) as [color|]; [|exact H]. cbv zeta.
  set (hex := rgbToHex _ _ _). set (key := colorKeyOf _ _).
  destruct (lookupStyle getStyleById styleId) as [s|]; cbn [option_map colors colorStyles
    with_colors with_colorStyles].
  - assert (H' : Forall (fun e => forall name,
                           ci_styleName (snd e) = Some name ->
                           name ∈ colorStyles st ∪ {[ style_name s ]}) (colors st)).
    { eapply Forall_impl; [|exact H]. intros e He name Hn. apply elem_of_union_l. now apply He. }
    unfold upsertColor. destruct (JSMap.get key (colors st)) as [e|].
    + destruct (_ && _); [|exact H'].
      apply Forall_alter; [exact H'|]. intros k' v _ name Hn. cbn in Hn.
      injection Hn as <-. apply elem_of_union_r. now apply elem_of_singleton.
    + apply Forall_set; [exact H'|]. intros name Hn. cbn in Hn.
      injection Hn as <-. apply elem_of_union_r. now apply elem_of_singleton.
  - unfold upsertColor. destruct (JSMap.get key (colors st)) as [e|].
    + cbn [truthy_opt andb]. exact H.
    + apply Forall_set; [exact H|]. intros name Hn. discriminate Hn.
Qed.

Lemma extractPaints_styled type styleId l st :
  styledColors st -> styledColors (fold_left (extractPaint getStyleById type styleId) l st).
Proof.
  revert st. induction l as [|p l IH]; intros st H; [exact H|].
  cbn [fold_left]. apply IH, extractPaint_styled, H.
Qed.

Lemma extractPaint_text type styleId st p :
  fonts (extractPaint getStyleById type styleId st p) = fonts st
  /\ textStyles (extractPaint getStyleById type styleId st p) = textStyles st.
Proof.
  unfold extractPaint. destruct (paintCounts p); [|now split].
  destruct (lookupStyle getStyleById styleId); now split.
Qed.

Lemma extractPaints_text type styleId l st :
  fonts (fold_left (extractPaint getStyleById type styleId) l st) = fonts st
  /\ textStyles (fold_left (extractPaint getStyleById type styleId) l st) = textStyles st.
Proof.
  revert st. induction l as [|p l IH]; intros st; [now split|].
  cbn [fold_left]. destruct (IH (extractPaint getStyleById type styleId st p)) as [-> ->].
  apply extractPaint_text.
Qed.

Lemma extractFont_styled node st :
  styledFonts st -> styledFonts (extractFont getStyleById fractionToString node st).
Proof.
  unfold styledFonts, extractFont. intros H.
  destruct (n_fontName node) as [| |family style]; [exact H | exact H |].
  set (size := resolveFontSize getStyleById node).
  set (key := fontKeyOf fractionToString family style size).
  destruct (lookupStyle getStyleById (n_textStyleId node)) as [s|];
    cbn [fonts textStyles with_fonts with_textStyles].
  - set (ts := JSMap.set (style_name s) _ (textStyles st)).
    assert (H' : Forall (fun e => forall name,
                           fi_styleName (snd e) = Some name -> In name (JSMap.keys ts))
                   (fonts st)).
    { eapply Forall_impl; [|exact H]. intros e He name Hn.
      apply In_keys_set. right. now apply He. }
    assert (Hs : In (style_name s) (JSMap.keys ts)) by (apply In_keys_set; now left).
    unfold upsertFont. destruct (JSMap.get key (fonts st)) as [e|].
    + destruct (_ && _); [|exact H'].
      apply Forall_alter; [exact H'|]. intros k' v _ name Hn. cbn in Hn.
      now injection Hn as <-.
    + apply Forall_set; [exact H'|]. intros name Hn. cbn in Hn. now injection Hn as <-.
  - unfold upsertFont. destruct (JSMap.get key (fonts st)) as [e|].
    + cbn [truthy_opt andb]. exact H.
    + apply Forall_set; [exact H|]. intros name Hn. discriminate Hn.
Qed.

Lemma extractFont_colorStyles node st :
  colors (extractFont getStyleById fractionToString node st) = colors st
  /\ colorStyles (extractFont getStyleById fractionToString node st) = colorStyles st.
Proof.
  unfold extractFont. destruct (n_fontName node); [now split | now split |].
  destruct (lookupStyle getStyleById (n_textStyleId node)); now split.
Qed.

Lemma tail_styled node st :
  styledColors st -> styledFonts st ->
  let st' :=
    extractEffect getStyleById node
      (extractStrokes getStyleById node
         (extractFills getStyleById node
            (extractFont getStyleById fractionToString node st))) in
  styledColors st' /\ styledFonts st'
  /\ textStyles st' = textStyles (extractFont getStyleById fractionToString node st).
Proof.
  intros Hc Hf. cbv zeta.
  set (s1 := extractFont getStyleById fractionToString node st).
  assert (C1 : styledColors s1).
  { unfold styledColors. subst s1.
    destruct (extractFont_colorStyles node st) as [-> ->]. exact Hc. }
  assert (F1 : styledFonts s1) by (now apply extractFont_styled).
  set (s2 := extractFills getStyleById node s1).
  assert (C2 : styledColors s2).
  { subst s2. unfold extractFills. destruct (n_fills node); [|exact C1].
    now apply extractPaints_styled. }
  assert (T2 : fonts s2 = fonts s1 /\ textStyles s2 = textStyles s1).
  { subst s2. unfold extractFills. destruct (n_fills node); [|now split].
    apply extractPaints_text. }
  set (s3 := extractStrokes getStyleById node s2).
  assert (C3 : styledColors s3).
  { subst s3. unfold extractStrokes. destruct (n_strokes node); [|exact C2].
    now apply extractPaints_styled. }
  assert (T3 : fonts s3 = fonts s2 /\ textStyles s3 = textStyles s2).
  { subst s3. unfold extractStrokes. destruct (n_strokes node); [|now split].
    apply extractPaints_text. }
  assert (E : colors (extractEffect getStyleById node s3) = colors s3
              /\ colorStyles (extractEffect getStyleById node s3) = colorStyles s3
              /\ fonts (extractEffect getStyleById node s3) = fonts s3
              /\ textStyles (extractEffect getStyleById node s3) = textStyles s3).
  { unfold extractEffect. destruct (lookupStyle getStyleById (n_effectStyleId node));
      repeat split. }
  destruct E as (E1 & E2 & E3 & E4), T2 as [T2f T2t], T3 as [T3f T3t].
  split; [|split].
  - unfold styledColors. rewrite E1, E2. exact C3.
  - unfold styledFonts. rewrite E3, E4, T3f, T3t, T2f, T2t. exact F1.
  - now rewrite E4, T3t, T2t.
Qed.

Lemma analyzeNode_styled node st :
  styledColors st -> styledFonts st ->
  styledColors (analyzeNode getStyleById fractionToString node st)
  /\ styledFonts (analyzeNode getStyleById fractionToString node st).
Proof.
  intros Hc Hf. unfold analyzeNode.
  destruct (negb (nodeIsValid node)); [now split|].
  destruct (bool_decide _); [now split|].
  destruct (skippedByGate node); [now split|].
  set (st1 := with_processed _ st).
  pose proof (extractComponent_others node st1) as H. cbv zeta in H.
  assert (Hs : forall s,
             fonts s = fonts st1 -> colors s = colors st1 ->
             colorStyles s = colorStyles st1 -> textStyles s = textStyles st1 ->
             styledColors s /\ styledFonts s).
  { intros s E1 E2 E3 E4. unfold styledColors, styledFonts.
    rewrite E1, E2, E3, E4. now split. }
  destruct (extractComponent node st1) as [s|s];
    destruct H as (_ & E1 & E2 & E3 & E4 & _);
    destruct (Hs s E1 E2 E3 E4) as [Sc Sf]; [now split|].
  destruct (tail_styled node s Sc Sf) as (T1 & T2 & _). now split.
Qed.

Lemma analyzeBatch_styled nodes st :
  styledColors st -> styledFonts st ->
  styledColors (analyzeBatch getStyleById fractionToString st nodes)
  /\ styledFonts (analyzeBatch getStyleById fractionToString st nodes).
Proof.
  revert st. induction nodes as [|n nodes IH]; intros st Hc Hf; [now split|].
  destruct (analyzeNode_styled n st Hc Hf) as [Hc' Hf']. now apply IH.
Qed.

End StyleFacts.

(** X23: the styles attached to the entries of a record are listed in
    the record: the style name of a colour is among the record's colour
    styles, and the style name of a font is the name of one of the
    record's text styles. *)
Theorem attached_styles_are_listed
    (getStyleById : string -> option Style) (fractionToString : Q -> string)
    (localeCompare : string -> string -> Z) (frame : Frame) :
  let r := analyzeFrame getStyleById fractionToString localeCompare frame in
  (forall color name,
      In color (ar_colors r) -> cu_styleName color = Some name ->
      In name (ar_colorStyles r))
  /\ (forall font name,
         In font (ar_fonts r) -> fu_styleName font = Some name ->
         In name (map tu_styleName (ar_textStyles r))).
Proof.
  intros r. subst r. unfold analyzeFrame.
  cbn [ar_colors ar_colorStyles ar_fonts ar_textStyles].
  set (st := analyzeFrameState getStyleById fractionToString frame).
  assert (S : styledColors st /\ styledFonts st).
  { subst st. unfold analyzeFrameState. rewrite analyzeAll_batches by lia.
    apply analyzeBatch_styled.
    - unfold analyzeRoot. destruct (negb _); [constructor|].
      destruct (bool_decide _); constructor.
    - unfold analyzeRoot. destruct (negb _); [constructor|].
      destruct (bool_decide _); constructor. }
  destruct S as [Sc Sf]. unfold styledColors, styledFonts in Sc, Sf.
  rewrite List.Forall_forall in Sc, Sf. split.
  - intros color name Hin Hn. unfold colorArrayOf in Hin.
    apply sortBy_In in Hin. apply in_map_iff in Hin as ([k e] & <- & Hin).
    apply sortBy_In. apply list_elem_of_In. apply elem_of_elements.
    exact (Sc _ Hin name Hn).
  - intros font name Hin Hn. unfold fontArrayOf in Hin.
    apply sortBy_In in Hin. apply in_map_iff in Hin as ([k e] & <- & Hin).
    unfold textStyleArrayOf.
    pose proof (Sf _ Hin name Hn) as Hk.
    unfold JSMap.keys in Hk. apply in_map_iff in Hk as ([k' t] & Hk & Ht). cbn in Hk. subst k'.
    apply in_map_iff. eexists. split; [|apply sortBy_In, in_map_iff; eexists; split;
                                         [reflexivity | exact Ht]].
    reflexivity.
Qed.

Lemma tail_textStyles (getStyleById : string -> option Style)
    (fractionToString : Q -> string) node s :
  textStyles
    (extractEffect getStyleById node
       (extractStrokes getStyleById node
          (extractFills getStyleById node
             (extractFont getStyleById fractionToString node s))))
  = textStyles (extractFont getStyleById fractionToString node s).
Proof.
  set (s1 := extractFont getStyleById fractionToString node s).
  transitivity (textStyles (extractStrokes getStyleById node
                              (extractFills getStyleById node s1))).
  { unfold extractEffect.
    destruct (lookupStyle getStyleById (n_effectStyleId node)); reflexivity. }
  transitivity (textStyles (extractFills getStyleById node s1)).
  { unfold extractStrokes. destruct (n_strokes node); [|reflexivity].
    apply extractPaints_text. }
  unfold extractFills. destruct (n_fills node); [|reflexivity].
  apply extractPaints_text.
Qed.

(** X24: for a text style the last write wins.  A text node that is
    extracted and whose text style resolves replaces the entry of that
    style in the [textStyles] map by its own family, style and size,
    whatever the entry was, and leaves the other entries alone; a node
    without such a style leaves the map as it is.  (An entry of the
    [fonts] map, in contrast, keeps the fields of its first detection.) *)
Theorem text_style_holds_the_last_font
    (getStyleById : string -> option Style) (fractionToString : Q -> string)
    (node : Node) (st : PassState) :
  nodeIsValid node = true -> n_id node ∉ processedNodes st ->
  skippedByGate node = false -> n_type node <> "INSTANCE" ->
  let st' := analyzeNode getStyleById fractionToString node st in
  textStyles st'
  = match textStyleOf getStyleById node with
    | Some (name, info) => JSMap.set name info (textStyles st)
    | None => textStyles st
    end
  /\ (forall name info,
         textStyleOf getStyleById node = Some (name, info) ->
         JSMap.get name (textStyles st') = Some info
         /\ forall other, other <> name ->
                          JSMap.get other (textStyles st') = JSMap.get other (textStyles st)).
Proof.
  intros Hv Hnew Hgate Htype st'.
  assert (E : textStyles st'
              = match textStyleOf getStyleById node with
                | Some (name, info) => JSMap.set name info (textStyles st)
                | None => textStyles st
                end).
  { subst st'. unfold analyzeNode. rewrite Hv, Hgate. cbn [negb].
    rewrite bool_decide_eq_false_2 by exact Hnew.
    unfold extractComponent.
    destruct (String.eqb (n_type node) "INSTANCE") eqn:Ei;
      [apply String.eqb_eq in Ei; contradiction|].
    rewrite tail_textStyles. unfold extractFont, textStyleOf.
    destruct (n_fontName node); try reflexivity.
    destruct (lookupStyle getStyleById (n_textStyleId node)); reflexivity. }
  split; [exact E|].
  intros name info Ht. rewrite E, Ht. split.
  - rewrite get_set. now destruct (decide (name = name)).
  - intros other Hne. rewrite get_set. now destruct (decide (other = name)).
Qed.

Lemma text_style_holds_the_last_font_witness :
  let first := textNode "1:7" "Inter" "Regular" 14 "S:1" in
  let second := textNode "1:8" "Roboto" "Bold" 20 "S:1" in
  JSMap.get "Brand/Red"
    (textStyles (analyzeNode exampleStyles (fun _ => "") second
                   (analyzeNode exampleStyles (fun _ => "") first emptyPass)))
  = Some {| ts_fontFamily := "Roboto"; ts_fontStyle := "Bold"; ts_fontSize := SizeNumber 20 |}.
Proof.
  intros first second.
  refine (proj1 (proj2 (text_style_holds_the_last_font exampleStyles (fun _ => "") second
                          (analyzeNode exampleStyles (fun _ => "") first emptyPass)
                          _ _ _ _) "Brand/Red" _ _)).
  - reflexivity.
  - vm_compute. set_solver.
  - reflexivity.
  - discriminate.
  - reflexivity.
Defined.

(** ** The cache of records *)

(** X25: the cache holds one record per frame name.  Storing a record
    under a name gives that record on lookup and leaves the records of
    the other names alone; names stay distinct; a name that was already
    stored keeps its place in the order of iteration (the order in which
    the summary and the export resolve duplicates) and the number of
    records does not grow, so that a second frame with the same name
    replaces the first. *)
Theorem cache_keeps_one_record_per_frame_name {A : Type}
    (frameName : string) (analysisData : A) (globalAnalysisData : list (string * A)) :
  let cache := storeAnalysisData frameName analysisData globalAnalysisData in
  JSMap.get frameName cache = Some analysisData
  /\ (forall other, other <> frameName ->
                    JSMap.get other cache = JSMap.get other globalAnalysisData)
  /\ (List.NoDup (JSMap.keys globalAnalysisData) -> List.NoDup (JSMap.keys cache))
  /\ (JSMap.get frameName globalAnalysisData <> None ->
      JSMap.keys cache = JSMap.keys globalAnalysisData)
  /\ (JSMap.get frameName globalAnalysisData = None ->
      cache = (globalAnalysisData ++ [(frameName, analysisData)])%list).
Proof.
  cbv zeta. unfold storeAnalysisData. split; [|split; [|split; [|split]]].
  - rewrite get_set. now destruct (decide (frameName = frameName)).
  - intros other Hne. rewrite get_set. now destruct (decide (other = frameName)).
  - apply NoDup_keys_set.
  - apply set_present_keys.
  - apply set_fresh.
Qed.

(** ** Colours of a record *)

Lemma hexToRgb565_bytes (R G B : Z) :
  isByte R -> isByte G -> isByte B ->
  hexToRgb565 (hexOfBytes R G B) = "0x" ++ hex4 (rgb565Of R G B)
  /\ hexToRgb (hexOfBytes R G B)
     = {| rgb_r := inject_Z R / 255; rgb_g := inject_Z G / 255; rgb_b := inject_Z B / 255 |}
  /\ hasShapeHashRRGGBB (hexOfBytes R G B) = true.
Proof.
  unfold isByte. intros HR HG HB.
  pose proof (hex_triple_digits R G B ltac:(lia) ltac:(lia) ltac:(lia)) as D.
  destruct (hexToRgb565_digits _ _ _ _ _ _ (hexOfBytes R G B) D (or_intror eq_refl)) as [E _].
  pose proof (hexToRgb_digits _ _ _ _ _ _ (hexOfBytes R G B) D (or_intror eq_refl)) as E'.
  rewrite !byteOf_hex2 in E, E' by lia.
  split; [exact E|]. split; [exact E'|]. apply hex_shape; lia.
Qed.

Lemma paintCounts_color p color : paintCounts p = Some color -> paint_color p = Some color.
Proof.
  unfold paintCounts. destruct (String.eqb (paint_type p) "SOLID"); [|discriminate].
  destruct (paint_color p) as [c|]; [|discriminate].
  destruct (paint_visible p); [|discriminate].
  destruct (paint_opacity p) as [o|]; [destruct (JS.eqb o 0)|]; congruence.
Qed.

Section ColourFacts.
Variable getStyleById : string -> option Style.
Variable fractionToString : Q -> string.

Lemma paintColors_bytes type styleId colors p :
  paintChannelsInRange p -> Forall hexFromBytes colors ->
  Forall hexFromBytes (paintColors getStyleById type styleId colors p).
Proof.
  intros Hp Hc. unfold paintColors.
  destruct (paintCounts p) as [color|] eqn:E; [|exact Hc].
  apply paintCounts_color in E. destruct (Hp color E) as (Hr & Hg & Hb).
  unfold upsertColor. destruct (JSMap.get _ colors).
  - destruct (_ && _); [|exact Hc].
    apply Forall_alter; [exact Hc | intros k' v Hv; exact Hv].
  - apply Forall_set; [exact Hc|].
    exists (JS.Math_round (JS.mul (rgb_r color) 255)),
           (JS.Math_round (JS.mul (rgb_g color) 255)),
           (JS.Math_round (JS.mul (rgb_b color) 255)).
    split; [now apply round_scaled_range|]. split; [now apply round_scaled_range|].
    split; [now apply round_scaled_range|]. cbn [snd ci_hex].
    now apply rgbToHex_bytes.
Qed.

Lemma paintsColors_bytes type styleId l colors :
  Forall paintChannelsInRange l -> Forall hexFromBytes colors ->
  Forall hexFromBytes (fold_left (paintColors getStyleById type styleId) l colors).
Proof.
  intros Hl. revert colors. induction Hl as [|p l Hp Hl IH]; intros colors Hc; simpl.
  - exact Hc.
  - apply IH. now apply paintColors_bytes.
Qed.

Lemma analyzeNode_bytes node st :
  nodeChannelsInRange node -> Forall hexFromBytes (colors st) ->
  Forall hexFromBytes (colors (analyzeNode getStyleById fractionToString node st)).
Proof.
  intros [Hf Hs] Hc.
  destruct (analyzeNode_colors getStyleById fractionToString node st) as [-> | ->];
    [exact Hc|].
  unfold nodeColors. apply paintsColors_bytes; [exact Hs|].
  apply paintsColors_bytes; [exact Hf | exact Hc].
Qed.

Lemma analyzeBatch_bytes nodes st :
  Forall nodeChannelsInRange nodes -> Forall hexFromBytes (colors st) ->
  Forall hexFromBytes (colors (analyzeBatch getStyleById fractionToString st nodes)).
Proof.
  intros Hn. revert st. induction Hn as [|node nodes H Hn IH]; intros st Hc.
  - exact Hc.
  - unfold analyzeBatch. cbn [fold_left]. apply IH. now apply analyzeNode_bytes.
Qed.

End ColourFacts.

(** X26: the colours of a record are well formed.  When the colours of
    the paints have their channels in [0, 1], every colour of the record
    returned by [analyzeFrame] has a hex string [#RRGGBB] of three bytes,
    its [rgb565] field is the packed value of these bytes (never the
    fail-safe value of a malformed string), and decoding its hex string
    gives the three bytes over 255. *)
Theorem record_colors_are_well_formed
    (getStyleById : string -> option Style) (fractionToString : Q -> string)
    (localeCompare : string -> string -> Z) (frame : Frame) :
  Forall nodeChannelsInRange (f_descendants frame) ->
  Forall (fun c =>
            exists R G B,
              (0 <= R <= 255 /\ 0 <= G <= 255 /\ 0 <= B <= 255)
              /\ cu_hex c = "#" ++ hex2 R ++ hex2 G ++ hex2 B
              /\ hasShapeHashRRGGBB (cu_hex c) = true
              /\ cu_rgb565 c = "0x" ++ hex4 (rgb565Of R G B)
              /\ hexToRgb (cu_hex c)
                 = {| rgb_r := inject_Z R / 255; rgb_g := inject_Z G / 255;
                      rgb_b := inject_Z B / 255 |})
    (ar_colors (analyzeFrame getStyleById fractionToString localeCompare frame)).
Proof.
  intros Hd. unfold analyzeFrame. cbn [ar_colors]. unfold colorArrayOf.
  apply sortBy_Forall.
  assert (H : Forall hexFromBytes
                (colors (analyzeFrameState getStyleById fractionToString frame))).
  { unfold analyzeFrameState. rewrite analyzeAll_batches by lia.
    apply analyzeBatch_bytes.
    - apply List.Forall_forall. intros n Hn. rewrite List.Forall_forall in Hd. apply Hd.
      apply list_elem_of_In in Hn. apply list_elem_of_filter in Hn as [_ Hn].
      now apply list_elem_of_In.
    - rewrite analyzeRoot_colors. constructor. }
  apply List.Forall_forall. intros c Hc. apply in_map_iff in Hc as ([k e] & <- & Hin).
  rewrite List.Forall_forall in H. destruct (H _ Hin) as (R & G & B & HR & HG & HB & E).
  cbn [snd] in *. destruct (hexToRgb565_bytes R G B HR HG HB) as (E1 & E2 & E3).
  exists R, G, B. unfold colorUsageOf. cbn [cu_hex cu_rgb565]. rewrite E.
  split; [unfold isByte in *; auto|]. split; [reflexivity|]. auto.
Qed.

Lemma record_colors_are_well_formed_witness :
  Forall (fun c => hasShapeHashRRGGBB (cu_hex c) = true)
    (ar_colors
       (analyzeFrame exampleStyles (fun _ => "") codeUnitCompare
          (exampleFrame
             [rectangle "1:2" 100 50 [solid red (Some (1 # 2)); solid red None] "" []]))).
Proof.
  eapply Forall_impl;
    [|refine (record_colors_are_well_formed exampleStyles (fun _ => "") codeUnitCompare
                (exampleFrame
                   [rectangle "1:2" 100 50 [solid red (Some (1 # 2)); solid red None] "" []])
                _)].
  - intros c (R & G & B & _ & _ & H & _). exact H.
  - constructor; [|constructor]. split; [|constructor].
    constructor; [|constructor; [|constructor]];
      intros color [= <-]; repeat split; vm_compute; discriminate.
Defined.

(** ** Export keys of colours without a style *)

Lemma word_is_kept c :
  JS.is_word c = true -> keptByStrip c = true /\ isSpaceOrHyphen c = false.
Proof.
  ascii_enum (fun c => implb (JS.is_word c) (keptByStrip c && negb (isSpaceOrHyphen c))) c E.
  intros H. rewrite H in E. cbn [implb] in E.
  apply andb_true_iff in E as [E1 E2]. apply negb_true_iff in E2. auto.
Qed.

Lemma sanitizeIdentifier_word s :
  forallb JS.is_word (list_ascii_of_string s) = true ->
  sanitizeIdentifier s = JS.toLowerCase s.
Proof.
  intros H. unfold sanitizeIdentifier, JS.toLowerCase at 2, JS.map_string.
  assert (F : forall c, In c (list_ascii_of_string s) ->
                keptByStrip c = true /\ isSpaceOrHyphen c = false).
  { intros c Hc. apply word_is_kept. revert c Hc. now apply forallb_forall. }
  assert (E1 : List.filter keptByStrip (list_ascii_of_string s) = list_ascii_of_string s).
  { clear H. induction (list_ascii_of_string s) as [|c l IH]; [reflexivity|].
    cbn [List.filter]. rewrite (proj1 (F c ltac:(now left))). f_equal.
    apply IH. intros; apply F; now right. }
  rewrite E1, collapseRuns_fixed.
  - unfold JS.toLowerCase, JS.map_string. now rewrite list_ascii_of_string_of_list_ascii.
  - apply forallb_forall. intros c Hc. now rewrite (proj2 (F c Hc)).
Qed.

Lemma upper_lower_hex (l : list ascii) :
  forallb isUpperHexDigit l = true ->
  map JS.upper_char (map JS.lower_char l) = l
  /\ forallb JS.is_word l = true.
Proof.
  induction l as [|c l IH]; [now split|]. cbn [forallb map].
  intros H. apply andb_true_iff in H as [Hc Hl]. destruct (IH Hl) as [E1 E2].
  ascii_enum (fun c => implb (isUpperHexDigit c)
                         (Ascii.eqb (JS.upper_char (JS.lower_char c)) c && JS.is_word c)) c E.
  rewrite Hc in E. cbn [implb] in E. apply andb_true_iff in E as [Ea Eb].
  apply Ascii.eqb_eq in Ea. now rewrite Ea, E1, Eb, E2.
Qed.

(** X27: the export key of a colour without style name is [color_]
    followed by the six digits of its hex string in lower case.  Two such
    colours therefore share one entry of the export exactly when they
    have the same hex string: entries of a record that differ by their
    opacity only collapse into the first of them. *)
Theorem unnamed_colors_are_keyed_by_hex (c1 c2 : ColorUsage) :
  truthy_opt (cu_styleName c1) = false -> hasShapeHashRRGGBB (cu_hex c1) = true ->
  truthy_opt (cu_styleName c2) = false -> hasShapeHashRRGGBB (cu_hex c2) = true ->
  (exists digits,
      cu_hex c1 = "#" ++ digits
      /\ fst (colorExportOf c1) = "color_" ++ JS.toLowerCase digits
      /\ isIdentifier (fst (colorExportOf c1)) = true
      /\ inheritedName (fst (colorExportOf c1)) = false)
  /\ (fst (colorExportOf c1) = fst (colorExportOf c2) <-> cu_hex c1 = cu_hex c2).
Proof.
  assert (K : forall c,
             truthy_opt (cu_styleName c) = false -> hasShapeHashRRGGBB (cu_hex c) = true ->
             exists digits,
               cu_hex c = "#" ++ digits
               /\ forallb isUpperHexDigit (list_ascii_of_string digits) = true
               /\ fst (colorExportOf c) = "color_" ++ JS.toLowerCase digits).
  { intros c Hs Hh. unfold hasShapeHashRRGGBB in Hh.
    destruct (cu_hex c) as [|h digits] eqn:E; [discriminate|].
    cbn [list_ascii_of_string] in Hh.
    apply andb_true_iff in Hh as [Hh Hd]. apply andb_true_iff in Hh as [Hh _].
    apply Ascii.eqb_eq in Hh. subst h.
    exists digits. split; [reflexivity|]. split; [exact Hd|].
    cbn [colorExportOf fst]. unfold colorStyleKey.
    rewrite (truthyOrNull_none _ Hs), E.
    rewrite or_else_truthy by discriminate. rewrite replace_first_hash.
    rewrite sanitizeIdentifier_word.
    - unfold JS.toLowerCase. now rewrite map_string_app.
    - rewrite list_ascii_of_string_app, forallb_app.
      now rewrite (proj2 (upper_lower_hex _ Hd)). }
  intros S1 H1 S2 H2.
  destruct (K c1 S1 H1) as (d1 & E1 & D1 & K1), (K c2 S2 H2) as (d2 & E2 & D2 & K2).
  split.
  - exists d1. split; [exact E1|]. split; [exact K1|].
    split; [apply sanitizeIdentifier_alphabet|].
    rewrite K1. reflexivity.
  - rewrite K1, K2, E1, E2. split.
    + intros H. f_equal.
      assert (L : JS.toLowerCase d1 = JS.toLowerCase d2).
      { change ("color_" ++ JS.toLowerCase d1) with
          (String "c" (String "o" (String "l" (String "o" (String "r" (String "_"
             (JS.toLowerCase d1))))))) in H.
        change ("color_" ++ JS.toLowerCase d2) with
          (String "c" (String "o" (String "l" (String "o" (String "r" (String "_"
             (JS.toLowerCase d2))))))) in H.
        now injection H. }
      apply (f_equal list_ascii_of_string) in L.
      unfold JS.toLowerCase, JS.map_string in L.
      rewrite !list_ascii_of_string_of_list_ascii in L.
      apply (f_equal (map JS.upper_char)) in L.
      rewrite (proj1 (upper_lower_hex _ D1)), (proj1 (upper_lower_hex _ D2)) in L.
      rewrite <- (string_of_list_ascii_of_string d1), <- (string_of_list_ascii_of_string d2).
      now rewrite L.
    + intros H. change ("#" ++ d1) with (String "#" d1) in H.
      change ("#" ++ d2) with (String "#" d2) in H. injection H as ->. reflexivity.
Qed.

Lemma unnamed_colors_are_keyed_by_hex_witness :
  fst (colorExportOf (exampleRed 1)) = fst (colorExportOf (exampleRed (1 # 2))).
Proof.
  refine (proj2 (proj2 (unnamed_colors_are_keyed_by_hex (exampleRed 1) (exampleRed (1 # 2))
                          _ _ _ _)) _); reflexivity.
Defined.

(* ===================================================================== *)
(** * Part IV: from the pass to the summary and to the record *)
(* ===================================================================== *)

(** ** The summary keeps first occurrences *)

Lemma firstWith_NoDup {A K : Type} `{EqDecision K} (key : A -> K) (l : list A) (x : A) :
  List.NoDup (map key l) -> In x l -> firstWith key (key x) l = Some x.
Proof.
  unfold firstWith. induction l as [|a l IH]; intros Hn Hin; [destruct Hin|].
  cbn [map] in Hn. inversion Hn as [|? ? Ha Hl]; subst. cbn [List.find].
  destruct (decide (key a = key x)) as [E | E].
  - rewrite bool_decide_eq_true_2 by exact E.
    destruct Hin as [-> | Hin]; [reflexivity|].
    exfalso. apply Ha. rewrite E. now apply in_map.
  - rewrite bool_decide_eq_false_2 by exact E.
    destruct Hin as [-> | Hin]; [congruence | now apply IH].
Qed.

(** A list without two elements of the same key that has, under every
    key, the first element of [l] with that key, holds exactly the first
    occurrences of [l]. *)
Lemma first_occurrences {A K : Type} `{EqDecision K} (key : A -> K) (vals l : list A) :
  List.NoDup (map key vals) ->
  (forall k, firstWith key k vals = firstWith key k l) ->
  forall x, In x vals <-> firstWith key (key x) l = Some x.
Proof.
  intros Hn Hf x. split.
  - intros Hin. rewrite <- Hf. now apply firstWith_NoDup.
  - intros Hx. rewrite <- Hf in Hx. now apply firstWith_some in Hx as [Hx _].
Qed.

Lemma normalized_cached h (cache : list (string * AnalysisData)) c :
  In c (normalizedComponents h cache) \/ In c (normalizedIcons h cache) ->
  exists e, In e cache /\ In c (ad_components (snd e) ++ ad_icons (snd e))%list.
Proof.
  unfold normalizedComponents, normalizedIcons.
  intros [H | H]; apply in_flat_map in H as (e & He & Hc);
    apply List.filter_In in Hc as [Hc _]; eauto.
Qed.

Lemma cached_normalized h (cache : list (string * AnalysisData)) e c :
  In e cache -> In c (ad_components (snd e) ++ ad_icons (snd e))%list ->
  In c (normalizedComponents h cache) \/ In c (normalizedIcons h cache).
Proof.
  intros He Hc. unfold normalizedComponents, normalizedIcons.
  destruct (looksIcon (h c)) eqn:L; [right | left];
    apply in_flat_map; exists e; (split; [exact He|]);
    apply List.filter_In; (split; [exact Hc|]); now rewrite L.
Qed.

Section AggregatorHeap.
Variable fractionToString : Q -> string.
Variable h0 : heap.

(** The loop does not touch the objects that no record lists. *)
Lemma aggregateRecords_untouched cache ag c :
  reclassInv h0 (ag_heap ag) ->
  (forall e, In e cache -> ~ In c (ad_components (snd e) ++ ad_icons (snd e))%list) ->
  ag_heap (fold_left (aggregateRecord fractionToString) cache ag) c = ag_heap ag c.
Proof.
  revert ag. induction cache as [|e cache IH]; intros ag Hinv Hc; [reflexivity|].
  cbn [fold_left].
  destruct (aggregateRecord_spec fractionToString h0 ag e Hinv) as (I & _).
  rewrite (IH _ I) by (intros e' He'; apply Hc; now right).
  set (d := {| ad_components := ad_components (snd e);
               ad_icons := ad_icons (snd e); ad_fonts := []; ad_colors := [] |}).
  assert (Hh : ag_heap (aggregateRecord fractionToString ag e)
               = fst (normalizeComponentIconClassification (ag_heap ag) d)).
  { unfold aggregateRecord. cbv zeta. fold d.
    destruct (normalizeComponentIconClassification (ag_heap ag) d). reflexivity. }
  destruct (normalize_result h0 (ag_heap ag) d Hinv) as (_ & _ & _ & _ & _ & _ & Hout).
  cbn [ad_components ad_icons d] in Hout.
  rewrite Hh. apply Hout. apply Hc. now left.
Qed.

(** The objects of the records the loop has visited carry the outcome of
    the test in their flag. *)
Lemma aggregateRecords_written cache ag :
  reclassInv h0 (ag_heap ag) ->
  let ag' := fold_left (aggregateRecord fractionToString) cache ag in
  forall c,
    ag_heap ag c = setIsIcon (looksIcon (h0 c)) (h0 c)
    \/ (exists e, In e cache /\ In c (ad_components (snd e) ++ ad_icons (snd e))%list) ->
    ag_heap ag' c = setIsIcon (looksIcon (h0 c)) (h0 c).
Proof.
  revert ag. induction cache as [|e cache IH]; intros ag Hinv; cbv zeta; intros c Hc.
  - destruct Hc as [Hc | (e & [] & _)]. exact Hc.
  - cbn [fold_left].
    destruct (aggregateRecord_spec fractionToString h0 ag e Hinv) as (I & _).
    apply (IH _ I).
    set (d := {| ad_components := ad_components (snd e);
                 ad_icons := ad_icons (snd e); ad_fonts := []; ad_colors := [] |}).
    assert (Hh : ag_heap (aggregateRecord fractionToString ag e)
                 = fst (normalizeComponentIconClassification (ag_heap ag) d)).
    { unfold aggregateRecord. cbv zeta. fold d.
      destruct (normalizeComponentIconClassification (ag_heap ag) d). reflexivity. }
    destruct (normalize_result h0 (ag_heap ag) d Hinv) as (_ & _ & _ & _ & _ & Hin & Hout).
    cbn [ad_components ad_icons d] in Hin, Hout.
    destruct (in_dec Nat.eq_dec c (ad_components (snd e) ++ ad_icons (snd e))) as [Hc' | Hc'].
    + left. rewrite Hh. now apply Hin.
    + destruct Hc as [Hc | (e' & [<- | He'] & Hc)].
      * left. rewrite Hh, (Hout c Hc'). exact Hc.
      * contradiction.
      * right. eauto.
Qed.

End AggregatorHeap.

(** C3: the aggregator keys a component by [masterName] when it is
    standalone and by [masterName:variantName] when it is a variant, and
    keeps, for every key, the first entry in iteration order of the
    reclassified records and nothing else: no key occurs twice among the
    summary's components, nor among its icons, and an object is listed
    exactly when it is the first one with its key.  The entry is the object
    of that first occurrence itself: its instance count and every field
    other than [isIcon] are those it had before the call (counts are never
    added up); the reclassification writes the outcome of its test into
    [isIcon], which leaves an object as it is when the flag already tells
    that outcome, as it does on every entry of a record made by
    [analyzeFrame].  Summary colours are keyed by their hex alone: no hex
    occurs twice, and the entry of a hex is its first occurrence, whatever
    the opacity of later ones. *)
Theorem summary_keeps_first_occurrence (fractionToString : Q -> string)
    (frameCount : nat) (h : heap) (cache : list (string * AnalysisData)) :
  let h' := fst (collectSummaryData fractionToString frameCount h cache) in
  let summary := snd (collectSummaryData fractionToString frameCount h cache) in
  let key := componentKeyAt h in
  ((forall c, cr_isVariant (h c) = false -> key c = cr_masterName (h c))
   /\ (forall c v, cr_isVariant (h c) = true -> cr_variantName (h c) = Some v ->
                   key c = cr_masterName (h c) ++ ":" ++ v)
   /\ (forall c, componentKeyAt h' c = key c))
  /\ (List.NoDup (map key (sd_components summary))
      /\ (forall k, firstWith key k (sd_components summary)
                    = firstWith key k (normalizedComponents h cache))
      /\ (forall c, In c (sd_components summary)
                    <-> firstWith key (key c) (normalizedComponents h cache) = Some c))
  /\ (List.NoDup (map key (sd_icons summary))
      /\ (forall k, firstWith key k (sd_icons summary)
                    = firstWith key k (normalizedIcons h cache))
      /\ (forall c, In c (sd_icons summary)
                    <-> firstWith key (key c) (normalizedIcons h cache) = Some c))
  /\ ((forall c, h' c = setIsIcon (cr_isIcon (h' c)) (h c))
      /\ (forall c, cr_instanceCount (h' c) = cr_instanceCount (h c))
      /\ (forall c, In c (normalizedComponents h cache) \/ In c (normalizedIcons h cache) ->
                    cr_isIcon (h' c) = looksIcon (h c))
      /\ (forall c, cr_isIcon (h c) = looksIcon (h c) -> h' c = h c)
      /\ (forall c, ~ (In c (normalizedComponents h cache) \/ In c (normalizedIcons h cache)) ->
                    h' c = h c)
      /\ ((forall c, In c (normalizedComponents h cache) \/ In c (normalizedIcons h cache) ->
                     cr_isIcon (h c) = looksIcon (h c)) ->
          forall c, h' c = h c)
      /\ (forall getStyleById localeCompare frame entry,
             In entry (ar_components
                         (analyzeFrame getStyleById fractionToString localeCompare frame)
                       ++ ar_icons
                            (analyzeFrame getStyleById fractionToString localeCompare frame))%list ->
             cr_isIcon entry = looksIcon entry))
  /\ (Forall (fun c => JS.truthy (cu_hex c) = true) (cachedColors cache) ->
      List.NoDup (map cu_hex (sd_colors summary))
      /\ (forall hex, firstWith cu_hex hex (sd_colors summary)
                      = firstWith cu_hex hex (cachedColors cache))
      /\ (forall c, In c (sd_colors summary)
                    <-> firstWith cu_hex (cu_hex c) (cachedColors cache) = Some c)).
Proof.
  intros h' summary key. subst h' summary key. unfold collectSummaryData. cbv zeta.
  cbn [fst snd sd_components sd_icons sd_colors].
  set (ag0 := {| ag_heap := h; aggregatedComponents := []; aggregatedIcons := [];
                 aggregatedFonts := []; aggregatedColors := [] |}).
  destruct (aggregateRecords_spec fractionToString h cache ag0 (reclassInv_refl h))
    as (I & E1 & E2 & _ & E4).
  pose proof (aggregateRecords_written fractionToString h cache ag0 (reclassInv_refl h)) as W.
  cbv zeta in W.
  cbn [aggregatedComponents aggregatedIcons aggregatedColors ag0] in E1, E2, E4.
  rewrite E1, E2, E4.
  set (h' := ag_heap (fold_left (aggregateRecord fractionToString) cache ag0)) in *.
  split.
  { split; [|split].
    - intros c Hv. unfold componentKeyAt, componentKey. now rewrite Hv.
    - intros c v Hv Hn. unfold componentKeyAt, componentKey. now rewrite Hv, Hn.
    - intros c. unfold componentKeyAt. now apply reclassInv_key. }
  split.
  { destruct (aggregate_first_wins (componentKeyAt h) (normalizedComponents h cache)) as [Hn Hf].
    split; [exact Hn|]. split; [exact Hf|]. now apply first_occurrences. }
  split.
  { destruct (aggregate_first_wins (componentKeyAt h) (normalizedIcons h cache)) as [Hn Hf].
    split; [exact Hn|]. split; [exact Hf|]. now apply first_occurrences. }
  assert (U : forall c,
             ~ (In c (normalizedComponents h cache) \/ In c (normalizedIcons h cache)) ->
             h' c = h c).
  { intros c Hc. subst h'.
    rewrite (aggregateRecords_untouched fractionToString h cache ag0 c (reclassInv_refl h));
      [reflexivity|].
    intros e He Hin. apply Hc. now apply (cached_normalized h cache e). }
  assert (A : forall c, cr_isIcon (h c) = looksIcon (h c) -> h' c = h c).
  { intros c Hc. destruct (I c) as [-> | ->]; [reflexivity|].
    rewrite <- Hc. apply setIsIcon_same. }
  split.
  { split; [|split; [|split; [|split; [|split; [|split]]]]].
    - intros c. destruct (I c) as [-> | ->]; [symmetry; apply setIsIcon_same | reflexivity].
    - intros c. pose proof (reclassInv_fields h _ c I) as E.
      apply (f_equal cr_instanceCount) in E. exact E.
    - intros c Hc. rewrite W; [reflexivity|].
      right. now apply (normalized_cached h).
    - exact A.
    - exact U.
    - intros Hall c.
      destruct (in_dec Nat.eq_dec c (normalizedComponents h cache)) as [H1 | H1];
        [apply A, Hall; now left|].
      destruct (in_dec Nat.eq_dec c (normalizedIcons h cache)) as [H2 | H2];
        [apply A, Hall; now right|].
      apply U. tauto.
    - intros getStyleById localeCompare frame entry Hin.
      destruct (passInvariant_analyzeFrameState getStyleById fractionToString frame)
        as [_ _ _ _ _ Hc Hi _ _].
      unfold analyzeFrame in Hin. cbn [ar_components ar_icons] in Hin.
      rewrite List.Forall_forall in Hc, Hi.
      apply in_app_or in Hin as [Hin | Hin];
        apply in_map_iff in Hin as ([k e] & <- & He);
        [destruct (Hc _ He) as (_ & F1 & F2 & _) | destruct (Hi _ He) as (_ & F1 & F2 & _)];
        cbn [snd] in *; congruence. }
  intros Htruthy. rewrite List.Forall_forall in Htruthy.
  destruct (aggregate_first_wins colorMapKey (cachedColors cache)) as [Hn Hf].
  assert (Hin : forall c, In c (JSMap.values (aggregate colorMapKey [] (cachedColors cache))) ->
                          JS.truthy (cu_hex c) = true).
  { intros c Hc. apply aggregate_values_in in Hc as [[] | Hc].
    apply Htruthy. exact Hc. }
  assert (N : List.NoDup (map cu_hex (JSMap.values (aggregate colorMapKey [] (cachedColors cache))))).
  { assert (E : map colorMapKey (JSMap.values (aggregate colorMapKey [] (cachedColors cache)))
                = map KeyHex (map cu_hex (JSMap.values (aggregate colorMapKey [] (cachedColors cache))))).
    { rewrite map_map. apply map_ext_in. intros c Hc.
      unfold colorMapKey. now rewrite (Hin c Hc). }
    rewrite E in Hn. now apply List.NoDup_map_inv in Hn. }
  assert (F : forall hex,
             firstWith cu_hex hex (JSMap.values (aggregate colorMapKey [] (cachedColors cache)))
             = firstWith cu_hex hex (cachedColors cache)).
  { intros hex. unfold firstWith.
    rewrite (find_ext_in _ (fun c => bool_decide (colorMapKey c = KeyHex hex)))
      by (intros c Hc; symmetry; apply truthy_hex_key, Hin, Hc).
    rewrite Hf. apply find_ext_in. intros c Hc.
    apply truthy_hex_key, Htruthy. exact Hc. }
  split; [exact N|]. split; [exact F|]. now apply first_occurrences.
Qed.

Lemma summary_keeps_first_occurrence_witness :
  let summary := snd (collectSummaryData (fun _ => "") 2 exampleHeap exampleCache) in
  List.NoDup (map cu_hex (sd_colors summary))
  /\ firstWith cu_hex "#FF0000" (sd_colors summary) = Some (exampleRed 1).
Proof.
  destruct (summary_keeps_first_occurrence (fun _ => "") 2 exampleHeap exampleCache)
    as (_ & _ & _ & _ & H).
  destruct H as (Hn & Hf & _).
  - repeat constructor.
  - split; [exact Hn | rewrite Hf; reflexivity].
Defined.

(** ** Paints stored by a pass *)

Lemma get_In {K V : Type} `{EqDecision K} (k : K) (v : V) (m : list (K * V)) :
  JSMap.get k m = Some v -> In (k, v) m.
Proof.
  induction m as [|[k0 v0] m IH]; simpl; [discriminate|].
  destruct (decide (k = k0)) as [-> | Hne].
  - rewrite bool_decide_eq_true_2 by reflexivity. intros [= ->]. now left.
  - rewrite bool_decide_eq_false_2 by exact Hne. intros H. right. now apply IH.
Qed.

Lemma append_empty_r (s : string) : s ++ "" = s.
Proof.
  induction s as [|c s IH]; [reflexivity|].
  change (String c s ++ "") with (String c (s ++ "")). now rewrite IH.
Qed.

Lemma append_inj_length (a b s t : string) :
  String.length a = String.length b -> a ++ s = b ++ t -> a = b /\ s = t.
Proof.
  revert b. induction a as [|c a IH]; intros [|d b] L E; try discriminate.
  - now split.
  - change (String c a ++ s) with (String c (a ++ s)) in E.
    change (String d b ++ t) with (String d (b ++ t)) in E.
    injection E as -> E. injection L as L.
    destruct (IH b L E) as [-> ->]. now split.
Qed.

Lemma append_inj_tail (s1 s2 t : string) : s1 ++ t = s2 ++ t -> s1 = s2.
Proof.
  intros E. apply (f_equal list_ascii_of_string) in E.
  rewrite !list_ascii_of_string_app in E. apply app_inv_tail in E.
  rewrite <- (string_of_list_ascii_of_string s1), <- (string_of_list_ascii_of_string s2).
  now rewrite E.
Qed.

Lemma colorKeyOf_percent (hex : string) (opacity : Q) :
  colorKeyOf hex opacity
  = if JS.ltb opacity 1 then hex ++ "@" ++ percentOf opacity ++ "%" else hex.
Proof. reflexivity. Qed.

(** The key tells the hex string, when hex strings have the same length,
    and on which side of 1 the opacity lies, with its percentage. *)
Lemma colorKeyOf_inj (h1 h2 : string) (o1 o2 : Q) :
  String.length h1 = String.length h2 ->
  colorKeyOf h1 o1 = colorKeyOf h2 o2 ->
  h1 = h2 /\ JS.ltb o1 1 = JS.ltb o2 1
  /\ (JS.ltb o1 1 = true -> percentOf o1 = percentOf o2).
Proof.
  intros L E. rewrite !colorKeyOf_percent in E.
  assert (S : forall h o, (if JS.ltb o 1 then h ++ "@" ++ percentOf o ++ "%" else h)
                          = h ++ (if JS.ltb o 1 then "@" ++ percentOf o ++ "%" else "")).
  { intros h o. destruct (JS.ltb o 1); [reflexivity | now rewrite append_empty_r]. }
  rewrite !S in E. destruct (append_inj_length _ _ _ _ L E) as [-> E'].
  split; [reflexivity|].
  destruct (JS.ltb o1 1), (JS.ltb o2 1); try discriminate.
  - split; [reflexivity|]. intros _.
    change ("@" ++ percentOf o1 ++ "%") with (String "@" (percentOf o1 ++ "%")) in E'.
    change ("@" ++ percentOf o2 ++ "%") with (String "@" (percentOf o2 ++ "%")) in E'.
    injection E' as E'. now apply append_inj_tail in E'.
  - split; [reflexivity | discriminate].
Qed.

Lemma hexOfBytes_length (R G B : Z) : String.length (hexOfBytes R G B) = 7%nat.
Proof. reflexivity. Qed.

Lemma colorKept_refl e : colorKept e e.
Proof. now split. Qed.

Lemma colorKept_trans e1 e2 e3 : colorKept e1 e2 -> colorKept e2 e3 -> colorKept e1 e3.
Proof. intros (A1 & A2 & A3) (B1 & B2 & B3). repeat split; congruence. Qed.

Lemma upsertColor_kept k e k0 hex opacity styleName type colors :
  JSMap.get k colors = Some e ->
  exists e', JSMap.get k (upsertColor k0 hex opacity styleName type colors) = Some e'
             /\ colorKept e e'.
Proof.
  intros Hg. rewrite upsertColor_get, Hg.
  destruct (decide (k = k0)); [|eexists; split; [reflexivity | apply colorKept_refl]].
  destruct (truthy_opt styleName && negb (truthy_opt (ci_styleName e)));
    eexists; (split; [reflexivity|]); now split.
Qed.

Lemma NoDup_map_filter {A B : Type} (f : A -> B) (P : A -> Prop) `{forall x, Decision (P x)}
    (l : list A) :
  List.NoDup (map f l) -> List.NoDup (map f (filter P l)).
Proof.
  induction l as [|a l IH]; intros Hn; [constructor|].
  cbn [map] in Hn. inversion Hn as [|? ? Ha Hl]; subst.
  rewrite filter_cons. destruct (decide (P a)); [|now apply IH].
  cbn [map]. constructor; [|now apply IH].
  intros Hin. apply Ha. apply in_map_iff in Hin as (x & <- & Hx).
  apply in_map. apply list_elem_of_In in Hx. apply list_elem_of_filter in Hx as [_ Hx].
  now apply list_elem_of_In.
Qed.

Section StoredColours.
Variable getStyleById : string -> option Style.
Variable fractionToString : Q -> string.

Lemma extractPaint_stores type styleId st p color :
  paintCounts p = Some color ->
  let hex := rgbToHex (rgb_r color) (rgb_g color) (rgb_b color) in
  let key := colorKeyOf hex (paintOpacity p) in
  let st' := extractPaint getStyleById type styleId st p in
  (forall k, k <> key -> JSMap.get k (colors st') = JSMap.get k (colors st))
  /\ match JSMap.get key (colors st) with
     | None =>
         JSMap.get key (colors st')
         = Some {| ci_hex := hex; ci_opacity := paintOpacity p;
                   ci_styleName := option_map style_name (lookupStyle getStyleById styleId);
                   ci_type := type |}
     | Some e => exists e', JSMap.get key (colors st') = Some e' /\ colorKept e e'
     end.
Proof.
  intros Hp hex key st'. subst st'. rewrite extractPaint_colors. unfold paintColors.
  rewrite Hp. cbv zeta. fold hex. fold key. split.
  - intros k Hk. rewrite upsertColor_get.
    destruct (decide (k = key)); [contradiction|]. now destruct (JSMap.get k (colors st)).
  - destruct (JSMap.get key (colors st)) as [e|] eqn:G.
    + now apply upsertColor_kept.
    + rewrite upsertColor_get, G. now destruct (decide (key = key)).
Qed.

Lemma paintColors_kept type styleId k e colors p :
  JSMap.get k colors = Some e ->
  exists e', JSMap.get k (paintColors getStyleById type styleId colors p) = Some e'
             /\ colorKept e e'.
Proof.
  intros Hg. unfold paintColors.
  destruct (paintCounts p); [now apply upsertColor_kept|].
  exists e. split; [exact Hg | apply colorKept_refl].
Qed.

Lemma paintsColors_kept type styleId l k e colors :
  JSMap.get k colors = Some e ->
  exists e', JSMap.get k (fold_left (paintColors getStyleById type styleId) l colors) = Some e'
             /\ colorKept e e'.
Proof.
  revert e colors. induction l as [|p l IH]; intros e colors Hg; simpl.
  - exists e. split; [exact Hg | apply colorKept_refl].
  - destruct (paintColors_kept type styleId k e colors p Hg) as (e1 & Hg1 & K1).
    destruct (IH e1 _ Hg1) as (e2 & Hg2 & K2).
    exists e2. split; [exact Hg2 | now apply (colorKept_trans e e1 e2)].
Qed.

Lemma paintColors_stores type styleId colors p color :
  paintCounts p = Some color ->
  exists e,
    JSMap.get (colorKeyOf (rgbToHex (rgb_r color) (rgb_g color) (rgb_b color)) (paintOpacity p))
      (paintColors getStyleById type styleId colors p) = Some e.
Proof.
  intros Hp. unfold paintColors. rewrite Hp. cbv zeta. rewrite upsertColor_get.
  set (key := colorKeyOf _ _).
  destruct (JSMap.get key colors) as [e|]; destruct (decide (key = key)); try congruence.
  - destruct (_ && _); eauto.
  - eauto.
Qed.

Lemma paintsColors_stores type styleId l colors p color :
  In p l -> paintCounts p = Some color ->
  exists e,
    JSMap.get (colorKeyOf (rgbToHex (rgb_r color) (rgb_g color) (rgb_b color)) (paintOpacity p))
      (fold_left (paintColors getStyleById type styleId) l colors) = Some e.
Proof.
  revert colors. induction l as [|q l IH]; intros colors Hin Hp; [destruct Hin|].
  cbn [fold_left]. destruct Hin as [-> | Hin]; [|now apply IH].
  destruct (paintColors_stores type styleId colors p color Hp) as (e & He).
  destruct (paintsColors_kept type styleId l _ e _ He) as (e' & He' & _). eauto.
Qed.

Lemma nodeColors_kept node k e colors :
  JSMap.get k colors = Some e ->
  exists e', JSMap.get k (nodeColors getStyleById node colors) = Some e' /\ colorKept e e'.
Proof.
  intros Hg. unfold nodeColors.
  destruct (paintsColors_kept Fill (n_fillStyleId node) (paintsOf (n_fills node)) k e colors Hg)
    as (e1 & Hg1 & K1).
  destruct (paintsColors_kept Stroke (n_strokeStyleId node) (paintsOf (n_strokes node))
              k e1 _ Hg1) as (e2 & Hg2 & K2).
  exists e2. split; [exact Hg2 | now apply (colorKept_trans e e1 e2)].
Qed.

Lemma nodeColors_stores node colors p color :
  In p (paintsOf (n_fills node) ++ paintsOf (n_strokes node))%list ->
  paintCounts p = Some color ->
  exists e,
    JSMap.get (colorKeyOf (rgbToHex (rgb_r color) (rgb_g color) (rgb_b color)) (paintOpacity p))
      (nodeColors getStyleById node colors) = Some e.
Proof.
  intros Hin Hp. unfold nodeColors. apply in_app_or in Hin as [Hin | Hin].
  - destruct (paintsColors_stores Fill (n_fillStyleId node) _ colors p color Hin Hp)
      as (e & He).
    destruct (paintsColors_kept Stroke (n_strokeStyleId node) (paintsOf (n_strokes node))
                _ e _ He) as (e' & He' & _). eauto.
  - now apply (paintsColors_stores Stroke (n_strokeStyleId node)).
Qed.

(** A node that reaches the paint loops applies its fills, then its
    strokes, to the [colors] map. *)
Lemma analyzeNode_extracted node st :
  nodeIsValid node = true -> n_id node ∉ processedNodes st ->
  skippedByGate node = false -> returnsEarly node = false ->
  colors (analyzeNode getStyleById fractionToString node st)
  = nodeColors getStyleById node (colors st).
Proof.
  intros Hv Hnew Hgate Hearly. unfold analyzeNode. rewrite Hv, Hgate. cbn [negb].
  rewrite bool_decide_eq_false_2 by exact Hnew.
  set (st1 := with_processed _ st).
  assert (T : forall s, colors s = colors st ->
                colors (extractEffect getStyleById node
                          (extractStrokes getStyleById node
                             (extractFills getStyleById node
                                (extractFont getStyleById fractionToString node s))))
                = nodeColors getStyleById node (colors st)).
  { intros s Hs.
    rewrite (proj1 (extractEffect_others _ _ _)), extractStrokes_colors,
      extractFills_colors, extractFont_colors, Hs. reflexivity. }
  unfold returnsEarly in Hearly. unfold extractComponent.
  destruct (String.eqb (n_type node) "INSTANCE"); [|now apply T].
  cbn [andb] in Hearly. apply orb_false_iff in Hearly as [H1 H2]. rewrite H1.
  destruct (n_getMainComponent node) as [[mc|]|]; try now apply T.
  fold (masterNameOf mc).
  destruct (JS.truthy (mc_name mc) && (JS.truthy (mc_key mc) || JS.truthy (mc_id mc)));
    [|now apply T].
  cbn [andb] in H2. rewrite H2.
  destruct (isComponentAnIcon mc); now apply T.
Qed.

Lemma analyzeNode_kept node st k e :
  JSMap.get k (colors st) = Some e ->
  exists e', JSMap.get k (colors (analyzeNode getStyleById fractionToString node st)) = Some e'
             /\ colorKept e e'.
Proof.
  intros Hg.
  destruct (analyzeNode_colors getStyleById fractionToString node st) as [-> | ->].
  - exists e. split; [exact Hg | apply colorKept_refl].
  - now apply nodeColors_kept.
Qed.

Lemma analyzeBatch_kept nodes st k e :
  JSMap.get k (colors st) = Some e ->
  exists e', JSMap.get k (colors (analyzeBatch getStyleById fractionToString st nodes)) = Some e'
             /\ colorKept e e'.
Proof.
  revert st e. induction nodes as [|node nodes IH]; intros st e Hg.
  - exists e. split; [exact Hg | apply colorKept_refl].
  - unfold analyzeBatch. cbn [fold_left].
    destruct (analyzeNode_kept node st k e Hg) as (e1 & Hg1 & K1).
    destruct (IH _ e1 Hg1) as (e2 & Hg2 & K2).
    exists e2. split; [exact Hg2 | now apply (colorKept_trans e e1 e2)].
Qed.

Lemma analyzeRoot_processed node x :
  x ∈ processedNodes (analyzeRoot node emptyPass) -> x = n_id node.
Proof.
  unfold analyzeRoot.
  destruct (negb (nodeIsValid node)); [intros H0; now apply elem_of_empty in H0|].
  destruct (bool_decide _); [intros H0; now apply elem_of_empty in H0|].
  cbn. rewrite elem_of_union, elem_of_singleton.
  intros [H0 | H0]; [now apply elem_of_empty in H0 | exact H0].
Qed.

(** The paints of a node of the walk are in the map at the end of the
    pass: under the key of each paint that counts there is an entry. *)
Lemma analyzeFrameState_stores frame node p color :
  List.NoDup (map n_id (f_node frame :: f_descendants frame)) ->
  In node (f_descendants frame) -> findAllPredicate node = true ->
  nodeIsValid node = true -> returnsEarly node = false ->
  In p (paintsOf (n_fills node) ++ paintsOf (n_strokes node))%list ->
  paintCounts p = Some color ->
  exists e,
    JSMap.get (colorKeyOf (rgbToHex (rgb_r color) (rgb_g color) (rgb_b color)) (paintOpacity p))
      (colors (analyzeFrameState getStyleById fractionToString frame)) = Some e.
Proof.
  intros Hn Hin Hpred Hv Htype Hp Hc.
  unfold analyzeFrameState. rewrite analyzeAll_batches by lia.
  set (l := filter (fun n => findAllPredicate n = true) (f_descendants frame)).
  set (st0 := analyzeRoot (f_node frame) emptyPass).
  assert (Hl : In node l).
  { apply list_elem_of_In, list_elem_of_filter. split; [exact Hpred | now apply list_elem_of_In]. }
  apply in_split in Hl as (l1 & l2 & El).
  cbn [map] in Hn. inversion Hn as [|? ? Hroot Hd]; subst.
  assert (Hnl : List.NoDup (map n_id l)) by (subst l; now apply NoDup_map_filter).
  rewrite El in Hnl |- *. rewrite map_app in Hnl. cbn [map] in Hnl.
  apply List.NoDup_remove_2 in Hnl.
  rewrite analyzeBatch_app. unfold analyzeBatch at 1. cbn [fold_left].
  fold (analyzeBatch getStyleById fractionToString
          (analyzeNode getStyleById fractionToString node
             (analyzeBatch getStyleById fractionToString st0 l1)) l2).
  set (st1 := analyzeBatch getStyleById fractionToString st0 l1).
  assert (Hnew : n_id node ∉ processedNodes st1).
  { subst st1. rewrite analyzeBatch_processed. intros [H | (node' & Hin' & _ & E)].
    - apply analyzeRoot_processed in H. apply Hroot. rewrite <- H. now apply in_map.
    - apply Hnl. apply in_or_app. left. rewrite E. now apply in_map. }
  assert (Hgate : skippedByGate node = false).
  { rewrite findAllPredicate_gate in Hpred. now apply negb_true_iff in Hpred. }
  destruct (nodeColors_stores node (colors st1) p color Hp Hc) as (e & He).
  rewrite <- (analyzeNode_extracted node st1 Hv Hnew Hgate Htype) in He.
  destruct (analyzeBatch_kept l2 _ _ e He) as (e' & He' & _). eauto.
Qed.

End StoredColours.

(** C5: a solid fill or stroke whose opacity is exactly 0 contributes no
    entry; the opacity of a paint defaults to 1; every stored opacity is in
    (0, 1] (the host reports opacities in [0, 1]).  A paint that counts is
    stored by [extractPaint] under the key of its hex and opacity: as a new
    entry with that hex and opacity when the key is new, and otherwise the
    entry of the key keeps its colour and opacity.  A fill at opacity 0.5
    is stored under the hex followed by [@50%], which differs from the key
    of the same hex at opacity 1: [analyzeNode] files both, and the record
    that [analyzeFrame] returns for a frame holding both paints on a node
    of the walk has two distinct colours with that hex, one displayed with
    [(50%)] and one displayed as the hex alone.  The nodes concerned are
    those that reach the paint loops: every valid node that passes the
    gate, except an instance whose main component is missing or filed
    under no name. *)
Theorem transparent_paints_and_opacity_keys
    (getStyleById : string -> option Style) (fractionToString : Q -> string)
    (localeCompare : string -> string -> Z) :
  (forall type styleId st p o,
      paint_opacity p = Some o -> (o == 0)%Q ->
      extractPaint getStyleById type styleId st p = st)
  /\ (forall p, paint_opacity p = None -> paintOpacity p = 1%Q)
  /\ (forall node st,
         nodeInRange node -> opacitiesInRange (colors st) ->
         opacitiesInRange (colors (analyzeNode getStyleById fractionToString node st)))
  /\ (forall frame,
         Forall nodeInRange (f_descendants frame) ->
         Forall (fun c => (0 < cu_opacity c <= 1)%Q)
           (ar_colors (analyzeFrame getStyleById fractionToString localeCompare frame)))
  /\ (forall hex,
         colorKeyOf hex (1 # 2) = hex ++ "@50%"
         /\ colorKeyOf hex 1 = hex
         /\ colorKeyOf hex (1 # 2) <> colorKeyOf hex 1)
  /\ (forall type styleId st p color,
         paintCounts p = Some color ->
         let hex := rgbToHex (rgb_r color) (rgb_g color) (rgb_b color) in
         let key := colorKeyOf hex (paintOpacity p) in
         let st' := extractPaint getStyleById type styleId st p in
         (forall k, k <> key -> JSMap.get k (colors st') = JSMap.get k (colors st))
         /\ match JSMap.get key (colors st) with
            | None =>
                JSMap.get key (colors st')
                = Some {| ci_hex := hex; ci_opacity := paintOpacity p;
                          ci_styleName :=
                            option_map style_name (lookupStyle getStyleById styleId);
                          ci_type := type |}
            | Some e => exists e', JSMap.get key (colors st') = Some e' /\ colorKept e e'
            end)
  /\ (forall node st color half full,
         nodeIsValid node = true -> n_id node ∉ processedNodes st ->
         skippedByGate node = false -> returnsEarly node = false ->
         n_fills node = Some [half; full] ->
         paintCounts half = Some color -> paintOpacity half = (1 # 2)%Q ->
         paintCounts full = Some color -> paintOpacity full = 1%Q ->
         let hex := rgbToHex (rgb_r color) (rgb_g color) (rgb_b color) in
         JSMap.get (hex ++ "@50%") (colors st) = None ->
         JSMap.get hex (colors st) = None ->
         let st' := analyzeNode getStyleById fractionToString node st in
         exists e1 e2,
           JSMap.get (hex ++ "@50%") (colors st') = Some e1
           /\ JSMap.get hex (colors st') = Some e2
           /\ (ci_hex e1 = hex /\ ci_opacity e1 = (1 # 2)%Q /\ ci_type e1 = Fill)
           /\ (ci_hex e2 = hex /\ ci_opacity e2 = 1%Q /\ ci_type e2 = Fill))
  /\ (forall frame node p color,
         Forall nodeChannelsInRange (f_descendants frame) ->
         List.NoDup (map n_id (f_node frame :: f_descendants frame)) ->
         In node (f_descendants frame) -> findAllPredicate node = true ->
         nodeIsValid node = true -> returnsEarly node = false ->
         In p (paintsOf (n_fills node) ++ paintsOf (n_strokes node))%list ->
         paintCounts p = Some color ->
         let hex := rgbToHex (rgb_r color) (rgb_g color) (rgb_b color) in
         exists c,
           In c (ar_colors (analyzeFrame getStyleById fractionToString localeCompare frame))
           /\ cu_hex c = hex
           /\ colorKeyOf hex (cu_opacity c) = colorKeyOf hex (paintOpacity p)
           /\ cu_displayHex c
              = if JS.ltb (paintOpacity p) 1
                then hex ++ " (" ++ percentOf (paintOpacity p) ++ "%)"
                else hex)
  /\ (forall frame node half full color,
         Forall nodeChannelsInRange (f_descendants frame) ->
         List.NoDup (map n_id (f_node frame :: f_descendants frame)) ->
         In node (f_descendants frame) -> findAllPredicate node = true ->
         nodeIsValid node = true -> returnsEarly node = false ->
         In half (paintsOf (n_fills node) ++ paintsOf (n_strokes node))%list ->
         In full (paintsOf (n_fills node) ++ paintsOf (n_strokes node))%list ->
         paintCounts half = Some color -> paintOpacity half = (1 # 2)%Q ->
         paintCounts full = Some color -> paintOpacity full = 1%Q ->
         let hex := rgbToHex (rgb_r color) (rgb_g color) (rgb_b color) in
         exists c1 c2,
           In c1 (ar_colors (analyzeFrame getStyleById fractionToString localeCompare frame))
           /\ In c2 (ar_colors (analyzeFrame getStyleById fractionToString localeCompare frame))
           /\ c1 <> c2
           /\ (cu_hex c1 = hex /\ cu_displayHex c1 = hex ++ " (50%)"
               /\ JS.ltb (cu_opacity c1) 1 = true)
           /\ (cu_hex c2 = hex /\ cu_displayHex c2 = hex
               /\ JS.ltb (cu_opacity c2) 1 = false)).
Proof.
  split.
  { intros type styleId st p o Hp Ho. unfold extractPaint.
    now rewrite (paintCounts_zero p o Hp Ho). }
  split.
  { intros p Hp. unfold paintOpacity. now rewrite Hp. }
  split.
  { intros node st. apply analyzeNode_range. }
  split.
  { intros frame Hd. unfold analyzeFrame. cbn [ar_colors]. unfold colorArrayOf.
    apply List.Forall_forall. intros c Hc. apply sortBy_In in Hc.
    apply in_map_iff in Hc as ([k e] & <- & Hin).
    pose proof (analyzeFrameState_range getStyleById fractionToString frame Hd) as Hr.
    unfold opacitiesInRange in Hr. rewrite List.Forall_forall in Hr.
    exact (Hr (k, e) Hin). }
  assert (Hk : forall hex, colorKeyOf hex (1 # 2) = hex ++ "@50%" /\ colorKeyOf hex 1 = hex).
  { intros hex. split; reflexivity. }
  assert (Hne : forall hex : string, hex ++ "@50%" <> hex)
    by (intros hex; apply append_not_self; discriminate).
  split.
  { intros hex. destruct (Hk hex) as [E1 E2]. repeat split; auto.
    rewrite E1, E2. apply Hne. }
  split.
  { intros type styleId st p color. apply extractPaint_stores. }
  split.
  { intros node st color half full Hv Hnew Hgate Htype Hfills Hh Hho Hf Hfo hex Hn1 Hn2 st'.
    subst st'. rewrite (analyzeNode_extracted _ _ node st Hv Hnew Hgate Htype).
    unfold nodeColors. rewrite Hfills. cbn [paintsOf fold_left].
    set (sn := option_map style_name (lookupStyle getStyleById (n_fillStyleId node))).
    set (filled := paintColors _ _ _ (paintColors _ _ _ _ half) full).
    assert (F : JSMap.get (hex ++ "@50%") filled
                = Some {| ci_hex := hex; ci_opacity := 1 # 2; ci_styleName := sn;
                          ci_type := Fill |}
                /\ JSMap.get hex filled
                   = Some {| ci_hex := hex; ci_opacity := 1; ci_styleName := sn;
                             ci_type := Fill |}).
    { subst filled. unfold paintColors. rewrite Hh, Hf, Hho, Hfo. cbv zeta.
      fold hex. fold sn. destruct (Hk hex) as [-> ->]. specialize (Hne hex). split.
      - rewrite upsertColor_get, upsertColor_get, Hn1.
        destruct (decide (hex ++ "@50%" = hex ++ "@50%")); [|congruence].
        destruct (decide (hex ++ "@50%" = hex)); [congruence | reflexivity].
      - rewrite upsertColor_get, upsertColor_get, Hn2.
        destruct (decide (hex = hex ++ "@50%")); [congruence|].
        destruct (decide (hex = hex)); [reflexivity | congruence]. }
    destruct F as [F1 F2].
    destruct (paintsColors_kept getStyleById Stroke (n_strokeStyleId node)
                (paintsOf (n_strokes node)) _ _ _ F1) as (e1 & G1 & K1).
    destruct (paintsColors_kept getStyleById Stroke (n_strokeStyleId node)
                (paintsOf (n_strokes node)) _ _ _ F2) as (e2 & G2 & K2).
    exists e1, e2. split; [exact G1|]. split; [exact G2|]. split; [exact K1 | exact K2]. }
  assert (H8 : forall frame node p color,
             Forall nodeChannelsInRange (f_descendants frame) ->
             List.NoDup (map n_id (f_node frame :: f_descendants frame)) ->
             In node (f_descendants frame) -> findAllPredicate node = true ->
             nodeIsValid node = true -> returnsEarly node = false ->
             In p (paintsOf (n_fills node) ++ paintsOf (n_strokes node))%list ->
             paintCounts p = Some color ->
             let hex := rgbToHex (rgb_r color) (rgb_g color) (rgb_b color) in
             exists c,
               In c (ar_colors (analyzeFrame getStyleById fractionToString localeCompare frame))
               /\ cu_hex c = hex
               /\ colorKeyOf hex (cu_opacity c) = colorKeyOf hex (paintOpacity p)
               /\ cu_displayHex c
                  = if JS.ltb (paintOpacity p) 1
                    then hex ++ " (" ++ percentOf (paintOpacity p) ++ "%)"
                    else hex).
  { intros frame node p color Hd Hn Hin Hpred Hv Htype Hp Hc hex.
    destruct (analyzeFrameState_stores getStyleById fractionToString frame node p color
                Hn Hin Hpred Hv Htype Hp Hc) as (e & He).
    fold hex in He. apply get_In in He.
    set (st := analyzeFrameState getStyleById fractionToString frame) in *.
    destruct (passInvariant_analyzeFrameState getStyleById fractionToString frame)
      as [_ _ _ _ _ _ _ _ Hkeyed].
    fold st in Hkeyed. rewrite List.Forall_forall in Hkeyed.
    pose proof (Hkeyed _ He) as Ek. unfold colorKeyed in Ek. cbn [fst snd] in Ek.
    assert (Hb : Forall hexFromBytes (colors st)).
    { subst st. unfold analyzeFrameState. rewrite analyzeAll_batches by lia.
      apply analyzeBatch_bytes.
      - apply List.Forall_forall. intros n Hn'. rewrite List.Forall_forall in Hd. apply Hd.
        apply list_elem_of_In in Hn'. apply list_elem_of_filter in Hn' as [_ Hn'].
        now apply list_elem_of_In.
      - rewrite analyzeRoot_colors. constructor. }
    rewrite List.Forall_forall in Hb. destruct (Hb _ He) as (R & G & B & _ & _ & _ & Eh).
    cbn [snd] in Eh.
    assert (Lh : String.length hex = 7%nat).
    { rewrite List.Forall_forall in Hd. destruct (Hd node Hin) as [Hf Hs].
      assert (Hpr : paintChannelsInRange p).
      { rewrite List.Forall_forall in Hf, Hs.
        apply in_app_or in Hp as [Hp | Hp]; [now apply Hf | now apply Hs]. }
      destruct (Hpr color (paintCounts_color p color Hc)) as (Hr & Hg & Hbl).
      subst hex. rewrite rgbToHex_bytes by assumption. reflexivity. }
    destruct (colorKeyOf_inj (ci_hex e) hex (ci_opacity e) (paintOpacity p)) as (E1 & E2 & E3).
    { rewrite Eh, Lh. reflexivity. }
    { symmetry. exact Ek. }
    exists (colorUsageOf e). split.
    { unfold analyzeFrame. cbn [ar_colors]. fold st. unfold colorArrayOf.
      apply sortBy_In. apply in_map_iff.
      exists (colorKeyOf hex (paintOpacity p), e). split; [reflexivity | exact He]. }
    unfold colorUsageOf. cbn [cu_hex cu_opacity cu_displayHex].
    split; [exact E1|]. split; [rewrite <- E1 at 1; rewrite <- Ek; reflexivity|].
    fold (percentOf (ci_opacity e)). rewrite E1, E2.
    destruct (JS.ltb (paintOpacity p) 1) eqn:L; [|reflexivity].
    rewrite E3; [reflexivity|]. rewrite E2. reflexivity. }
  split; [exact H8|].
  intros frame node half full color Hd Hn Hin Hpred Hv Htype Hph Hpf Hh Hho Hf Hfo hex.
  destruct (H8 frame node half color Hd Hn Hin Hpred Hv Htype Hph Hh)
    as (c1 & I1 & X1 & K1 & D1).
  destruct (H8 frame node full color Hd Hn Hin Hpred Hv Htype Hpf Hf)
    as (c2 & I2 & X2 & K2 & D2).
  fold hex in X1, K1, D1, X2, K2, D2. rewrite Hho in K1, D1. rewrite Hfo in K2, D2.
  change (JS.ltb (1 # 2) 1) with true in D1. change (JS.ltb 1 1) with false in D2.
  change (percentOf (1 # 2)) with "50" in D1.
  destruct (Hk hex) as [K50 K100]. rewrite K50 in K1. rewrite K100 in K2.
  assert (L1 : JS.ltb (cu_opacity c1) 1 = true).
  { rewrite colorKeyOf_percent in K1. destruct (JS.ltb (cu_opacity c1) 1); [reflexivity|].
    symmetry in K1. now apply Hne in K1. }
  assert (L2 : JS.ltb (cu_opacity c2) 1 = false).
  { rewrite colorKeyOf_percent in K2. destruct (JS.ltb (cu_opacity c2) 1); [|reflexivity].
    exfalso. revert K2. apply append_not_self. discriminate. }
  exists c1, c2. split; [exact I1|]. split; [exact I2|].
  split; [intros E; rewrite E in L1; congruence|].
  split; repeat split; assumption.
Qed.

Lemma transparent_paints_and_opacity_keys_witness :
  let box :=
    rectangle "1:2" 100 50
      [solid red (Some 0%Q); solid red (Some (1 # 2)); solid red None] "S:1" [] in
  let r := analyzeFrame exampleStyles (fun _ => "") codeUnitCompare (exampleFrame [box]) in
  exists c1 c2,
    In c1 (ar_colors r) /\ In c2 (ar_colors r) /\ c1 <> c2
    /\ (cu_hex c1 = "#FF0000" /\ cu_displayHex c1 = "#FF0000 (50%)"
        /\ JS.ltb (cu_opacity c1) 1 = true)
    /\ (cu_hex c2 = "#FF0000" /\ cu_displayHex c2 = "#FF0000"
        /\ JS.ltb (cu_opacity c2) 1 = false).
Proof.
  intros box r.
  destruct (transparent_paints_and_opacity_keys exampleStyles (fun _ => "") codeUnitCompare)
    as (_ & _ & _ & _ & _ & _ & _ & _ & H).
  refine (H (exampleFrame [box]) box (solid red (Some (1 # 2))) (solid red None) red
            _ _ _ eq_refl eq_refl eq_refl _ _ eq_refl eq_refl eq_refl eq_refl).
  - constructor; [|constructor]. split; cbn [paintsOf n_fills n_strokes rectangle box].
    + repeat (constructor;
              [intros color Hc; inversion Hc; subst; repeat split; vm_compute; discriminate|]).
      constructor.
    + constructor.
  - cbn. constructor; [|constructor; [|constructor]].
    + intros [E | []]. discriminate E.
    + intros [].
  - left. reflexivity.
  - cbn. right. left. reflexivity.
  - cbn. right. right. left. reflexivity.
Defined.
